(** * consys: the constraint DSL compiler (src/ConstraintGenerator.ts)

    A shallow embedding of [ConstraintGenerator] and of the host features it
    relies on (strings, per-character regular expressions, object property
    access, exceptions), followed by the properties proved about it.

    Conventions of the embedding.
    - A JavaScript string is a list of code units; code units above 255 are not
      represented, so a character is an [ascii].
    - A JavaScript number used as an index or a counter is a [Z]; the sentinel
      [-1] of the source stays [-1].
    - A function that may [throw] returns a [completion]; [try]/[catch] is
      [try_catch].
    - A [for] loop is [js_for] (or [js_forM] when its body may throw), a
      [for ... of] loop is [for_of]; [break] and an early [return] inside a
      loop are [Break]. *)

From Stdlib Require Import List Ascii String ZArith Bool Lia Arith Sorted.
From Stdlib Require Import Numbers.DecimalString.
Import ListNotations.

Local Open Scope Z_scope.
Local Open Scope list_scope.
Local Set Warnings "-register-all".

(* ================================================================== *)
(** * Host data: strings, values, completions *)
(* ================================================================== *)

Definition str := list ascii.

(** A string literal of the source. *)
Definition lit (s : string) : str := list_ascii_of_string s.

Inductive error : Type :=
| Error (message : str)      (* [throw Error(message)] of the source *)
| TypeError.                 (* raised by the host: property of undefined/null,
                                call of a non-function *)

Inductive completion (A : Type) : Type :=
| Return (a : A)
| Throw (e : error).
Arguments Return {A} a.
Arguments Throw {A} e.

Definition bind {A B} (c : completion A) (k : A -> completion B) : completion B :=
  match c with
  | Return a => k a
  | Throw e => Throw e
  end.

Notation "x <- c ;; k" := (bind c (fun x => k))
  (at level 61, c at next level, right associativity).

Definition try_catch {A} (body : completion A) (handler : error -> completion A)
  : completion A :=
  match body with
  | Return a => Return a
  | Throw e => handler e
  end.

(** Loop control: what one run of a loop body asks for. *)
Inductive ctl (St : Type) : Type :=
| Continue (s : St)
| Break (s : St).
Arguments Continue {St} s.
Arguments Break {St} s.

(** [for (let i = start; i < n; i++) body]: at most [n - start] rounds. *)
Fixpoint for_loop {St} (fuel : nat) (i n : Z) (body : Z -> St -> ctl St) (s : St) : St :=
  match fuel with
  | O => s
  | S fuel' =>
      if i <? n then
        match body i s with
        | Continue s' => for_loop fuel' (i + 1) n body s'
        | Break s' => s'
        end
      else s
  end.

Definition js_for {St} (start n : Z) (body : Z -> St -> ctl St) (s : St) : St :=
  for_loop (Z.to_nat (n - start)) start n body s.

(** The same loop with a body that may throw. *)
Fixpoint for_loopM {St} (fuel : nat) (i n : Z)
    (body : Z -> St -> completion (ctl St)) (s : St) : completion St :=
  match fuel with
  | O => Return s
  | S fuel' =>
      if i <? n then
        match body i s with
        | Return (Continue s') => for_loopM fuel' (i + 1) n body s'
        | Return (Break s') => Return s'
        | Throw e => Throw e
        end
      else Return s
  end.

Definition js_forM {St} (start n : Z) (body : Z -> St -> completion (ctl St)) (s : St)
  : completion St :=
  for_loopM (Z.to_nat (n - start)) start n body s.

(** [for (let x of xs) body]. *)
Fixpoint for_of {A St} (xs : list A) (body : A -> St -> completion (ctl St)) (s : St)
  : completion St :=
  match xs with
  | [] => Return s
  | x :: xs' =>
      match body x s with
      | Return (Continue s') => for_of xs' body s'
      | Return (Break s') => Return s'
      | Throw e => Throw e
      end
  end.

(** [while (cond) body] for the loops of the source whose counter moves by one
    towards a bound: [fuel] is that distance. *)
Fixpoint while_loop {St} (fuel : nat) (cond : St -> bool) (body : St -> St) (s : St) : St :=
  match fuel with
  | O => s
  | S fuel' => if cond s then while_loop fuel' cond body (body s) else s
  end.

(** Two loops of the source have no bound that is a structural argument: the
    token loop of [generateConditionalString] and the mutual recursion of
    [getSymbolForToken] and [parseFunctionToken] (and of [evaluateFunction]).
    They run on fuel; [None] means that the fuel ran out. *)
Definition fueled (A : Type) : Type := option (completion A).

Definition bindF {A B} (c : fueled A) (k : A -> fueled B) : fueled B :=
  match c with
  | None => None
  | Some (Throw e) => Some (Throw e)
  | Some (Return a) => k a
  end.

Notation "x <-- c ;; k" := (bindF c (fun x => k))
  (at level 61, c at next level, right associativity).

Definition ret {A} (a : A) : fueled A := Some (Return a).
Definition lift {A} (c : completion A) : fueled A := Some c.

(** [for (let i = start; i < n; i++) body] with a body on fuel. *)
Fixpoint for_loopF {St} (rounds : nat) (i n : Z) (body : Z -> St -> fueled St) (s : St)
  : fueled St :=
  match rounds with
  | O => ret s
  | S rounds' =>
      if i <? n then s' <-- body i s ;; for_loopF rounds' (i + 1) n body s'
      else ret s
  end.

Definition js_forF {St} (start n : Z) (body : Z -> St -> fueled St) (s : St) : fueled St :=
  for_loopF (Z.to_nat (n - start)) start n body s.

(** [for (let x of xs) body] with a body on fuel. *)
Fixpoint for_ofF {A St} (xs : list A) (body : A -> St -> fueled St) (s : St) : fueled St :=
  match xs with
  | [] => ret s
  | x :: xs' => s' <-- body x s ;; for_ofF xs' body s'
  end.

(* ------------------------------------------------------------------ *)
(** ** Characters and the per-character regular expressions of the source *)
(* ------------------------------------------------------------------ *)

Definition code (c : ascii) : nat := nat_of_ascii c.

Definition in_range (lo hi : nat) (c : ascii) : bool :=
  (Nat.leb lo (code c)) && (Nat.leb (code c) hi).

(** [/[0-9]/] *)
Definition is_digit (c : ascii) : bool := in_range 48 57 c.

(** [/\w/]: letters, digits and the underscore. *)
Definition is_word (c : ascii) : bool :=
  in_range 65 90 c || in_range 97 122 c || is_digit c || Ascii.eqb c "_"%char.

(** [/\s/] on code units below 256: tab, line feed, vertical tab, form feed,
    carriage return, space and the no-break space. *)
Definition is_space (c : ascii) : bool :=
  in_range 9 13 c || Nat.eqb (code c) 32 || Nat.eqb (code c) 160.

(** [/^(?!.*\s).*$/] applied to a one-character string: the character is not
    white space (a line terminator, which [.] does not match, is white space). *)
Definition is_not_space (c : ascii) : bool := negb (is_space c).

(** [ch.match(re)] where [ch] is the result of [charAt] ([None]: the empty
    string, which none of the character classes matches). *)
Definition char_matches (re : ascii -> bool) (ch : option ascii) : bool :=
  match ch with
  | Some c => re c
  | None => false
  end.

(** [ch === c] for the result of [charAt] or of an index access. *)
Definition char_is (ch : option ascii) (c : ascii) : bool :=
  match ch with
  | Some c' => Ascii.eqb c' c
  | None => false
  end.

(* ------------------------------------------------------------------ *)
(** ** String operations of the host *)
(* ------------------------------------------------------------------ *)

Module JS.

Definition length (s : str) : Z := Z.of_nat (List.length s).

(** [s.charAt(i)] and [s[i]] ([None]: the empty string, resp. [undefined]). *)
Definition charAt (s : str) (i : Z) : option ascii :=
  if i <? 0 then None else nth_error s (Z.to_nat i).

Definition clamp (s : str) (i : Z) : nat :=
  Z.to_nat (Z.min (Z.max i 0) (length s)).

(** [s.substring(a, b)]: both ends clamped to [0, length], swapped when
    [a > b]. *)
Definition substring (s : str) (a b : Z) : str :=
  let lo := Nat.min (clamp s a) (clamp s b) in
  let hi := Nat.max (clamp s a) (clamp s b) in
  firstn (hi - lo) (skipn lo s).

(** [s.substring(a)]. *)
Definition substring_from (s : str) (a : Z) : str := skipn (clamp s a) s.

Fixpoint str_eqb (a b : str) : bool :=
  match a, b with
  | [], [] => true
  | x :: a', y :: b' => Ascii.eqb x y && str_eqb a' b'
  | _, _ => false
  end.

Fixpoint startsWith (s prefix : str) {struct prefix} : bool :=
  match prefix, s with
  | [], _ => true
  | p :: prefix', c :: s' => Ascii.eqb c p && startsWith s' prefix'
  | _ :: _, [] => false
  end.

Definition endsWith (s suffix : str) : bool := startsWith (rev s) (rev suffix).

(** [s.indexOf(p)], [-1] when [p] does not occur. *)
Fixpoint indexOf_from (s p : str) (i : Z) : Z :=
  if startsWith s p then i
  else match s with
       | [] => -1
       | _ :: s' => indexOf_from s' p (i + 1)
       end.

Definition indexOf (s p : str) : Z := indexOf_from s p 0.

Definition includes (s p : str) : bool := negb (indexOf s p =? -1).

(** [s.split(c)] for a one-character separator. *)
Fixpoint split_go (c : ascii) (cur : str) (s : str) : list str :=
  match s with
  | [] => [rev cur]
  | x :: s' => if Ascii.eqb x c then rev cur :: split_go c [] s'
               else split_go c (x :: cur) s'
  end.

Definition split (s : str) (c : ascii) : list str := split_go c [] s.

(** [s.trim()]. *)
Fixpoint trimStart (s : str) : str :=
  match s with
  | c :: s' => if is_space c then trimStart s' else s
  | [] => []
  end.

Definition trim (s : str) : str := rev (trimStart (rev (trimStart s))).

(** [s.replace(re, '')] for a global one-character class [re]. *)
Definition remove_all (re : ascii -> bool) (s : str) : str :=
  filter (fun c => negb (re c)) s.

(** The replacement text of [s.replace(pattern, replacement)] for a string
    pattern: [$$], [$&], [$`] and [$'] are expanded, there are no groups. *)
Fixpoint getSubstitution (matched before after : str) (replacement : str) : str :=
  match replacement with
  | [] => []
  | d :: rest =>
      if Ascii.eqb d "$"%char then
        match rest with
        | c :: rest' =>
            if Ascii.eqb c "$"%char then
              "$"%char :: getSubstitution matched before after rest'
            else if Ascii.eqb c "&"%char then
              matched ++ getSubstitution matched before after rest'
            else if Ascii.eqb c "`"%char then
              before ++ getSubstitution matched before after rest'
            else if Ascii.eqb c "'"%char then
              after ++ getSubstitution matched before after rest'
            else "$"%char :: getSubstitution matched before after rest
        | [] => ["$"%char]
        end
      else d :: getSubstitution matched before after rest
  end.

(** [s.replace(pattern, replacement)] for a string pattern: the first
    occurrence only. *)
Definition replace (s pattern replacement : str) : str :=
  let i := indexOf s pattern in
  if i =? -1 then s
  else
    let before := firstn (Z.to_nat i) s in
    let after := skipn (Z.to_nat i + List.length pattern) s in
    before ++ getSubstitution pattern before after replacement ++ after.

End JS.

(* ------------------------------------------------------------------ *)
(** ** Values of the model and state objects *)
(* ------------------------------------------------------------------ *)

(** The values the model and the state hold: numbers are the integers (the
    doubles that arithmetic on integer literals yields exactly), objects are
    their own data properties in insertion order. *)
Inductive value : Type :=
| VUndef
| VNull
| VBool (b : bool)
| VNum (n : Z)
| VStr (s : str)
| VObj (fields : list (str * value)).

Fixpoint lookup (key : str) (fields : list (str * value)) : option value :=
  match fields with
  | [] => None
  | (k, v) :: fields' => if JS.str_eqb k key then Some v else lookup key fields'
  end.

(** [v[key]]: reading a property of [undefined] or [null] throws, a property
    that is not there is [undefined]. Only the data properties an object holds
    itself are modelled, not what the host finds on the prototypes (the
    [length] and the indices of a string, [toString], ...). *)
Definition get_property (v : value) (key : str) : completion value :=
  match v with
  | VUndef | VNull => Throw TypeError
  | VObj fields =>
      Return (match lookup key fields with Some x => x | None => VUndef end)
  | VBool _ | VNum _ | VStr _ => Return VUndef
  end.

(** Decimal text of an integer. *)
Definition string_of_Z (n : Z) : str := lit (NilEmpty.string_of_int (Z.to_int n)).

(** [String(v)], as [replace] applies it to a replacement that is no string.
    A number prints as its decimal digits, which is what the host prints for
    an integer of magnitude below 10^21; above that the host switches to the
    exponent form, which is not modelled. *)
Definition toString (v : value) : str :=
  match v with
  | VUndef => lit "undefined"
  | VNull => lit "null"
  | VBool true => lit "true"
  | VBool false => lit "false"
  | VNum n => string_of_Z n
  | VStr s => s
  | VObj _ => lit "[object Object]"
  end.

(** A function of the caller's function table. *)
Definition jsfunction := list value -> completion value.

(* ================================================================== *)
(** * The symbols of the DSL (class [Symbols]) *)
(* ================================================================== *)

Module Symbols.

(* general *)
Definition COND_SEPARATOR : ascii := ":"%char.
Definition KEY_SEPARATOR : ascii := "."%char.
Definition ARG_SEPARATOR : ascii := ","%char.

(* activation *)
Definition ALWAYS : str := lit "ALWAYS".
Definition WHEN : str := lit "WHEN".

(* data access *)
Definition MODEL_PREFIX : ascii := "$"%char.
Definition STATE_PREFIX : ascii := "#"%char.
Definition STRING_SYMBOL : ascii := "'"%char.

(* comparison *)
Definition LESS : str := lit "<".
Definition LESS_EQUAL : str := lit "<=".
Definition EQUAL : str := lit "==".
Definition NOT_EQUAL : str := lit "!=".
Definition GREATER_EQUAL : str := lit ">=".
Definition GREATER : str := lit ">".

(* arithmetic *)
Definition PLUS : str := lit "+".
Definition MINUS : str := lit "-".
Definition TIMES : str := lit "*".
Definition DIV : str := lit "/".
Definition MOD : str := lit "%".
Definition BRACKET_OPEN : ascii := "("%char.
Definition BRACKET_CLOSE : ascii := ")"%char.

(* logic *)
Definition AND : str := lit "&&".
Definition OR : str := lit "||".

(** Only the start symbol of each operator, used for parsing. *)
Definition OPERATOR_START : list (option ascii) :=
  map (fun symbol => JS.charAt symbol 0)
    [LESS; LESS_EQUAL; EQUAL; NOT_EQUAL; GREATER_EQUAL; GREATER;
     PLUS; MINUS; TIMES; DIV; MOD; [BRACKET_OPEN]; [BRACKET_CLOSE]; AND; OR].

End Symbols.

(* ================================================================== *)
(** * class ConstraintGenerator: the static helpers *)
(* ================================================================== *)

(** [getObjectValue(object, keyChain)]: the value under a dotted key. *)
Definition getObjectValue (object : value) (keyChain : str) : completion value :=
  try_catch
    (if JS.str_eqb keyChain [] then Return object
     else
       let keys := JS.split keyChain Symbols.KEY_SEPARATOR in
       for_of keys
         (fun key value => v <- get_property value key ;; Return (Continue v))
         object)
    (fun err => Return (VStr (lit "UNDEFINED_VALUE"))).

(** [getSubstringWithinParentheses(srcString)]: the loop state is
    [(bracketEnd, numBracketsOpened)]. *)
Definition getSubstringWithinParentheses (srcString : str) : completion str :=
  let bracketStart := JS.indexOf srcString [Symbols.BRACKET_OPEN] + 1 in
  r <- js_forM bracketStart (JS.length srcString)
         (fun i st =>
            let '(bracketEnd, numBracketsOpened) := st in
            let char := JS.charAt srcString i in
            if char_is char Symbols.BRACKET_OPEN then
              Return (Continue (bracketEnd, numBracketsOpened + 1))
            else if char_is char Symbols.BRACKET_CLOSE then
              if numBracketsOpened >? 0 then
                Return (Continue (bracketEnd, numBracketsOpened - 1))
              else if numBracketsOpened =? 0 then
                Return (Break (i, numBracketsOpened))
              else Throw (Error (lit "Invalid syntax in token: " ++ srcString))
            else Return (Continue (bracketEnd, numBracketsOpened)))
         (bracketStart, 0) ;;
  Return (JS.substring srcString bracketStart (fst r)).

(** The regular expression [/[+-]?([0-9]*[.])?[0-9]+/] of [isNumberString],
    matched by backtracking as the host does. [digits_then] is [[0-9]+]
    followed by the rest [k]; the other pieces are named after the pattern. *)
Fixpoint skip_digits (s : str) : str :=
  match s with
  | c :: s' => if is_digit c then skip_digits s' else s
  | [] => []
  end.

Definition starts_with_digit (s : str) : bool :=
  match s with
  | c :: _ => is_digit c
  | [] => false
  end.

(** [([0-9]*[.])?[0-9]+] at the head of [s]: with the group (all the digits,
    then the dot), or without it. *)
Definition match_number_body (s : str) : bool :=
  match skip_digits s with
  | c :: s' =>
      if Ascii.eqb c "."%char then starts_with_digit s' || starts_with_digit s
      else starts_with_digit s
  | [] => starts_with_digit s
  end.

(** The whole pattern at the head of [s]: with a sign, or without it. *)
Definition match_number_here (s : str) : bool :=
  match s with
  | c :: s' =>
      ((Ascii.eqb c "+"%char || Ascii.eqb c "-"%char) && match_number_body s')
      || match_number_body s
  | [] => false
  end.

(** [string.match(re)] is not [null]: the pattern has no anchor, so it is tried
    at every position. *)
Fixpoint regex_number_search (s : str) : bool :=
  match_number_here s ||
  match s with
  | _ :: s' => regex_number_search s'
  | [] => false
  end.

Definition isNumberString (string : str) : bool := regex_number_search string.

Definition isString (string : str) : bool :=
  JS.startsWith string [Symbols.STRING_SYMBOL] &&
  JS.endsWith string [Symbols.STRING_SYMBOL] &&
  negb (JS.includes string (lit "`")).

Definition isModelVariable (string : str) : bool :=
  JS.startsWith string [Symbols.MODEL_PREFIX].

Definition isStateVariable (string : str) : bool :=
  JS.startsWith string [Symbols.STATE_PREFIX].

(** [getClosingBracketIndex(openingBracketIndex, srcString)]: the loop state
    is [(numBrackets, closingBracketIndex)]. *)
Definition getClosingBracketIndex (openingBracketIndex : Z) (srcString : str) : Z :=
  snd (js_for (openingBracketIndex + 1) (JS.length srcString)
         (fun j st =>
            let '(numBrackets, closingBracketIndex) := st in
            let currentChar := JS.charAt srcString j in
            let numBrackets :=
              if char_is currentChar "("%char then numBrackets + 1
              else if char_is currentChar ")"%char then numBrackets - 1
              else numBrackets in
            if numBrackets =? 0 then Break (numBrackets, j)
            else Continue (numBrackets, closingBracketIndex))
         (1, -1)).

Definition findAllIndicesOf (char : ascii) (srcString : str) : list Z :=
  js_for 0 (JS.length srcString)
    (fun i res =>
       let currentChar := JS.charAt srcString i in
       if char_is currentChar char then Continue (res ++ [i]) else Continue res)
    [].

(** [getDataAccessEndIndex(trimmed, startIndex, endIndex)] *)
Definition getDataAccessEndIndex (trimmed : str) (startIndex endIndex : Z) : Z :=
  js_for (startIndex + 1) (JS.length trimmed)
    (fun i end_ =>
       let endChar := JS.charAt trimmed i in
       if i =? JS.length trimmed - 1 then Break (i + 1)
       else if negb (char_matches (fun c => is_word c || Ascii.eqb c "."%char) endChar)
            then Break i
       else Continue end_)
    endIndex.

(** [getStringEndIndex(trimmed, startIndex, endIndex)] *)
Definition getStringEndIndex (trimmed : str) (startIndex endIndex : Z) : Z :=
  js_for (startIndex + 1) (JS.length trimmed)
    (fun i end_ =>
       let endChar := JS.charAt trimmed i in
       if char_is endChar Symbols.STRING_SYMBOL then Break (i + 1)
       else Continue end_)
    endIndex.

(** [getNumberEndIndex(trimmed, startIndex, endIndex)] *)
Definition getNumberEndIndex (trimmed : str) (startIndex endIndex : Z) : Z :=
  js_for startIndex (JS.length trimmed)
    (fun i end_ =>
       let endChar := JS.charAt trimmed i in
       if i =? JS.length trimmed - 1 then Break (i + 1)
       else if negb (char_matches (fun c => is_digit c || Ascii.eqb c "."%char) endChar)
            then Break i
       else Continue end_)
    endIndex.

(** [getStatementEndIndex(trimmed, startIndex, endIndex)] *)
Definition getStatementEndIndex (trimmed : str) (startIndex endIndex : Z) : Z :=
  js_for (startIndex + 1) (JS.length trimmed)
    (fun i end_ =>
       let endChar := JS.charAt trimmed i in
       if i =? JS.length trimmed - 1 then Break (i + 1)
       else if negb (char_matches is_word endChar) then Break i
       else Continue end_)
    endIndex.

(** [getFunctionEndIndex(trimmed, startIndex, endIndex)]: the loop state is
    [(end, numBrackets, foundFirst)]. *)
Definition getFunctionEndIndex (trimmed : str) (startIndex endIndex : Z) : Z :=
  let '(end_, _, foundFirst) :=
    js_for (startIndex + 1) (JS.length trimmed)
      (fun i st =>
         let '(end_, numBrackets, foundFirst) := st in
         let endChar := JS.charAt trimmed i in
         let '(numBrackets, foundFirst) :=
           if char_is endChar "("%char then (numBrackets + 1, true)
           else if char_is endChar ")"%char then (numBrackets - 1, foundFirst)
           else (numBrackets, foundFirst) in
         if foundFirst && (numBrackets =? 0) then Break (i + 1, numBrackets, foundFirst)
         else if (numBrackets =? 0) && negb (char_matches is_word endChar)
              then Break (i, numBrackets, true)
         else Continue (end_, numBrackets, foundFirst))
      (endIndex, 0, false) in
  (* no brackets, so this is a statement *)
  if negb foundFirst then getStatementEndIndex trimmed startIndex endIndex
  else end_.

(** [getOperatorEndIndex(trimmed, startChar, startIndex, endIndex)] *)
Definition getOperatorEndIndex (trimmed : str) (startChar : ascii)
    (startIndex endIndex : Z) : Z :=
  if Ascii.eqb startChar "<"%char || Ascii.eqb startChar ">"%char ||
     Ascii.eqb startChar "!"%char || Ascii.eqb startChar "="%char then
    let nextChar := JS.charAt trimmed (startIndex + 1) in
    startIndex + (if char_is nextChar "="%char then 2 else 1)
  else if Ascii.eqb startChar "&"%char || Ascii.eqb startChar "|"%char then
    startIndex + 2
  else if Ascii.eqb startChar "("%char || Ascii.eqb startChar ")"%char ||
          Ascii.eqb startChar "+"%char || Ascii.eqb startChar "-"%char ||
          Ascii.eqb startChar "*"%char || Ascii.eqb startChar "/"%char ||
          Ascii.eqb startChar "%"%char then
    startIndex + 1
  else endIndex.

(** [getFunctionArgs(argString)]: the loop state is
    [(res, startIndex, numBrackets)]. *)
Definition getFunctionArgs (argString : str) : list str :=
  let trimmed := JS.remove_all is_space argString in
  let '(res, _, _) :=
    js_for 0 (JS.length trimmed)
      (fun i st =>
         let '(res, startIndex, numBrackets) := st in
         let char := JS.charAt trimmed i in
         if char_is char Symbols.BRACKET_OPEN then
           Continue (res, startIndex, numBrackets + 1)
         else if char_is char Symbols.BRACKET_CLOSE then
           let numBrackets := numBrackets - 1 in
           if (numBrackets =? 0) && (i =? JS.length trimmed - 1) then
             Continue (res ++ [JS.substring trimmed startIndex (i + 1)],
                       startIndex, numBrackets)
           else Continue (res, startIndex, numBrackets)
         else if (char_is char Symbols.ARG_SEPARATOR || (i =? JS.length trimmed - 1))
                 && (numBrackets =? 0) then
           (* now we have reached the end of an argument *)
           let endIndex := if i =? JS.length trimmed - 1 then i + 1 else i in
           Continue (res ++ [JS.substring trimmed startIndex endIndex],
                     i + 1, numBrackets)
         else Continue (res, startIndex, numBrackets))
      ([], 0, 0) in
  res.

(* ================================================================== *)
(** * class ConstraintGenerator: the registry and the compiler *)
(* ================================================================== *)

(** [registerFunction(name)]: the instance state is the field
    [customFunctions]; the result pairs the completion with the field after
    the call. *)
Definition registerFunction (name : str) (customFunctions : list str)
  : completion unit * list str :=
  if existsb (JS.str_eqb name) customFunctions then
    (Throw (Error (lit "Function with name " ++ name ++ lit " is already registered")),
     customFunctions)
  else (Return tt, customFunctions ++ [name]).

(** [isCharWithinString(srcString, charIndex)] *)
Definition isCharWithinString (srcString : str) (charIndex : Z) : bool :=
  if (charIndex =? 0) || (charIndex =? JS.length srcString - 1) ||
     char_is (JS.charAt srcString charIndex) Symbols.STRING_SYMBOL then false
  else
    let numStringSymbols :=
      js_for (charIndex + 1) (JS.length srcString)
        (fun i numStringSymbols =>
           let char := JS.charAt srcString i in
           if char_is char Symbols.STRING_SYMBOL then Continue (numStringSymbols + 1)
           else Continue numStringSymbols)
        0 in
    numStringSymbols mod 2 =? 1.

(** [isCharWithinFunction(srcString, charIndex)]: the state of the loop over
    the opening brackets is the value returned so far. *)
Definition isCharWithinFunction (srcString : str) (charIndex : Z) : completion bool :=
  let char := JS.charAt srcString charIndex in
  if (charIndex =? 0) || (charIndex =? JS.length srcString - 1) ||
     char_is char "("%char || char_is char ")"%char then Return false
  else
    let openingBracketIndices := findAllIndicesOf "("%char srcString in
    for_of openingBracketIndices
      (fun openingBracketIndex res =>
         (* we dont care if the bracket was the first char *)
         if openingBracketIndex =? 0 then Return (Continue res)
         else
           let leftCharOfOpeningBracket := JS.charAt srcString (openingBracketIndex - 1) in
           (* we have a function, now look for its enclosing bracket *)
           if char_matches is_word leftCharOfOpeningBracket then
             let closingBracketIndex := getClosingBracketIndex openingBracketIndex srcString in
             if closingBracketIndex =? -1 then
               Throw (Error (lit "Syntax error in function: " ++ srcString))
             else if (charIndex >? openingBracketIndex) && (charIndex <? closingBracketIndex)
                  then Return (Break true)
             else Return (Continue res)
           else Return (Continue res))
      false.

(** [cutRemainderUntilCharMatches(srcString, charRegex)]: the loop state is
    [(endIndex, char)]; [endIndex] only decreases and stops at [0]. *)
Definition cutRemainderUntilCharMatches (srcString : str) (charRegex : ascii -> bool) : str :=
  let endIndex := JS.length srcString - 1 in
  let char := JS.charAt srcString endIndex in
  let '(endIndex, _) :=
    while_loop (List.length srcString)
      (fun st => negb (char_matches charRegex (snd st)) && (fst st >? 0))
      (fun st => let endIndex := fst st - 1 in (endIndex, JS.charAt srcString endIndex))
      (endIndex, char) in
  JS.substring srcString 0 (endIndex + 1).

(** [cutFrontUntilCharMatches(srcString, charRegex)]: the loop state is
    [(startIndex, char)]; [startIndex] only increases and stops at
    [length - 1]. *)
Definition cutFrontUntilCharMatches (srcString : str) (charRegex : ascii -> bool) : str :=
  let startIndex := 0 in
  let char := JS.charAt srcString startIndex in
  let '(startIndex, _) :=
    while_loop (List.length srcString)
      (fun st => negb (char_matches charRegex (snd st)) && (fst st <? JS.length srcString - 1))
      (fun st => let startIndex := fst st + 1 in (startIndex, JS.charAt srcString startIndex))
      (startIndex, char) in
  JS.substring_from srcString startIndex.

(** [getSplitTokens(srcString)] *)
Definition getSplitTokens (srcString : str) : completion (list str) :=
  let splitIndex :=
    js_for 0 (JS.length srcString)
      (fun i splitIndex =>
         let char := JS.charAt srcString i in
         if char_is char Symbols.COND_SEPARATOR && negb (isCharWithinString srcString i)
         then Break i
         else Continue splitIndex)
      (-1) in
  if splitIndex =? -1 then
    Throw (Error (lit "Invalid syntax for token: " ++ srcString))
  else
    Return [JS.substring srcString 0 splitIndex;
            JS.substring_from srcString (splitIndex + 1)].

(** The loop of [generateConditionalString]: [while (!done) body]. [None]
    means that [fuel] rounds did not finish the loop. *)
Fixpoint while_not_done {St} (fuel : nat) (done : St -> bool)
    (body : St -> completion St) (s : St) : option (completion St) :=
  match fuel with
  | O => None
  | S fuel' =>
      if done s then Some (Return s)
      else match body s with
           | Return s' => while_not_done fuel' done body s'
           | Throw e => Some (Throw e)
           end
  end.

(** The local variables of [generateConditionalString]. *)
Record scan : Type := Scan {
  tokens : list str;
  done : bool;
  startIndex : Z;
  endIndex : Z;
  iterations : Z
}.

Section Instance.

(** The field [customFunctions] of the instance. *)
Variable customFunctions : list str.

(** [isFunctionToken(token)] *)
Definition isFunctionToken (token : str) : bool :=
  existsb (fun functionName => JS.startsWith token functionName) customFunctions.

(** [isStatementToken(token)] *)
Definition isStatementToken (token : str) : bool :=
  isFunctionToken token &&
  negb (JS.includes token (lit "(")) &&
  negb (JS.includes token (lit ")")).

(** [parseFunctionToken(token)], given [getSymbolForToken] for the arguments. *)
Definition parseFunctionToken_with (getSymbolForToken : str -> fueled str) (token : str)
  : fueled str :=
  let funName := hd [] (JS.split token "("%char) in
  argString <-- lift (getSubstringWithinParentheses token) ;;
  let args := getFunctionArgs argString in
  argSymbols <--
    js_forF 0 (Z.of_nat (List.length args))
      (fun i argSymbols =>
         let arg := nth (Z.to_nat i) args [] in
         symbol <-- getSymbolForToken arg ;;
         let argSymbols := argSymbols ++ symbol in
         if i <? Z.of_nat (List.length args) - 1 then ret (argSymbols ++ lit ",")
         else ret argSymbols)
      [] ;;
  ret (lit "this.functions['" ++ funName ++ lit "'](" ++ argSymbols ++ lit ")").

(** [getSymbolForToken(token)]: it and [parseFunctionToken] call each other on
    the arguments of a function token; [fuel] bounds the depth of the calls. *)
Fixpoint getSymbolForToken_fuel (fuel : nat) (token : str) : fueled str :=
  match fuel with
  | O => None
  | S fuel' =>
      if isModelVariable token then
        if JS.length token =? 1 then ret (lit "this.model")
        else ret (JS.replace token [Symbols.MODEL_PREFIX] (lit "this.model."))
      else if isStateVariable token then
        if JS.length token =? 1 then ret (lit "this.state")
        else ret (JS.replace token [Symbols.STATE_PREFIX] (lit "this.state."))
      else if isStatementToken token then
        ret (lit "this.functions['" ++ token ++ lit "'](this.model, this.state)")
      else if isFunctionToken token then
        parseFunctionToken_with (getSymbolForToken_fuel fuel') token
      else if isString token then ret token
      else if isNumberString token then ret token
      else
        (* this seems unnecessary, but it is more secure since it replaces all
           unknown tokens *)
        if JS.str_eqb token Symbols.LESS then ret (lit "<")
        else if JS.str_eqb token Symbols.LESS_EQUAL then ret (lit "<=")
        else if JS.str_eqb token Symbols.EQUAL then ret (lit "==")
        else if JS.str_eqb token Symbols.NOT_EQUAL then ret (lit "!=")
        else if JS.str_eqb token Symbols.GREATER_EQUAL then ret (lit ">=")
        else if JS.str_eqb token Symbols.GREATER then ret (lit ">")
        else if JS.str_eqb token Symbols.PLUS then ret (lit "+")
        else if JS.str_eqb token Symbols.MINUS then ret (lit "-")
        else if JS.str_eqb token Symbols.TIMES then ret (lit "*")
        else if JS.str_eqb token Symbols.DIV then ret (lit "/")
        else if JS.str_eqb token Symbols.MOD then ret (lit "%")
        else if JS.str_eqb token [Symbols.BRACKET_OPEN] then ret (lit "(")
        else if JS.str_eqb token [Symbols.BRACKET_CLOSE] then ret (lit ")")
        else if JS.str_eqb token Symbols.AND then ret (lit "&&")
        else if JS.str_eqb token Symbols.OR then ret (lit "||")
        else ret []
  end.

(** The arguments of a function token are shorter than the token, so one unit
    of fuel per character (and one for the call itself) is enough. *)
Definition getSymbolForToken (token : str) : fueled str :=
  getSymbolForToken_fuel (S (List.length token)) token.

Definition parseFunctionToken (token : str) : fueled str :=
  parseFunctionToken_with getSymbolForToken token.

(** [getStringFromTokens(tokens)] *)
Definition getStringFromTokens (tokens : list str) : fueled str :=
  for_ofF tokens
    (fun token condString =>
       symbol <-- getSymbolForToken token ;;
       ret (condString ++ symbol))
    [].

(** One round of the loop of [generateConditionalString(data)]. *)
Definition scan_token (data trimmed : str) (st : scan) : completion scan :=
  let startIndex := startIndex st in
  let endIndex := endIndex st in
  match JS.charAt trimmed startIndex with
  | None => Throw TypeError       (* [startChar.match] on [undefined] *)
  | Some startChar =>
      endIndex <-
        (* we have data access, so look for the char of the next statement *)
        (if Ascii.eqb startChar Symbols.MODEL_PREFIX ||
            Ascii.eqb startChar Symbols.STATE_PREFIX then
           Return (getDataAccessEndIndex trimmed startIndex endIndex)
         (* we have a string here, so just look for the end string quotation *)
         else if Ascii.eqb startChar Symbols.STRING_SYMBOL then
           Return (getStringEndIndex trimmed startIndex endIndex)
         (* we have a number *)
         else if is_digit startChar then
           Return (getNumberEndIndex trimmed startIndex endIndex)
         (* we have a function, so look for the last closing bracket *)
         else if isFunctionToken (JS.substring_from trimmed startIndex) then
           Return (getFunctionEndIndex trimmed startIndex endIndex)
         (* we have some sort of operator here *)
         else if existsb (fun c => char_is c startChar) Symbols.OPERATOR_START then
           Return (getOperatorEndIndex trimmed startChar startIndex endIndex)
         else
           Throw (Error (lit "Unable to parse statement: " ++ data ++
                         lit ", char: " ++ [startChar] ++
                         lit ", index: " ++ string_of_Z startIndex))) ;;
      let tokens := tokens st ++ [JS.substring trimmed startIndex endIndex] in
      let startIndex := endIndex in
      let done := if startIndex >=? JS.length trimmed then true else done st in
      if iterations st >? 1000 then
        Throw (Error (lit "Maximum number of parsing iterations reached, there is a syntax error here: "
                      ++ data))
      else
        Return (Scan tokens done startIndex endIndex (iterations st + 1))
  end.

(** The token loop of [generateConditionalString(data)] on [fuel] rounds. *)
Definition tokenize (fuel : nat) (data : str) : fueled (list str) :=
  let trimmed := JS.remove_all is_space data in
  match while_not_done fuel done (scan_token data trimmed) (Scan [] false 0 0 0) with
  | None => None
  | Some (Throw e) => Some (Throw e)
  | Some (Return st) => ret (tokens st)
  end.

(** The round that finds [iterations] above 1000 throws, and that is the
    1002nd at the latest: 1002 units of fuel are enough. *)
Definition generateConditionalString (data : str) : fueled str :=
  tokens <-- tokenize 1002 data ;;
  getStringFromTokens tokens.

(** The local variable [activationString] of [generateFunction]: it starts as
    ['false'] and the three recognized forms of the activation token replace
    it. *)
Definition activationString (activationToken : str) : fueled str :=
  if JS.startsWith activationToken Symbols.ALWAYS then ret (lit "true")
  else if JS.startsWith activationToken Symbols.WHEN then
    activationData <-- lift (getSubstringWithinParentheses activationToken) ;;
    generateConditionalString activationData
  else if isStatementToken activationToken then
    ret (lit "this.functions['" ++ activationToken ++ lit "'](this.model,this.state)")
  else ret (lit "false").

(** The text of the generated function. *)
Definition functionString (activationString conditionString : str) : str :=
  lit "if(" ++ activationString ++ lit "){return(" ++ conditionString ++
  lit ");}else{return(true);}".

(** [generateFunction(resource)] up to the source text of the function, which
    the source hands to [FunctionGenerator.generateFromString]. *)
Definition generateFunctionString (assertion : str) : fueled str :=
  tokens <-- lift (getSplitTokens assertion) ;;
  let activationToken := JS.trim (nth 0 tokens []) in
  let conditionToken := JS.trim (nth 1 tokens []) in
  activationString <-- activationString activationToken ;;
  conditionString <-- generateConditionalString conditionToken ;;
  ret (functionString activationString conditionString).

(** [generateFunction(resource)]; [generateFromString] is
    [FunctionGenerator.generateFromString], which is not part of this file. *)
Definition generateFunction {F : Type} (generateFromString : str -> F)
    (assertion : str) : fueled F :=
  functionString <-- generateFunctionString assertion ;;
  ret (generateFromString functionString).

(* ------------------------------------------------------------------ *)
(** ** Messages *)
(* ------------------------------------------------------------------ *)

(** [getMessageTokens(srcString)]: the state of the first loop is
    [(res, tokenStart)]; the second loop rewrites each token in place. *)
Definition getMessageTokens (srcString : str) : completion (list str) :=
  let modelRegex := fun c => Ascii.eqb c Symbols.MODEL_PREFIX in
  let stateRegex := fun c => Ascii.eqb c Symbols.STATE_PREFIX in
  r <- js_forM 0 (JS.length srcString - 1)
         (fun i st =>
            let '(res, tokenStart) := st in
            let char := JS.charAt srcString i in
            let nextChar := JS.charAt srcString (i + 1) in
            (* start of a word that is not the argument of a function call *)
            tokenStart <-
              (if char_matches is_space char && char_matches is_not_space nextChar then
                 within <- isCharWithinFunction srcString i ;;
                 Return (if negb within then i + 1 else tokenStart)
               else Return tokenStart) ;;
            (* we have the end of a word that is not an argument of a function call *)
            res <-
              (if char_matches is_not_space char && char_matches is_space nextChar then
                 within <- isCharWithinFunction srcString i ;;
                 Return (if negb within
                         then res ++ [JS.substring srcString tokenStart (i + 1)]
                         else res)
               else Return res) ;;
            let res :=
              if i =? JS.length srcString - 2
              then res ++ [JS.substring srcString tokenStart (i + 2)]
              else res in
            Return (Continue (res, tokenStart)))
         ([], 0) ;;
  Return
    (map (fun token =>
            if isStatementToken token then
              cutRemainderUntilCharMatches token is_word
            else if isFunctionToken token then
              cutRemainderUntilCharMatches token (fun c => Ascii.eqb c ")"%char)
            else if JS.includes token [Symbols.MODEL_PREFIX] then
              let trimmed := cutRemainderUntilCharMatches token is_word in
              cutFrontUntilCharMatches trimmed modelRegex
            else if JS.includes token [Symbols.STATE_PREFIX] then
              let trimmed := cutRemainderUntilCharMatches token is_word in
              cutFrontUntilCharMatches trimmed stateRegex
            else token)
         (fst r)).

(** [getFilteredTokenArray(tokens, tokenPrefix)] *)
Definition getFilteredTokenArray (tokens : list str) (tokenPrefix : ascii) : list str :=
  map (fun token => JS.replace token [tokenPrefix] [])
    (filter (fun token => JS.startsWith token [tokenPrefix]) tokens).

(** [Number.parseFloat] of the host yields a double; it is left open. *)
Variable parseFloat : str -> value.

(** [functions[name](...args)]: calling what is not there is a [TypeError]. *)
Definition call (functions : str -> option jsfunction) (name : str) (args : list value)
  : completion value :=
  match functions name with
  | Some f => f args
  | None => Throw TypeError
  end.

(** [evaluateFunction(token, model, state, functions)]: it calls itself on the
    arguments that are function tokens; [fuel] bounds the depth. *)
Fixpoint evaluateFunction_fuel (fuel : nat) (token : str) (model state : value)
    (functions : str -> option jsfunction) : fueled value :=
  match fuel with
  | O => None
  | S fuel' =>
      let functionName := hd [] (JS.split token "("%char) in
      functionArgs <-- lift (getSubstringWithinParentheses token) ;;
      let argsStrings := getFunctionArgs functionArgs in
      args <--
        for_ofF argsStrings
          (fun argsString args =>
             if isStatementToken argsString then
               v <-- lift (call functions argsString [model; state]) ;;
               ret (args ++ [v])
             else if isFunctionToken argsString then
               v <-- evaluateFunction_fuel fuel' argsString model state functions ;;
               ret (args ++ [v])
             else if isModelVariable argsString then
               v <-- lift (getObjectValue model
                             (JS.replace argsString [Symbols.MODEL_PREFIX] [])) ;;
               ret (args ++ [v])
             else if isStateVariable argsString then
               v <-- lift (getObjectValue state
                             (JS.replace argsString [Symbols.STATE_PREFIX] [])) ;;
               ret (args ++ [v])
             else if isString argsString then
               ret (args ++ [VStr (JS.remove_all
                                     (fun c => Ascii.eqb c Symbols.STRING_SYMBOL)
                                     argsString)])
             else if isNumberString argsString then
               ret (args ++ [parseFloat argsString])
             else ret args)
          [] ;;
      lift (call functions functionName args)
  end.

Definition evaluateFunction (token : str) (model state : value)
    (functions : str -> option jsfunction) : fueled value :=
  evaluateFunction_fuel (S (List.length token)) token model state functions.

(** [getMessage(msgString, model, state, functions)] *)
Definition getMessage (msgString : str) (model state : value)
    (functions : str -> option jsfunction) : fueled str :=
  let message := msgString in
  tokens <-- lift (getMessageTokens message) ;;
  let modelKeys := getFilteredTokenArray tokens Symbols.MODEL_PREFIX in
  let stateKeys := getFilteredTokenArray tokens Symbols.STATE_PREFIX in
  message <--
    for_ofF modelKeys
      (fun modelKey message =>
         let modelKeyWithPrefix := Symbols.MODEL_PREFIX :: modelKey in
         v <-- lift (getObjectValue model modelKey) ;;
         ret (JS.replace message modelKeyWithPrefix (toString v)))
      message ;;
  message <--
    for_ofF stateKeys
      (fun stateKey message =>
         let stateKeyWithPrefix := Symbols.STATE_PREFIX :: stateKey in
         v <-- lift (getObjectValue state stateKey) ;;
         ret (JS.replace message stateKeyWithPrefix (toString v)))
      message ;;
  for_ofF tokens
    (fun token message =>
       if isStatementToken token then
         statementValue <-- lift (call functions token [model; state]) ;;
         ret (JS.replace message token (toString statementValue))
       else if isFunctionToken token then
         functionValue <-- evaluateFunction token model state functions ;;
         ret (JS.replace message token (toString functionValue))
       else ret message)
    message.

End Instance.

(* ================================================================== *)
(** * The host evaluator *)
(* ================================================================== *)

(** Modelled from the spec: [FunctionGenerator.generateFromString], which is
    not among the source files, and the call of the function it returns. The
    spec (sections 1 and 9) says of the source that it transpiles tokens into
    a textual expression and relies on a host-language evaluator to execute
    it; the text [generateFunction] emits reads [this.model], [this.state] and
    [this.functions]. The module below is that evaluator for a fragment of the
    host language: integer and string literals, [true] and [false], member
    access, calls of [this.functions['name']], round brackets and the thirteen
    binary operators, with the host's precedence (which is the table of
    section 4.2 of the spec) and left association; block comments; and, as
    the body of a function, a sequence of [return] and [if]/[else]
    statements. A result [None] means that the text or the operation is
    outside this fragment (a fraction, a sign, a coercion of a string to a
    number, a line comment, a text the host rejects, ...); nothing is claimed
    about it. *)
Module Host.

Inductive binop : Type :=
| OMul | ODiv | OMod | OAdd | OSub
| OLt | OLe | OGt | OGe | OEq | ONe | OAnd | OOr.

Inductive sym : Type :=
| LParen | RParen | LBracket | RBracket | LBrace | RBrace | Dot | Comma | Semi.

Inductive token : Type :=
| TNum (n : Z)
| TStr (s : str)
| TName (s : str)
| TOp (o : binop)
| TSym (s : sym).

(* ------------------------------------------------------------------ *)
(** ** Lexer: one character at a time *)

(** The token being read: its characters so far, last first; or a block
    comment, with whether its last character was a [*]. *)
Inductive pending : Type :=
| PNone
| PNum (digits : str)
| PName (chars : str)
| PStr (chars : str)
| POp (c : ascii)
| PComment (star : bool).

Definition is_name_start (c : ascii) : bool :=
  in_range 65 90 c || in_range 97 122 c || Ascii.eqb c "_"%char || Ascii.eqb c "$"%char.

Definition is_name_char (c : ascii) : bool := is_name_start c || is_digit c.

Definition digit_value (c : ascii) : Z := Z.of_nat (code c) - 48.

(** The value of a decimal literal; one with a leading zero is left out (the
    host reads some of them as octal). *)
Definition number_of_digits (digits : str) : option Z :=
  match digits with
  | "0"%char :: _ :: _ => None
  | _ => Some (fold_left (fun n c => 10 * n + digit_value c) digits 0)
  end.

(** The tokens a finished [pending] stands for. *)
Definition flush (p : pending) : option (list token) :=
  match p with
  | PNone => Some []
  | PNum digits =>
      match number_of_digits (rev digits) with
      | Some n => Some [TNum n]
      | None => None
      end
  | PName chars => Some [TName (rev chars)]
  | PStr _ => None
  | POp c =>
      if Ascii.eqb c "<"%char then Some [TOp OLt]
      else if Ascii.eqb c ">"%char then Some [TOp OGt]
      else if Ascii.eqb c "/"%char then Some [TOp ODiv]
      else None
  | PComment _ => None
  end.

(** A character that starts a token. *)
Definition start (c : ascii) : option (list token * pending) :=
  if Ascii.eqb c " "%char then Some ([], PNone)
  else if is_digit c then Some ([], PNum [c])
  else if is_name_start c then Some ([], PName [c])
  else if Ascii.eqb c "'"%char then Some ([], PStr [])
  else if Ascii.eqb c "("%char then Some ([TSym LParen], PNone)
  else if Ascii.eqb c ")"%char then Some ([TSym RParen], PNone)
  else if Ascii.eqb c "["%char then Some ([TSym LBracket], PNone)
  else if Ascii.eqb c "]"%char then Some ([TSym RBracket], PNone)
  else if Ascii.eqb c "{"%char then Some ([TSym LBrace], PNone)
  else if Ascii.eqb c "}"%char then Some ([TSym RBrace], PNone)
  else if Ascii.eqb c "."%char then Some ([TSym Dot], PNone)
  else if Ascii.eqb c ","%char then Some ([TSym Comma], PNone)
  else if Ascii.eqb c ";"%char then Some ([TSym Semi], PNone)
  else if Ascii.eqb c "+"%char then Some ([TOp OAdd], PNone)
  else if Ascii.eqb c "-"%char then Some ([TOp OSub], PNone)
  else if Ascii.eqb c "*"%char then Some ([TOp OMul], PNone)
  else if Ascii.eqb c "%"%char then Some ([TOp OMod], PNone)
  else if Ascii.eqb c "<"%char || Ascii.eqb c ">"%char || Ascii.eqb c "="%char ||
          Ascii.eqb c "!"%char || Ascii.eqb c "&"%char || Ascii.eqb c "|"%char ||
          Ascii.eqb c "/"%char then Some ([], POp c)
  else None.

(** The token [p] is over and [c] starts the next one. *)
Definition flush_then_start (p : pending) (c : ascii) : option (list token * pending) :=
  match flush p, start c with
  | Some done, Some (first, p') => Some (done ++ first, p')
  | _, _ => None
  end.

(** One character: the tokens it completes and the token being read after
    it. A block comment runs from [/*] to the next [*/] and stands for
    nothing. *)
Definition step (p : pending) (c : ascii) : option (list token * pending) :=
  match p with
  | PNone => start c
  | PNum digits =>
      if is_digit c then Some ([], PNum (c :: digits))
      else if Ascii.eqb c "."%char || is_name_start c then None
      else flush_then_start p c
  | PName chars =>
      if is_name_char c then Some ([], PName (c :: chars))
      else flush_then_start p c
  | PStr chars =>
      if Ascii.eqb c "'"%char then Some ([TStr (rev chars)], PNone)
      else if Ascii.eqb c "\"%char || Nat.eqb (code c) 10 || Nat.eqb (code c) 13
           then None
      else Some ([], PStr (c :: chars))
  | POp c0 =>
      if Ascii.eqb c0 "<"%char && Ascii.eqb c "="%char then Some ([TOp OLe], PNone)
      else if Ascii.eqb c0 ">"%char && Ascii.eqb c "="%char then Some ([TOp OGe], PNone)
      else if Ascii.eqb c0 "="%char && Ascii.eqb c "="%char then Some ([TOp OEq], PNone)
      else if Ascii.eqb c0 "!"%char && Ascii.eqb c "="%char then Some ([TOp ONe], PNone)
      else if Ascii.eqb c0 "&"%char && Ascii.eqb c "&"%char then Some ([TOp OAnd], PNone)
      else if Ascii.eqb c0 "|"%char && Ascii.eqb c "|"%char then Some ([TOp OOr], PNone)
      else if Ascii.eqb c0 "/"%char && Ascii.eqb c "*"%char then Some ([], PComment false)
      else if Ascii.eqb c0 "/"%char && Ascii.eqb c "/"%char then None
      else flush_then_start p c
  | PComment star =>
      if star && Ascii.eqb c "/"%char then Some ([], PNone)
      else Some ([], PComment (Ascii.eqb c "*"%char))
  end.

(** The tokens of [s], read from the state [p]. *)
Fixpoint lex_from (p : pending) (s : str) : option (list token) :=
  match s with
  | [] => flush p
  | c :: s' =>
      match step p c with
      | Some (done, p') =>
          match lex_from p' s' with
          | Some rest => Some (done ++ rest)
          | None => None
          end
      | None => None
      end
  end.

Definition lex (s : str) : option (list token) := lex_from PNone s.

(** [lex_from] without the final [flush]: the tokens completed within [s] and
    the token being read at its end. *)
Fixpoint feed (p : pending) (s : str) : option (list token * pending) :=
  match s with
  | [] => Some ([], p)
  | c :: s' =>
      match step p c with
      | Some (done, p') =>
          match feed p' s' with
          | Some (rest, q) => Some (done ++ rest, q)
          | None => None
          end
      | None => None
      end
  end.

(* ------------------------------------------------------------------ *)
(** ** Parser *)

Inductive expr : Type :=
| ENum (n : Z)
| EStr (s : str)
| EBool (b : bool)
| EModel                                   (* [this.model] *)
| EState                                   (* [this.state] *)
| EMember (e : expr) (key : str)           (* [e.key] *)
| ECall (name : str) (args : list expr)    (* [this.functions['name'](args)] *)
| EBin (o : binop) (l r : expr).

(** Binding strength, tightest highest. *)
Definition prec (o : binop) : nat :=
  match o with
  | OMul | ODiv | OMod => 6
  | OAdd | OSub => 5
  | OLt | OLe | OGt | OGe => 4
  | OEq | ONe => 3
  | OAnd => 2
  | OOr => 1
  end.

(** Member accesses [.key] after a primary expression. *)
Fixpoint members (e : expr) (ts : list token) : expr * list token :=
  match ts with
  | TSym Dot :: TName key :: ts' => members (EMember e key) ts'
  | _ => (e, ts)
  end.

Definition is_name (s : str) (name : string) : bool := JS.str_eqb s (lit name).

(** Recursive descent with precedence climbing. [fuel] bounds the depth of
    the calls; [None] is a text outside the fragment (or too little fuel). *)
Fixpoint parse_expr (fuel : nat) (minp : nat) (ts : list token) {struct fuel}
  : option (expr * list token) :=
  match fuel with
  | O => None
  | S fuel' =>
      match parse_primary fuel' ts with
      | Some (e, ts1) =>
          let '(lhs, ts2) := members e ts1 in climb fuel' minp lhs ts2
      | None => None
      end
  end
with climb (fuel : nat) (minp : nat) (lhs : expr) (ts : list token) {struct fuel}
  : option (expr * list token) :=
  match fuel with
  | O => None
  | S fuel' =>
      match ts with
      | TOp o :: ts1 =>
          if Nat.leb minp (prec o) then
            match parse_expr fuel' (S (prec o)) ts1 with
            | Some (rhs, ts2) => climb fuel' minp (EBin o lhs rhs) ts2
            | None => None
            end
          else Some (lhs, ts)
      | _ => Some (lhs, ts)
      end
  end
with parse_primary (fuel : nat) (ts : list token) {struct fuel}
  : option (expr * list token) :=
  match fuel with
  | O => None
  | S fuel' =>
      match ts with
      | TNum n :: ts1 => Some (ENum n, ts1)
      | TStr s :: ts1 => Some (EStr s, ts1)
      | TSym LParen :: ts1 =>
          match parse_expr fuel' 0 ts1 with
          | Some (e, TSym RParen :: ts2) => Some (e, ts2)
          | _ => None
          end
      | TName s :: ts1 =>
          if is_name s "true" then Some (EBool true, ts1)
          else if is_name s "false" then Some (EBool false, ts1)
          else if is_name s "this" then
            match ts1 with
            | TSym Dot :: TName field :: ts2 =>
                if is_name field "model" then Some (EModel, ts2)
                else if is_name field "state" then Some (EState, ts2)
                else if is_name field "functions" then
                  match ts2 with
                  | TSym LBracket :: TStr name :: TSym RBracket :: TSym LParen
                      :: TSym RParen :: ts3 => Some (ECall name [], ts3)
                  | TSym LBracket :: TStr name :: TSym RBracket :: TSym LParen :: ts3 =>
                      match parse_args fuel' [] ts3 with
                      | Some (args, ts4) => Some (ECall name args, ts4)
                      | None => None
                      end
                  | _ => None
                  end
                else None
            | _ => None
            end
          else None
      | _ => None
      end
  end
with parse_args (fuel : nat) (acc : list expr) (ts : list token) {struct fuel}
  : option (list expr * list token) :=
  match fuel with
  | O => None
  | S fuel' =>
      match parse_expr fuel' 0 ts with
      | Some (e, TSym Comma :: ts1) => parse_args fuel' (e :: acc) ts1
      | Some (e, TSym RParen :: ts1) => Some (rev (e :: acc), ts1)
      | _ => None
      end
  end.

(** Enough fuel for [ts]: every call consumes a token or is one of the three
    steps between two consumptions. *)
Definition parse_fuel (ts : list token) : nat := 4 * List.length ts + 4.

(** A whole text as one expression. *)
Definition parse_js (s : str) : option expr :=
  match lex s with
  | Some ts =>
      match parse_expr (parse_fuel ts) 0 ts with
      | Some (e, []) => Some e
      | _ => None
      end
  | None => None
  end.

(** The statements of a function body: [return e;] and
    [if(guard){...}else{...}], the [else] part being optional (no statement
    then). *)
Inductive stmt : Type :=
| SReturn (e : expr)
| SIf (guard : expr) (then_ else_ : list stmt).

Definition func : Type := list stmt.

(** Statements up to a closing brace or the end of the text. [fuel] bounds the
    number of statements and their depth, [efuel] is the fuel of the
    expressions. *)
Fixpoint parse_stmts (fuel efuel : nat) (ts : list token) {struct fuel}
  : option (list stmt * list token) :=
  match fuel with
  | O => None
  | S fuel' =>
      match ts with
      | [] => Some ([], [])
      | TSym RBrace :: _ => Some ([], ts)
      | TName kw :: ts1 =>
          if is_name kw "return" then
            match parse_expr efuel 0 ts1 with
            | Some (e, TSym Semi :: ts2) =>
                match parse_stmts fuel' efuel ts2 with
                | Some (rest, ts3) => Some (SReturn e :: rest, ts3)
                | None => None
                end
            | _ => None
            end
          else if is_name kw "if" then
            match ts1 with
            | TSym LParen :: ts2 =>
                match parse_expr efuel 0 ts2 with
                | Some (g, TSym RParen :: TSym LBrace :: ts3) =>
                    match parse_stmts fuel' efuel ts3 with
                    | Some (t, TSym RBrace :: TName kw' :: TSym LBrace :: ts4) =>
                        if is_name kw' "else" then
                          match parse_stmts fuel' efuel ts4 with
                          | Some (e, TSym RBrace :: ts5) =>
                              match parse_stmts fuel' efuel ts5 with
                              | Some (rest, ts6) => Some (SIf g t e :: rest, ts6)
                              | None => None
                              end
                          | _ => None
                          end
                        else None
                    | Some (t, TSym RBrace :: ts4) =>
                        match parse_stmts fuel' efuel ts4 with
                        | Some (rest, ts5) => Some (SIf g t [] :: rest, ts5)
                        | None => None
                        end
                    | _ => None
                    end
                | _ => None
                end
            | _ => None
            end
          else None
      | _ => None
      end
  end.

Definition parse_function (ts : list token) : option func :=
  match parse_stmts (S (List.length ts)) (parse_fuel ts) ts with
  | Some (body, []) => Some body
  | _ => None
  end.

(** [FunctionGenerator.generateFromString(functionString)] *)
Definition generateFromString (functionString : str) : option func :=
  match lex functionString with
  | Some ts => parse_function ts
  | None => None
  end.

(* ------------------------------------------------------------------ *)
(** ** Evaluation *)

(** What the emitted text reads through [this]. *)
Record env : Type := Env {
  model : value;
  state : value;
  functions : str -> option jsfunction
}.

(** The integers a double holds exactly. *)
Definition safe (n : Z) : bool := (- (2 ^ 53) <? n) && (n <? 2 ^ 53).

Definition number (n : Z) : option (completion value) :=
  if safe n then Some (Return (VNum n)) else None.

(** [ToBoolean] *)
Definition to_boolean (v : value) : bool :=
  match v with
  | VUndef | VNull => false
  | VBool b => b
  | VNum n => negb (n =? 0)
  | VStr s => negb (JS.str_eqb s [])
  | VObj _ => true
  end.

(** [ToNumber], where the result is an integer or [NaN] ([None]: a string or
    an object, whose conversion is outside the fragment). *)
Inductive num : Type := Fin (n : Z) | NaN.

Definition to_number (v : value) : option num :=
  match v with
  | VUndef => Some NaN
  | VNull => Some (Fin 0)
  | VBool b => Some (Fin (if b then 1 else 0))
  | VNum n => if safe n then Some (Fin n) else None
  | VStr _ | VObj _ => None
  end.

(** Comparison of strings by code units. *)
Fixpoint str_ltb (a b : str) : bool :=
  match a, b with
  | _, [] => false
  | [], _ :: _ => true
  | x :: a', y :: b' =>
      if Nat.ltb (code x) (code y) then true
      else if Nat.ltb (code y) (code x) then false
      else str_ltb a' b'
  end.

(** [l < r]; the other three relations are derived from it as the host does. *)
Definition less_than (l r : value) : option (option bool) :=
  match l, r with
  | VStr a, VStr b => Some (Some (str_ltb a b))
  | _, _ =>
      match to_number l, to_number r with
      | Some (Fin a), Some (Fin b) => Some (Some (a <? b))
      | Some _, Some _ => Some None            (* undefined: a NaN is involved *)
      | _, _ => None
      end
  end.

(** [l == r] (loose equality). Two objects are equal when they are the same
    object, which the model of values does not record: [None]. *)
Definition loose_equal (l r : value) : option bool :=
  match l, r with
  | VUndef, (VUndef | VNull) | VNull, (VUndef | VNull) => Some true
  | (VUndef | VNull), _ | _, (VUndef | VNull) => Some false
  | VNum a, VNum b => if safe a && safe b then Some (a =? b) else None
  | VStr a, VStr b => Some (JS.str_eqb a b)
  | VBool a, VBool b => Some (Bool.eqb a b)
  | VBool a, VNum b | VNum b, VBool a =>
      if safe b then Some ((if a then 1 else 0) =? b) else None
  | _, _ => None
  end.

Definition arith (f : Z -> Z -> option Z) (l r : value) : option (completion value) :=
  match to_number l, to_number r with
  | Some (Fin a), Some (Fin b) =>
      match f a b with
      | Some n => number n
      | None => None
      end
  | _, _ => None
  end.

(** The operands [+] turns into text without calling into an object. *)
Definition is_primitive_text (v : value) : bool :=
  match v with
  | VObj _ => false
  | VNum n => safe n
  | _ => true
  end.

(** The operators other than [&&] and [||], on the values of their operands. *)
Definition binary (o : binop) (l r : value) : option (completion value) :=
  match o with
  | OAdd =>
      match l, r with
      | VStr a, _ => if is_primitive_text r then Some (Return (VStr (a ++ toString r))) else None
      | _, VStr b => if is_primitive_text l then Some (Return (VStr (toString l ++ b))) else None
      | _, _ => arith (fun a b => Some (a + b)) l r
      end
  | OSub => arith (fun a b => Some (a - b)) l r
  | OMul => arith (fun a b => Some (a * b)) l r
  | ODiv => arith (fun a b => if (b =? 0) || negb (Z.rem a b =? 0) then None
                              else Some (Z.quot a b)) l r
  | OMod => arith (fun a b => if b =? 0 then None else Some (Z.rem a b)) l r
  | OLt => match less_than l r with
           | Some (Some b) => Some (Return (VBool b))
           | Some None => Some (Return (VBool false))
           | None => None
           end
  | OGt => match less_than r l with
           | Some (Some b) => Some (Return (VBool b))
           | Some None => Some (Return (VBool false))
           | None => None
           end
  | OLe => match less_than r l with
           | Some (Some b) => Some (Return (VBool (negb b)))
           | Some None => Some (Return (VBool false))
           | None => None
           end
  | OGe => match less_than l r with
           | Some (Some b) => Some (Return (VBool (negb b)))
           | Some None => Some (Return (VBool false))
           | None => None
           end
  | OEq => match loose_equal l r with
           | Some b => Some (Return (VBool b))
           | None => None
           end
  | ONe => match loose_equal l r with
           | Some b => Some (Return (VBool (negb b)))
           | None => None
           end
  | OAnd | OOr => None
  end.

(** The value of an expression. A number literal is a double; a member access
    is [get_property]; arguments are evaluated left to right before the
    call. *)
Fixpoint eval (this : env) (e : expr) : option (completion value) :=
  match e with
  | ENum n => number n
  | EStr s => Some (Return (VStr s))
  | EBool b => Some (Return (VBool b))
  | EModel => Some (Return (model this))
  | EState => Some (Return (state this))
  | EMember e' key => v <-- eval this e' ;; Some (get_property v key)
  | ECall name args =>
      vs <-- (fix eval_args (args : list expr) : option (completion (list value)) :=
                match args with
                | [] => Some (Return [])
                | a :: args' =>
                    v <-- eval this a ;;
                    vs <-- eval_args args' ;;
                    Some (Return (v :: vs))
                end) args ;;
      Some (call (functions this) name vs)
  | EBin OAnd l r =>
      v <-- eval this l ;; if to_boolean v then eval this r else Some (Return v)
  | EBin OOr l r =>
      v <-- eval this l ;; if to_boolean v then Some (Return v) else eval this r
  | EBin o l r =>
      a <-- eval this l ;; b <-- eval this r ;; binary o a b
  end.

(** The statements of a body, one after the other, up to the first [return]:
    its value, or nothing when the body ends without one. *)
Fixpoint exec (this : env) (s : stmt) : option (completion (option value)) :=
  let exec_all :=
    fix exec_all (body : list stmt) : option (completion (option value)) :=
      match body with
      | [] => Some (Return None)
      | s :: body' =>
          r <-- exec this s ;;
          match r with
          | Some v => Some (Return (Some v))
          | None => exec_all body'
          end
      end in
  match s with
  | SReturn e => v <-- eval this e ;; Some (Return (Some v))
  | SIf g t e => v <-- eval this g ;; if to_boolean v then exec_all t else exec_all e
  end.

Fixpoint exec_all (this : env) (body : list stmt) : option (completion (option value)) :=
  match body with
  | [] => Some (Return None)
  | s :: body' =>
      r <-- exec this s ;;
      match r with
      | Some v => Some (Return (Some v))
      | None => exec_all this body'
      end
  end.

(** The call of a generated function with [this] bound to [this]: what its
    body returns, [undefined] when it returns nothing. *)
Definition run (f : func) (this : env) : option (completion value) :=
  r <-- exec_all this f ;;
  Some (Return (match r with Some v => v | None => VUndef end)).

(** The value of a text that is one expression. *)
Definition evaluate (s : str) (this : env) : option (completion value) :=
  match parse_js s with
  | Some e => eval this e
  | None => None
  end.

End Host.

(** [Constraint.evaluate]: the compiled assertion called on [model], [state]
    and [functions]. The outer [None] is fuel, the inner one the fragment of
    the host. *)
Definition evaluate_assertion (customFunctions : list str) (assertion : str)
    (this : Host.env) : fueled (option (completion value)) :=
  f <-- generateFunction customFunctions Host.generateFromString assertion ;;
  ret (match f with
       | Some f => Host.run f this
       | None => None
       end).

(* ================================================================== *)
(** * Notions the properties are stated with *)
(* ================================================================== *)

(** The number of string delimiters in a text. *)
Fixpoint count_quotes (s : str) : nat :=
  match s with
  | [] => O
  | c :: s' =>
      if Ascii.eqb c Symbols.STRING_SYMBOL then S (count_quotes s') else count_quotes s'
  end.

(** The first separator outside every string literal, reading [s] from the
    left from index [i]: a delimiter opens a literal or closes the open one. *)
Fixpoint first_unquoted_separator (inString : bool) (i : Z) (s : str) : option Z :=
  match s with
  | [] => None
  | c :: s' =>
      if Ascii.eqb c Symbols.STRING_SYMBOL then
        first_unquoted_separator (negb inString) (i + 1) s'
      else if Ascii.eqb c Symbols.COND_SEPARATOR && negb inString then Some i
      else first_unquoted_separator inString (i + 1) s'
  end.

(** The character at [j] is a separator with an even number of delimiters
    before it. *)
Definition separator_outside_literal (s : str) (j : Z) : bool :=
  char_is (JS.charAt s j) Symbols.COND_SEPARATOR &&
  Nat.even (count_quotes (firstn (Z.to_nat j) s)).

(** What holds of the local variables of [generateConditionalString] at the
    head of its loop: the tokens cut so far are the text up to [startIndex]. *)
Definition scanned (trimmed : str) (st : scan) : Prop :=
  0 <= startIndex st /\
  startIndex st = endIndex st /\
  List.concat (tokens st) = firstn (Z.to_nat (startIndex st)) trimmed /\
  (done st = true -> JS.length trimmed <= startIndex st).

(** The model [{a: {b: n}}] of the examples, and a caller without functions. *)
Definition model_a_b (n : Z) : value := VObj [(lit "a", VObj [(lit "b", VNum n)])].

Definition no_functions : str -> option jsfunction := fun _ => None.

(** The value [getObjectValue] returns (it catches whatever the walk throws). *)
Definition value_at (object : value) (path : str) : value :=
  match getObjectValue object path with
  | Return v => v
  | Throw _ => VUndef
  end.

(** The first two phases of message rendering as the spec words them: every
    token that starts with [prefix], in the order of the template, is replaced
    in the message by the text of the value under its path. *)
Definition substitute_references (prefix : ascii) (object : value) (tokens : list str)
    (message : str) : str :=
  fold_left
    (fun message token => JS.replace message token (toString (value_at object (tl token))))
    (filter (fun token => JS.startsWith token [prefix]) tokens)
    message.

(** The third phase: in the order of the template, a statement token is
    replaced by the text of what its function returns on the model and the
    state, a function token by the text of its call. *)
Definition substitute_calls (customFunctions : list str) (parseFloat : str -> value)
    (model state : value) (functions : str -> option jsfunction) (tokens : list str)
    (message : str) : fueled str :=
  for_ofF tokens
    (fun token message =>
       if isStatementToken customFunctions token then
         statementValue <-- lift (call functions token [model; state]) ;;
         ret (JS.replace message token (toString statementValue))
       else if isFunctionToken customFunctions token then
         functionValue <-- evaluateFunction customFunctions parseFloat token model state
                             functions ;;
         ret (JS.replace message token (toString functionValue))
       else ret message)
    message.

(** Round brackets that match each other, [depth] of them being open before
    the text. *)
Fixpoint balanced (depth : nat) (s : str) : bool :=
  match s with
  | [] => Nat.eqb depth 0
  | c :: s' =>
      if Ascii.eqb c Symbols.BRACKET_OPEN then balanced (S depth) s'
      else if Ascii.eqb c Symbols.BRACKET_CLOSE then
        match depth with
        | O => false
        | S depth' => balanced depth' s'
        end
      else balanced depth s'
  end.

(** A caller's function table: [add] and [mul] on two numbers, and [total],
    which is called on the model and the state and returns the [a.b] of the
    model. *)
Definition arithmetic_functions : str -> option jsfunction :=
  fun name =>
    if JS.str_eqb name (lit "total") then
      Some (fun args => match args with
                        | [model; state] => getObjectValue model (lit "a.b")
                        | _ => Throw TypeError
                        end)
    else if JS.str_eqb name (lit "add") then
      Some (fun args => match args with
                        | [VNum a; VNum b] => Return (VNum (a + b))
                        | _ => Throw TypeError
                        end)
    else if JS.str_eqb name (lit "mul") then
      Some (fun args => match args with
                        | [VNum a; VNum b] => Return (VNum (a * b))
                        | _ => Throw TypeError
                        end)
    else None.

(** Round brackets none of which closes a bracket that was open before the
    text, [depth] brackets having been opened within it so far. *)
Fixpoint unclosed (depth : nat) (s : str) : bool :=
  match s with
  | [] => true
  | c :: s' =>
      if Ascii.eqb c Symbols.BRACKET_OPEN then unclosed (S depth) s'
      else if Ascii.eqb c Symbols.BRACKET_CLOSE then
        match depth with
        | O => false
        | S depth' => unclosed depth' s'
        end
      else unclosed depth s'
  end.

(** The calls [registerFunction(name)] for the names of a list, one after the
    other, on the registry [customFunctions]; a call that throws leaves the
    registry to the next one. *)
Definition register_all (names : list str) (customFunctions : list str) : list str :=
  fold_left (fun registry name => snd (registerFunction name registry)) names
    customFunctions.

(** A character of a class, by its test. *)
Definition none_of (class : ascii -> bool) (s : str) : bool :=
  forallb (fun c => negb (class c)) s.

Definition all_of (class : ascii -> bool) (s : str) : bool := forallb class s.

Definition is_char (c : ascii) : ascii -> bool := fun c' => Ascii.eqb c' c.

(** The symbol [getSymbolForToken] returns for a token. *)
Definition symbol_of (customFunctions : list str) (token : str) : str :=
  match getSymbolForToken customFunctions token with
  | Some (Return symbol) => symbol
  | _ => []
  end.

(** An argument of a call: its round brackets match ([depth] of them being
    open before it) and none of its separators stands outside all brackets. *)
Fixpoint argument (depth : nat) (s : str) : bool :=
  match s with
  | [] => Nat.eqb depth 0
  | c :: s' =>
      if Ascii.eqb c Symbols.BRACKET_OPEN then argument (S depth) s'
      else if Ascii.eqb c Symbols.BRACKET_CLOSE then
        match depth with
        | O => false
        | S depth' => argument depth' s'
        end
      else if Ascii.eqb c Symbols.ARG_SEPARATOR then
        match depth with
        | O => false
        | S _ => argument depth s'
        end
      else argument depth s'
  end.

(** Arguments with a separator between each two of them. *)
Fixpoint join_args (args : list str) : str :=
  match args with
  | [] => []
  | [arg] => arg
  | arg :: args' => arg ++ Symbols.ARG_SEPARATOR :: join_args args'
  end.

(** Words with a space between each two of them. *)
Fixpoint join_words (words : list str) : str :=
  match words with
  | [] => []
  | [word] => word
  | word :: words' => word ++ " "%char :: join_words words'
  end.

(** What the second loop of [getMessageTokens] makes of a token. *)
Definition cut_token (customFunctions : list str) (token : str) : str :=
  if isStatementToken customFunctions token then
    cutRemainderUntilCharMatches token is_word
  else if isFunctionToken customFunctions token then
    cutRemainderUntilCharMatches token (fun c => Ascii.eqb c ")"%char)
  else if JS.includes token [Symbols.MODEL_PREFIX] then
    cutFrontUntilCharMatches (cutRemainderUntilCharMatches token is_word)
      (fun c => Ascii.eqb c Symbols.MODEL_PREFIX)
  else if JS.includes token [Symbols.STATE_PREFIX] then
    cutFrontUntilCharMatches (cutRemainderUntilCharMatches token is_word)
      (fun c => Ascii.eqb c Symbols.STATE_PREFIX)
  else token.

(* ================================================================== *)
(** * Expressions of the DSL *)
(* ================================================================== *)

(** The operands of an expression: a number literal by its digits, a string
    literal by its characters, a reference to the model or to the state by
    the keys of its path, and the call of a function on operands. *)
Inductive operand : Type :=
| Number (digits : str)
| Text (chars : str)
| Model (path : list str)
| State (path : list str)
| Call (name : str) (args : list operand).

(** An expression as the tree of its operators; [Group] is a pair of round
    brackets the author wrote. *)
Inductive term : Type :=
| Operand (a : operand)
| Binary (o : Host.binop) (l r : term)
| Group (t : term).

(** The spelling of an operator in the DSL. *)
Definition operator_text (o : Host.binop) : str :=
  match o with
  | Host.OMul => Symbols.TIMES
  | Host.ODiv => Symbols.DIV
  | Host.OMod => Symbols.MOD
  | Host.OAdd => Symbols.PLUS
  | Host.OSub => Symbols.MINUS
  | Host.OLt => Symbols.LESS
  | Host.OLe => Symbols.LESS_EQUAL
  | Host.OGt => Symbols.GREATER
  | Host.OGe => Symbols.GREATER_EQUAL
  | Host.OEq => Symbols.EQUAL
  | Host.ONe => Symbols.NOT_EQUAL
  | Host.OAnd => Symbols.AND
  | Host.OOr => Symbols.OR
  end.

(** Keys with a separator between each two of them. *)
Fixpoint join_path (path : list str) : str :=
  match path with
  | [] => []
  | [key] => key
  | key :: path' => key ++ Symbols.KEY_SEPARATOR :: join_path path'
  end.

(** An operand as it is written in the DSL. *)
Fixpoint operand_text (a : operand) : str :=
  match a with
  | Number digits => digits
  | Text chars => Symbols.STRING_SYMBOL :: chars ++ [Symbols.STRING_SYMBOL]
  | Model path => Symbols.MODEL_PREFIX :: join_path path
  | State path => Symbols.STATE_PREFIX :: join_path path
  | Call name args =>
      name ++ Symbols.BRACKET_OPEN :: join_args (map operand_text args)
        ++ [Symbols.BRACKET_CLOSE]
  end.

(** The text of the host language an operand is expected to compile to. *)
Fixpoint operand_code (a : operand) : str :=
  match a with
  | Number digits => digits
  | Text chars => Symbols.STRING_SYMBOL :: chars ++ [Symbols.STRING_SYMBOL]
  | Model path => lit "this.model." ++ join_path path
  | State path => lit "this.state." ++ join_path path
  | Call name args =>
      lit "this.functions['" ++ name ++ lit "'](" ++ join_args (map operand_code args)
        ++ lit ")"
  end.

(** The number a sequence of decimal digits stands for. *)
Definition digits_value (digits : str) : Z :=
  fold_left (fun n c => 10 * n + Host.digit_value c) digits 0.

(** The operand as an expression of the host. *)
Fixpoint operand_expr (a : operand) : Host.expr :=
  match a with
  | Number digits => Host.ENum (digits_value digits)
  | Text chars => Host.EStr chars
  | Model path => fold_left Host.EMember path Host.EModel
  | State path => fold_left Host.EMember path Host.EState
  | Call name args => Host.ECall name (map operand_expr args)
  end.

(** An expression written with the round brackets it needs and no others
    (besides its [Group]s): an operand of an operator is put in brackets when
    its own operator binds less tightly than [level], which is the binding
    strength of the operator for a left operand and one more for a right
    operand, so that operators of equal strength group to the left. [leaf]
    writes the operands. *)
Fixpoint print (leaf : operand -> str) (level : nat) (t : term) : str :=
  match t with
  | Operand a => leaf a
  | Binary o l r =>
      let inner :=
        print leaf (Host.prec o) l ++ operator_text o ++ print leaf (S (Host.prec o)) r in
      if Nat.leb level (Host.prec o) then inner
      else Symbols.BRACKET_OPEN :: inner ++ [Symbols.BRACKET_CLOSE]
  | Group t' => Symbols.BRACKET_OPEN :: print leaf 0 t' ++ [Symbols.BRACKET_CLOSE]
  end.

(** The expression in the DSL, and the text of the host language it is
    expected to compile to. *)
Definition render (t : term) : str := print operand_text 0 t.

Definition compiled (t : term) : str := print operand_code 0 t.

(** The tree of the expression in the host language: every operator applied
    to the operands the tree gives it. *)
Fixpoint expr_of (t : term) : Host.expr :=
  match t with
  | Operand a => operand_expr a
  | Binary o l r => Host.EBin o (expr_of l) (expr_of r)
  | Group t' => expr_of t'
  end.

(** A name: word characters, the first of them no digit. *)
Definition is_identifier (s : str) : bool :=
  match s with
  | c :: s' => is_word c && negb (is_digit c) && all_of is_word s'
  | [] => false
  end.

(** The characters of a string literal: no delimiter, backslash, backtick or
    white space, and within the arguments of a call no round bracket or
    separator either. *)
Definition is_literal_char (inCall : bool) (c : ascii) : bool :=
  negb (Ascii.eqb c Symbols.STRING_SYMBOL || Ascii.eqb c "\"%char ||
        Ascii.eqb c "`"%char || is_space c) &&
  negb (inCall && (Ascii.eqb c Symbols.BRACKET_OPEN || Ascii.eqb c Symbols.BRACKET_CLOSE ||
                   Ascii.eqb c Symbols.ARG_SEPARATOR)).

(** Digits without a leading zero. *)
Definition is_numeral (digits : str) : bool :=
  all_of is_digit digits &&
  match digits with
  | [] => false
  | [_] => true
  | c :: _ => negb (Ascii.eqb c "0"%char)
  end.

(** The operands the precedence claim is stated for: numerals, string
    literals of the characters above, references with a path of names, and
    calls of a name that [isFunctionToken] accepts. *)
Fixpoint operand_ok (customFunctions : list str) (inCall : bool) (a : operand) : bool :=
  match a with
  | Number digits => is_numeral digits
  | Text chars => all_of (is_literal_char inCall) chars
  | Model path | State path =>
      match path with
      | [] => false
      | _ => forallb is_identifier path
      end
  | Call name args =>
      is_identifier name && isFunctionToken customFunctions name &&
      forallb (operand_ok customFunctions true) args
  end.

Fixpoint term_ok (customFunctions : list str) (t : term) : bool :=
  match t with
  | Operand a => operand_ok customFunctions false a
  | Binary _ l r => term_ok customFunctions l && term_ok customFunctions r
  | Group t' => term_ok customFunctions t'
  end.

(** A registry of names that start like a name. *)
Definition registry_ok (customFunctions : list str) : bool :=
  forallb (fun name => match name with
                       | c :: _ => is_word c && negb (is_digit c)
                       | [] => false
                       end) customFunctions.

(** The operands, operators and brackets of a printed expression, in the
    order of the text. *)
Inductive item : Type :=
| IOperand (a : operand)
| IOperator (o : Host.binop)
| IOpen
| IClose.

Fixpoint items (level : nat) (t : term) : list item :=
  match t with
  | Operand a => [IOperand a]
  | Binary o l r =>
      let inner := items (Host.prec o) l ++ IOperator o :: items (S (Host.prec o)) r in
      if Nat.leb level (Host.prec o) then inner else IOpen :: inner ++ [IClose]
  | Group t' => IOpen :: items 0 t' ++ [IClose]
  end.

Definition item_text (leaf : operand -> str) (x : item) : str :=
  match x with
  | IOperand a => leaf a
  | IOperator o => operator_text o
  | IOpen => [Symbols.BRACKET_OPEN]
  | IClose => [Symbols.BRACKET_CLOSE]
  end.

(** The tokens of the host language an operand is expected to compile to. *)
Fixpoint join_tokens (args : list (list Host.token)) : list Host.token :=
  match args with
  | [] => []
  | [arg] => arg
  | arg :: args' => arg ++ Host.TSym Host.Comma :: join_tokens args'
  end.

Definition member_tokens (path : list str) : list Host.token :=
  List.concat (map (fun key => [Host.TSym Host.Dot; Host.TName key]) path).

Fixpoint operand_tokens (a : operand) : list Host.token :=
  match a with
  | Number digits => [Host.TNum (digits_value digits)]
  | Text chars => [Host.TStr chars]
  | Model path =>
      Host.TName (lit "this") :: Host.TSym Host.Dot :: Host.TName (lit "model")
        :: member_tokens path
  | State path =>
      Host.TName (lit "this") :: Host.TSym Host.Dot :: Host.TName (lit "state")
        :: member_tokens path
  | Call name args =>
      Host.TName (lit "this") :: Host.TSym Host.Dot :: Host.TName (lit "functions")
        :: Host.TSym Host.LBracket :: Host.TStr name :: Host.TSym Host.RBracket
        :: Host.TSym Host.LParen :: join_tokens (map operand_tokens args)
        ++ [Host.TSym Host.RParen]
  end.

Definition item_tokens (x : item) : list Host.token :=
  match x with
  | IOperand a => operand_tokens a
  | IOperator o => [Host.TOp o]
  | IOpen => [Host.TSym Host.LParen]
  | IClose => [Host.TSym Host.RParen]
  end.

(** The tokens of a printed expression. *)
Definition term_tokens (level : nat) (t : term) : list Host.token :=
  List.concat (map item_tokens (items level t)).

(** What may stand behind an expression that was printed at [level]: no
    member access, and no operator that binds more tightly than [level]. *)
Definition follows (level : nat) (rest : list Host.token) : Prop :=
  match rest with
  | Host.TOp o :: _ => (Host.prec o <= level)%nat
  | Host.TSym Host.Dot :: _ => False
  | _ => True
  end.

(** Fuel that is enough to parse an operand and an expression. *)
Fixpoint operand_fuel (a : operand) : nat :=
  match a with
  | Call _ args => S (S (list_sum (map (fun arg => S (S (operand_fuel arg))) args)))
  | _ => 1
  end.

Fixpoint term_fuel (t : term) : nat :=
  match t with
  | Operand a => S (operand_fuel a)
  | Binary _ l r => term_fuel l + term_fuel r + 4
  | Group t' => term_fuel t' + 2
  end.

(** The parser reads the tokens of the operand [a], and the member accesses
    behind them, as the expression of [a]. *)
Definition parses_to (a : operand) : Prop :=
  forall fuel level rest,
    (operand_fuel a <= fuel)%nat ->
    follows level rest ->
    exists e ts1,
      Host.parse_primary fuel (operand_tokens a ++ rest) = Some (e, ts1) /\
      Host.members e ts1 = (operand_expr a, rest).

(** The lexer reads [code] as the tokens [ts]; the last of them is complete
    as soon as a character of the class [next] follows. *)
Definition lexes_to (next : ascii -> bool) (code : str) (ts : list Host.token) : Prop :=
  exists d p l,
    Host.feed Host.PNone code = Some (d, p) /\
    Host.flush p = Some l /\
    d ++ l = ts /\
    forall c, next c = true -> Host.step p c = Host.flush_then_start p c.

(** The characters that end a number or a name. *)
Definition is_break (c : ascii) : bool :=
  negb (Host.is_name_char c) && negb (Ascii.eqb c "."%char).

(** The characters an operand or a bracket starts with. *)
Definition is_operand_start (c : ascii) : bool :=
  is_digit c || Ascii.eqb c Symbols.STRING_SYMBOL || Host.is_name_start c ||
  Ascii.eqb c Symbols.MODEL_PREFIX || Ascii.eqb c Symbols.STATE_PREFIX ||
  Ascii.eqb c Symbols.BRACKET_OPEN || Ascii.eqb c Symbols.BRACKET_CLOSE.

(** The characters that may follow an item. *)
Definition item_next (x : item) : ascii -> bool :=
  match x with
  | IOperand _ => is_break
  | IOperator _ => is_operand_start
  | _ => fun _ => true
  end.

Definition is_operand_item (x : item) : bool :=
  match x with IOperand _ => true | _ => false end.

Definition is_operator_item (x : item) : bool :=
  match x with IOperator _ => true | _ => false end.

(** Two items that may stand side by side: not two operands, not two
    operators. *)
Definition pair_ok (x y : item) : bool :=
  negb (is_operand_item x && is_operand_item y) &&
  negb (is_operator_item x && is_operator_item y).

Fixpoint chain_ok (its : list item) : bool :=
  match its with
  | x :: ((y :: _) as its') => pair_ok x y && chain_ok its'
  | _ => true
  end.

Definition item_ok (customFunctions : list str) (x : item) : bool :=
  match x with
  | IOperand a => operand_ok customFunctions false a
  | _ => true
  end.

(** The token the tokenizer cuts at the item [x] when the text [rest]
    follows it, and what is left of [rest]: a number or a reference takes the
    last character of the text with it. *)
Definition cut (x : item) (rest : str) : str * str :=
  match x, rest with
  | IOperand (Number _ | Model _ | State _), [c] => (item_text operand_text x ++ [c], [])
  | _, _ => (item_text operand_text x, rest)
  end.

(** A character that is no white space, round bracket or separator. *)
Definition is_plain (c : ascii) : bool :=
  negb (is_space c || Ascii.eqb c Symbols.BRACKET_OPEN ||
        Ascii.eqb c Symbols.BRACKET_CLOSE || Ascii.eqb c Symbols.ARG_SEPARATOR).

(** A text that can be an argument of a call. *)
Definition closed (s : str) : Prop :=
  argument 0 s = true /\ balanced 0 s = true /\ none_of is_space s = true /\ s <> [].

(* ================================================================== *)
(** * Properties *)
(* ================================================================== *)

(* ------------------------------------------------------------------ *)
(** ** Strings and loops *)

Lemma str_eqb_eq (a b : str) : JS.str_eqb a b = true <-> a = b.
Proof.
  revert b; induction a as [|x a IH]; intros [|y b]; simpl; split; intro H;
    try reflexivity; try discriminate.
  - apply andb_true_iff in H as [Hx Hab].
    apply Ascii.eqb_eq in Hx. apply IH in Hab. now subst.
  - injection H as -> ->. apply andb_true_iff; split.
    + apply Ascii.eqb_refl.
    + now apply IH.
Qed.

Lemma str_eqb_refl (a : str) : JS.str_eqb a a = true.
Proof. now apply str_eqb_eq. Qed.

Lemma existsb_str_eqb (name : str) (l : list str) :
  existsb (JS.str_eqb name) l = true <-> In name l.
Proof.
  rewrite existsb_exists; split.
  - intros (x & Hin & Heq). apply str_eqb_eq in Heq. now subst.
  - intro Hin. exists name. split; [assumption | apply str_eqb_refl].
Qed.

Lemma length_nonneg (s : str) : 0 <= JS.length s.
Proof. unfold JS.length; lia. Qed.

Lemma charAt_nth (s : str) (i : Z) :
  0 <= i -> JS.charAt s i = nth_error s (Z.to_nat i).
Proof.
  intro H. unfold JS.charAt. destruct (i <? 0) eqn:E; [lia | reflexivity].
Qed.

Lemma charAt_cons (c : ascii) (s : str) (i : Z) :
  0 <= i -> JS.charAt (c :: s) (i + 1) = JS.charAt s i.
Proof.
  intro H. rewrite !charAt_nth by lia.
  replace (Z.to_nat (i + 1)) with (S (Z.to_nat i)) by lia. reflexivity.
Qed.

Lemma substring_prefix (s : str) (k : Z) :
  0 <= k <= JS.length s -> JS.substring s 0 k = firstn (Z.to_nat k) s.
Proof.
  intro H. unfold JS.substring, JS.clamp.
  replace (Z.to_nat (Z.min (Z.max 0 0) (JS.length s))) with O by lia.
  replace (Z.to_nat (Z.min (Z.max k 0) (JS.length s))) with (Z.to_nat k) by lia.
  rewrite Nat.min_0_l, Nat.max_0_l, Nat.sub_0_r. reflexivity.
Qed.

Lemma substring_from_suffix (s : str) (k : Z) :
  0 <= k <= JS.length s -> JS.substring_from s k = skipn (Z.to_nat k) s.
Proof.
  intro H. unfold JS.substring_from, JS.clamp. f_equal. lia.
Qed.

(** A [for] loop that leaves at the first index where [found] holds. *)
Lemma for_loop_search (found : Z -> bool) (n : Z) (d : Z) :
  forall fuel i,
    fuel = Z.to_nat (n - i) ->
    (forall j, i <= j < n -> found j = false) ->
    for_loop fuel i n (fun j acc => if found j then Break j else Continue acc) d = d.
Proof.
  induction fuel as [|fuel IH]; intros i Hf Hnone; simpl; [reflexivity|].
  destruct (i <? n) eqn:E; [|reflexivity].
  apply Z.ltb_lt in E. rewrite Hnone by lia.
  apply IH; [lia | intros j Hj; apply Hnone; lia].
Qed.

Lemma for_loop_search_found (found : Z -> bool) (n : Z) (d : Z) (k : Z) :
  forall fuel i,
    fuel = Z.to_nat (n - i) ->
    i <= k < n ->
    found k = true ->
    (forall j, i <= j < k -> found j = false) ->
    for_loop fuel i n (fun j acc => if found j then Break j else Continue acc) d = k.
Proof.
  induction fuel as [|fuel IH]; intros i Hf Hk Hfound Hbefore; simpl; [lia|].
  destruct (i <? n) eqn:E; [|apply Z.ltb_ge in E; lia].
  destruct (Z.eq_dec i k) as [->|Hne].
  - now rewrite Hfound.
  - rewrite Hbefore by lia. apply IH; try assumption; try lia.
    intros j Hj. apply Hbefore. lia.
Qed.

(* ------------------------------------------------------------------ *)
(** ** The registry *)

(** C7. Registering a name that is already registered fails and leaves the
    registry as it was; a successful registration appends the name at the
    end, so whatever the outcome the old registry is a prefix of the new one
    (it never shrinks), and registering the same name again then fails. *)
Theorem registerFunction_duplicate (name : str) (customFunctions : list str) :
  (In name customFunctions ->
   registerFunction name customFunctions =
     (Throw (Error (lit "Function with name " ++ name ++ lit " is already registered")),
      customFunctions)) /\
  (~ In name customFunctions ->
   registerFunction name customFunctions = (Return tt, customFunctions ++ [name])) /\
  (exists added,
     snd (registerFunction name customFunctions) = customFunctions ++ added) /\
  (let after := snd (registerFunction name customFunctions) in
   registerFunction name after =
     (Throw (Error (lit "Function with name " ++ name ++ lit " is already registered")),
      after)).
Proof.
  unfold registerFunction.
  destruct (existsb (JS.str_eqb name) customFunctions) eqn:E.
  - assert (Hin : In name customFunctions) by now apply existsb_str_eqb.
    repeat split.
    + intro H. exfalso. now apply H.
    + exists []. simpl. now rewrite app_nil_r.
    + simpl. now rewrite E.
  - assert (Hnot : ~ In name customFunctions).
    { intro H. apply existsb_str_eqb in H. congruence. }
    repeat split.
    + intro H. now exfalso.
    + exists [name]. reflexivity.
    + simpl.
      assert (H : existsb (JS.str_eqb name) (customFunctions ++ [name]) = true).
      { apply existsb_str_eqb, in_or_app. right. now left. }
      now rewrite H.
Qed.

(** Registering [add] twice, and [mul] after it. *)
Lemma registerFunction_add_twice :
  In (lit "add") [lit "add"] /\
  registerFunction (lit "add") [lit "add"] =
    (Throw (Error (lit "Function with name add is already registered")), [lit "add"]) /\
  ~ In (lit "mul") [lit "add"] /\
  registerFunction (lit "mul") [lit "add"] = (Return tt, [lit "add"; lit "mul"]).
Proof.
  destruct (registerFunction_duplicate (lit "add") [lit "add"]) as (Hdup & _).
  destruct (registerFunction_duplicate (lit "mul") [lit "add"]) as (_ & Hnew & _).
  assert (Hin : In (lit "add") [lit "add"]) by (left; reflexivity).
  assert (Hnot : ~ In (lit "mul") [lit "add"]).
  { intros [H|[]]. discriminate H. }
  split; [exact Hin|]. split; [exact (Hdup Hin)|]. split; [exact Hnot|].
  exact (Hnew Hnot).
Defined.

(* ------------------------------------------------------------------ *)
(** ** Splitting an assertion *)

Lemma count_quotes_app (a b : str) :
  count_quotes (a ++ b) = (count_quotes a + count_quotes b)%nat.
Proof.
  induction a as [|c a IH]; simpl; [reflexivity|].
  destruct (Ascii.eqb c Symbols.STRING_SYMBOL); simpl; now rewrite IH.
Qed.

Lemma skipn_nth_error {A} (s : list A) (i : nat) (c : A) :
  nth_error s i = Some c -> skipn i s = c :: skipn (S i) s.
Proof.
  revert i; induction s as [|x s IH]; intros [|i] H; simpl in *; try discriminate.
  - now injection H as ->.
  - now apply IH.
Qed.

Lemma nth_error_in_range (s : str) (i : Z) :
  0 <= i < JS.length s -> exists c, nth_error s (Z.to_nat i) = Some c.
Proof.
  intro H. destruct (nth_error s (Z.to_nat i)) eqn:E; [now eexists|].
  apply nth_error_None in E. unfold JS.length in H. lia.
Qed.

(** The counting loop of [isCharWithinString] counts the delimiters of the
    rest of the text. *)
Lemma count_loop (s : str) :
  forall fuel i acc,
    0 <= i ->
    fuel = Z.to_nat (JS.length s - i) ->
    for_loop fuel i (JS.length s)
      (fun i numStringSymbols =>
         let char := JS.charAt s i in
         if char_is char Symbols.STRING_SYMBOL then Continue (numStringSymbols + 1)
         else Continue numStringSymbols) acc
    = acc + Z.of_nat (count_quotes (skipn (Z.to_nat i) s)).
Proof.
  induction fuel as [|fuel IH]; intros i acc Hi Hf; simpl.
  - rewrite skipn_all2; [simpl; lia | unfold JS.length in Hf; lia].
  - destruct (i <? JS.length s) eqn:E.
    + apply Z.ltb_lt in E.
      destruct (nth_error_in_range s i) as [c Hc]; [lia|].
      rewrite charAt_nth, Hc by lia. rewrite (skipn_nth_error _ _ _ Hc).
      cbn [count_quotes char_is].
      replace (S (Z.to_nat i)) with (Z.to_nat (i + 1)) by lia.
      destruct (Ascii.eqb c Symbols.STRING_SYMBOL); rewrite IH by lia;
        [rewrite Nat2Z.inj_succ|]; lia.
    + apply Z.ltb_ge in E. lia.
Qed.

Lemma odd_mod2 (n : nat) : (Z.of_nat n mod 2 =? 1) = Nat.odd n.
Proof.
  destruct (Nat.odd n) eqn:E.
  - apply Nat.odd_spec in E as [m ->]. apply Z.eqb_eq.
    replace (Z.of_nat (2 * m + 1)) with (1 + Z.of_nat m * 2) by lia.
    now rewrite Z.mod_add.
  - apply Z.eqb_neq. rewrite <- Nat.negb_even in E. apply negb_false_iff in E.
    apply Nat.even_spec in E as [m ->].
    replace (Z.of_nat (2 * m)) with (0 + Z.of_nat m * 2) by lia.
    now rewrite Z.mod_add.
Qed.

(** In a text with an even number of delimiters, a character that is no
    delimiter is within a string for [isCharWithinString] exactly when an odd
    number of delimiters stand before it. *)
Lemma isCharWithinString_balanced (s : str) (k : Z) (c : ascii) :
  Nat.even (count_quotes s) = true ->
  0 <= k < JS.length s ->
  nth_error s (Z.to_nat k) = Some c ->
  Ascii.eqb c Symbols.STRING_SYMBOL = false ->
  isCharWithinString s k = Nat.odd (count_quotes (firstn (Z.to_nat k) s)).
Proof.
  intros Heven Hk Hc Hnq.
  assert (Hsplit : count_quotes s =
                   (count_quotes (firstn (Z.to_nat k) s) +
                    count_quotes (skipn (Z.to_nat (k + 1)) s))%nat).
  { rewrite <- (firstn_skipn (Z.to_nat k) s) at 1.
    rewrite count_quotes_app, (skipn_nth_error _ _ _ Hc). cbn [count_quotes].
    rewrite Hnq. now replace (S (Z.to_nat k)) with (Z.to_nat (k + 1)) by lia. }
  unfold isCharWithinString.
  rewrite charAt_nth, Hc by lia. cbn [char_is]. rewrite Hnq, orb_false_r.
  destruct (k =? 0) eqn:E0; cbn [orb].
  - apply Z.eqb_eq in E0. subst k. reflexivity.
  - destruct (k =? JS.length s - 1) eqn:E1; cbn [orb].
    + apply Z.eqb_eq in E1.
      rewrite skipn_all2 in Hsplit by (unfold JS.length in E1; lia).
      cbn [count_quotes] in Hsplit. rewrite Nat.add_0_r in Hsplit.
      rewrite <- Hsplit, <- Nat.negb_even, Heven. reflexivity.
    + unfold js_for. rewrite count_loop by lia. rewrite Z.add_0_l, odd_mod2.
      rewrite Hsplit, Nat.even_add in Heven.
      rewrite <- !Nat.negb_even.
      destruct (Nat.even (count_quotes (firstn (Z.to_nat k) s))),
               (Nat.even (count_quotes (skipn (Z.to_nat (k + 1)) s)));
        simpl in *; congruence.
Qed.

Lemma first_unquoted_separator_spec (suf : str) :
  forall pre,
    let s := pre ++ suf in
    match first_unquoted_separator (Nat.odd (count_quotes pre)) (JS.length pre) suf with
    | Some k =>
        JS.length pre <= k < JS.length s /\
        separator_outside_literal s k = true /\
        (forall j, JS.length pre <= j < k -> separator_outside_literal s j = false)
    | None =>
        forall j, JS.length pre <= j < JS.length s -> separator_outside_literal s j = false
    end.
Proof.
  induction suf as [|c suf IH]; intros pre s; cbn [first_unquoted_separator].
  - subst s. rewrite app_nil_r. intros j Hj. lia.
  - assert (Hs : s = (pre ++ [c]) ++ suf) by (subst s; now rewrite <- app_assoc).
    assert (Hlen : JS.length (pre ++ [c]) = JS.length pre + 1).
    { unfold JS.length. rewrite length_app. simpl. lia. }
    assert (Hat : separator_outside_literal s (JS.length pre) =
                  Ascii.eqb c Symbols.COND_SEPARATOR && negb (Nat.odd (count_quotes pre))).
    { unfold separator_outside_literal. rewrite charAt_nth by apply length_nonneg.
      unfold JS.length. rewrite Nat2Z.id. subst s.
      rewrite nth_error_app2, Nat.sub_diag by lia. cbn [nth_error char_is].
      rewrite firstn_app, Nat.sub_diag, firstn_all, firstn_O, app_nil_r.
      now rewrite Nat.negb_odd. }
    assert (Hslen : JS.length s = JS.length pre + 1 + JS.length suf).
    { subst s. unfold JS.length. rewrite length_app. simpl. lia. }
    assert (Hcount : Nat.odd (count_quotes (pre ++ [c])) =
                     if Ascii.eqb c Symbols.STRING_SYMBOL
                     then negb (Nat.odd (count_quotes pre))
                     else Nat.odd (count_quotes pre)).
    { rewrite count_quotes_app. cbn [count_quotes].
      destruct (Ascii.eqb c Symbols.STRING_SYMBOL).
      - rewrite Nat.add_1_r, Nat.odd_succ, <- Nat.negb_odd. reflexivity.
      - now rewrite Nat.add_0_r. }
    specialize (IH (pre ++ [c])). cbv zeta in IH. rewrite <- Hs, Hlen, Hcount in IH.
    destruct (Ascii.eqb c Symbols.STRING_SYMBOL) eqn:Eq.
    + assert (Ec : Ascii.eqb c Symbols.COND_SEPARATOR = false).
      { apply Ascii.eqb_eq in Eq. subst c. reflexivity. }
      rewrite Ec in Hat. cbn [andb] in Hat.
      destruct (first_unquoted_separator _ _ suf) as [k|].
      * destruct IH as (Hk & Hfound & Hbefore). repeat split; try lia; try assumption.
        intros j Hj. destruct (Z.eq_dec j (JS.length pre)) as [->|]; [assumption|].
        apply Hbefore. lia.
      * intros j Hj. destruct (Z.eq_dec j (JS.length pre)) as [->|]; [assumption|].
        apply IH. lia.
    + destruct (Ascii.eqb c Symbols.COND_SEPARATOR && negb (Nat.odd (count_quotes pre))) eqn:Es.
      * repeat split; try assumption; try lia. pose proof (length_nonneg suf). lia.
      * destruct (first_unquoted_separator _ _ suf) as [k|].
        -- destruct IH as (Hk & Hfound & Hbefore). repeat split; try lia; try assumption.
           intros j Hj. destruct (Z.eq_dec j (JS.length pre)) as [->|]; [assumption|].
           apply Hbefore. lia.
        -- intros j Hj. destruct (Z.eq_dec j (JS.length pre)) as [->|]; [assumption|].
           apply IH. lia.
Qed.

(** On a text with an even number of delimiters the test of the split loop is
    the left-to-right one. *)
Lemma split_test_balanced (s : str) (j : Z) :
  Nat.even (count_quotes s) = true ->
  0 <= j < JS.length s ->
  char_is (JS.charAt s j) Symbols.COND_SEPARATOR && negb (isCharWithinString s j)
  = separator_outside_literal s j.
Proof.
  intros Heven Hj. unfold separator_outside_literal.
  destruct (nth_error_in_range s j Hj) as [c Hc].
  rewrite charAt_nth, Hc by lia. cbn [char_is].
  destruct (Ascii.eqb c Symbols.COND_SEPARATOR) eqn:Ec; [|reflexivity].
  cbn [andb].
  rewrite (isCharWithinString_balanced s j c Heven Hj Hc).
  - apply Nat.negb_odd.
  - apply Ascii.eqb_eq in Ec. subst c. reflexivity.
Qed.

(** Where [getSplitTokens] splits a text whose literals are closed. *)
Lemma split_at_first_separator (srcString : str) :
  Nat.even (count_quotes srcString) = true ->
  match first_unquoted_separator false 0 srcString with
  | Some i =>
      getSplitTokens srcString =
        Return [firstn (Z.to_nat i) srcString; skipn (Z.to_nat (i + 1)) srcString]
  | None =>
      getSplitTokens srcString =
        Throw (Error (lit "Invalid syntax for token: " ++ srcString))
  end.
Proof.
  intro Heven.
  pose proof (first_unquoted_separator_spec srcString []) as Hspec.
  cbv zeta in Hspec. cbn [app count_quotes JS.length List.length Z.of_nat] in Hspec.
  change (Nat.odd 0) with false in Hspec.
  unfold getSplitTokens, js_for.
  destruct (first_unquoted_separator false 0 srcString) as [k|].
  - destruct Hspec as (Hk & Hfound & Hbefore).
    rewrite (for_loop_search_found
               (fun i => char_is (JS.charAt srcString i) Symbols.COND_SEPARATOR
                         && negb (isCharWithinString srcString i))
               (JS.length srcString) (-1) k).
    + destruct (k =? -1) eqn:E; [apply Z.eqb_eq in E; lia|].
      rewrite substring_prefix, substring_from_suffix by lia. reflexivity.
    + reflexivity.
    + lia.
    + rewrite split_test_balanced by (assumption || lia). assumption.
    + intros j Hj. rewrite split_test_balanced by (assumption || lia).
      apply Hbefore. lia.
  - rewrite (for_loop_search
               (fun i => char_is (JS.charAt srcString i) Symbols.COND_SEPARATOR
                         && negb (isCharWithinString srcString i))
               (JS.length srcString) (-1)).
    + reflexivity.
    + reflexivity.
    + intros j Hj. rewrite split_test_balanced by (assumption || lia).
      apply Hspec. lia.
Qed.

(** C3 (as amended). On every assertion with an even number of string
    delimiters (every literal is closed), [getSplitTokens] splits at the first
    [:] that does not lie inside a string literal, read from the left, and it
    throws when there is no such separator. *)
Theorem getSplitTokens_first_unquoted_separator (srcString : str) :
  Nat.even (count_quotes srcString) = true ->
  match first_unquoted_separator false 0 srcString with
  | Some i =>
      getSplitTokens srcString =
        Return [firstn (Z.to_nat i) srcString; skipn (Z.to_nat (i + 1)) srcString]
  | None =>
      getSplitTokens srcString =
        Throw (Error (lit "Invalid syntax for token: " ++ srcString))
  end.
Proof. exact (split_at_first_separator srcString). Qed.

(** The assertion [ALWAYS:'a:b' == 'a:b'] is split at its first colon, not at
    one inside a literal. *)
Lemma getSplitTokens_quoted_colon :
  Nat.even (count_quotes (lit "ALWAYS:'a:b' == 'a:b'")) = true /\
  getSplitTokens (lit "ALWAYS:'a:b' == 'a:b'") =
    Return [lit "ALWAYS"; lit "'a:b' == 'a:b'"].
Proof.
  split; [reflexivity|].
  exact (getSplitTokens_first_unquoted_separator (lit "ALWAYS:'a:b' == 'a:b'") eq_refl).
Defined.

(** C3 (as stated) fails on a literal that is not closed: in [ALWAYS:'a] the
    colon at index 6 stands before the only delimiter, outside every literal,
    and [getSplitTokens] throws all the same. *)
Lemma getSplitTokens_unclosed_literal :
  first_unquoted_separator false 0 (lit "ALWAYS:'a") = Some 6 /\
  getSplitTokens (lit "ALWAYS:'a") =
    Throw (Error (lit "Invalid syntax for token: ALWAYS:'a")).
Proof. split; reflexivity. Qed.

(* ------------------------------------------------------------------ *)
(** ** The token loop *)

Section TokenLoop.

Variable customFunctions : list str.
Variables data trimmed : str.

Let round := scan_token customFunctions data trimmed.

(** A round that returns has found [iterations] at 1000 or below and has
    counted one more. *)
Lemma scan_token_counts (st st' : scan) :
  round st = Return st' ->
  iterations st <= 1000 /\ iterations st' = iterations st + 1.
Proof.
  unfold round, scan_token. intro H.
  destruct (JS.charAt trimmed (startIndex st)) as [startChar|]; [|discriminate].
  match type of H with bind ?c _ = _ => destruct c as [e|err] end;
    cbn [bind] in H; [|discriminate].
  destruct (iterations st >? 1000) eqn:E; [discriminate|].
  injection H as <-. cbn [iterations]. lia.
Qed.

(** Past the cap every round throws. *)
Lemma scan_token_cap (st : scan) :
  1000 < iterations st -> exists e, round st = Throw e.
Proof.
  intro H. destruct (round st) as [st'|e] eqn:E; [|now exists e].
  apply scan_token_counts in E. lia.
Qed.

Lemma while_not_done_defined :
  forall fuel st,
    iterations st <= 1001 ->
    1002 <= iterations st + Z.of_nat fuel ->
    while_not_done fuel done round st <> None.
Proof.
  induction fuel as [|fuel IH]; intros st Hle Hfuel; [simpl in Hfuel; lia|].
  cbn [while_not_done]. destruct (done st); [discriminate|].
  destruct (round st) as [st'|e] eqn:E; [|discriminate].
  apply scan_token_counts in E as [Hcap Hnext]. apply IH; lia.
Qed.

Lemma while_not_done_more_fuel :
  forall fuel st r,
    while_not_done fuel done round st = Some r ->
    while_not_done (S fuel) done round st = Some r.
Proof.
  induction fuel as [|fuel IH]; intros st r H; [discriminate|].
  cbn [while_not_done] in H. change (while_not_done (S (S fuel)) done round st)
    with (if done st then Some (Return st)
          else match round st with
               | Return s' => while_not_done (S fuel) done round s'
               | Throw e => Some (Throw e)
               end).
  destruct (done st); [assumption|].
  destruct (round st); [now apply IH | assumption].
Qed.

Lemma while_not_done_stable (fuel fuel' : nat) (st : scan) (r : completion scan) :
  (fuel <= fuel')%nat ->
  while_not_done fuel done round st = Some r ->
  while_not_done fuel' done round st = Some r.
Proof.
  induction 1 as [|fuel' Hle IH]; intro H; [assumption|].
  now apply while_not_done_more_fuel, IH.
Qed.

(** The loop never returns more tokens than rounds it has made. *)
Lemma while_not_done_tokens :
  forall fuel st st',
    while_not_done fuel done round st = Some (Return st') ->
    Z.of_nat (List.length (tokens st')) - iterations st'
    = Z.of_nat (List.length (tokens st)) - iterations st /\
    (iterations st <= 1001 -> iterations st' <= 1001).
Proof.
  induction fuel as [|fuel IH]; intros st st' H; [discriminate|].
  cbn [while_not_done] in H. destruct (done st).
  - injection H as <-. split; [reflexivity | trivial].
  - destruct (round st) as [s1|e] eqn:E; [|discriminate].
    pose proof (scan_token_counts _ _ E) as [Hcap Hnext].
    apply IH in H as [Hlen Hbound].
    assert (Htok : List.length (tokens s1) = S (List.length (tokens st))).
    { unfold round, scan_token in E.
      destruct (JS.charAt trimmed (startIndex st)); [|discriminate].
      match type of E with bind ?c _ = _ => destruct c end; cbn [bind] in E;
        [|discriminate].
      destruct (iterations st >? 1000); [discriminate|].
      injection E as <-. cbn [tokens]. rewrite length_app. simpl. lia. }
    split; [lia | intros _; apply Hbound; lia].
Qed.

End TokenLoop.

(** An invariant of a [for] loop: it holds of the state whichever way the
    loop is left. *)
Lemma for_loop_invariant {St} (P : St -> Prop) (body : Z -> St -> ctl St) (n : Z) :
  forall fuel i s,
    P s ->
    (forall j s, i <= j -> P s ->
                 match body j s with Continue s' => P s' | Break s' => P s' end) ->
    P (for_loop fuel i n body s).
Proof.
  induction fuel as [|fuel IH]; intros i s Hs Hbody; simpl; [assumption|].
  destruct (i <? n); [|assumption].
  pose proof (Hbody i s (Z.le_refl i) Hs) as Hstep.
  destruct (body i s) as [s'|s']; [|assumption].
  apply IH; [assumption|]. intros j s0 Hj. apply Hbody. lia.
Qed.

Ltac end_index_loop :=
  unfold js_for; apply for_loop_invariant; [lia|];
  intros j s Hj Hs; cbv zeta;
  repeat match goal with
         | |- context [if ?b then _ else _] => destruct b
         end; lia.

Lemma getDataAccessEndIndex_ge (trimmed : str) (startIndex endIndex : Z) :
  startIndex <= endIndex -> startIndex <= getDataAccessEndIndex trimmed startIndex endIndex.
Proof. intro H. unfold getDataAccessEndIndex. end_index_loop. Qed.

Lemma getStringEndIndex_ge (trimmed : str) (startIndex endIndex : Z) :
  startIndex <= endIndex -> startIndex <= getStringEndIndex trimmed startIndex endIndex.
Proof. intro H. unfold getStringEndIndex. end_index_loop. Qed.

Lemma getNumberEndIndex_ge (trimmed : str) (startIndex endIndex : Z) :
  startIndex <= endIndex -> startIndex <= getNumberEndIndex trimmed startIndex endIndex.
Proof. intro H. unfold getNumberEndIndex. end_index_loop. Qed.

Lemma getStatementEndIndex_ge (trimmed : str) (startIndex endIndex : Z) :
  startIndex <= endIndex -> startIndex <= getStatementEndIndex trimmed startIndex endIndex.
Proof. intro H. unfold getStatementEndIndex. end_index_loop. Qed.

Lemma getFunctionEndIndex_ge (trimmed : str) (startIndex endIndex : Z) :
  startIndex <= endIndex -> startIndex <= getFunctionEndIndex trimmed startIndex endIndex.
Proof.
  intro H. unfold getFunctionEndIndex.
  match goal with
  | |- context [js_for ?a ?n ?body ?init] =>
      assert (Hinv : startIndex <= fst (fst (js_for a n body init)))
  end.
  { unfold js_for.
    apply (for_loop_invariant (fun st : Z * Z * bool => startIndex <= fst (fst st)));
      [simpl; lia|].
    intros j [[e nb] ff] Hj Hs. cbv zeta. simpl in Hs.
    repeat match goal with
           | |- context [if ?b then _ else _] => destruct b
           end; simpl; lia. }
  match goal with
  | |- context [js_for ?a ?n ?body ?init] => destruct (js_for a n body init) as [[e nb] ff]
  end.
  simpl in Hinv. destruct (negb ff); [now apply getStatementEndIndex_ge | assumption].
Qed.

Lemma getOperatorEndIndex_ge (trimmed : str) (startChar : ascii) (startIndex endIndex : Z) :
  startIndex <= endIndex ->
  startIndex <= getOperatorEndIndex trimmed startChar startIndex endIndex.
Proof.
  intro H. unfold getOperatorEndIndex.
  repeat match goal with
         | |- context [if ?b then _ else _] => destruct b
         end; lia.
Qed.

Lemma firstn_clamp (s : str) (a : Z) :
  firstn (Z.to_nat a) s = firstn (JS.clamp s a) s.
Proof.
  unfold JS.clamp, JS.length.
  destruct (Z_le_gt_dec a (Z.of_nat (List.length s))) as [Hle|Hgt].
  - destruct (Z_le_gt_dec 0 a).
    + f_equal. lia.
    + replace (Z.to_nat a) with O by lia.
      replace (Z.to_nat (Z.min (Z.max a 0) (Z.of_nat (List.length s)))) with O by lia.
      reflexivity.
  - rewrite !firstn_all2 by lia. reflexivity.
Qed.

Lemma firstn_plus_skipn {A} (s : list A) (a k : nat) :
  firstn a s ++ firstn k (skipn a s) = firstn (a + k) s.
Proof.
  revert s; induction a as [|a IH]; intros [|x s]; simpl;
    rewrite ?firstn_nil; try reflexivity.
  now rewrite IH.
Qed.

(** The text up to [a], followed by [substring(a, b)], is the text up to [b]. *)
Lemma firstn_substring (s : str) (a b : Z) :
  a <= b -> firstn (Z.to_nat a) s ++ JS.substring s a b = firstn (Z.to_nat b) s.
Proof.
  intro H. rewrite (firstn_clamp s a), (firstn_clamp s b). unfold JS.substring.
  assert (Hc : (JS.clamp s a <= JS.clamp s b)%nat) by (unfold JS.clamp; lia).
  rewrite Nat.min_l, Nat.max_r by assumption.
  rewrite firstn_plus_skipn. f_equal. lia.
Qed.

Lemma scan_token_scanned (customFunctions : list str) (data trimmed : str)
    (st st' : scan) :
  scanned trimmed st ->
  scan_token customFunctions data trimmed st = Return st' ->
  scanned trimmed st'.
Proof.
  intros (Hpos & Heq & Hcat & Hdone) H. unfold scan_token in H.
  destruct (JS.charAt trimmed (startIndex st)) as [startChar|] eqn:Ec; [|discriminate].
  assert (Hin : startIndex st < JS.length trimmed).
  { rewrite charAt_nth in Ec by assumption.
    assert (Hn : nth_error trimmed (Z.to_nat (startIndex st)) <> None) by congruence.
    apply nth_error_Some in Hn. unfold JS.length. lia. }
  match type of H with
  | bind ?c _ = _ =>
      assert (Hge : forall e, c = Return e -> startIndex st <= e);
      [|destruct c as [e|err]; cbn [bind] in H; [|discriminate]]
  end.
  { intros e He.
    repeat match type of He with
           | (if ?b then _ else _) = _ => destruct b
           end; try discriminate; injection He as <-.
    - apply getDataAccessEndIndex_ge; lia.
    - apply getStringEndIndex_ge; lia.
    - apply getNumberEndIndex_ge; lia.
    - apply getFunctionEndIndex_ge; lia.
    - apply getOperatorEndIndex_ge; lia. }
  specialize (Hge e eq_refl).
  destruct (iterations st >? 1000); [discriminate|].
  injection H as <-. unfold scanned. cbn [startIndex endIndex tokens done].
  repeat split.
  - lia.
  - rewrite concat_app, Hcat. cbn [List.concat]. rewrite app_nil_r.
    now apply firstn_substring.
  - destruct (e >=? JS.length trimmed) eqn:E.
    + intros _. lia.
    + intro Hd. specialize (Hdone Hd). lia.
Qed.

Lemma while_not_done_scanned (customFunctions : list str) (data trimmed : str) :
  forall fuel st st',
    scanned trimmed st ->
    while_not_done fuel done (scan_token customFunctions data trimmed) st
      = Some (Return st') ->
    scanned trimmed st' /\ done st' = true.
Proof.
  induction fuel as [|fuel IH]; intros st st' Hinv H; [discriminate|].
  cbn [while_not_done] in H. destruct (done st) eqn:Ed.
  - injection H as <-. now split.
  - destruct (scan_token customFunctions data trimmed st) as [s1|e] eqn:E;
      [|discriminate].
    eapply IH; [|eassumption]. eapply scan_token_scanned; eassumption.
Qed.

(** C8. The token loop of [generateConditionalString] ends on every input
    within the 1002 rounds the cap allows, with the tokens or with an error;
    more fuel changes nothing. Past the cap ([iterations] above 1000) every
    round throws, as on [1==$], where the loop makes no progress and the error
    is the one of the cap. When the loop returns, it has consumed the whole
    text without white space: the tokens, at most 1001, put together are that
    text. *)
Theorem tokenize_terminates (customFunctions : list str) (data : str) :
  (exists r, tokenize customFunctions 1002 data = Some r) /\
  (forall fuel, (1002 <= fuel)%nat ->
                tokenize customFunctions fuel data = tokenize customFunctions 1002 data) /\
  (forall st, 1000 < iterations st ->
              exists e, scan_token customFunctions data
                          (JS.remove_all is_space data) st = Throw e) /\
  (forall fuel tokens,
      tokenize customFunctions fuel data = Some (Return tokens) ->
      List.concat tokens = JS.remove_all is_space data /\
      (List.length tokens <= 1001)%nat) /\
  tokenize [] 1002 (lit "1==$") =
    Some (Throw (Error (lit "Maximum number of parsing iterations reached, there is a syntax error here: 1==$"))).
Proof.
  set (trimmed := JS.remove_all is_space data).
  set (init := Scan [] false 0 0 0).
  assert (Hdef : exists r, while_not_done 1002 done
                             (scan_token customFunctions data trimmed) init = Some r).
  { destruct (while_not_done 1002 done (scan_token customFunctions data trimmed) init)
      as [r|] eqn:E; [now exists r|].
    exfalso. revert E. apply while_not_done_defined; simpl; lia. }
  destruct Hdef as [r Hr].
  assert (Hstable : forall fuel, (1002 <= fuel)%nat ->
            while_not_done fuel done (scan_token customFunctions data trimmed) init
            = Some r).
  { intros fuel Hfuel. eapply while_not_done_stable; eassumption. }
  split; [|split; [|split; [|split]]].
  - unfold tokenize. fold trimmed init. rewrite Hr.
    destruct r; eexists; reflexivity.
  - intros fuel Hfuel. unfold tokenize. fold trimmed init.
    now rewrite Hr, (Hstable fuel Hfuel).
  - intros st Hst. now apply scan_token_cap.
  - intros fuel ts H. unfold tokenize in H. fold trimmed init in H.
    destruct (while_not_done fuel done (scan_token customFunctions data trimmed) init)
      as [[st'|e]|] eqn:E; try discriminate.
    injection H as <-. split.
    + apply while_not_done_scanned in E as [(Hpos & Heq & Hcat & Hdone) Hd].
      * rewrite Hcat. apply firstn_all2. specialize (Hdone Hd).
        unfold JS.length in Hdone. lia.
      * unfold scanned, init. cbn. repeat split; try lia; try discriminate.
    + apply while_not_done_tokens in E as [Hlen Hbound].
      unfold init in *. cbn in Hlen, Hbound. lia.
  - vm_compute. reflexivity.
Qed.

(** The tokens of [2 + 3 * 4 == 14], with the fuel of the source and with
    more. *)
Lemma tokenize_example :
  tokenize [] 2000 (lit "2 + 3 * 4 == 14")
    = ret [lit "2"; lit "+"; lit "3"; lit "*"; lit "4"; lit "=="; lit "14"] /\
  List.concat [lit "2"; lit "+"; lit "3"; lit "*"; lit "4"; lit "=="; lit "14"]
    = JS.remove_all is_space (lit "2 + 3 * 4 == 14") /\
  exists e, scan_token [] (lit "1==$") (JS.remove_all is_space (lit "1==$"))
              (Scan [] false 3 3 1001) = Throw e.
Proof.
  destruct (tokenize_terminates [] (lit "2 + 3 * 4 == 14")) as (_ & Hfuel & _ & Hcat & _).
  destruct (tokenize_terminates [] (lit "1==$")) as (_ & _ & Hcap & _).
  assert (Hrun : tokenize [] 1002 (lit "2 + 3 * 4 == 14")
                 = ret [lit "2"; lit "+"; lit "3"; lit "*"; lit "4"; lit "=="; lit "14"])
    by (vm_compute; reflexivity).
  split; [rewrite (Hfuel 2000%nat) by (apply Nat.leb_le; reflexivity); exact Hrun|].
  split; [exact (proj1 (Hcat 1002%nat _ Hrun))|].
  apply Hcap. reflexivity.
Defined.

(* ------------------------------------------------------------------ *)
(** ** Number strings *)

Lemma skip_digits_suffix (p : ascii -> bool) (s : str) :
  existsb p (skip_digits s) = true -> existsb p s = true.
Proof.
  induction s as [|c s IH]; simpl; [trivial|].
  destruct (is_digit c); simpl; [|trivial].
  intro H. rewrite (IH H). apply orb_true_r.
Qed.

Lemma starts_with_digit_exists (s : str) :
  starts_with_digit s = true -> existsb is_digit s = true.
Proof. destruct s as [|c s]; simpl; [discriminate|]. now intros ->. Qed.

Lemma match_number_body_exists (s : str) :
  match_number_body s = true -> existsb is_digit s = true.
Proof.
  unfold match_number_body. destruct (skip_digits s) as [|c r] eqn:E.
  - apply starts_with_digit_exists.
  - destruct (Ascii.eqb c "."%char) eqn:Ec; [|apply starts_with_digit_exists].
    intro H. apply orb_true_iff in H as [H|H]; [|now apply starts_with_digit_exists].
    apply skip_digits_suffix. rewrite E. cbn [existsb].
    rewrite (starts_with_digit_exists _ H). apply orb_true_r.
Qed.

Lemma match_number_body_digit (c : ascii) (s : str) :
  is_digit c = true -> match_number_body (c :: s) = true.
Proof.
  intro H. unfold match_number_body. cbn [starts_with_digit]. rewrite H.
  destruct (skip_digits (c :: s)) as [|d r]; [reflexivity|].
  destruct (Ascii.eqb d "."%char); [apply orb_true_r | reflexivity].
Qed.

(** The pattern of [isNumberString] has no anchors: it matches every text
    that holds a digit. *)
Lemma isNumberString_has_digit (s : str) : isNumberString s = existsb is_digit s.
Proof.
  unfold isNumberString. induction s as [|c s IH]; [reflexivity|].
  cbn [regex_number_search existsb]. rewrite IH.
  destruct (is_digit c) eqn:Ed.
  - unfold match_number_here. rewrite (match_number_body_digit c s Ed).
    now rewrite orb_true_r.
  - cbn [orb]. destruct (match_number_here (c :: s)) eqn:Em; [|reflexivity].
    cbn [orb]. symmetry. unfold match_number_here in Em.
    apply orb_true_iff in Em as [Em|Em].
    + apply andb_true_iff in Em as [_ Em]. now apply match_number_body_exists.
    + apply match_number_body_exists in Em. cbn [existsb] in Em.
      now rewrite Ed in Em.
Qed.

(** C10 (the code at the failing input). The token [&1], which the tokenizer
    cuts from the condition [3&1], is neither a string nor a number literal;
    [getSymbolForToken] passes it on as it is, because [isNumberString]
    accepts every text that holds a digit. *)
Lemma getSymbolForToken_passes_digit_token :
  isNumberString (lit "&1") = true /\
  getSymbolForToken [] (lit "&1") = ret (lit "&1") /\
  tokenize [] 1002 (lit "3&1") = ret [lit "3"; lit "&1"] /\
  generateFunctionString [] (lit "ALWAYS:3&1") =
    ret (lit "if(true){return(3&1);}else{return(true);}").
Proof. repeat split; vm_compute; reflexivity. Qed.

(* ------------------------------------------------------------------ *)
(** ** The loops on fuel have enough of it *)

(** A [while] loop whose measure decreases ends within the measure. *)
Lemma while_loop_ends {St} (measure : St -> nat) (cond : St -> bool) (body : St -> St) :
  (forall s, cond s = true -> (measure (body s) < measure s)%nat) ->
  forall fuel s, (measure s <= fuel)%nat -> cond (while_loop fuel cond body s) = false.
Proof.
  intros Hdec. induction fuel as [|fuel IH]; intros s Hs; cbn [while_loop].
  - destruct (cond s) eqn:E; [|reflexivity]. specialize (Hdec s E). lia.
  - destruct (cond s) eqn:E; [|assumption]. apply IH. specialize (Hdec s E). lia.
Qed.

(** The loop of [cutRemainderUntilCharMatches] is left because its condition
    is false, not for want of fuel. *)
Lemma cutRemainderUntilCharMatches_loop_ends (srcString : str) (charRegex : ascii -> bool) :
  let cond := fun st : Z * option ascii =>
                negb (char_matches charRegex (snd st)) && (fst st >? 0) in
  cond (while_loop (List.length srcString) cond
          (fun st => let endIndex := fst st - 1 in (endIndex, JS.charAt srcString endIndex))
          (JS.length srcString - 1, JS.charAt srcString (JS.length srcString - 1)))
  = false.
Proof.
  intro cond. apply (while_loop_ends (fun st => Z.to_nat (fst st))).
  - intros [endIndex char] H. unfold cond in H. cbn [fst snd] in *.
    apply andb_true_iff in H as [_ H]. rewrite Z.gtb_ltb in H. apply Z.ltb_lt in H. lia.
  - cbn [fst]. unfold JS.length. lia.
Qed.

Lemma cutFrontUntilCharMatches_loop_ends (srcString : str) (charRegex : ascii -> bool) :
  let cond := fun st : Z * option ascii =>
                negb (char_matches charRegex (snd st)) &&
                (fst st <? JS.length srcString - 1) in
  cond (while_loop (List.length srcString) cond
          (fun st => let startIndex := fst st + 1 in
                     (startIndex, JS.charAt srcString startIndex))
          (0, JS.charAt srcString 0))
  = false.
Proof.
  intro cond.
  apply (while_loop_ends (fun st => Z.to_nat (JS.length srcString - 1 - fst st))).
  - intros [startIndex char] H. unfold cond in H. cbn [fst snd] in *.
    apply andb_true_iff in H as [_ H]. apply Z.ltb_lt in H. lia.
  - cbn [fst]. unfold JS.length. lia.
Qed.

(** A [for] loop whose body may throw: an invariant that excludes the throw
    lets the loop return, and holds of what it returns. *)
Lemma for_loopM_invariant {St} (P : St -> Prop) (body : Z -> St -> completion (ctl St))
    (n : Z) :
  forall fuel i s,
    P s ->
    (forall j s, i <= j < n -> P s ->
                 match body j s with
                 | Return (Continue s') => P s'
                 | Return (Break s') => P s'
                 | Throw _ => False
                 end) ->
    exists s', for_loopM fuel i n body s = Return s' /\ P s'.
Proof.
  induction fuel as [|fuel IH]; intros i s Hs Hbody; cbn [for_loopM].
  - now exists s.
  - destruct (i <? n) eqn:E; [|now exists s]. apply Z.ltb_lt in E.
    pose proof (Hbody i s (conj (Z.le_refl i) E) Hs) as Hstep.
    destruct (body i s) as [[s'|s']|e]; [|now exists s'|contradiction].
    apply IH; [assumption|]. intros j s0 Hj. apply Hbody. lia.
Qed.

Lemma indexOf_from_range (p : str) :
  forall s i, 0 <= i -> JS.indexOf_from s p i = -1 \/ i <= JS.indexOf_from s p i.
Proof.
  induction s as [|c s IH]; intros i Hi; cbn [JS.indexOf_from].
  - destruct (JS.startsWith [] p); [right; lia | now left].
  - destruct (JS.startsWith (c :: s) p); [right; lia|].
    destruct (IH (i + 1)) as [H|H]; [lia | now left | right; lia].
Qed.

Lemma substring_length (s : str) (a b : Z) :
  (List.length (JS.substring s a b) <= List.length s)%nat.
Proof.
  unfold JS.substring. rewrite length_firstn, length_skipn. lia.
Qed.

(** [getSubstringWithinParentheses] never throws, and what it returns is
    shorter than a text that is not empty. *)
Lemma getSubstringWithinParentheses_returns (srcString : str) :
  exists inner,
    getSubstringWithinParentheses srcString = Return inner /\
    (srcString <> [] -> (List.length inner < List.length srcString)%nat).
Proof.
  unfold getSubstringWithinParentheses.
  set (bracketStart := JS.indexOf srcString [Symbols.BRACKET_OPEN] + 1).
  assert (Hstart : 0 <= bracketStart).
  { unfold bracketStart, JS.indexOf.
    destruct (indexOf_from_range [Symbols.BRACKET_OPEN] srcString 0); lia. }
  unfold js_forM.
  match goal with
  | |- context [for_loopM ?fuel ?i ?n ?body ?init] =>
      destruct (for_loopM_invariant
                  (fun st : Z * Z =>
                     0 <= snd st /\ bracketStart <= fst st /\
                     (fst st = bracketStart \/ fst st < JS.length srcString))
                  body n fuel i init) as (st & Hrun & Hnum & Hle & Hend)
  end.
  - cbn [fst snd]. lia.
  - intros j [bracketEnd num] Hj (Hnum & Hle & Hend). cbn [fst snd] in *.
    destruct (char_is (JS.charAt srcString j) Symbols.BRACKET_OPEN);
      [cbn [fst snd]; lia|].
    destruct (char_is (JS.charAt srcString j) Symbols.BRACKET_CLOSE);
      [|cbn [fst snd]; lia].
    destruct (num >? 0) eqn:Eg; [cbn [fst snd]; lia|].
    destruct (num =? 0) eqn:E0; [cbn [fst snd]; lia|].
    rewrite Z.gtb_ltb in Eg. apply Z.ltb_ge in Eg. apply Z.eqb_neq in E0. lia.
  - rewrite Hrun. cbn [bind]. eexists. split; [reflexivity|].
    intro Hne. destruct st as [bracketEnd num]. cbn [fst snd] in *.
    assert (Hlen : 0 < JS.length srcString).
    { destruct srcString; [contradiction | unfold JS.length; cbn; lia]. }
    unfold JS.substring, JS.clamp. rewrite length_firstn, length_skipn.
    unfold JS.length in *. lia.
Qed.

(** The arguments [getFunctionArgs] cuts are not longer than the text. *)
Lemma getFunctionArgs_length (argString arg : str) :
  In arg (getFunctionArgs argString) ->
  (List.length arg <= List.length argString)%nat.
Proof.
  unfold getFunctionArgs.
  set (trimmed := JS.remove_all is_space argString).
  assert (Htrim : (List.length trimmed <= List.length argString)%nat).
  { unfold trimmed, JS.remove_all. apply filter_length_le. }
  match goal with
  | |- context [js_for ?a ?n ?body ?init] =>
      assert (Hinv : Forall (fun x => (List.length x <= List.length trimmed)%nat)
                       (fst (fst (js_for a n body init))))
  end.
  { unfold js_for.
    apply (for_loop_invariant
             (fun st : list str * Z * Z =>
                Forall (fun x => (List.length x <= List.length trimmed)%nat) (fst (fst st))));
      [constructor|].
    intros j [[res start] num] Hj Hres. cbn [fst] in Hres. cbv zeta.
    repeat match goal with
           | |- context [if ?b then _ else _] => destruct b
           end; cbn [fst]; try assumption;
      (apply Forall_app; split; [assumption|]; constructor; [|constructor];
       apply substring_length). }
  match goal with
  | |- context [js_for ?a ?n ?body ?init] => destruct (js_for a n body init) as [[res s0] n0]
  end.
  cbn [fst] in Hinv. intro Hin. rewrite Forall_forall in Hinv.
  specialize (Hinv arg Hin). lia.
Qed.

Lemma for_loopF_returns {St} (body : Z -> St -> fueled St) (n : Z) :
  forall rounds i s,
    (forall j s, i <= j < n -> exists s', body j s = ret s') ->
    exists s', for_loopF rounds i n body s = ret s'.
Proof.
  induction rounds as [|rounds IH]; intros i s Hbody; cbn [for_loopF].
  - now exists s.
  - destruct (i <? n) eqn:E; [|now exists s]. apply Z.ltb_lt in E.
    destruct (Hbody i s (conj (Z.le_refl i) E)) as [s' Hs']. rewrite Hs'. cbn [bindF ret].
    apply IH. intros j s0 Hj. apply Hbody. lia.
Qed.

Lemma isStatementToken_nil_function (customFunctions : list str) :
  isFunctionToken customFunctions [] = true ->
  isStatementToken customFunctions [] = true.
Proof. intro H. unfold isStatementToken. now rewrite H. Qed.

(** With more fuel than the token has characters, [getSymbolForToken] returns
    a symbol: the recursion on the arguments of a function token ends, and
    nothing is thrown. *)
Lemma getSymbolForToken_fuel_returns (customFunctions : list str) :
  forall fuel token,
    (List.length token < fuel)%nat ->
    exists symbol, getSymbolForToken_fuel customFunctions fuel token = ret symbol.
Proof.
  induction fuel as [|fuel IH]; intros token Hfuel; [lia|].
  cbn [getSymbolForToken_fuel].
  repeat match goal with
         | |- exists symbol, ret ?x = ret symbol => now exists x
         | |- exists symbol, (if ?b then _ else _) = _ => destruct b eqn:?
         end.
  (* a function token that is no statement *)
  assert (Hne : token <> []).
  { intro Hnil. rewrite Hnil in *.
    match goal with
    | Hs : isStatementToken _ [] = false, Hf : isFunctionToken _ [] = true |- _ =>
        rewrite (isStatementToken_nil_function _ Hf) in Hs; discriminate
    end. }
  unfold parseFunctionToken_with.
  destruct (getSubstringWithinParentheses_returns token) as (inner & Hinner & Hshort).
  rewrite Hinner. cbn [lift bindF]. specialize (Hshort Hne).
  match goal with
  | |- context [js_forF ?a ?n ?body ?init] =>
      destruct (for_loopF_returns body n (Z.to_nat (n - a)) a init) as [argSymbols Hargs]
  end.
  - intros j s Hj.
    assert (Hin : In (nth (Z.to_nat j) (getFunctionArgs inner) [])
                     (getFunctionArgs inner)) by (apply nth_In; lia).
    apply getFunctionArgs_length in Hin.
    destruct (IH (nth (Z.to_nat j) (getFunctionArgs inner) [])) as [symbol Hsymbol]; [lia|].
    rewrite Hsymbol. cbn [bindF ret].
    destruct (j <? Z.of_nat (List.length (getFunctionArgs inner)) - 1); eexists; reflexivity.
  - unfold js_forF. rewrite Hargs. cbn [bindF ret]. eexists. reflexivity.
Qed.

(** A replacement text without [$] stands for itself. *)
Lemma getSubstitution_plain (matched before after text : str) :
  forallb (fun c => negb (Ascii.eqb c "$"%char)) text = true ->
  JS.getSubstitution matched before after text = text.
Proof.
  induction text as [|d text IH]; intro Htext; [reflexivity|].
  cbn [forallb] in Htext. apply andb_true_iff in Htext as [Hd Htext].
  apply negb_true_iff in Hd. cbn [JS.getSubstitution]. rewrite Hd. now rewrite IH.
Qed.

(** The text [this.model.] put for the prefix of a reference. *)
Lemma replace_prefix_with (prefix : ascii) (token text : str) :
  JS.startsWith token [prefix] = true ->
  forallb (fun c => negb (Ascii.eqb c "$"%char)) text = true ->
  JS.replace token [prefix] text = text ++ tl token.
Proof.
  destruct token as [|c token]; [discriminate|]. cbn [JS.startsWith].
  rewrite andb_true_r. intros H Htext. apply Ascii.eqb_eq in H. subst c.
  unfold JS.replace, JS.indexOf. cbn [JS.indexOf_from JS.startsWith].
  rewrite Ascii.eqb_refl. cbn [andb Z.eqb firstn Z.to_nat Nat.add List.length skipn app tl].
  now rewrite getSubstitution_plain.
Qed.

(** The symbols of the fifteen operators and brackets. *)
Lemma operator_symbols :
  [Symbols.LESS; Symbols.LESS_EQUAL; Symbols.EQUAL; Symbols.NOT_EQUAL;
   Symbols.GREATER_EQUAL; Symbols.GREATER; Symbols.PLUS; Symbols.MINUS;
   Symbols.TIMES; Symbols.DIV; Symbols.MOD; [Symbols.BRACKET_OPEN];
   [Symbols.BRACKET_CLOSE]; Symbols.AND; Symbols.OR]
  = map lit ["<"; "<="; "=="; "!="; ">="; ">"; "+"; "-"; "*"; "/"; "%"; "("; ")";
             "&&"; "||"]%string.
Proof. reflexivity. Qed.

(** What [getSymbolForToken] returns, by the tests of the code in their
    order: a reference, a call, the token itself when [isString] or
    [isNumberString] accepts it (that is, when it is quoted or holds a digit),
    one of the fifteen operator symbols, or the empty text. It always returns:
    no token makes it throw. *)
Lemma getSymbolForToken_cases (customFunctions : list str) (token : str) :
  exists symbol,
    getSymbolForToken customFunctions token = ret symbol /\
    ((isModelVariable token = true /\
      symbol = lit "this.model" ++
               (if JS.length token =? 1 then [] else "."%char :: tl token)) \/
     (isModelVariable token = false /\ isStateVariable token = true /\
      symbol = lit "this.state" ++
               (if JS.length token =? 1 then [] else "."%char :: tl token)) \/
     (isModelVariable token = false /\ isStateVariable token = false /\
      ((isStatementToken customFunctions token = true /\
        symbol = lit "this.functions['" ++ token ++ lit "'](this.model, this.state)") \/
       (isStatementToken customFunctions token = false /\
        isFunctionToken customFunctions token = true /\
        exists argSymbols,
          symbol = lit "this.functions['" ++ hd [] (JS.split token "("%char) ++
                   lit "'](" ++ argSymbols ++ lit ")") \/
       (isFunctionToken customFunctions token = false /\
        ((isString token || existsb is_digit token = true /\ symbol = token) \/
         (isString token || existsb is_digit token = false /\
          ((In token (map lit ["<"; "<="; "=="; "!="; ">="; ">"; "+"; "-"; "*"; "/";
                               "%"; "("; ")"; "&&"; "||"]%string) /\ symbol = token) \/
           (~ In token (map lit ["<"; "<="; "=="; "!="; ">="; ">"; "+"; "-"; "*"; "/";
                                 "%"; "("; ")"; "&&"; "||"]%string) /\ symbol = [])))))))).
Proof.
  destruct (getSymbolForToken_fuel_returns customFunctions (S (List.length token)) token)
    as [symbol Hsymbol]; [lia|].
  exists symbol. split; [exact Hsymbol|].
  cbn [getSymbolForToken_fuel] in Hsymbol.
  destruct (isModelVariable token) eqn:Em.
  { left. split; [reflexivity|].
    destruct (JS.length token =? 1); injection Hsymbol as <-; [reflexivity|].
    exact (replace_prefix_with _ _ (lit "this.model.") Em eq_refl). }
  destruct (isStateVariable token) eqn:Es.
  { right; left. repeat split.
    destruct (JS.length token =? 1); injection Hsymbol as <-; [reflexivity|].
    exact (replace_prefix_with _ _ (lit "this.state.") Es eq_refl). }
  right; right. repeat split.
  destruct (isStatementToken customFunctions token) eqn:Est.
  { left. split; [reflexivity|]. now injection Hsymbol as <-. }
  destruct (isFunctionToken customFunctions token) eqn:Ef.
  { right; left. repeat split.
    unfold parseFunctionToken_with in Hsymbol.
    destruct (getSubstringWithinParentheses token) as [inner|e];
      cbn [lift bindF] in Hsymbol; [|discriminate].
    match type of Hsymbol with
    | bindF ?loop _ = _ => destruct loop as [[argSymbols|e]|]
    end; cbn [bindF ret] in Hsymbol; try discriminate.
    exists argSymbols. now injection Hsymbol as <-. }
  right; right. split; [reflexivity|].
  rewrite <- isNumberString_has_digit.
  destruct (isString token) eqn:Eq.
  { left. split; [reflexivity|]. now injection Hsymbol as <-. }
  destruct (isNumberString token) eqn:En.
  { left. split; [reflexivity|]. now injection Hsymbol as <-. }
  right. split; [reflexivity|].
  repeat match type of Hsymbol with
         | (if JS.str_eqb token ?op then _ else _) = _ =>
             let E := fresh "E" in
             destruct (JS.str_eqb token op) eqn:E;
             [apply str_eqb_eq in E; subst token; injection Hsymbol as <-;
              left; split; [cbn; tauto | reflexivity]|]
         end.
  right. split; [|now injection Hsymbol as <-].
  intro Hin. cbn [map In] in Hin.
  repeat (destruct Hin as [Hin|Hin];
          [subst token;
           repeat match goal with
                  | H : JS.str_eqb _ _ = false |- _ =>
                      (vm_compute in H; discriminate H) || clear H
                  end|]).
  exact Hin.
Qed.

(* ------------------------------------------------------------------ *)
(** ** Operators *)

Lemma isStatementToken_false (customFunctions : list str) (token : str) :
  isFunctionToken customFunctions token = false ->
  isStatementToken customFunctions token = false.
Proof. intro H. unfold isStatementToken. now rewrite H. Qed.

(** The token the tokenizer cuts at a lone [&]: the symbol put for it is the
    empty text, or the token itself when its second character is a digit. *)
Lemma lone_ampersand_symbol (customFunctions : list str) (c : ascii) :
  Ascii.eqb c "&"%char = false ->
  isFunctionToken customFunctions ["&"%char; c] = false ->
  getSymbolForToken customFunctions ["&"%char; c]
  = ret (if is_digit c then ["&"%char; c] else []).
Proof.
  intros Hc Hf.
  destruct (getSymbolForToken_cases customFunctions ["&"%char; c])
    as (symbol & Hsymbol & Hcases).
  rewrite Hsymbol. f_equal. f_equal.
  destruct Hcases as [[Hm _]|[(_ & Hs & _)|(_ & _ & Hcases)]]; try discriminate.
  destruct Hcases as [[Hst _]|[(_ & Hfun & _)|(_ & Hcases)]].
  - rewrite (isStatementToken_false _ _ Hf) in Hst. discriminate.
  - rewrite Hf in Hfun. discriminate.
  - change (isString ["&"%char; c]) with false in Hcases.
    change (existsb is_digit ["&"%char; c]) with (is_digit c || false) in Hcases.
    rewrite orb_false_r in Hcases. cbn [orb] in Hcases.
    destruct Hcases as [[Hd ->]|(Hd & [[Hin ->]|[_ ->]])]; rewrite Hd; try reflexivity.
    exfalso. cbn [map In] in Hin.
    repeat (destruct Hin as [Hin|Hin]; [try discriminate Hin|]); try contradiction.
    injection Hin as <-. discriminate Hc.
Qed.

(** C6 (the code at the failing input, with what holds of every operator
    token). The length of an operator token is fixed by its first character:
    one that starts with [<], [>], [!] or [=] has two characters when the
    next character is [=] and one otherwise; one that starts with [&] or [|]
    always has two. The symbol table knows [&&] and not [&], and a round of
    the tokenizer whose leading character starts none of the token classes
    throws. The token [&c] that the tokenizer cuts at a lone [&] is replaced
    by the empty text unless [c] is a digit: then it is passed on as it is.
    So in the condition [3&1] the tokens are [3] and [&1], and the lone [&]
    reaches the compiled text, [3&1]. *)
Theorem operator_tokenization :
  (forall trimmed startChar startIndex endIndex,
      In startChar ["<"; ">"; "!"; "="]%char ->
      getOperatorEndIndex trimmed startChar startIndex endIndex =
        startIndex + (if char_is (JS.charAt trimmed (startIndex + 1)) "="%char
                      then 2 else 1)) /\
  (forall trimmed startChar startIndex endIndex,
      In startChar ["&"; "|"]%char ->
      getOperatorEndIndex trimmed startChar startIndex endIndex = startIndex + 2) /\
  (forall customFunctions,
      isFunctionToken customFunctions (lit "&") = false ->
      isFunctionToken customFunctions (lit "&&") = false ->
      getSymbolForToken customFunctions (lit "&") = ret [] /\
      getSymbolForToken customFunctions (lit "&&") = ret (lit "&&")) /\
  (forall customFunctions c,
      Ascii.eqb c "&"%char = false ->
      isFunctionToken customFunctions ["&"%char; c] = false ->
      getSymbolForToken customFunctions ["&"%char; c]
      = ret (if is_digit c then ["&"%char; c] else [])) /\
  (forall customFunctions data trimmed st startChar,
      JS.charAt trimmed (startIndex st) = Some startChar ->
      Ascii.eqb startChar Symbols.MODEL_PREFIX = false ->
      Ascii.eqb startChar Symbols.STATE_PREFIX = false ->
      Ascii.eqb startChar Symbols.STRING_SYMBOL = false ->
      is_digit startChar = false ->
      isFunctionToken customFunctions (JS.substring_from trimmed (startIndex st)) = false ->
      existsb (fun c => char_is c startChar) Symbols.OPERATOR_START = false ->
      scan_token customFunctions data trimmed st =
        Throw (Error (lit "Unable to parse statement: " ++ data ++
                      lit ", char: " ++ [startChar] ++
                      lit ", index: " ++ string_of_Z (startIndex st)))) /\
  (getOperatorEndIndex (lit "3&1") "&"%char 1 1 = 3 /\
   scan_token [] (lit "3&1") (lit "3&1") (Scan [lit "3"] false 1 1 1)
     = Return (Scan [lit "3"; lit "&1"] true 3 3 2) /\
   generateConditionalString [] (lit "3&1") = ret (lit "3&1")).
Proof.
  split; [|split; [|split; [|split; [|split]]]].
  - intros trimmed startChar startIndex endIndex Hin.
    simpl in Hin. decompose [or] Hin; subst; try contradiction; reflexivity.
  - intros trimmed startChar startIndex endIndex Hin.
    simpl in Hin. decompose [or] Hin; subst; try contradiction; reflexivity.
  - intros customFunctions H H0. split.
    + unfold getSymbolForToken. change (List.length (lit "&")) with 1%nat.
      cbn [getSymbolForToken_fuel].
      rewrite (isStatementToken_false _ _ H), H. reflexivity.
    + unfold getSymbolForToken. change (List.length (lit "&&")) with 2%nat.
      cbn [getSymbolForToken_fuel].
      rewrite (isStatementToken_false _ _ H0), H0. reflexivity.
  - intros customFunctions c Hc Hf.
    exact (lone_ampersand_symbol customFunctions c Hc Hf).
  - intros customFunctions data trimmed st startChar Hc Hm Hs Hq Hd Hf Ho.
    unfold scan_token. rewrite Hc, Hm, Hs, Hq, Hd, Hf, Ho. reflexivity.
  - repeat split; vm_compute; reflexivity.
Qed.

(** [<=] and [<] in [1<=2] and [1<2], a lone [&] before a letter and before a
    digit, and the character [?]. *)
Lemma operator_tokenization_examples :
  getOperatorEndIndex (lit "1<=2") "<"%char 1 1 = 3 /\
  getOperatorEndIndex (lit "1<2") "<"%char 1 1 = 2 /\
  getOperatorEndIndex (lit "1&2") "&"%char 1 1 = 3 /\
  getSymbolForToken [] (lit "&") = ret [] /\
  getSymbolForToken [] (lit "&&") = ret (lit "&&") /\
  getSymbolForToken [] (lit "&a") = ret [] /\
  getSymbolForToken [] (lit "&2") = ret (lit "&2") /\
  scan_token [] (lit "1 ? 2") (lit "1?2") (Scan [lit "1"] false 1 1 1) =
    Throw (Error (lit "Unable to parse statement: 1 ? 2, char: ?, index: 1")).
Proof.
  destruct operator_tokenization as (Hcmp & Hlogic & Hsymbol & Hlone & Hfatal & _).
  split; [exact (Hcmp (lit "1<=2") "<"%char 1 1 (or_introl eq_refl))|].
  split; [exact (Hcmp (lit "1<2") "<"%char 1 1 (or_introl eq_refl))|].
  split; [exact (Hlogic (lit "1&2") "&"%char 1 1 (or_introl eq_refl))|].
  destruct (Hsymbol [] eq_refl eq_refl) as [Hone Hboth].
  split; [exact Hone|]. split; [exact Hboth|].
  split; [exact (Hlone [] "a"%char eq_refl eq_refl)|].
  split; [exact (Hlone [] "2"%char eq_refl eq_refl)|].
  exact (Hfatal [] (lit "1 ? 2") (lit "1?2") (Scan [lit "1"] false 1 1 1) "?"%char
           eq_refl eq_refl eq_refl eq_refl eq_refl eq_refl eq_refl).
Defined.

(* ------------------------------------------------------------------ *)
(** ** The host: lexing a text in pieces *)

Module HostFacts.
Import Host.

Lemma lex_from_feed (s : str) :
  forall p,
    lex_from p s =
      match feed p s with
      | Some (ts, q) =>
          match flush q with
          | Some last => Some (ts ++ last)
          | None => None
          end
      | None => None
      end.
Proof.
  induction s as [|c s IH]; intro p; cbn [lex_from feed].
  - destruct (flush p); reflexivity.
  - destruct (step p c) as [[first p']|]; [|reflexivity].
    rewrite IH. destruct (feed p' s) as [[rest q]|]; [|reflexivity].
    destruct (flush q); [|reflexivity]. now rewrite app_assoc.
Qed.

Lemma lex_from_app (s1 s2 : str) :
  forall p,
    lex_from p (s1 ++ s2) =
      match feed p s1 with
      | Some (ts, q) =>
          match lex_from q s2 with
          | Some rest => Some (ts ++ rest)
          | None => None
          end
      | None => None
      end.
Proof.
  induction s1 as [|c s1 IH]; intro p; cbn [app lex_from feed].
  - destruct (lex_from p s2); reflexivity.
  - destruct (step p c) as [[first p']|]; [|reflexivity].
    rewrite IH. destruct (feed p' s1) as [[rest q]|]; [|reflexivity].
    destruct (lex_from q s2); [|reflexivity]. now rewrite app_assoc.
Qed.

(** A closing bracket ends whatever token is being read. *)
Lemma step_closing_bracket (p : pending) (last : list token) :
  flush p = Some last -> step p ")"%char = Some (last ++ [TSym RParen], PNone).
Proof.
  destruct p as [|digits|chars|chars|c|star]; cbn [flush step].
  - now intros [= <-].
  - change (is_digit ")"%char) with false.
    change (Ascii.eqb ")"%char "."%char || is_name_start ")"%char) with false.
    cbv iota. unfold flush_then_start. cbn [flush].
    destruct (number_of_digits (rev digits)); [|discriminate].
    now intros [= <-].
  - change (is_name_char ")"%char) with false. cbv iota.
    unfold flush_then_start. cbn [flush]. now intros [= <-].
  - discriminate.
  - change (Ascii.eqb ")"%char "="%char) with false.
    change (Ascii.eqb ")"%char "&"%char) with false.
    change (Ascii.eqb ")"%char "|"%char) with false.
    change (Ascii.eqb ")"%char "/"%char) with false.
    change (Ascii.eqb ")"%char "*"%char) with false.
    rewrite !andb_false_r. unfold flush_then_start. cbn [flush].
    intro H. rewrite H. reflexivity.
  - discriminate.
Qed.

(** The tokens of a text that is followed by a closing bracket. *)
Lemma lex_from_closing_bracket (s rest : str) (p : pending) (ts : list token) :
  lex_from p s = Some ts ->
  lex_from p (s ++ ")"%char :: rest) =
    match lex_from PNone rest with
    | Some more => Some (ts ++ TSym RParen :: more)
    | None => None
    end.
Proof.
  intro H. rewrite lex_from_feed in H. rewrite lex_from_app.
  destruct (feed p s) as [[first q]|]; [|discriminate].
  destruct (flush q) as [last|] eqn:E; [|discriminate].
  injection H as <-. cbn [lex_from]. rewrite (step_closing_bracket q last E).
  destruct (lex_from PNone rest); [|reflexivity].
  now rewrite <- !app_assoc.
Qed.

(** The tokens of the text [generateFunction] emits, given those of the
    activation and of the condition. *)
Lemma lex_function_string (activation condition : str) (ta tc : list token) :
  lex activation = Some ta ->
  lex condition = Some tc ->
  lex (lit "if(" ++ activation ++ lit "){return(" ++ condition ++
       lit ");}else{return(true);}") =
    Some (TName (lit "if") :: TSym LParen :: ta ++
          TSym RParen :: TSym LBrace :: TName (lit "return") :: TSym LParen :: tc ++
          [TSym RParen; TSym Semi; TSym RBrace; TName (lit "else"); TSym LBrace;
           TName (lit "return"); TSym LParen; TName (lit "true"); TSym RParen;
           TSym Semi; TSym RBrace]).
Proof.
  intros Ha Hc. unfold lex in *.
  rewrite (lex_from_app (lit "if(")).
  change (feed PNone (lit "if(")) with (Some ([TName (lit "if"); TSym LParen], PNone)).
  cbv beta iota.
  change (lit "){return(" ++ condition ++ lit ");}else{return(true);}")
    with (")"%char :: lit "{return(" ++ condition ++ ")"%char :: lit ";}else{return(true);}").
  rewrite (lex_from_closing_bracket _ _ _ _ Ha).
  rewrite (lex_from_app (lit "{return(")).
  change (feed PNone (lit "{return("))
    with (Some ([TSym LBrace; TName (lit "return"); TSym LParen], PNone)).
  cbv beta iota.
  rewrite (lex_from_closing_bracket _ _ _ _ Hc).
  change (lex_from PNone (lit ";}else{return(true);}"))
    with (Some [TSym Semi; TSym RBrace; TName (lit "else"); TSym LBrace;
                TName (lit "return"); TSym LParen; TName (lit "true"); TSym RParen;
                TSym Semi; TSym RBrace]).
  cbn [app]. reflexivity.
Qed.

(* ------------------------------------------------------------------ *)
(** ** The host: parsing an expression that is followed by more text *)

Lemma parse_expr_step (fuel minp : nat) (ts : list token) :
  parse_expr (S fuel) minp ts =
    match parse_primary fuel ts with
    | Some (e, ts1) => let '(lhs, ts2) := members e ts1 in climb fuel minp lhs ts2
    | None => None
    end.
Proof. reflexivity. Qed.

Lemma climb_step (fuel minp : nat) (lhs : expr) (ts : list token) :
  climb (S fuel) minp lhs ts =
    match ts with
    | TOp o :: ts1 =>
        if Nat.leb minp (prec o) then
          match parse_expr fuel (S (prec o)) ts1 with
          | Some (rhs, ts2) => climb fuel minp (EBin o lhs rhs) ts2
          | None => None
          end
        else Some (lhs, ts)
    | _ => Some (lhs, ts)
    end.
Proof. reflexivity. Qed.

Lemma parse_args_step (fuel : nat) (acc : list expr) (ts : list token) :
  parse_args (S fuel) acc ts =
    match parse_expr fuel 0 ts with
    | Some (e, TSym Comma :: ts1) => parse_args fuel (e :: acc) ts1
    | Some (e, TSym RParen :: ts1) => Some (rev (e :: acc), ts1)
    | _ => None
    end.
Proof. reflexivity. Qed.

Lemma parse_primary_nil (fuel : nat) : parse_primary fuel [] = None.
Proof. destruct fuel; reflexivity. Qed.

Lemma parse_expr_nil (fuel minp : nat) : parse_expr fuel minp [] = None.
Proof.
  destruct fuel; [reflexivity|]. now rewrite parse_expr_step, parse_primary_nil.
Qed.

Lemma parse_args_nil (fuel : nat) (acc : list expr) : parse_args fuel acc [] = None.
Proof.
  destruct fuel; [reflexivity|]. now rewrite parse_args_step, parse_expr_nil.
Qed.

(** Member accesses stop at a closing bracket. *)
Lemma members_app (suf : list token) :
  forall n ts e,
    (List.length ts <= n)%nat ->
    members e (ts ++ TSym RParen :: suf) =
      (fst (members e ts), snd (members e ts) ++ TSym RParen :: suf).
Proof.
  induction n as [|n IH]; intros ts e Hn.
  - destruct ts; [reflexivity | simpl in Hn; lia].
  - destruct ts as [|t ts]; [reflexivity|].
    destruct t as [z|s|s|o|[]]; try reflexivity.
    destruct ts as [|t' ts]; [reflexivity|].
    destruct t' as [z|s|s|o|y]; try reflexivity.
    cbn [app members]. apply IH. simpl in Hn. lia.
Qed.

(** A parse that succeeds succeeds with more fuel, with the same result. *)
Lemma parse_more_fuel (fuel : nat) :
  (forall minp ts x, parse_expr fuel minp ts = Some x ->
                     parse_expr (S fuel) minp ts = Some x) /\
  (forall minp lhs ts x, climb fuel minp lhs ts = Some x ->
                         climb (S fuel) minp lhs ts = Some x) /\
  (forall ts x, parse_primary fuel ts = Some x ->
                parse_primary (S fuel) ts = Some x) /\
  (forall acc ts x, parse_args fuel acc ts = Some x ->
                    parse_args (S fuel) acc ts = Some x).
Proof.
  induction fuel as [|fuel (IHe & IHc & IHp & IHa)].
  - repeat split; intros; discriminate.
  - repeat split.
    + intros minp ts x H. rewrite parse_expr_step in H |- *.
      destruct (parse_primary fuel ts) as [[e ts1]|] eqn:E; [|discriminate].
      rewrite (IHp _ _ E). destruct (members e ts1) as [lhs ts2].
      now apply IHc.
    + intros minp lhs ts x H. rewrite climb_step in H |- *.
      destruct ts as [|[z|s|s|o|y] ts1]; try assumption.
      destruct (Nat.leb minp (prec o)); [|assumption].
      destruct (parse_expr fuel (S (prec o)) ts1) as [[rhs ts2]|] eqn:E; [|discriminate].
      rewrite (IHe _ _ _ E). now apply IHc.
    + intros ts x H.
      destruct ts as [|[z|s|s|o|y] ts1]; try discriminate; try assumption.
      * (* a name *)
        change (parse_primary (S (S fuel)) (TName s :: ts1))
          with (if is_name s "true" then Some (EBool true, ts1)
                else if is_name s "false" then Some (EBool false, ts1)
                else if is_name s "this" then
                  match ts1 with
                  | TSym Dot :: TName field :: ts2 =>
                      if is_name field "model" then Some (EModel, ts2)
                      else if is_name field "state" then Some (EState, ts2)
                      else if is_name field "functions" then
                        match ts2 with
                        | TSym LBracket :: TStr name :: TSym RBracket :: TSym LParen
                            :: TSym RParen :: ts3 => Some (ECall name [], ts3)
                        | TSym LBracket :: TStr name :: TSym RBracket :: TSym LParen :: ts3 =>
                            match parse_args (S fuel) [] ts3 with
                            | Some (args, ts4) => Some (ECall name args, ts4)
                            | None => None
                            end
                        | _ => None
                        end
                      else None
                  | _ => None
                  end
                else None).
        change (parse_primary (S fuel) (TName s :: ts1))
          with (if is_name s "true" then Some (EBool true, ts1)
                else if is_name s "false" then Some (EBool false, ts1)
                else if is_name s "this" then
                  match ts1 with
                  | TSym Dot :: TName field :: ts2 =>
                      if is_name field "model" then Some (EModel, ts2)
                      else if is_name field "state" then Some (EState, ts2)
                      else if is_name field "functions" then
                        match ts2 with
                        | TSym LBracket :: TStr name :: TSym RBracket :: TSym LParen
                            :: TSym RParen :: ts3 => Some (ECall name [], ts3)
                        | TSym LBracket :: TStr name :: TSym RBracket :: TSym LParen :: ts3 =>
                            match parse_args fuel [] ts3 with
                            | Some (args, ts4) => Some (ECall name args, ts4)
                            | None => None
                            end
                        | _ => None
                        end
                      else None
                  | _ => None
                  end
                else None) in H.
        repeat match type of H with
               | (if ?b then _ else _) = _ => destruct b; try assumption
               | match ?l with [] => _ | _ => _ end = _ =>
                   destruct l as [|[?z|?s|?s|?o|[]] ?l]; try discriminate; try assumption
               | match parse_args ?f ?a ?l with Some _ => _ | None => _ end = _ =>
                   let E := fresh "E" in
                   destruct (parse_args f a l) as [[? ?]|] eqn:E;
                   [rewrite (IHa _ _ _ E); assumption | discriminate]
               end.
      * (* a symbol *)
        destruct y; try discriminate.
        change (parse_primary (S (S fuel)) (TSym LParen :: ts1))
          with (match parse_expr (S fuel) 0 ts1 with
                | Some (e, TSym RParen :: ts2) => Some (e, ts2)
                | _ => None
                end).
        change (parse_primary (S fuel) (TSym LParen :: ts1))
          with (match parse_expr fuel 0 ts1 with
                | Some (e, TSym RParen :: ts2) => Some (e, ts2)
                | _ => None
                end) in H.
        destruct (parse_expr fuel 0 ts1) as [[e r]|] eqn:E; [|discriminate].
        now rewrite (IHe _ _ _ E).
    + intros acc ts x H. rewrite parse_args_step in H |- *.
      destruct (parse_expr fuel 0 ts) as [[e r]|] eqn:E; [|discriminate].
      rewrite (IHe _ _ _ E).
      destruct r as [|[z|s|s|o|[]] r]; try discriminate; try assumption.
      now apply IHa.
Qed.

(** A parse that succeeds is not disturbed by a closing bracket (and more)
    after its text: the bracket is left with the rest. *)
Lemma parse_app (suf : list token) (fuel : nat) :
  (forall minp ts e r,
      parse_expr fuel minp ts = Some (e, r) ->
      parse_expr fuel minp (ts ++ TSym RParen :: suf) = Some (e, r ++ TSym RParen :: suf)) /\
  (forall minp lhs ts e r,
      climb fuel minp lhs ts = Some (e, r) ->
      climb fuel minp lhs (ts ++ TSym RParen :: suf) = Some (e, r ++ TSym RParen :: suf)) /\
  (forall ts e r,
      parse_primary fuel ts = Some (e, r) ->
      parse_primary fuel (ts ++ TSym RParen :: suf) = Some (e, r ++ TSym RParen :: suf)) /\
  (forall acc ts es r,
      parse_args fuel acc ts = Some (es, r) ->
      parse_args fuel acc (ts ++ TSym RParen :: suf) = Some (es, r ++ TSym RParen :: suf)).
Proof.
  induction fuel as [|fuel (IHe & IHc & IHp & IHa)].
  - repeat split; intros; discriminate.
  - repeat split.
    + intros minp ts e r H. rewrite parse_expr_step in H |- *.
      destruct (parse_primary fuel ts) as [[e1 ts1]|] eqn:E; [|discriminate].
      rewrite (IHp _ _ _ E), (members_app suf (List.length ts1)) by lia.
      destruct (members e1 ts1) as [lhs ts2]. cbn [fst snd]. now apply IHc.
    + intros minp lhs ts e r H. rewrite climb_step in H |- *.
      destruct ts as [|[z|s|s|o|y] ts1]; cbn [app];
        try (injection H as <- <-; reflexivity).
      destruct (Nat.leb minp (prec o)); [|injection H as <- <-; reflexivity].
      destruct (parse_expr fuel (S (prec o)) ts1) as [[rhs ts2]|] eqn:E; [|discriminate].
      rewrite (IHe _ _ _ _ E). now apply IHc.
    + intros ts e r H.
      destruct ts as [|[z|s|s|o|y] ts1]; try discriminate; cbn [app];
        try (injection H as <- <-; reflexivity).
      * (* a name *)
        change (parse_primary (S fuel) (TName s :: ts1 ++ TSym RParen :: suf))
          with (if is_name s "true" then Some (EBool true, ts1 ++ TSym RParen :: suf)
                else if is_name s "false" then Some (EBool false, ts1 ++ TSym RParen :: suf)
                else if is_name s "this" then
                  match ts1 ++ TSym RParen :: suf with
                  | TSym Dot :: TName field :: ts2 =>
                      if is_name field "model" then Some (EModel, ts2)
                      else if is_name field "state" then Some (EState, ts2)
                      else if is_name field "functions" then
                        match ts2 with
                        | TSym LBracket :: TStr name :: TSym RBracket :: TSym LParen
                            :: TSym RParen :: ts3 => Some (ECall name [], ts3)
                        | TSym LBracket :: TStr name :: TSym RBracket :: TSym LParen :: ts3 =>
                            match parse_args fuel [] ts3 with
                            | Some (args, ts4) => Some (ECall name args, ts4)
                            | None => None
                            end
                        | _ => None
                        end
                      else None
                  | _ => None
                  end
                else None).
        change (parse_primary (S fuel) (TName s :: ts1))
          with (if is_name s "true" then Some (EBool true, ts1)
                else if is_name s "false" then Some (EBool false, ts1)
                else if is_name s "this" then
                  match ts1 with
                  | TSym Dot :: TName field :: ts2 =>
                      if is_name field "model" then Some (EModel, ts2)
                      else if is_name field "state" then Some (EState, ts2)
                      else if is_name field "functions" then
                        match ts2 with
                        | TSym LBracket :: TStr name :: TSym RBracket :: TSym LParen
                            :: TSym RParen :: ts3 => Some (ECall name [], ts3)
                        | TSym LBracket :: TStr name :: TSym RBracket :: TSym LParen :: ts3 =>
                            match parse_args fuel [] ts3 with
                            | Some (args, ts4) => Some (ECall name args, ts4)
                            | None => None
                            end
                        | _ => None
                        end
                      else None
                  | _ => None
                  end
                else None) in H.
        repeat match type of H with
               | Some _ = Some _ => injection H as <- <-; reflexivity
               | None = Some _ => discriminate
               | (if ?b then _ else _) = _ => destruct b
               | match ?l with [] => _ | _ => _ end = _ =>
                   destruct l as [|[?z|?s|?s|?o|[]] ?l]; cbn [app];
                   rewrite ?parse_args_nil in H
               | match parse_args ?f ?a ?l with Some _ => _ | None => _ end = _ =>
                   let E := fresh "E" in
                   destruct (parse_args f a l) as [[? ?]|] eqn:E;
                   [apply IHa in E; cbn [app] in E; rewrite E | ]
               end.
      * (* a symbol *)
        destruct y; try discriminate.
        change (parse_primary (S fuel) (TSym LParen :: ts1 ++ TSym RParen :: suf))
          with (match parse_expr fuel 0 (ts1 ++ TSym RParen :: suf) with
                | Some (e, TSym RParen :: ts2) => Some (e, ts2)
                | _ => None
                end).
        change (parse_primary (S fuel) (TSym LParen :: ts1))
          with (match parse_expr fuel 0 ts1 with
                | Some (e, TSym RParen :: ts2) => Some (e, ts2)
                | _ => None
                end) in H.
        destruct (parse_expr fuel 0 ts1) as [[e1 r1]|] eqn:E; [|discriminate].
        rewrite (IHe _ _ _ _ E).
        destruct r1 as [|[z|s|s|o|[]] r1]; try discriminate.
        injection H as <- <-. reflexivity.
    + intros acc ts es r H. rewrite parse_args_step in H |- *.
      destruct (parse_expr fuel 0 ts) as [[e1 r1]|] eqn:E; [|discriminate].
      rewrite (IHe _ _ _ _ E).
      destruct r1 as [|[z|s|s|o|[]] r1]; try discriminate; cbn [app].
      * injection H as <- <-. reflexivity.
      * now apply IHa.
Qed.

Lemma parse_expr_fuel_le (fuel fuel' minp : nat) (ts : list token) (x : expr * list token) :
  (fuel <= fuel')%nat ->
  parse_expr fuel minp ts = Some x -> parse_expr fuel' minp ts = Some x.
Proof.
  induction 1 as [|fuel' Hle IH]; intro H; [assumption|].
  now apply (parse_more_fuel fuel'), IH.
Qed.

(** An expression in round brackets, followed by a semicolon. *)
Lemma parse_group (fuel : nat) (ts rest : list token) (e : expr) :
  (parse_fuel ts + 2 <= fuel)%nat ->
  parse_expr (parse_fuel ts) 0 ts = Some (e, []) ->
  parse_expr fuel 0 (TSym LParen :: ts ++ TSym RParen :: TSym Semi :: rest)
  = Some (e, TSym Semi :: rest).
Proof.
  intros Hfuel H.
  destruct fuel as [|[|fuel]]; try lia.
  apply (parse_expr_fuel_le _ fuel) in H; [|lia].
  apply (parse_app (TSym Semi :: rest)) in H. cbn [app] in H.
  rewrite parse_expr_step.
  change (parse_primary (S fuel) (TSym LParen :: ts ++ TSym RParen :: TSym Semi :: rest))
    with (match parse_expr fuel 0 (ts ++ TSym RParen :: TSym Semi :: rest) with
          | Some (e, TSym RParen :: ts2) => Some (e, ts2)
          | _ => None
          end).
  rewrite H. reflexivity.
Qed.

(** The statements of a body, one step of [parse_stmts] at a time. *)
Lemma parse_stmts_end (fuel efuel : nat) (ts : list token) :
  parse_stmts (S fuel) efuel (TSym RBrace :: ts) = Some ([], TSym RBrace :: ts).
Proof. reflexivity. Qed.

Lemma parse_stmts_nil (fuel efuel : nat) : parse_stmts (S fuel) efuel [] = Some ([], []).
Proof. reflexivity. Qed.

Lemma parse_stmts_return (fuel efuel : nat) (ts1 ts2 ts3 : list token) (e : expr)
    (rest : list stmt) :
  parse_expr efuel 0 ts1 = Some (e, TSym Semi :: ts2) ->
  parse_stmts fuel efuel ts2 = Some (rest, ts3) ->
  parse_stmts (S fuel) efuel (TName (lit "return") :: ts1) = Some (SReturn e :: rest, ts3).
Proof.
  intros He Hrest.
  change (parse_stmts (S fuel) efuel (TName (lit "return") :: ts1))
    with (match parse_expr efuel 0 ts1 with
          | Some (e, TSym Semi :: ts2) =>
              match parse_stmts fuel efuel ts2 with
              | Some (rest, ts3) => Some (SReturn e :: rest, ts3)
              | None => None
              end
          | _ => None
          end).
  now rewrite He, Hrest.
Qed.

Lemma parse_stmts_if_else (fuel efuel : nat) (ts2 ts3 ts4 ts5 ts6 : list token)
    (g : expr) (t e rest : list stmt) :
  parse_expr efuel 0 ts2 = Some (g, TSym RParen :: TSym LBrace :: ts3) ->
  parse_stmts fuel efuel ts3
    = Some (t, TSym RBrace :: TName (lit "else") :: TSym LBrace :: ts4) ->
  parse_stmts fuel efuel ts4 = Some (e, TSym RBrace :: ts5) ->
  parse_stmts fuel efuel ts5 = Some (rest, ts6) ->
  parse_stmts (S fuel) efuel (TName (lit "if") :: TSym LParen :: ts2)
  = Some (SIf g t e :: rest, ts6).
Proof.
  intros Hg Ht He Hrest.
  change (parse_stmts (S fuel) efuel (TName (lit "if") :: TSym LParen :: ts2))
    with (match parse_expr efuel 0 ts2 with
          | Some (g, TSym RParen :: TSym LBrace :: ts3) =>
              match parse_stmts fuel efuel ts3 with
              | Some (t, TSym RBrace :: TName kw' :: TSym LBrace :: ts4) =>
                  if is_name kw' "else" then
                    match parse_stmts fuel efuel ts4 with
                    | Some (e, TSym RBrace :: ts5) =>
                        match parse_stmts fuel efuel ts5 with
                        | Some (rest, ts6) => Some (SIf g t e :: rest, ts6)
                        | None => None
                        end
                    | _ => None
                    end
                  else None
              | Some (t, TSym RBrace :: ts4) =>
                  match parse_stmts fuel efuel ts4 with
                  | Some (rest, ts5) => Some (SIf g t [] :: rest, ts5)
                  | None => None
                  end
              | _ => None
              end
          | _ => None
          end).
  rewrite Hg, Ht. change (is_name (lit "else") "else") with true. cbv iota.
  now rewrite He, Hrest.
Qed.

(** The function the host builds from the text [generateFunction] emits, when
    the activation and the condition are expressions of the fragment. *)
Lemma generateFromString_function (activation condition : str) (ea ec : expr) :
  parse_js activation = Some ea ->
  parse_js condition = Some ec ->
  generateFromString (lit "if(" ++ activation ++ lit "){return(" ++ condition ++
                      lit ");}else{return(true);}")
  = Some [SIf ea [SReturn ec] [SReturn (EBool true)]].
Proof.
  unfold parse_js, generateFromString. intros Ha Hc.
  destruct (lex activation) as [ta|] eqn:La; [|discriminate].
  destruct (lex condition) as [tc|] eqn:Lc; [|discriminate].
  destruct (parse_expr (parse_fuel ta) 0 ta) as [[ea' [|]]|] eqn:Pa; try discriminate.
  destruct (parse_expr (parse_fuel tc) 0 tc) as [[ec' [|]]|] eqn:Pc; try discriminate.
  injection Ha as ->. injection Hc as ->.
  rewrite (lex_function_string _ _ _ _ La Lc).
  unfold parse_function.
  match goal with
  | |- context [parse_fuel ?whole] => set (fuel := parse_fuel whole)
  end.
  assert (Hfuel : (parse_fuel ta <= fuel /\ parse_fuel tc + 2 <= fuel /\ 6 <= fuel)%nat).
  { subst fuel. unfold parse_fuel. cbn [List.length]. rewrite !length_app.
    cbn [List.length]. rewrite !length_app. cbn [List.length]. lia. }
  destruct Hfuel as (Hfa & Hfc & Hf6).
  match goal with
  | |- context [parse_stmts (S ?n)] =>
      assert (Hn : exists k, n = S (S (S k)));
      [exists (n - 3)%nat; cbn [List.length]; rewrite !length_app; cbn [List.length];
       rewrite !length_app; cbn [List.length]; lia|]
  end.
  destruct Hn as [k ->].
  apply (parse_expr_fuel_le _ fuel) in Pa; [|assumption].
  apply (proj1 (parse_app (TSym LBrace :: TName (lit "return") :: TSym LParen :: tc ++
                 [TSym RParen; TSym Semi; TSym RBrace; TName (lit "else"); TSym LBrace;
                  TName (lit "return"); TSym LParen; TName (lit "true"); TSym RParen;
                  TSym Semi; TSym RBrace]) fuel)) in Pa.
  cbn [app] in Pa.
  assert (Helse : parse_expr 6 0 [TSym LParen; TName (lit "true"); TSym RParen;
                                  TSym Semi; TSym RBrace]
                  = Some (EBool true, [TSym Semi; TSym RBrace])) by reflexivity.
  apply (parse_expr_fuel_le _ fuel _ _ _ Hf6) in Helse.
  rewrite (parse_stmts_if_else _ fuel _ _ _ _ _ _ _ _ _ Pa
             (parse_stmts_return _ fuel _ _ _ _ _
                (parse_group fuel tc _ ec Hfc Pc) (parse_stmts_end _ _ _))
             (parse_stmts_return (S (S k)) fuel _ _ _ _ _ Helse (parse_stmts_end _ _ _))
             (parse_stmts_nil _ _)).
  reflexivity.
Qed.

(** What the body [if(ea){return ec;}else{return true;}] returns. *)
Lemma run_guarded (ea ec : expr) (this : env) :
  run [SIf ea [SReturn ec] [SReturn (EBool true)]] this
  = (v <-- eval this ea ;;
     if to_boolean v then eval this ec else ret (VBool true)).
Proof.
  unfold run. cbn [exec_all exec].
  destruct (eval this ea) as [[v|e]|]; cbn [bindF]; try reflexivity.
  destruct (to_boolean v); cbn [bindF eval ret]; [|reflexivity].
  destruct (eval this ec) as [[w|e]|]; reflexivity.
Qed.

End HostFacts.

(* ------------------------------------------------------------------ *)
(** ** The text within the brackets *)

Lemma indexOf_from_bracket (name rest : str) :
  forallb (fun c => negb (Ascii.eqb c Symbols.BRACKET_OPEN)) name = true ->
  forall i,
    JS.indexOf_from (name ++ Symbols.BRACKET_OPEN :: rest) [Symbols.BRACKET_OPEN] i
    = i + JS.length name.
Proof.
  induction name as [|c name IH]; intros Hname i.
  - cbn. lia.
  - cbn [forallb] in Hname. apply andb_true_iff in Hname as [Hc Hname].
    apply negb_true_iff in Hc.
    cbn [app JS.indexOf_from JS.startsWith]. rewrite Hc. cbn [andb].
    rewrite (IH Hname). unfold JS.length. cbn [List.length]. lia.
Qed.

(** The loop of [getSubstringWithinParentheses] over a text whose brackets
    match stops at the bracket that closes it. *)
Lemma within_parentheses_loop (rest : str) :
  forall (inner pre : str) (depth : nat) (bracketEnd : Z) (fuel : nat),
    balanced depth inner = true ->
    let s := pre ++ inner ++ Symbols.BRACKET_CLOSE :: rest in
    fuel = Z.to_nat (JS.length s - JS.length pre) ->
    for_loopM fuel (JS.length pre) (JS.length s)
      (fun i st =>
         let '(bracketEnd, numBracketsOpened) := st in
         let char := JS.charAt s i in
         if char_is char Symbols.BRACKET_OPEN then
           Return (Continue (bracketEnd, numBracketsOpened + 1))
         else if char_is char Symbols.BRACKET_CLOSE then
           if numBracketsOpened >? 0 then
             Return (Continue (bracketEnd, numBracketsOpened - 1))
           else if numBracketsOpened =? 0 then
             Return (Break (i, numBracketsOpened))
           else Throw (Error (lit "Invalid syntax in token: " ++ s))
         else Return (Continue (bracketEnd, numBracketsOpened)))
      (bracketEnd, Z.of_nat depth)
    = Return (JS.length pre + JS.length inner, 0).
Proof.
  induction inner as [|c inner IH]; intros pre depth bracketEnd fuel Hbal s Hfuel.
  - cbn [balanced] in Hbal. apply Nat.eqb_eq in Hbal. subst depth.
    assert (Hlen : JS.length s = JS.length pre + 1 + JS.length rest).
    { subst s. unfold JS.length. rewrite length_app. cbn [app List.length]. lia. }
    pose proof (length_nonneg rest) as Hrest.
    destruct fuel as [|fuel]; [lia|]. cbn [for_loopM].
    destruct (JS.length pre <? JS.length s) eqn:E; [|apply Z.ltb_ge in E; lia].
    assert (Hc : JS.charAt s (JS.length pre) = Some Symbols.BRACKET_CLOSE).
    { rewrite charAt_nth by apply length_nonneg. unfold JS.length. rewrite Nat2Z.id.
      subst s. now rewrite nth_error_app2, Nat.sub_diag by lia. }
    rewrite Hc. cbn. f_equal. f_equal. unfold JS.length. cbn. lia.
  - assert (Hs : s = (pre ++ [c]) ++ inner ++ Symbols.BRACKET_CLOSE :: rest).
    { subst s. now rewrite <- app_assoc. }
    assert (Hpre : JS.length (pre ++ [c]) = JS.length pre + 1).
    { unfold JS.length. rewrite length_app. cbn. lia. }
    assert (Hlen : JS.length pre + 1 <= JS.length s).
    { rewrite Hs. unfold JS.length. rewrite !length_app. cbn. lia. }
    destruct fuel as [|fuel]; [lia|]. cbn [for_loopM].
    destruct (JS.length pre <? JS.length s) eqn:E; [|apply Z.ltb_ge in E; lia].
    assert (Hc : JS.charAt s (JS.length pre) = Some c).
    { rewrite charAt_nth by apply length_nonneg. unfold JS.length. rewrite Nat2Z.id.
      subst s. now rewrite nth_error_app2, Nat.sub_diag by lia. }
    rewrite Hc. cbn [char_is]. cbn [balanced] in Hbal.
    assert (Hlen' : JS.length (c :: inner) = 1 + JS.length inner).
    { unfold JS.length. cbn [List.length]. lia. }
    rewrite Hlen'.
    destruct (Ascii.eqb c Symbols.BRACKET_OPEN) eqn:Eo.
    + specialize (IH (pre ++ [c]) (S depth) bracketEnd fuel Hbal).
      cbv zeta in IH. rewrite <- Hs, Hpre in IH.
      replace (Z.of_nat depth + 1) with (Z.of_nat (S depth)) by lia.
      rewrite IH by lia. f_equal. f_equal. lia.
    + destruct (Ascii.eqb c Symbols.BRACKET_CLOSE) eqn:Ec.
      * destruct depth as [|depth]; [discriminate|].
        destruct (Z.of_nat (S depth) >? 0) eqn:Eg;
          [|rewrite Z.gtb_ltb in Eg; apply Z.ltb_ge in Eg; lia].
        specialize (IH (pre ++ [c]) depth bracketEnd fuel Hbal).
        cbv zeta in IH. rewrite <- Hs, Hpre in IH.
        replace (Z.of_nat (S depth) - 1) with (Z.of_nat depth) by lia.
        rewrite IH by lia. f_equal. f_equal. lia.
      * specialize (IH (pre ++ [c]) depth bracketEnd fuel Hbal).
        cbv zeta in IH. rewrite <- Hs, Hpre in IH.
        rewrite IH by lia. f_equal. f_equal. lia.
Qed.

(** [getSubstringWithinParentheses] on [name(inner)...], where [name] holds no
    opening bracket and the brackets of [inner] match: the result is
    [inner]. *)
Lemma getSubstringWithinParentheses_balanced (name inner rest : str) :
  forallb (fun c => negb (Ascii.eqb c Symbols.BRACKET_OPEN)) name = true ->
  balanced 0 inner = true ->
  getSubstringWithinParentheses
    (name ++ Symbols.BRACKET_OPEN :: inner ++ Symbols.BRACKET_CLOSE :: rest)
  = Return inner.
Proof.
  intros Hname Hbal. unfold getSubstringWithinParentheses, JS.indexOf.
  rewrite (indexOf_from_bracket name _ Hname). rewrite Z.add_0_l.
  set (s := name ++ Symbols.BRACKET_OPEN :: inner ++ Symbols.BRACKET_CLOSE :: rest).
  assert (Hs : s = (name ++ [Symbols.BRACKET_OPEN]) ++ inner ++
                   Symbols.BRACKET_CLOSE :: rest).
  { subst s. now rewrite <- app_assoc. }
  assert (Hpre : JS.length (name ++ [Symbols.BRACKET_OPEN]) = JS.length name + 1).
  { unfold JS.length. rewrite length_app. cbn. lia. }
  pose proof (within_parentheses_loop rest inner (name ++ [Symbols.BRACKET_OPEN]) 0
                (JS.length name + 1)
                (Z.to_nat (JS.length s - (JS.length name + 1))) Hbal) as Hloop.
  cbv zeta in Hloop. rewrite <- Hs, Hpre in Hloop.
  unfold js_forM. change (Z.of_nat 0) with 0 in Hloop. rewrite Hloop by reflexivity.
  cbn [bind fst]. f_equal.
  unfold JS.substring, JS.clamp.
  assert (Hlen : JS.length s = JS.length name + 1 + JS.length inner + 1 + JS.length rest).
  { subst s. unfold JS.length. rewrite !length_app. cbn [List.length].
    rewrite length_app. cbn [List.length]. lia. }
  pose proof (length_nonneg name). pose proof (length_nonneg inner).
  pose proof (length_nonneg rest).
  replace (Z.to_nat (Z.min (Z.max (JS.length name + 1) 0) (JS.length s)))
    with (List.length (name ++ [Symbols.BRACKET_OPEN]))
    by (unfold JS.length in *; rewrite length_app; cbn; lia).
  replace (Z.to_nat (Z.min (Z.max (JS.length name + 1 + JS.length inner) 0) (JS.length s)))
    with (List.length (name ++ [Symbols.BRACKET_OPEN]) + List.length inner)%nat
    by (unfold JS.length in *; rewrite length_app; cbn; lia).
  rewrite Nat.min_l, Nat.max_r by lia.
  rewrite Hs, skipn_app, skipn_all, Nat.sub_diag. cbn [app skipn].
  replace (List.length (name ++ [Symbols.BRACKET_OPEN]) + List.length inner
           - List.length (name ++ [Symbols.BRACKET_OPEN]))%nat
    with (List.length inner + 0)%nat by lia.
  rewrite firstn_app_2. cbn [firstn]. apply app_nil_r.
Qed.

(* ------------------------------------------------------------------ *)
(** ** The evaluation contract *)

(** What a successful [generateFunction] has computed on the way. *)
Lemma generateFunctionString_inv (customFunctions : list str) (assertion text : str) :
  generateFunctionString customFunctions assertion = ret text ->
  exists activationToken conditionToken activation condition,
    getSplitTokens assertion = Return [activationToken; conditionToken] /\
    activationString customFunctions (JS.trim activationToken) = ret activation /\
    generateConditionalString customFunctions (JS.trim conditionToken) = ret condition /\
    text = functionString activation condition.
Proof.
  unfold generateFunctionString. intro H.
  assert (Hsplit : exists a c, getSplitTokens assertion = Return [a; c] \/
                               exists e, getSplitTokens assertion = Throw e).
  { unfold getSplitTokens.
    match goal with
    | |- context [if ?b then _ else _] => destruct b
    end.
    - exists [], []. right. eexists. reflexivity.
    - do 2 eexists. left. reflexivity. }
  destruct Hsplit as (a & c & [Hs | [e Hs]]); rewrite Hs in H; cbn [lift bindF] in H;
    [|discriminate].
  cbn [nth] in H.
  destruct (activationString customFunctions (JS.trim a)) as [[activation|e]|] eqn:Ea;
    cbn [bindF] in H; try discriminate.
  destruct (generateConditionalString customFunctions (JS.trim c)) as [[condition|e]|] eqn:Ec;
    cbn [bindF] in H; try discriminate.
  injection H as <-. now exists a, c, activation, condition.
Qed.

(** The function an assertion compiles to when its activation and its
    condition compile to expressions of the host. *)
Lemma generateFunction_compiled (customFunctions : list str)
    (assertion activationToken conditionToken activation condition : str)
    (ea ec : Host.expr) :
  getSplitTokens assertion = Return [activationToken; conditionToken] ->
  activationString customFunctions (JS.trim activationToken) = ret activation ->
  generateConditionalString customFunctions (JS.trim conditionToken) = ret condition ->
  Host.parse_js activation = Some ea ->
  Host.parse_js condition = Some ec ->
  generateFunction customFunctions Host.generateFromString assertion
    = ret (Some [Host.SIf ea [Host.SReturn ec] [Host.SReturn (Host.EBool true)]]).
Proof.
  intros Hsplit Hact Hcond Hea Hec.
  unfold generateFunction, generateFunctionString.
  rewrite Hsplit. cbn [lift bindF nth]. rewrite Hact. cbn [bindF ret].
  rewrite Hcond. cbn [bindF ret]. unfold functionString.
  now rewrite (HostFacts.generateFromString_function _ _ _ _ Hea Hec).
Qed.

(** Its evaluation. *)
Lemma evaluate_assertion_compiled (customFunctions : list str) (assertion : str)
    (ea ec : Host.expr) (this : Host.env) :
  generateFunction customFunctions Host.generateFromString assertion
    = ret (Some [Host.SIf ea [Host.SReturn ec] [Host.SReturn (Host.EBool true)]]) ->
  evaluate_assertion customFunctions assertion this
    = ret (v <-- Host.eval this ea ;;
           if Host.to_boolean v then Host.eval this ec else ret (VBool true)).
Proof.
  intro Hgen. unfold evaluate_assertion. rewrite Hgen.
  change (ret (Host.run [Host.SIf ea [Host.SReturn ec] [Host.SReturn (Host.EBool true)]]
                 this)
          = ret (v <-- Host.eval this ea ;;
                 if Host.to_boolean v then Host.eval this ec else ret (VBool true))).
  now rewrite HostFacts.run_guarded.
Qed.

(** The evaluation contract where the compiled activation and the compiled
    condition are, each of them, one expression of the host: the assertion
    compiles to the function [if(activation){return(condition);}
    else{return(true);}], and evaluating it returns the value of the condition
    when the activation is true and [true] otherwise (an exception of the
    activation is the result). With an activation token that starts with
    [ALWAYS] the result is that of the condition alone, and with an
    activation token [WHEN(cond)] (brackets of [cond] matching) the activation
    is the compiled [cond], and when it evaluates to a false value the result
    is [true] whatever the condition is. *)
Lemma guarded_function_contract (customFunctions : list str)
    (assertion activationToken conditionToken activation condition : str)
    (ea ec : Host.expr) (this : Host.env) :
  getSplitTokens assertion = Return [activationToken; conditionToken] ->
  activationString customFunctions (JS.trim activationToken) = ret activation ->
  generateConditionalString customFunctions (JS.trim conditionToken) = ret condition ->
  Host.parse_js activation = Some ea ->
  Host.parse_js condition = Some ec ->
  generateFunction customFunctions Host.generateFromString assertion
    = ret (Some [Host.SIf ea [Host.SReturn ec] [Host.SReturn (Host.EBool true)]]) /\
  evaluate_assertion customFunctions assertion this
    = ret (v <-- Host.eval this ea ;;
           if Host.to_boolean v then Host.eval this ec else ret (VBool true)) /\
  (JS.startsWith (JS.trim activationToken) Symbols.ALWAYS = true ->
   evaluate_assertion customFunctions assertion this
     = ret (Host.evaluate condition this)) /\
  (JS.startsWith (JS.trim activationToken) Symbols.ALWAYS = false ->
   JS.startsWith (JS.trim activationToken) Symbols.WHEN = true ->
   exists body,
     getSubstringWithinParentheses (JS.trim activationToken) = Return body /\
     generateConditionalString customFunctions body = ret activation /\
     (forall v, Host.evaluate activation this = ret v ->
                Host.to_boolean v = false ->
                evaluate_assertion customFunctions assertion this
                  = ret (ret (VBool true)))) /\
  (forall cond,
      JS.trim activationToken = lit "WHEN(" ++ cond ++ lit ")" ->
      balanced 0 cond = true ->
      generateConditionalString customFunctions cond = ret activation /\
      (forall v, Host.evaluate activation this = ret v ->
                 Host.to_boolean v = false ->
                 evaluate_assertion customFunctions assertion this
                   = ret (ret (VBool true)))).
Proof.
  intros Hsplit Hact Hcond Hea Hec.
  pose proof (generateFunction_compiled _ _ _ _ _ _ _ _ Hsplit Hact Hcond Hea Hec) as Hgen.
  pose proof (evaluate_assertion_compiled _ _ _ _ this Hgen) as Hrun.
  assert (Hfalse : forall v, Host.evaluate activation this = ret v ->
                             Host.to_boolean v = false ->
                             evaluate_assertion customFunctions assertion this
                             = ret (ret (VBool true))).
  { intros v Hv Hfalse. rewrite Hrun. unfold Host.evaluate in Hv. rewrite Hea in Hv.
    rewrite Hv. cbn [bindF ret]. now rewrite Hfalse. }
  split; [exact Hgen|]. split; [exact Hrun|]. split; [|split].
  - intro Halways. unfold activationString in Hact. rewrite Halways in Hact.
    injection Hact as <-. rewrite Hrun. unfold Host.evaluate. rewrite Hec.
    change (Host.parse_js (lit "true")) with (Some (Host.EBool true)) in Hea.
    injection Hea as <-. reflexivity.
  - intros Halways Hwhen. unfold activationString in Hact.
    rewrite Halways, Hwhen in Hact.
    destruct (getSubstringWithinParentheses (JS.trim activationToken)) as [body|e];
      cbn [lift bindF] in Hact; [|discriminate].
    exists body. repeat split; assumption.
  - intros cond Htoken Hbal. split; [|exact Hfalse].
    unfold activationString in Hact. rewrite Htoken in Hact.
    change (JS.startsWith (lit "WHEN(" ++ cond ++ lit ")") Symbols.ALWAYS)
      with false in Hact.
    change (JS.startsWith (lit "WHEN(" ++ cond ++ lit ")") Symbols.WHEN)
      with true in Hact.
    cbv iota in Hact.
    change (lit "WHEN(" ++ cond ++ lit ")")
      with (lit "WHEN" ++ Symbols.BRACKET_OPEN :: cond ++ Symbols.BRACKET_CLOSE :: [])
      in Hact.
    rewrite (getSubstringWithinParentheses_balanced (lit "WHEN") cond [] eq_refl Hbal)
      in Hact.
    exact Hact.
Qed.

(** [WHEN($a.b == 5):$a.c == 1] on a model whose [a.b] is 4: the activation
    is false and the assertion holds. *)
Lemma guarded_function_contract_when :
  getSplitTokens (lit "WHEN($a.b == 5):$a.c == 1")
    = Return [lit "WHEN($a.b == 5)"; lit "$a.c == 1"] /\
  activationString [] (JS.trim (lit "WHEN($a.b == 5)")) = ret (lit "this.model.a.b==5") /\
  generateConditionalString [] (JS.trim (lit "$a.c == 1")) = ret (lit "this.model.a.c==1") /\
  Host.evaluate (lit "this.model.a.b==5") (Host.Env (model_a_b 4) VUndef no_functions)
    = ret (VBool false) /\
  evaluate_assertion [] (lit "WHEN($a.b == 5):$a.c == 1")
    (Host.Env (model_a_b 4) VUndef no_functions)
  = ret (ret (VBool true)).
Proof.
  do 4 (split; [reflexivity|]).
  pose proof (guarded_function_contract []
                (lit "WHEN($a.b == 5):$a.c == 1")
                (lit "WHEN($a.b == 5)") (lit "$a.c == 1")
                (lit "this.model.a.b==5") (lit "this.model.a.c==1")
                (Host.EBin Host.OEq (Host.EMember (Host.EMember Host.EModel (lit "a")) (lit "b"))
                   (Host.ENum 5))
                (Host.EBin Host.OEq (Host.EMember (Host.EMember Host.EModel (lit "a")) (lit "c"))
                   (Host.ENum 1))
                (Host.Env (model_a_b 4) VUndef no_functions)
                eq_refl eq_refl eq_refl eq_refl eq_refl) as (_ & _ & _ & _ & Hwhen).
  destruct (Hwhen (lit "$a.b == 5") eq_refl eq_refl) as (_ & Hfalse).
  exact (Hfalse (VBool false) eq_refl eq_refl).
Defined.

(** C1 (the code at the failing input). The activation token
    [WHEN(1/*('*/){return(false);}if(0/*')*/)] is cut into the tokens [1],
    [/], [*], [(], the string literal ['*/){return(false);}if(0/*'], [)],
    [*] and [/]; each of them is its own symbol, the string literal with its
    content. In the text of the function the host reads [/*('*/] and [/*')*/]
    as comments, so that the body is [if(1){return(false);}] followed by
    [if(0){return(1==1);}else{return(true);}]: on every model and state the
    constraint evaluates to [false], which is neither the value of its
    condition [1==1], [true], nor the [true] of a constraint that is not
    active. *)
Theorem generateFunction_injection :
  getSplitTokens (lit "WHEN(1/*('*/){return(false);}if(0/*')*/):1==1")
    = Return [lit "WHEN(1/*('*/){return(false);}if(0/*')*/)"; lit "1==1"] /\
  getSubstringWithinParentheses (lit "WHEN(1/*('*/){return(false);}if(0/*')*/)")
    = Return (lit "1/*('*/){return(false);}if(0/*')*/") /\
  tokenize [] 1002 (lit "1/*('*/){return(false);}if(0/*')*/")
    = ret [lit "1"; lit "/"; lit "*"; lit "("; lit "'*/){return(false);}if(0/*'";
           lit ")"; lit "*"; lit "/"] /\
  getSymbolForToken [] (lit "'*/){return(false);}if(0/*'")
    = ret (lit "'*/){return(false);}if(0/*'") /\
  generateFunctionString [] (lit "WHEN(1/*('*/){return(false);}if(0/*')*/):1==1")
    = ret (lit "if(1/*('*/){return(false);}if(0/*')*/){return(1==1);}else{return(true);}") /\
  generateFunction [] Host.generateFromString
    (lit "WHEN(1/*('*/){return(false);}if(0/*')*/):1==1")
    = ret (Some [Host.SIf (Host.ENum 1) [Host.SReturn (Host.EBool false)] [];
                 Host.SIf (Host.ENum 0)
                   [Host.SReturn (Host.EBin Host.OEq (Host.ENum 1) (Host.ENum 1))]
                   [Host.SReturn (Host.EBool true)]]) /\
  (forall this, Host.evaluate (lit "1==1") this = ret (VBool true)) /\
  (forall this,
      evaluate_assertion [] (lit "WHEN(1/*('*/){return(false);}if(0/*')*/):1==1") this
      = ret (ret (VBool false))).
Proof.
  split; [vm_compute; reflexivity|].
  split; [vm_compute; reflexivity|].
  split; [vm_compute; reflexivity|].
  split; [vm_compute; reflexivity|].
  split; [vm_compute; reflexivity|].
  split; [vm_compute; reflexivity|].
  split; intro this; vm_compute; reflexivity.
Qed.

(* ------------------------------------------------------------------ *)
(** ** An activation token of no recognized form *)

(** C5 (as amended). An activation token that starts neither with [ALWAYS]
    nor with [WHEN] and is no statement token (a statement token starts with
    a registered name and holds no round bracket) raises no error of its own:
    the activation is the text [false], and the assertion compiles as its
    condition does, to the text [if(false){return(condition);}
    else{return(true);}] when the condition compiles and to the error of the
    condition when it throws. *)
Theorem unrecognized_activation_is_false (customFunctions : list str)
    (assertion activationToken conditionToken : str) :
  getSplitTokens assertion = Return [activationToken; conditionToken] ->
  JS.startsWith (JS.trim activationToken) Symbols.ALWAYS = false ->
  JS.startsWith (JS.trim activationToken) Symbols.WHEN = false ->
  isStatementToken customFunctions (JS.trim activationToken) = false ->
  activationString customFunctions (JS.trim activationToken) = ret (lit "false") /\
  (forall condition,
      generateConditionalString customFunctions (JS.trim conditionToken) = ret condition ->
      generateFunctionString customFunctions assertion
      = ret (lit "if(false){return(" ++ condition ++ lit ");}else{return(true);}")) /\
  (forall e,
      generateConditionalString customFunctions (JS.trim conditionToken) = Some (Throw e) ->
      generateFunctionString customFunctions assertion = Some (Throw e)).
Proof.
  intros Hsplit Halways Hwhen Hstatement.
  assert (Hact : activationString customFunctions (JS.trim activationToken)
                 = ret (lit "false")).
  { unfold activationString. now rewrite Halways, Hwhen, Hstatement. }
  split; [exact Hact|].
  split; intros r Hcond; unfold generateFunctionString; rewrite Hsplit;
    cbn [lift bindF nth]; rewrite Hact; cbn [bindF ret]; rewrite Hcond; reflexivity.
Qed.

(** The assertion [FOO:1 == 2]: its activation is of no recognized form, and
    it compiles. *)
Lemma unrecognized_activation_FOO :
  getSplitTokens (lit "FOO:1 == 2") = Return [lit "FOO"; lit "1 == 2"] /\
  JS.startsWith (JS.trim (lit "FOO")) Symbols.ALWAYS = false /\
  JS.startsWith (JS.trim (lit "FOO")) Symbols.WHEN = false /\
  isStatementToken [] (JS.trim (lit "FOO")) = false /\
  generateConditionalString [] (JS.trim (lit "1 == 2")) = ret (lit "1==2") /\
  generateFunctionString [] (lit "FOO:1 == 2")
    = ret (lit "if(false){return(1==2);}else{return(true);}").
Proof.
  do 5 (split; [reflexivity|]).
  destruct (unrecognized_activation_is_false [] (lit "FOO:1 == 2") (lit "FOO")
              (lit "1 == 2") eq_refl eq_refl eq_refl eq_refl) as (_ & Hgen & _).
  exact (Hgen (lit "1==2") eq_refl).
Defined.

(** C5 (as stated) fails: the activation token [FOO] is of no recognized form
    (no function is registered), and compiling [FOO:1 == 2] raises no error
    but returns a function, which holds on every model and state. *)
Lemma unrecognized_activation_compiles_silently :
  JS.startsWith (JS.trim (lit "FOO")) Symbols.ALWAYS = false /\
  JS.startsWith (JS.trim (lit "FOO")) Symbols.WHEN = false /\
  isStatementToken [] (JS.trim (lit "FOO")) = false /\
  generateFunction [] Host.generateFromString (lit "FOO:1 == 2")
    = ret (Some [Host.SIf (Host.EBool false)
                   [Host.SReturn (Host.EBin Host.OEq (Host.ENum 1) (Host.ENum 2))]
                   [Host.SReturn (Host.EBool true)]]) /\
  evaluate_assertion [] (lit "FOO:1 == 2") (Host.Env VUndef VUndef no_functions)
    = ret (ret (VBool true)).
Proof. repeat split; vm_compute; reflexivity. Qed.

(* ------------------------------------------------------------------ *)
(** ** Paths that are not there *)

(** C2 (as amended). [getObjectValue], the lookup of message rendering, never
    throws: on the model [{a:{b:5}}] the path [a.b] yields 5, the path [a.c],
    whose last segment is missing, yields [undefined], and the path [a.c.d],
    which walks through the missing segment, yields the sentinel
    ['UNDEFINED_VALUE']. A compiled constraint reads the properties of
    [this.model] directly: on that model [ALWAYS:$a.b == 5] evaluates to
    [true] and [ALWAYS:$a.c == 5] to [false], none of them to an error. *)
Theorem missing_path_tolerance :
  (forall object keyChain, exists v, getObjectValue object keyChain = Return v) /\
  getObjectValue (model_a_b 5) (lit "a.b") = Return (VNum 5) /\
  getObjectValue (model_a_b 5) (lit "a.c") = Return VUndef /\
  getObjectValue (model_a_b 5) (lit "a.c.d") = Return (VStr (lit "UNDEFINED_VALUE")) /\
  (forall state functions,
      evaluate_assertion [] (lit "ALWAYS:$a.b == 5")
        (Host.Env (model_a_b 5) state functions) = ret (ret (VBool true))) /\
  (forall state functions,
      evaluate_assertion [] (lit "ALWAYS:$a.c == 5")
        (Host.Env (model_a_b 5) state functions) = ret (ret (VBool false))).
Proof.
  split; [|split; [|split; [|split; [|split]]]].
  - intros object keyChain. unfold getObjectValue, try_catch.
    match goal with
    | |- exists v, match ?body with _ => _ end = _ => destruct body as [v|e]
    end; eexists; reflexivity.
  - reflexivity.
  - reflexivity.
  - reflexivity.
  - intros state functions. vm_compute. reflexivity.
  - intros state functions. vm_compute. reflexivity.
Qed.

(** C2 (as stated) fails: on the model [{a:{b:5}}] the compiled constraint
    [ALWAYS:$a.c.d == 5] reads a property of [undefined], and its evaluation
    throws. *)
Lemma missing_intermediate_segment_throws :
  generateFunctionString [] (lit "ALWAYS:$a.c.d == 5")
    = ret (lit "if(true){return(this.model.a.c.d==5);}else{return(true);}") /\
  evaluate_assertion [] (lit "ALWAYS:$a.c.d == 5")
    (Host.Env (model_a_b 5) VUndef no_functions) = ret (Some (Throw TypeError)).
Proof. split; vm_compute; reflexivity. Qed.

(* ------------------------------------------------------------------ *)
(** ** Messages *)

Lemma getObjectValue_value_at (object : value) (keyChain : str) :
  getObjectValue object keyChain = Return (value_at object keyChain).
Proof.
  unfold value_at.
  assert (H : exists v, getObjectValue object keyChain = Return v).
  { unfold getObjectValue, try_catch.
    match goal with
    | |- exists v, match ?body with _ => _ end = _ => destruct body as [v|e]
    end; eexists; reflexivity. }
  destruct H as [v ->]. reflexivity.
Qed.

(** Removing the prefix of a token that starts with it leaves its tail. *)
Lemma replace_prefix (prefix : ascii) (token : str) :
  JS.startsWith token [prefix] = true ->
  JS.replace token [prefix] [] = tl token /\ prefix :: tl token = token.
Proof.
  destruct token as [|c token]; [discriminate|]. cbn [JS.startsWith].
  rewrite andb_true_r. intro H. apply Ascii.eqb_eq in H. subst c.
  unfold JS.replace, JS.indexOf. cbn [JS.indexOf_from JS.startsWith].
  rewrite Ascii.eqb_refl. cbn. split; reflexivity.
Qed.

Lemma substitute_references_loop (prefix : ascii) (object : value) :
  forall (l : list str) (message : str),
    Forall (fun token => JS.startsWith token [prefix] = true) l ->
    for_ofF (map (fun token => JS.replace token [prefix] []) l)
      (fun key message =>
         let keyWithPrefix := prefix :: key in
         v <-- lift (getObjectValue object key) ;;
         ret (JS.replace message keyWithPrefix (toString v)))
      message
    = ret (fold_left
             (fun message token =>
                JS.replace message token (toString (value_at object (tl token))))
             l message).
Proof.
  induction l as [|token l IH]; intros message Hall; [reflexivity|].
  inversion Hall as [|? ? Htoken Hrest]; subst.
  destruct (replace_prefix prefix token Htoken) as [Hkey Hwhole].
  cbn [map for_ofF fold_left]. rewrite Hkey, getObjectValue_value_at.
  cbv zeta. cbn [lift bindF ret]. rewrite Hwhole. now apply IH.
Qed.

Lemma filter_startsWith (prefix : ascii) (tokens : list str) :
  Forall (fun token => JS.startsWith token [prefix] = true)
    (filter (fun token => JS.startsWith token [prefix]) tokens).
Proof.
  apply Forall_forall. intros token Hin. now apply filter_In in Hin.
Qed.

(** C9. Message rendering substitutes in a fixed order: first every token
    that starts with the model prefix (each occurrence of a token in the
    token list stands for one textual replacement of [$path] by the value
    looked up), then every token that starts with the state prefix, then, in
    the order of the template, the statement and the function tokens. The
    template [value is $a.b and #c] with model [{a:{b:5}}] and state [{c:7}]
    renders [value is 5 and 7]; with a model value that reads [#c] the state
    phase, coming second, rewrites the text the model phase has put in; a
    statement token is replaced by what its function returns on the model and
    the state, a function token by the result of its call on the resolved
    arguments. *)
Theorem getMessage_order (customFunctions : list str) (parseFloat : str -> value)
    (msgString : str) (model state : value) (functions : str -> option jsfunction) :
  getMessage customFunctions parseFloat msgString model state functions
  = (tokens <-- lift (getMessageTokens customFunctions msgString) ;;
     substitute_calls customFunctions parseFloat model state functions tokens
       (substitute_references Symbols.STATE_PREFIX state tokens
          (substitute_references Symbols.MODEL_PREFIX model tokens msgString))) /\
  getMessage [] parseFloat (lit "value is $a.b and #c")
    (model_a_b 5) (VObj [(lit "c", VNum 7)]) functions
  = ret (lit "value is 5 and 7") /\
  getMessage [] parseFloat (lit "$a and #c")
    (VObj [(lit "a", VStr (lit "#c"))]) (VObj [(lit "c", VNum 7)]) functions
  = ret (lit "7 and #c") /\
  getMessage [lit "total"; lit "add"] parseFloat
    (lit "you have total items, sum: add($a.b, #c) !")
    (model_a_b 5) (VObj [(lit "c", VNum 7)]) arithmetic_functions
  = ret (lit "you have 5 items, sum: 12 !").
Proof.
  split; [|split; [|split]]; [| vm_compute; reflexivity ..].
  - unfold getMessage, substitute_calls, substitute_references, getFilteredTokenArray.
    destruct (getMessageTokens customFunctions msgString) as [tokens|e];
      cbn [lift bindF]; [|reflexivity].
    rewrite (substitute_references_loop Symbols.MODEL_PREFIX model)
      by apply filter_startsWith.
    cbn [bindF ret].
    rewrite (substitute_references_loop Symbols.STATE_PREFIX state)
      by apply filter_startsWith.
    reflexivity.
Qed.

(* ------------------------------------------------------------------ *)
(** ** Further properties of the compiler *)

(** X1. [getSymbolForToken] returns a symbol for every token and throws for
    none. A token that is no reference and no function token, that [isString]
    rejects and that holds no digit is replaced by the empty text unless it is
    one of the fifteen operator symbols; one that [isString] accepts or that
    holds a digit is passed on as it is. *)
Theorem getSymbolForToken_closed_set (customFunctions : list str) (token : str) :
  (exists symbol, getSymbolForToken customFunctions token = ret symbol) /\
  (isModelVariable token = false ->
   isStateVariable token = false ->
   isFunctionToken customFunctions token = false ->
   (isString token || existsb is_digit token = true ->
    getSymbolForToken customFunctions token = ret token) /\
   (isString token || existsb is_digit token = false ->
    ~ In token (map lit ["<"; "<="; "=="; "!="; ">="; ">"; "+"; "-"; "*"; "/";
                         "%"; "("; ")"; "&&"; "||"]%string) ->
    getSymbolForToken customFunctions token = ret [])).
Proof.
  destruct (getSymbolForToken_cases customFunctions token) as (symbol & Hsymbol & Hcases).
  split; [now exists symbol|].
  intros Hm Hs Hf. rewrite Hsymbol.
  destruct Hcases as [[Hm' _]|[(_ & Hs' & _)|(_ & _ & Hcases)]]; try congruence.
  destruct Hcases as [[Hst _]|[(_ & Hf' & _)|(_ & Hcases)]]; try congruence.
  { rewrite (isStatementToken_false _ _ Hf) in Hst. discriminate. }
  destruct Hcases as [[Hq ->]|(Hq & [[Hin ->]|[Hin ->]])]; split; intros; try congruence;
    try contradiction; reflexivity.
Qed.

(** X2. [isNumberString] accepts exactly the texts that hold a digit. *)
Theorem isNumberString_digit (string : str) :
  isNumberString string = true <-> exists c, In c string /\ is_digit c = true.
Proof. rewrite isNumberString_has_digit. apply existsb_exists. Qed.

(** X3. On a call [name(inner)], where [name] holds no opening bracket and
    the brackets of [inner] match, [getSubstringWithinParentheses] returns
    [inner]. *)
Theorem getSubstringWithinParentheses_call (name inner : str) :
  forallb (fun c => negb (Ascii.eqb c Symbols.BRACKET_OPEN)) name = true ->
  balanced 0 inner = true ->
  getSubstringWithinParentheses
    (name ++ Symbols.BRACKET_OPEN :: inner ++ [Symbols.BRACKET_CLOSE])
  = Return inner.
Proof. intros Hname Hbal. now apply getSubstringWithinParentheses_balanced. Qed.

Lemma getSubstringWithinParentheses_call_add :
  forallb (fun c => negb (Ascii.eqb c Symbols.BRACKET_OPEN)) (lit "add") = true /\
  balanced 0 (lit "mul(2,3), 4") = true /\
  getSubstringWithinParentheses (lit "add(mul(2,3), 4)") = Return (lit "mul(2,3), 4").
Proof.
  split; [reflexivity|]. split; [reflexivity|].
  exact (getSubstringWithinParentheses_call (lit "add") (lit "mul(2,3), 4")
           eq_refl eq_refl).
Defined.

(** Nested calls, compiled and run: with [add] and [mul] registered and
    supplied, [ALWAYS:add(mul(2,3), 4) == 10] evaluates to [true] on every
    model and state. *)
Theorem nested_function_calls (model state : value) :
  generateFunctionString [lit "add"; lit "mul"] (lit "ALWAYS:add(mul(2,3), 4) == 10")
  = ret (lit "if(true){return(this.functions['add'](this.functions['mul'](2,3),4)==10);}else{return(true);}") /\
  evaluate_assertion [lit "add"; lit "mul"] (lit "ALWAYS:add(mul(2,3), 4) == 10")
    (Host.Env model state arithmetic_functions)
  = ret (ret (VBool true)).
Proof. split; vm_compute; reflexivity. Qed.

(** Compiled and run: [ALWAYS:1 == 1] evaluates to [true] and
    [ALWAYS:1 == 2] to [false], on every model and state. *)
Theorem round_trip (this : Host.env) :
  evaluate_assertion [] (lit "ALWAYS:1 == 1") this = ret (ret (VBool true)) /\
  evaluate_assertion [] (lit "ALWAYS:1 == 2") this = ret (ret (VBool false)).
Proof. split; vm_compute; reflexivity. Qed.

(* ------------------------------------------------------------------ *)
(** ** Loops with an invariant that follows the counter *)

Lemma for_loop_rule {St} (P : Z -> St -> Prop) (Q : St -> Prop)
    (body : Z -> St -> ctl St) (n : Z) :
  (forall j s, j < n -> P j s ->
               match body j s with
               | Continue s' => P (j + 1) s'
               | Break s' => Q s'
               end) ->
  (forall j s, n <= j -> P j s -> Q s) ->
  forall fuel i s, fuel = Z.to_nat (n - i) -> P i s -> Q (for_loop fuel i n body s).
Proof.
  intros Hbody Hexit.
  induction fuel as [|fuel IH]; intros i s Hfuel HP; cbn [for_loop].
  - apply (Hexit i); [lia|exact HP].
  - destruct (i <? n) eqn:E; [apply Z.ltb_lt in E|apply Z.ltb_ge in E; lia].
    specialize (Hbody i s E HP).
    destruct (body i s) as [s'|s']; [|exact Hbody].
    apply IH; [lia|exact Hbody].
Qed.

Lemma js_for_rule {St} (P : Z -> St -> Prop) (Q : St -> Prop)
    (body : Z -> St -> ctl St) (start n : Z) (s : St) :
  P start s ->
  (forall j s, start <= j < n -> P j s ->
               match body j s with
               | Continue s' => P (j + 1) s'
               | Break s' => Q s'
               end) ->
  (forall j s, start <= j -> n <= j -> P j s -> Q s) ->
  Q (js_for start n body s).
Proof.
  intros HP Hbody Hexit. unfold js_for.
  apply (for_loop_rule (fun j s => start <= j /\ P j s) Q body n).
  - intros j s' Hj [Hs HPj]. specialize (Hbody j s' (conj Hs Hj) HPj).
    destruct (body j s'); [split; [lia|exact Hbody]|exact Hbody].
  - intros j s' Hj [Hs HPj]. now apply (Hexit j).
  - reflexivity.
  - split; [lia|exact HP].
Qed.

Lemma char_is_true (ch : option ascii) (c : ascii) :
  char_is ch c = true <-> ch = Some c.
Proof.
  destruct ch as [c'|]; cbn; [|split; discriminate].
  rewrite Ascii.eqb_eq. split; congruence.
Qed.

Lemma charAt_range (s : str) (i : Z) (c : ascii) :
  JS.charAt s i = Some c -> 0 <= i < JS.length s.
Proof.
  unfold JS.charAt, JS.length. destruct (i <? 0) eqn:E; [discriminate|].
  apply Z.ltb_ge in E. intros H.
  assert (Hlt : (Z.to_nat i < List.length s)%nat).
  { apply nth_error_Some. congruence. }
  lia.
Qed.

Lemma StronglySorted_snoc (l : list Z) (j : Z) :
  StronglySorted Z.lt l -> (forall k, In k l -> k < j) -> StronglySorted Z.lt (l ++ [j]).
Proof.
  induction 1 as [|a l Hl IHl Ha]; intros Hj; cbn [app].
  - repeat constructor.
  - constructor.
    + apply IHl. intros k Hk. apply Hj. now right.
    + apply Forall_app. split; [exact Ha|]. constructor; [|constructor].
      apply Hj. now left.
Qed.

Lemma charAt_app_l (pre suf : str) (i : Z) :
  i < JS.length pre -> JS.charAt (pre ++ suf) i = JS.charAt pre i.
Proof.
  intros Hi. unfold JS.charAt, JS.length in *. destruct (i <? 0) eqn:E; [reflexivity|].
  apply Z.ltb_ge in E. apply nth_error_app1. lia.
Qed.

Lemma charAt_app_r (pre suf : str) (i : Z) :
  0 <= i -> JS.charAt (pre ++ suf) (JS.length pre + i) = JS.charAt suf i.
Proof.
  intros Hi. rewrite !charAt_nth by (pose proof (length_nonneg pre); lia).
  unfold JS.length. rewrite nth_error_app2 by lia. f_equal. lia.
Qed.

Lemma charAt_app_head (pre suf : str) (c : ascii) :
  JS.charAt (pre ++ c :: suf) (JS.length pre) = Some c.
Proof.
  replace (JS.length pre) with (JS.length pre + 0) by lia.
  now rewrite charAt_app_r by lia.
Qed.

Lemma charAt_In (s : str) (i : Z) (c : ascii) : JS.charAt s i = Some c -> In c s.
Proof.
  unfold JS.charAt. destruct (i <? 0); [discriminate|]. apply nth_error_In.
Qed.

Lemma length_app_cons (pre suf : str) (c : ascii) :
  JS.length (pre ++ c :: suf) = JS.length pre + 1 + JS.length suf.
Proof. unfold JS.length. rewrite length_app. cbn [List.length]. lia. Qed.

Lemma length_cons (c : ascii) (s : str) : JS.length (c :: s) = 1 + JS.length s.
Proof. unfold JS.length. cbn [List.length]. lia. Qed.

Lemma length_append (a b : str) : JS.length (a ++ b) = JS.length a + JS.length b.
Proof. unfold JS.length. rewrite List.length_app. lia. Qed.

Lemma none_of_In (class : ascii -> bool) (s : str) (c : ascii) :
  none_of class s = true -> In c s -> class c = false.
Proof.
  unfold none_of. rewrite forallb_forall. intros H Hin.
  apply negb_true_iff. now apply H.
Qed.

(* ------------------------------------------------------------------ *)
(** ** Brackets *)

Lemma findAllIndicesOf_spec (char : ascii) (srcString : str) :
  (forall i, In i (findAllIndicesOf char srcString) <-> JS.charAt srcString i = Some char) /\
  StronglySorted Z.lt (findAllIndicesOf char srcString).
Proof.
  unfold findAllIndicesOf.
  apply (js_for_rule
           (fun j res =>
              (forall i, In i res <-> i < j /\ JS.charAt srcString i = Some char) /\
              StronglySorted Z.lt res)
           (fun res =>
              (forall i, In i res <-> JS.charAt srcString i = Some char) /\
              StronglySorted Z.lt res)).
  - split; [|constructor]. intros i. split; [intros []|].
    intros [Hi Hc]. apply charAt_range in Hc. lia.
  - intros j res Hj [Hin Hsorted].
    destruct (char_is (JS.charAt srcString j) char) eqn:E.
    + apply char_is_true in E. split.
      * intros i. rewrite in_app_iff, Hin. cbn [In]. split.
        -- intros [[Hi Hc]|[<-|[]]]; split; try assumption; lia.
        -- intros [Hi Hc]. destruct (Z.eq_dec i j) as [->|Hne]; [right; now left|].
           left. split; [lia|assumption].
      * apply StronglySorted_snoc; [exact Hsorted|].
        intros k Hk. now apply Hin in Hk.
    + split; [|exact Hsorted]. intros i. rewrite Hin. split.
      * intros [Hi Hc]. split; [lia|assumption].
      * intros [Hi Hc]. split; [|assumption].
        destruct (Z.eq_dec i j) as [->|Hne]; [|lia].
        apply char_is_true in Hc. congruence.
  - intros j res _ Hj [Hin Hsorted]. split; [|exact Hsorted].
    intros i. rewrite Hin. split; [tauto|]. intros Hc. split; [|exact Hc].
    apply charAt_range in Hc. lia.
Qed.

(** The loop of [getClosingBracketIndex] over a text whose brackets match,
    [depth] of them being open, stops at the bracket that closes the first
    of them. *)
Lemma closing_bracket_loop (rest : str) :
  forall (inner pre : str) (depth : nat) (fuel : nat),
    balanced depth inner = true ->
    let s := pre ++ inner ++ ")"%char :: rest in
    fuel = Z.to_nat (JS.length s - JS.length pre) ->
    for_loop fuel (JS.length pre) (JS.length s)
      (fun j st =>
         let '(numBrackets, closingBracketIndex) := st in
         let currentChar := JS.charAt s j in
         let numBrackets :=
           if char_is currentChar "("%char then numBrackets + 1
           else if char_is currentChar ")"%char then numBrackets - 1
           else numBrackets in
         if numBrackets =? 0 then Break (numBrackets, j)
         else Continue (numBrackets, closingBracketIndex))
      (Z.of_nat (S depth), -1)
    = (0, JS.length pre + JS.length inner).
Proof.
  induction inner as [|c inner IH]; intros pre depth fuel Hbal s Hfuel.
  - cbn [balanced] in Hbal. apply Nat.eqb_eq in Hbal. subst depth.
    assert (Hlen : JS.length s = JS.length pre + 1 + JS.length rest).
    { subst s. unfold JS.length. rewrite length_app. cbn [app List.length]. lia. }
    pose proof (length_nonneg rest) as Hrest.
    destruct fuel as [|fuel]; [lia|]. cbn [for_loop].
    destruct (JS.length pre <? JS.length s) eqn:E; [|apply Z.ltb_ge in E; lia].
    assert (Hc : JS.charAt s (JS.length pre) = Some ")"%char).
    { rewrite charAt_nth by apply length_nonneg. unfold JS.length. rewrite Nat2Z.id.
      subst s. now rewrite nth_error_app2, Nat.sub_diag by lia. }
    rewrite Hc. cbn. f_equal. unfold JS.length. cbn. lia.
  - assert (Hs : s = (pre ++ [c]) ++ inner ++ ")"%char :: rest).
    { subst s. now rewrite <- app_assoc. }
    assert (Hpre : JS.length (pre ++ [c]) = JS.length pre + 1).
    { unfold JS.length. rewrite length_app. cbn. lia. }
    assert (Hlen : JS.length pre + 1 <= JS.length s).
    { rewrite Hs. unfold JS.length. rewrite !length_app. cbn. lia. }
    destruct fuel as [|fuel]; [lia|]. cbn [for_loop].
    destruct (JS.length pre <? JS.length s) eqn:E; [|apply Z.ltb_ge in E; lia].
    assert (Hc : JS.charAt s (JS.length pre) = Some c).
    { rewrite charAt_nth by apply length_nonneg. unfold JS.length. rewrite Nat2Z.id.
      subst s. now rewrite nth_error_app2, Nat.sub_diag by lia. }
    rewrite Hc. cbn [char_is]. cbn [balanced] in Hbal.
    assert (Hlen' : JS.length (c :: inner) = 1 + JS.length inner).
    { unfold JS.length. cbn [List.length]. lia. }
    rewrite Hlen'.
    change Symbols.BRACKET_OPEN with "("%char in Hbal.
    change Symbols.BRACKET_CLOSE with ")"%char in Hbal.
    destruct (Ascii.eqb c "("%char) eqn:Eo.
    + destruct (Z.of_nat (S depth) + 1 =? 0) eqn:E0; [apply Z.eqb_eq in E0; lia|].
      specialize (IH (pre ++ [c]) (S depth) fuel Hbal).
      cbv zeta in IH. rewrite <- Hs, Hpre in IH.
      replace (Z.of_nat (S depth) + 1) with (Z.of_nat (S (S depth))) by lia.
      rewrite IH by lia. f_equal. lia.
    + destruct (Ascii.eqb c ")"%char) eqn:Ec.
      * destruct depth as [|depth]; [discriminate|].
        destruct (Z.of_nat (S (S depth)) - 1 =? 0) eqn:E0; [apply Z.eqb_eq in E0; lia|].
        specialize (IH (pre ++ [c]) depth fuel Hbal).
        cbv zeta in IH. rewrite <- Hs, Hpre in IH.
        replace (Z.of_nat (S (S depth)) - 1) with (Z.of_nat (S depth)) by lia.
        rewrite IH by lia. f_equal. lia.
      * destruct (Z.of_nat (S depth) =? 0) eqn:E0; [apply Z.eqb_eq in E0; lia|].
        specialize (IH (pre ++ [c]) depth fuel Hbal).
        cbv zeta in IH. rewrite <- Hs, Hpre in IH.
        rewrite IH by lia. f_equal. lia.
Qed.

Lemma closing_bracket_matching (pre inner rest : str) (opening : ascii) :
  balanced 0 inner = true ->
  getClosingBracketIndex (JS.length pre) (pre ++ opening :: inner ++ ")"%char :: rest)
  = JS.length pre + 1 + JS.length inner.
Proof.
  intros Hbal. unfold getClosingBracketIndex, js_for.
  set (s := pre ++ opening :: inner ++ ")"%char :: rest).
  assert (Hs : s = (pre ++ [opening]) ++ inner ++ ")"%char :: rest).
  { subst s. now rewrite <- app_assoc. }
  assert (Hpre : JS.length (pre ++ [opening]) = JS.length pre + 1).
  { unfold JS.length. rewrite length_app. cbn. lia. }
  pose proof (closing_bracket_loop rest inner (pre ++ [opening]) 0
                (Z.to_nat (JS.length s - (JS.length pre + 1))) Hbal) as Hloop.
  cbv zeta in Hloop. rewrite <- Hs, Hpre in Hloop.
  change (Z.of_nat 1) with 1 in Hloop. rewrite Hloop by reflexivity.
  reflexivity.
Qed.

Lemma closing_bracket_range (openingBracketIndex : Z) (srcString : str) :
  let closingBracketIndex := getClosingBracketIndex openingBracketIndex srcString in
  closingBracketIndex = -1 \/
  (openingBracketIndex < closingBracketIndex /\
   JS.charAt srcString closingBracketIndex = Some ")"%char).
Proof.
  cbv zeta. unfold getClosingBracketIndex.
  apply (js_for_rule
           (fun j st => 1 <= fst st /\ snd st = -1)
           (fun st => snd st = -1 \/
                      (openingBracketIndex < snd st /\
                       JS.charAt srcString (snd st) = Some ")"%char))).
  - cbn. lia.
  - intros j [numBrackets closingBracketIndex] Hj [Hn Hc]. cbn [fst snd] in *.
    destruct (char_is (JS.charAt srcString j) "("%char) eqn:Eo.
    + destruct (numBrackets + 1 =? 0) eqn:E0; [apply Z.eqb_eq in E0; lia|].
      cbn [fst snd]. lia.
    + destruct (char_is (JS.charAt srcString j) ")"%char) eqn:Ec.
      * destruct (numBrackets - 1 =? 0) eqn:E0.
        -- cbn [snd]. right. apply char_is_true in Ec. split; [lia|exact Ec].
        -- apply Z.eqb_neq in E0. cbn [fst snd]. lia.
      * destruct (numBrackets =? 0) eqn:E0; [apply Z.eqb_eq in E0; lia|].
        cbn [fst snd]. lia.
  - intros j st _ _ [_ Hc]. now left.
Qed.

(** The loop of [getClosingBracketIndex] over a text that does not close the
    opening bracket runs to the end of it. *)
Lemma closing_bracket_loop_unclosed :
  forall (inner pre : str) (depth : nat) (fuel : nat),
    unclosed depth inner = true ->
    let s := pre ++ inner in
    fuel = Z.to_nat (JS.length s - JS.length pre) ->
    snd (for_loop fuel (JS.length pre) (JS.length s)
      (fun j st =>
         let '(numBrackets, closingBracketIndex) := st in
         let currentChar := JS.charAt s j in
         let numBrackets :=
           if char_is currentChar "("%char then numBrackets + 1
           else if char_is currentChar ")"%char then numBrackets - 1
           else numBrackets in
         if numBrackets =? 0 then Break (numBrackets, j)
         else Continue (numBrackets, closingBracketIndex))
      (Z.of_nat (S depth), -1))
    = -1.
Proof.
  induction inner as [|c inner IH]; intros pre depth fuel Hun s Hfuel.
  - subst s. rewrite app_nil_r in *. replace fuel with O by lia. reflexivity.
  - assert (Hs : s = (pre ++ [c]) ++ inner).
    { subst s. now rewrite <- app_assoc. }
    assert (Hpre : JS.length (pre ++ [c]) = JS.length pre + 1).
    { rewrite length_append. reflexivity. }
    assert (Hlen : JS.length s = JS.length pre + 1 + JS.length inner).
    { subst s. apply length_app_cons. }
    pose proof (length_nonneg inner) as Hinner.
    destruct fuel as [|fuel]; [lia|]. cbn [for_loop].
    destruct (JS.length pre <? JS.length s) eqn:E; [|apply Z.ltb_ge in E; lia].
    assert (Hc : JS.charAt s (JS.length pre) = Some c).
    { subst s. apply charAt_app_head. }
    rewrite Hc. cbn [char_is]. cbn [unclosed] in Hun.
    change Symbols.BRACKET_OPEN with "("%char in Hun.
    change Symbols.BRACKET_CLOSE with ")"%char in Hun.
    destruct (Ascii.eqb c "("%char) eqn:Eo.
    + destruct (Z.of_nat (S depth) + 1 =? 0) eqn:E0; [apply Z.eqb_eq in E0; lia|].
      specialize (IH (pre ++ [c]) (S depth) fuel Hun).
      cbv zeta in IH. rewrite <- Hs, Hpre in IH.
      replace (Z.of_nat (S depth) + 1) with (Z.of_nat (S (S depth))) by lia.
      apply IH. lia.
    + destruct (Ascii.eqb c ")"%char) eqn:Ec.
      * destruct depth as [|depth]; [discriminate|].
        destruct (Z.of_nat (S (S depth)) - 1 =? 0) eqn:E0; [apply Z.eqb_eq in E0; lia|].
        specialize (IH (pre ++ [c]) depth fuel Hun).
        cbv zeta in IH. rewrite <- Hs, Hpre in IH.
        replace (Z.of_nat (S (S depth)) - 1) with (Z.of_nat (S depth)) by lia.
        apply IH. lia.
      * destruct (Z.of_nat (S depth) =? 0) eqn:E0; [apply Z.eqb_eq in E0; lia|].
        specialize (IH (pre ++ [c]) depth fuel Hun).
        cbv zeta in IH. rewrite <- Hs, Hpre in IH.
        apply IH. lia.
Qed.

Lemma closing_bracket_unclosed (pre inner : str) (opening : ascii) :
  unclosed 0 inner = true ->
  getClosingBracketIndex (JS.length pre) (pre ++ opening :: inner) = -1.
Proof.
  intros Hun. unfold getClosingBracketIndex, js_for.
  set (s := pre ++ opening :: inner).
  assert (Hs : s = (pre ++ [opening]) ++ inner).
  { subst s. now rewrite <- app_assoc. }
  assert (Hpre : JS.length (pre ++ [opening]) = JS.length pre + 1).
  { rewrite length_append. reflexivity. }
  pose proof (closing_bracket_loop_unclosed inner (pre ++ [opening]) 0
                (Z.to_nat (JS.length s - (JS.length pre + 1))) Hun) as Hloop.
  cbv zeta in Hloop. rewrite <- Hs, Hpre in Hloop.
  change (Z.of_nat 1) with 1 in Hloop. now rewrite Hloop.
Qed.

(** X6. [findAllIndicesOf] lists exactly the indices at which the character
    stands, in increasing order. *)
Theorem findAllIndicesOf_indices (char : ascii) (srcString : str) :
  (forall i, In i (findAllIndicesOf char srcString) <-> JS.charAt srcString i = Some char) /\
  StronglySorted Z.lt (findAllIndicesOf char srcString).
Proof. apply findAllIndicesOf_spec. Qed.

(** X7. [getClosingBracketIndex] takes the character at the index it is given
    for an opening bracket without looking at it. When the brackets of the
    text behind it match up to a closing bracket, it returns the index of that
    bracket; when the text behind it never closes the bracket, it returns
    [-1]. What it returns is always [-1] or the index of a closing bracket
    behind the one it was given. *)
Theorem getClosingBracketIndex_matching (pre inner : str) (opening : ascii) :
  (forall rest,
      balanced 0 inner = true ->
      getClosingBracketIndex (JS.length pre) (pre ++ opening :: inner ++ ")"%char :: rest)
      = JS.length pre + 1 + JS.length inner) /\
  (unclosed 0 inner = true ->
   getClosingBracketIndex (JS.length pre) (pre ++ opening :: inner) = -1) /\
  (forall openingBracketIndex srcString,
      let closingBracketIndex := getClosingBracketIndex openingBracketIndex srcString in
      closingBracketIndex = -1 \/
      (openingBracketIndex < closingBracketIndex /\
       JS.charAt srcString closingBracketIndex = Some ")"%char)).
Proof.
  split; [|split].
  - intros rest Hbal. now apply closing_bracket_matching.
  - apply closing_bracket_unclosed.
  - apply closing_bracket_range.
Qed.

Lemma for_of_rule {A St} (P Q : St -> Prop) (R : error -> Prop)
    (body : A -> St -> completion (ctl St)) :
  forall (xs : list A) (s : St),
    (forall x s, In x xs -> P s ->
                 match body x s with
                 | Return (Continue s') => P s'
                 | Return (Break s') => Q s'
                 | Throw e => R e
                 end) ->
    P s ->
    match for_of xs body s with
    | Return s' => P s' \/ Q s'
    | Throw e => R e
    end.
Proof.
  induction xs as [|x xs IH]; intros s Hbody HP; cbn [for_of].
  - now left.
  - pose proof (Hbody x s (or_introl eq_refl) HP) as Hx.
    destruct (body x s) as [[s'|s']|e]; [|now right|exact Hx].
    apply IH; [|exact Hx]. intros y s0 Hy. apply Hbody. now right.
Qed.

Lemma getClosingBracketIndex_matching_call :
  balanced 0 (lit "mul(2,3), 4") = true /\
  getClosingBracketIndex 3 (lit "add(mul(2,3), 4) == 10") = 15 /\
  unclosed 0 (lit "mul(2,3), 4") = true /\
  getClosingBracketIndex 3 (lit "add(mul(2,3), 4") = -1.
Proof.
  destruct (getClosingBracketIndex_matching (lit "add") (lit "mul(2,3), 4") "("%char)
    as (Hmatch & Hunclosed & _).
  split; [reflexivity|]. split; [exact (Hmatch (lit " == 10") eq_refl)|].
  split; [reflexivity|exact (Hunclosed eq_refl)].
Defined.

(** The first index [findAllIndicesOf] lists is that of the first
    occurrence. *)
Lemma findAllIndicesOf_first (char : ascii) (pre rest : str) :
  none_of (is_char char) pre = true ->
  exists l, findAllIndicesOf char (pre ++ char :: rest) = JS.length pre :: l.
Proof.
  intros Hpre.
  destruct (findAllIndicesOf_spec char (pre ++ char :: rest)) as [Hin Hsorted].
  assert (Hhere : In (JS.length pre) (findAllIndicesOf char (pre ++ char :: rest))).
  { apply Hin. apply charAt_app_head. }
  destruct (findAllIndicesOf char (pre ++ char :: rest)) as [|h l]; [destruct Hhere|].
  exists l. f_equal.
  assert (Hh : JS.length pre <= h).
  { destruct (Z_lt_le_dec h (JS.length pre)) as [Hlt|Hle]; [exfalso|exact Hle].
    pose proof (proj1 (Hin h) (or_introl eq_refl)) as Hc.
    rewrite charAt_app_l in Hc by exact Hlt.
    apply charAt_In in Hc. apply (none_of_In _ _ _ Hpre) in Hc.
    unfold is_char in Hc. now rewrite Ascii.eqb_refl in Hc. }
  destruct Hhere as [Heq|Hl]; [exact Heq|].
  apply StronglySorted_inv in Hsorted as [_ Hall].
  rewrite Forall_forall in Hall. specialize (Hall _ Hl). lia.
Qed.

Lemma findAllIndicesOf_none (char : ascii) (srcString : str) :
  none_of (is_char char) srcString = true -> findAllIndicesOf char srcString = [].
Proof.
  intros Hnone.
  destruct (findAllIndicesOf_spec char srcString) as [Hin _].
  destruct (findAllIndicesOf char srcString) as [|h l]; [reflexivity|exfalso].
  pose proof (proj1 (Hin h) (or_introl eq_refl)) as Hc.
  apply charAt_In in Hc. apply (none_of_In _ _ _ Hnone) in Hc.
  unfold is_char in Hc. now rewrite Ascii.eqb_refl in Hc.
Qed.

(** X8. [isCharWithinFunction] on a call [..w(inner)..], where [w] is a word
    character, the bracket is the first of the text and the brackets of
    [inner] match: every character of [inner] that is no bracket is within
    the function. *)
Theorem isCharWithinFunction_enclosed (pre inner rest : str) (w c : ascii) (i : Z) :
  none_of (is_char "("%char) pre = true ->
  is_word w = true ->
  balanced 0 inner = true ->
  JS.charAt inner i = Some c ->
  Ascii.eqb c "("%char = false ->
  Ascii.eqb c ")"%char = false ->
  isCharWithinFunction (pre ++ w :: "("%char :: inner ++ ")"%char :: rest)
    (JS.length pre + 2 + i)
  = Return true.
Proof.
  intros Hpre Hw Hbal Hc Ho Hcl.
  set (s := pre ++ w :: "("%char :: inner ++ ")"%char :: rest).
  assert (Hs : s = (pre ++ [w]) ++ "("%char :: inner ++ ")"%char :: rest).
  { subst s. now rewrite <- app_assoc. }
  assert (Hs2 : s = (pre ++ [w; "("%char]) ++ inner ++ ")"%char :: rest).
  { subst s. now rewrite <- app_assoc. }
  assert (Hlpre : JS.length (pre ++ [w]) = JS.length pre + 1) by apply length_append.
  assert (Hlpre2 : JS.length (pre ++ [w; "("%char]) = JS.length pre + 2)
    by apply length_append.
  pose proof (charAt_range _ _ _ Hc) as Hi.
  pose proof (length_nonneg pre) as Hp. pose proof (length_nonneg rest) as Hr.
  assert (Hlen : JS.length s = JS.length pre + 2 + JS.length inner + 1 + JS.length rest).
  { rewrite Hs2, length_append, Hlpre2, length_app_cons. lia. }
  assert (Hk : JS.charAt s (JS.length pre + 2 + i) = Some c).
  { rewrite Hs2, <- Hlpre2, charAt_app_r by lia. now rewrite charAt_app_l by lia. }
  unfold isCharWithinFunction. fold s. rewrite Hk. cbn [char_is]. rewrite Ho, Hcl.
  destruct (JS.length pre + 2 + i =? 0) eqn:E0; [apply Z.eqb_eq in E0; lia|].
  destruct (JS.length pre + 2 + i =? JS.length s - 1) eqn:E1; [apply Z.eqb_eq in E1; lia|].
  cbn [orb].
  destruct (findAllIndicesOf_first "("%char (pre ++ [w])
              (inner ++ ")"%char :: rest)) as [l Hl].
  { unfold none_of. rewrite forallb_app. fold (none_of (is_char "("%char) pre).
    rewrite Hpre. cbn [forallb andb]. unfold is_char.
    destruct (Ascii.eqb w "("%char) eqn:E; [|reflexivity].
    apply Ascii.eqb_eq in E. subst w. discriminate Hw. }
  rewrite <- Hs, Hlpre in Hl. rewrite Hl. cbn [for_of].
  destruct (JS.length pre + 1 =? 0) eqn:E2; [apply Z.eqb_eq in E2; lia|].
  replace (JS.length pre + 1 - 1) with (JS.length pre) by lia.
  unfold s at 1. rewrite charAt_app_head. cbn [char_matches]. rewrite Hw.
  assert (Hclose : getClosingBracketIndex (JS.length pre + 1) s
                   = JS.length pre + 1 + 1 + JS.length inner).
  { rewrite <- Hlpre, Hs. now apply closing_bracket_matching. }
  rewrite Hclose.
  destruct (JS.length pre + 1 + 1 + JS.length inner =? -1) eqn:E3;
    [apply Z.eqb_eq in E3; lia|].
  destruct (JS.length pre + 2 + i >? JS.length pre + 1) eqn:E4;
    [|rewrite Z.gtb_ltb in E4; apply Z.ltb_ge in E4; lia].
  destruct (JS.length pre + 2 + i <? JS.length pre + 1 + 1 + JS.length inner) eqn:E5;
    [|apply Z.ltb_ge in E5; lia].
  reflexivity.
Qed.

Lemma isCharWithinFunction_enclosed_example :
  none_of (is_char "("%char) (lit "SOME_FUNCTIO") = true /\
  is_word "N"%char = true /\
  balanced 0 (lit "a, test") = true /\
  JS.charAt (lit "a, test") 4 = Some "e"%char /\
  isCharWithinFunction (lit "SOME_FUNCTION(a, test)") 18 = Return true.
Proof.
  do 4 (split; [reflexivity|]).
  exact (isCharWithinFunction_enclosed (lit "SOME_FUNCTIO") (lit "a, test") []
           "N"%char "e"%char 4 eq_refl eq_refl eq_refl eq_refl eq_refl eq_refl).
Defined.

(** X9. [isCharWithinFunction] throws on a text whose first opening bracket
    follows a word character and is never closed, for every index that is not
    the first or the last one and at which no bracket stands, whether it lies
    behind the bracket or before it. *)
Theorem isCharWithinFunction_unclosed (pre inner : str) (w c : ascii) (charIndex : Z) :
  none_of (is_char "("%char) pre = true ->
  is_word w = true ->
  unclosed 0 inner = true ->
  let srcString := pre ++ w :: "("%char :: inner in
  0 < charIndex < JS.length srcString - 1 ->
  JS.charAt srcString charIndex = Some c ->
  Ascii.eqb c "("%char = false ->
  Ascii.eqb c ")"%char = false ->
  isCharWithinFunction srcString charIndex
  = Throw (Error (lit "Syntax error in function: " ++ srcString)).
Proof.
  intros Hpre Hw Hun s Hk Hc Ho Hcl.
  assert (Hs : s = (pre ++ [w]) ++ "("%char :: inner).
  { subst s. now rewrite <- app_assoc. }
  assert (Hlpre : JS.length (pre ++ [w]) = JS.length pre + 1) by apply length_append.
  pose proof (length_nonneg pre) as Hp.
  unfold isCharWithinFunction. rewrite Hc. cbn [char_is]. rewrite Ho, Hcl.
  destruct (charIndex =? 0) eqn:E0; [apply Z.eqb_eq in E0; lia|].
  destruct (charIndex =? JS.length s - 1) eqn:E1; [apply Z.eqb_eq in E1; lia|].
  cbn [orb].
  destruct (findAllIndicesOf_first "("%char (pre ++ [w]) inner) as [l Hl].
  { unfold none_of. rewrite forallb_app. fold (none_of (is_char "("%char) pre).
    rewrite Hpre. cbn [forallb andb]. unfold is_char.
    destruct (Ascii.eqb w "("%char) eqn:E; [|reflexivity].
    apply Ascii.eqb_eq in E. subst w. discriminate Hw. }
  rewrite <- Hs, Hlpre in Hl. rewrite Hl. cbn [for_of].
  destruct (JS.length pre + 1 =? 0) eqn:E2; [apply Z.eqb_eq in E2; lia|].
  replace (JS.length pre + 1 - 1) with (JS.length pre) by lia.
  unfold s at 1. rewrite charAt_app_head. cbn [char_matches]. rewrite Hw.
  assert (Hclose : getClosingBracketIndex (JS.length pre + 1) s = -1).
  { rewrite <- Hlpre, Hs. now apply closing_bracket_unclosed. }
  rewrite Hclose. reflexivity.
Qed.

Lemma isCharWithinFunction_unclosed_example :
  none_of (is_char "("%char) (lit "see ad") = true /\
  is_word "d"%char = true /\
  unclosed 0 (lit "1, 2") = true /\
  0 < 1 < JS.length (lit "see add(1, 2") - 1 /\
  JS.charAt (lit "see add(1, 2") 1 = Some "e"%char /\
  isCharWithinFunction (lit "see add(1, 2") 1
  = Throw (Error (lit "Syntax error in function: see add(1, 2")).
Proof.
  do 3 (split; [reflexivity|]). split; [cbn; lia|]. split; [reflexivity|].
  exact (isCharWithinFunction_unclosed (lit "see ad") (lit "1, 2") "d"%char "e"%char 1
           eq_refl eq_refl eq_refl (conj eq_refl eq_refl) eq_refl eq_refl eq_refl).
Defined.

(** X10. When [isCharWithinFunction] returns [true], the index lies between
    an opening bracket that follows a word character and the closing bracket
    [getClosingBracketIndex] finds for it; on a text without an opening
    bracket it returns [false] at every index. *)
Theorem isCharWithinFunction_sound (srcString : str) (charIndex : Z) :
  (isCharWithinFunction srcString charIndex = Return true ->
   exists openingBracketIndex,
     0 < openingBracketIndex < charIndex /\
     JS.charAt srcString openingBracketIndex = Some "("%char /\
     char_matches is_word (JS.charAt srcString (openingBracketIndex - 1)) = true /\
     charIndex < getClosingBracketIndex openingBracketIndex srcString /\
     JS.charAt srcString (getClosingBracketIndex openingBracketIndex srcString)
     = Some ")"%char) /\
  (none_of (is_char "("%char) srcString = true ->
   isCharWithinFunction srcString charIndex = Return false).
Proof.
  split.
  - unfold isCharWithinFunction.
    destruct ((charIndex =? 0) || (charIndex =? JS.length srcString - 1) ||
              char_is (JS.charAt srcString charIndex) "("%char ||
              char_is (JS.charAt srcString charIndex) ")"%char); [discriminate|].
    intros Hret.
    match type of Hret with for_of ?xs ?body ?s = _ =>
      pose proof (for_of_rule (fun res => res = false)
                    (fun _ => exists openingBracketIndex,
                        0 < openingBracketIndex < charIndex /\
                        JS.charAt srcString openingBracketIndex = Some "("%char /\
                        char_matches is_word
                          (JS.charAt srcString (openingBracketIndex - 1)) = true /\
                        charIndex < getClosingBracketIndex openingBracketIndex srcString /\
                        JS.charAt srcString
                          (getClosingBracketIndex openingBracketIndex srcString)
                        = Some ")"%char)
                    (fun _ => True) body xs s) as Hrule
    end.
    cbv beta in Hrule. rewrite Hret in Hrule.
    destruct Hrule as [Hfalse|Hfound]; [| |discriminate Hfalse|exact Hfound];
      [|reflexivity].
    intros o res Ho ->.
    apply (proj1 (findAllIndicesOf_spec "("%char srcString)) in Ho.
    destruct (o =? 0) eqn:E0; [reflexivity|]. apply Z.eqb_neq in E0.
    destruct (char_matches is_word (JS.charAt srcString (o - 1))) eqn:Ew; [|reflexivity].
    destruct (getClosingBracketIndex o srcString =? -1) eqn:Ec; [exact I|].
    apply Z.eqb_neq in Ec.
    destruct ((charIndex >? o) && (charIndex <? getClosingBracketIndex o srcString))
      eqn:Eb; [|reflexivity].
    apply andb_true_iff in Eb as [Eg El]. rewrite Z.gtb_ltb in Eg.
    apply Z.ltb_lt in Eg. apply Z.ltb_lt in El.
    exists o. pose proof (charAt_range _ _ _ Ho).
    destruct (closing_bracket_range o srcString) as [Hm|[_ Hcl]]; [contradiction|].
    repeat split; try assumption; lia.
  - intros Hnone. unfold isCharWithinFunction.
    rewrite (findAllIndicesOf_none _ _ Hnone). cbn [for_of].
    now destruct ((charIndex =? 0) || (charIndex =? JS.length srcString - 1) ||
                  char_is (JS.charAt srcString charIndex) "("%char ||
                  char_is (JS.charAt srcString charIndex) ")"%char).
Qed.

(* ------------------------------------------------------------------ *)
(** ** Cutting a token down *)

Lemma none_of_app (class : ascii -> bool) (a b : str) :
  none_of class (a ++ b) = none_of class a && none_of class b.
Proof. apply forallb_app. Qed.

Lemma none_of_charAt (class : ascii -> bool) (s : str) (i : Z) :
  none_of class s = true -> char_matches class (JS.charAt s i) = false.
Proof.
  intros Hnone. destruct (JS.charAt s i) as [c|] eqn:E; [|reflexivity].
  cbn. apply charAt_In in E. now apply (none_of_In _ _ _ Hnone).
Qed.

(** A text holds no character of a class, or it has a last one. *)
Lemma last_match_split (class : ascii -> bool) (s : str) :
  none_of class s = true \/
  exists pre c post, s = pre ++ c :: post /\ class c = true /\ none_of class post = true.
Proof.
  induction s as [|d s IH] using rev_ind; [now left|].
  destruct (class d) eqn:Ed.
  - right. exists s, d, []. auto.
  - destruct IH as [Hnone|(pre & c & post & -> & Hc & Hpost)].
    + left. rewrite none_of_app, Hnone. cbn. now rewrite Ed.
    + right. exists pre, c, (post ++ [d]). rewrite <- app_assoc. cbn [app].
      repeat split; [exact Hc|]. rewrite none_of_app, Hpost. cbn. now rewrite Ed.
Qed.

(** A text holds no character of a class, or it has a first one. *)
Lemma first_match_split (class : ascii -> bool) (s : str) :
  none_of class s = true \/
  exists pre c post, s = pre ++ c :: post /\ none_of class pre = true /\ class c = true.
Proof.
  induction s as [|d s IH]; [now left|].
  destruct (class d) eqn:Ed.
  - right. exists [], d, s. auto.
  - destruct IH as [Hnone|(pre & c & post & -> & Hpre & Hc)].
    + left. cbn. now rewrite Ed.
    + right. exists (d :: pre), c, post. repeat split; [|exact Hc].
      cbn. now rewrite Ed.
Qed.

(** The loop of [cutRemainderUntilCharMatches] walks down to the match below
    it. *)
Lemma cut_remainder_loop (s : str) (re : ascii -> bool) (p : Z) :
  char_matches re (JS.charAt s p) = true ->
  forall (n fuel : nat),
    (n < fuel)%nat ->
    (forall j, p < j <= p + Z.of_nat n -> char_matches re (JS.charAt s j) = false) ->
    while_loop fuel
      (fun st => negb (char_matches re (snd st)) && (fst st >? 0))
      (fun st => let endIndex := fst st - 1 in (endIndex, JS.charAt s endIndex))
      (p + Z.of_nat n, JS.charAt s (p + Z.of_nat n))
    = (p, JS.charAt s p).
Proof.
  intros Hp. induction n as [|n IH]; intros fuel Hfuel Hno;
    (destruct fuel as [|fuel]; [lia|]); cbn [while_loop fst snd].
  - rewrite Z.add_0_r, Hp. reflexivity.
  - rewrite (Hno (p + Z.of_nat (S n))) by lia. cbn [negb andb].
    assert (H0 : 0 <= p).
    { destruct (JS.charAt s p) as [c'|] eqn:Ep; [|discriminate Hp].
      apply charAt_range in Ep. lia. }
    destruct (p + Z.of_nat (S n) >? 0) eqn:Eg;
      [|rewrite Z.gtb_ltb in Eg; apply Z.ltb_ge in Eg; lia].
    cbv zeta. replace (p + Z.of_nat (S n) - 1) with (p + Z.of_nat n) by lia.
    apply IH; [lia|]. intros j Hj. apply Hno. lia.
Qed.

(** Without a match the loop walks down to the first character. *)
Lemma cut_remainder_loop_none (s : str) (re : ascii -> bool) :
  none_of re s = true ->
  forall (n fuel : nat),
    (n < fuel)%nat ->
    while_loop fuel
      (fun st => negb (char_matches re (snd st)) && (fst st >? 0))
      (fun st => let endIndex := fst st - 1 in (endIndex, JS.charAt s endIndex))
      (Z.of_nat n, JS.charAt s (Z.of_nat n))
    = (0, JS.charAt s 0).
Proof.
  intros Hnone. induction n as [|n IH]; intros fuel Hfuel;
    (destruct fuel as [|fuel]; [lia|]); cbn [while_loop fst snd].
  - rewrite (none_of_charAt _ _ _ Hnone). reflexivity.
  - rewrite (none_of_charAt _ _ _ Hnone). cbn [negb andb].
    destruct (Z.of_nat (S n) >? 0) eqn:Eg;
      [|rewrite Z.gtb_ltb in Eg; apply Z.ltb_ge in Eg; lia].
    cbv zeta. replace (Z.of_nat (S n) - 1) with (Z.of_nat n) by lia.
    apply IH. lia.
Qed.

Lemma cut_remainder_last_match (re : ascii -> bool) (pre post : str) (c : ascii) :
  re c = true -> none_of re post = true ->
  cutRemainderUntilCharMatches (pre ++ c :: post) re = pre ++ [c].
Proof.
  intros Hc Hpost. unfold cutRemainderUntilCharMatches.
  set (s := pre ++ c :: post).
  pose proof (length_nonneg pre) as Hp. pose proof (length_nonneg post) as Hq.
  assert (Hlen : JS.length s = JS.length pre + 1 + JS.length post)
    by apply length_app_cons.
  pose proof (cut_remainder_loop s re (JS.length pre)) as Hloop.
  unfold s in Hloop at 1. rewrite charAt_app_head in Hloop.
  specialize (Hloop Hc (List.length post) (List.length s)).
  replace (JS.length pre + Z.of_nat (List.length post)) with (JS.length s - 1)
    in Hloop by (unfold JS.length in *; lia).
  rewrite Hloop.
  - unfold JS.substring, JS.clamp. rewrite Hlen.
    replace (Z.to_nat (Z.min (Z.max 0 0) (JS.length pre + 1 + JS.length post)))
      with O by lia.
    replace (Z.to_nat (Z.min (Z.max (JS.length pre + 1) 0)
                         (JS.length pre + 1 + JS.length post)))
      with (List.length (pre ++ [c]))
      by (rewrite List.length_app; unfold JS.length; cbn; lia).
    rewrite Nat.min_l, Nat.max_r, Nat.sub_0_r by lia. cbn [skipn].
    unfold s. replace (pre ++ c :: post) with ((pre ++ [c]) ++ post)
      by now rewrite <- app_assoc.
    rewrite firstn_app, Nat.sub_diag, firstn_all. cbn [firstn]. apply app_nil_r.
  - unfold JS.length in *. lia.
  - intros j Hj. unfold s.
    replace j with (JS.length (pre ++ [c]) + (j - JS.length pre - 1))
      by (rewrite length_append; unfold JS.length; cbn; lia).
    replace (pre ++ c :: post) with ((pre ++ [c]) ++ post)
      by now rewrite <- app_assoc.
    rewrite charAt_app_r by lia. now apply none_of_charAt.
Qed.

Lemma cut_remainder_no_match (re : ascii -> bool) (s : str) :
  none_of re s = true -> cutRemainderUntilCharMatches s re = firstn 1 s.
Proof.
  intros Hnone. unfold cutRemainderUntilCharMatches.
  destruct s as [|c s]; [reflexivity|].
  set (t := c :: s) in *.
  assert (Hlen : JS.length t = 1 + JS.length s) by apply length_cons.
  pose proof (length_nonneg s) as Hs.
  pose proof (cut_remainder_loop_none t re Hnone (List.length s) (List.length t)) as Hloop.
  replace (Z.of_nat (List.length s)) with (JS.length t - 1) in Hloop
    by (unfold JS.length in *; lia).
  cbv zeta in Hloop |- *. rewrite Hloop by (subst t; cbn; lia).
  unfold JS.substring, JS.clamp. rewrite Hlen.
  replace (Z.to_nat (Z.min (Z.max 0 0) (1 + JS.length s))) with O by lia.
  replace (Z.to_nat (Z.min (Z.max (0 + 1) 0) (1 + JS.length s))) with 1%nat by lia.
  reflexivity.
Qed.

(** X11. [cutRemainderUntilCharMatches] keeps the text up to the last
    character the expression matches, that character included; when no
    character matches, it keeps the first character alone (and nothing of the
    empty text). Cutting twice is cutting once. *)
Theorem cutRemainderUntilCharMatches_last_match (charRegex : ascii -> bool) :
  (forall pre c post,
      charRegex c = true -> none_of charRegex post = true ->
      cutRemainderUntilCharMatches (pre ++ c :: post) charRegex = pre ++ [c]) /\
  (forall srcString,
      none_of charRegex srcString = true ->
      cutRemainderUntilCharMatches srcString charRegex = firstn 1 srcString) /\
  (forall srcString,
      cutRemainderUntilCharMatches
        (cutRemainderUntilCharMatches srcString charRegex) charRegex
      = cutRemainderUntilCharMatches srcString charRegex).
Proof.
  split; [|split].
  - intros pre c post. apply cut_remainder_last_match.
  - apply cut_remainder_no_match.
  - intros s.
    destruct (last_match_split charRegex s) as [Hnone|(pre & c & post & -> & Hc & Hpost)].
    + rewrite (cut_remainder_no_match _ _ Hnone).
      rewrite cut_remainder_no_match; [now destruct s|].
      destruct s as [|d s]; [reflexivity|]. cbn in *.
      apply andb_true_iff in Hnone as [-> _]. reflexivity.
    + rewrite (cut_remainder_last_match _ _ _ _ Hc Hpost).
      now apply cut_remainder_last_match.
Qed.

Lemma cutRemainderUntilCharMatches_example :
  is_word "b"%char = true /\ none_of is_word (lit ")!") = true /\
  cutRemainderUntilCharMatches (lit "$a.b)!") is_word = lit "$a.b".
Proof.
  split; [reflexivity|]. split; [reflexivity|].
  exact (proj1 (cutRemainderUntilCharMatches_last_match is_word)
           (lit "$a.") "b"%char (lit ")!") eq_refl eq_refl).
Defined.

(** The loop of [cutFrontUntilCharMatches] walks up to the match above it. *)
Lemma cut_front_loop (s : str) (re : ascii -> bool) (p : Z) :
  char_matches re (JS.charAt s p) = true ->
  forall (n fuel : nat),
    (n < fuel)%nat ->
    (forall j, p - Z.of_nat n <= j < p -> char_matches re (JS.charAt s j) = false) ->
    while_loop fuel
      (fun st => negb (char_matches re (snd st)) && (fst st <? JS.length s - 1))
      (fun st => let startIndex := fst st + 1 in (startIndex, JS.charAt s startIndex))
      (p - Z.of_nat n, JS.charAt s (p - Z.of_nat n))
    = (p, JS.charAt s p).
Proof.
  intros Hp. induction n as [|n IH]; intros fuel Hfuel Hno;
    (destruct fuel as [|fuel]; [lia|]); cbn [while_loop fst snd].
  - rewrite Z.sub_0_r, Hp. reflexivity.
  - rewrite (Hno (p - Z.of_nat (S n))) by lia. cbn [negb andb].
    assert (H0 : p < JS.length s).
    { destruct (JS.charAt s p) as [c'|] eqn:Ep; [|discriminate Hp].
      apply charAt_range in Ep. lia. }
    destruct (p - Z.of_nat (S n) <? JS.length s - 1) eqn:Eg;
      [|apply Z.ltb_ge in Eg; lia].
    cbv zeta. replace (p - Z.of_nat (S n) + 1) with (p - Z.of_nat n) by lia.
    apply IH; [lia|]. intros j Hj. apply Hno. lia.
Qed.

(** Without a match the loop walks up to the last character. *)
Lemma cut_front_loop_none (s : str) (re : ascii -> bool) :
  none_of re s = true ->
  forall (n fuel : nat),
    (n < fuel)%nat ->
    while_loop fuel
      (fun st => negb (char_matches re (snd st)) && (fst st <? JS.length s - 1))
      (fun st => let startIndex := fst st + 1 in (startIndex, JS.charAt s startIndex))
      (JS.length s - 1 - Z.of_nat n, JS.charAt s (JS.length s - 1 - Z.of_nat n))
    = (JS.length s - 1, JS.charAt s (JS.length s - 1)).
Proof.
  intros Hnone. induction n as [|n IH]; intros fuel Hfuel;
    (destruct fuel as [|fuel]; [lia|]); cbn [while_loop fst snd].
  - rewrite Z.sub_0_r, (none_of_charAt _ _ _ Hnone), Z.ltb_irrefl. reflexivity.
  - rewrite (none_of_charAt _ _ _ Hnone). cbn [negb andb].
    destruct (JS.length s - 1 - Z.of_nat (S n) <? JS.length s - 1) eqn:Eg;
      [|apply Z.ltb_ge in Eg; lia].
    cbv zeta.
    replace (JS.length s - 1 - Z.of_nat (S n) + 1)
      with (JS.length s - 1 - Z.of_nat n) by lia.
    apply IH. lia.
Qed.

Lemma cut_front_first_match (re : ascii -> bool) (pre post : str) (c : ascii) :
  none_of re pre = true -> re c = true ->
  cutFrontUntilCharMatches (pre ++ c :: post) re = c :: post.
Proof.
  intros Hpre Hc. unfold cutFrontUntilCharMatches.
  set (s := pre ++ c :: post).
  pose proof (length_nonneg pre) as Hp. pose proof (length_nonneg post) as Hq.
  assert (Hlen : JS.length s = JS.length pre + 1 + JS.length post)
    by apply length_app_cons.
  pose proof (cut_front_loop s re (JS.length pre)) as Hloop.
  unfold s in Hloop at 1. rewrite charAt_app_head in Hloop.
  specialize (Hloop Hc (List.length pre) (List.length s)).
  replace (JS.length pre - Z.of_nat (List.length pre)) with 0
    in Hloop by (unfold JS.length in *; lia).
  cbv zeta in Hloop |- *. rewrite Hloop.
  - unfold JS.substring_from, JS.clamp. rewrite Hlen.
    replace (Z.to_nat (Z.min (Z.max (JS.length pre) 0)
                         (JS.length pre + 1 + JS.length post)))
      with (List.length pre) by (unfold JS.length; lia).
    unfold s. rewrite skipn_app, skipn_all, Nat.sub_diag. reflexivity.
  - unfold s. rewrite List.length_app. cbn. lia.
  - intros j Hj. unfold s. rewrite charAt_app_l by lia. now apply none_of_charAt.
Qed.

Lemma cut_front_no_match (re : ascii -> bool) (s : str) :
  none_of re s = true ->
  cutFrontUntilCharMatches s re = skipn (List.length s - 1) s.
Proof.
  intros Hnone. unfold cutFrontUntilCharMatches.
  destruct s as [|c s]; [reflexivity|].
  set (t := c :: s) in *.
  assert (Hlen : JS.length t = 1 + JS.length s) by apply length_cons.
  pose proof (length_nonneg s) as Hs.
  pose proof (cut_front_loop_none t re Hnone (List.length s) (List.length t)) as Hloop.
  replace (JS.length t - 1 - Z.of_nat (List.length s)) with 0 in Hloop
    by (unfold JS.length in *; lia).
  cbv zeta in Hloop |- *. rewrite Hloop by (subst t; cbn; lia).
  unfold JS.substring_from, JS.clamp. f_equal. unfold JS.length in *. lia.
Qed.

(** X12. [cutFrontUntilCharMatches] keeps the text from the first character
    the expression matches on; when no character matches, it keeps the last
    character alone (and nothing of the empty text). Cutting twice is cutting
    once. *)
Theorem cutFrontUntilCharMatches_first_match (charRegex : ascii -> bool) :
  (forall pre c post,
      none_of charRegex pre = true -> charRegex c = true ->
      cutFrontUntilCharMatches (pre ++ c :: post) charRegex = c :: post) /\
  (forall srcString,
      none_of charRegex srcString = true ->
      cutFrontUntilCharMatches srcString charRegex
      = skipn (List.length srcString - 1) srcString) /\
  (forall srcString,
      cutFrontUntilCharMatches
        (cutFrontUntilCharMatches srcString charRegex) charRegex
      = cutFrontUntilCharMatches srcString charRegex).
Proof.
  split; [|split].
  - intros pre c post. apply cut_front_first_match.
  - apply cut_front_no_match.
  - intros s.
    destruct (first_match_split charRegex s) as [Hnone|(pre & c & post & -> & Hpre & Hc)].
    + rewrite (cut_front_no_match _ _ Hnone).
      assert (Hlast : none_of charRegex (skipn (List.length s - 1) s) = true).
      { unfold none_of in *. rewrite forallb_forall in *. intros x Hx.
        apply Hnone. rewrite <- (firstn_skipn (List.length s - 1) s).
        apply in_or_app. now right. }
      rewrite (cut_front_no_match _ _ Hlast).
      rewrite length_skipn.
      destruct s as [|d s]; [reflexivity|]. cbn [List.length].
      replace (S (List.length s) - (S (List.length s) - 1) - 1)%nat with O by lia.
      reflexivity.
    + rewrite (cut_front_first_match _ _ _ _ Hpre Hc).
      now apply (cut_front_first_match _ [] post c).
Qed.

Lemma cutFrontUntilCharMatches_example :
  none_of (is_char "$"%char) (lit "(") = true /\
  cutFrontUntilCharMatches (lit "($a.b") (is_char "$"%char) = lit "$a.b".
Proof.
  split; [reflexivity|].
  exact (proj1 (cutFrontUntilCharMatches_first_match (is_char "$"%char))
           (lit "(") "$"%char (lit "a.b") eq_refl eq_refl).
Defined.

(* ------------------------------------------------------------------ *)
(** ** The registry and the tokens it makes *)

Lemma registerFunction_step (name : str) (customFunctions : list str) :
  NoDup customFunctions ->
  NoDup (snd (registerFunction name customFunctions)) /\
  (forall n, In n (snd (registerFunction name customFunctions)) <->
             In n customFunctions \/ n = name).
Proof.
  intros Hnodup. unfold registerFunction.
  destruct (existsb (JS.str_eqb name) customFunctions) eqn:E; cbn [snd].
  - apply existsb_str_eqb in E. split; [exact Hnodup|].
    intros n. split; [now left|]. now intros [Hn| ->].
  - assert (Hnot : ~ In name customFunctions).
    { intros Hin. apply existsb_str_eqb in Hin. congruence. }
    split.
    + apply NoDup_app; [exact Hnodup|repeat constructor; intros []|].
      intros x Hx [<-|[]]. contradiction.
    + intros n. rewrite in_app_iff. cbn [In]. intuition congruence.
Qed.

(** X13. The registry holds no name twice: whatever names are registered in
    whatever order on a registry without duplicates (the empty one an
    instance starts with, for one), failed calls included, the registry has
    no duplicates afterwards, and it holds the names it held and the names
    that were registered. *)
Theorem registerFunction_no_duplicates (names customFunctions : list str) :
  NoDup customFunctions ->
  NoDup (register_all names customFunctions) /\
  (forall name, In name (register_all names customFunctions) <->
                In name customFunctions \/ In name names).
Proof.
  unfold register_all. revert customFunctions.
  induction names as [|name names IH]; intros customFunctions Hnodup; cbn [fold_left].
  - split; [exact Hnodup|]. intros name. cbn [In]. tauto.
  - destruct (registerFunction_step name customFunctions Hnodup) as [Hnodup' Hin].
    destruct (IH _ Hnodup') as [Hall Hin']. split; [exact Hall|].
    intros n. rewrite Hin', Hin. cbn [In]. intuition congruence.
Qed.

Lemma registerFunction_no_duplicates_example :
  NoDup (@nil str) /\
  register_all [lit "add"; lit "mul"; lit "add"] [] = [lit "add"; lit "mul"] /\
  NoDup (register_all [lit "add"; lit "mul"; lit "add"] []).
Proof.
  split; [constructor|]. split; [reflexivity|].
  exact (proj1 (registerFunction_no_duplicates [lit "add"; lit "mul"; lit "add"] []
                  (NoDup_nil str))).
Defined.

Lemma startsWith_prefix (s prefix : str) :
  JS.startsWith s prefix = true <-> exists rest, s = prefix ++ rest.
Proof.
  revert s. induction prefix as [|p prefix IH]; intros s; cbn [JS.startsWith].
  - split; [intros _; now exists s|reflexivity].
  - destruct s as [|c s].
    + split; [discriminate|]. intros [rest H]. discriminate H.
    + rewrite andb_true_iff, Ascii.eqb_eq, IH. split.
      * intros [-> [rest ->]]. now exists rest.
      * intros [rest H]. injection H as -> ->. split; [reflexivity|now exists rest].
Qed.

Lemma indexOf_from_char (c : ascii) (s : str) (i : Z) :
  0 <= i -> (JS.indexOf_from s [c] i =? -1) = none_of (is_char c) s.
Proof.
  revert i. induction s as [|d s IH]; intros i Hi; cbn [JS.indexOf_from JS.startsWith].
  - reflexivity.
  - cbn [none_of forallb]. unfold is_char at 1. rewrite andb_true_r.
    destruct (Ascii.eqb d c); cbn [negb andb].
    + apply Z.eqb_neq. lia.
    + apply IH. lia.
Qed.

Lemma includes_char (c : ascii) (s : str) :
  JS.includes s [c] = negb (none_of (is_char c) s).
Proof. unfold JS.includes, JS.indexOf. now rewrite indexOf_from_char by lia. Qed.

Lemma isFunctionToken_iff (customFunctions : list str) (token : str) :
  isFunctionToken customFunctions token = true <->
  exists name rest, In name customFunctions /\ token = name ++ rest.
Proof.
  unfold isFunctionToken. rewrite existsb_exists. split.
  - intros (name & Hin & Hstart). apply startsWith_prefix in Hstart as [rest ->].
    now exists name, rest.
  - intros (name & rest & Hin & ->). exists name. split; [exact Hin|].
    apply startsWith_prefix. now exists rest.
Qed.

(** X14. A token is a function token exactly when it starts with a
    registered name, whatever follows the name; it is a statement token when
    it holds no round bracket besides. So a function token stays one when
    text is put behind it or when more names are registered, and once a call
    [registerFunction(name)] has returned, every text that starts with [name]
    is a function token. *)
Theorem isFunctionToken_prefix (customFunctions : list str) (token : str) :
  (isFunctionToken customFunctions token = true <->
   exists name rest, In name customFunctions /\ token = name ++ rest) /\
  (isStatementToken customFunctions token = true <->
   isFunctionToken customFunctions token = true /\
   none_of (is_char "("%char) token = true /\ none_of (is_char ")"%char) token = true) /\
  (forall name rest after,
      registerFunction name customFunctions = (Return tt, after) ->
      isFunctionToken after (name ++ rest) = true) /\
  (forall rest more,
      isFunctionToken customFunctions token = true ->
      isFunctionToken (customFunctions ++ more) (token ++ rest) = true).
Proof.
  split; [apply isFunctionToken_iff|]. split; [|split].
  - unfold isStatementToken. change (lit "(") with ["("%char].
    change (lit ")") with [")"%char]. rewrite !includes_char, !negb_involutive.
    rewrite !andb_true_iff. tauto.
  - intros name rest after Hreg. apply isFunctionToken_iff. exists name, rest.
    split; [|reflexivity]. unfold registerFunction in Hreg.
    destruct (existsb (JS.str_eqb name) customFunctions); [discriminate|].
    injection Hreg as <-. apply in_or_app. right. now left.
  - intros rest more Hfun. apply isFunctionToken_iff in Hfun as (name & r & Hin & ->).
    apply isFunctionToken_iff. exists name, (r ++ rest). split.
    + apply in_or_app. now left.
    + now rewrite app_assoc.
Qed.

(* ------------------------------------------------------------------ *)
(** ** Dotted keys *)

Lemma split_go_segment (c : ascii) (key : str) :
  none_of (is_char c) key = true ->
  forall cur,
    JS.split_go c cur key = [rev cur ++ key] /\
    forall rest, JS.split_go c cur (key ++ c :: rest)
                 = (rev cur ++ key) :: JS.split_go c [] rest.
Proof.
  induction key as [|d key IH]; intros Hkey cur.
  - cbn [JS.split_go app]. rewrite Ascii.eqb_refl, app_nil_r. split; reflexivity.
  - cbn [none_of forallb] in Hkey. apply andb_true_iff in Hkey as [Hd Hkey].
    unfold is_char in Hd. apply negb_true_iff in Hd.
    cbn [JS.split_go app]. rewrite Hd.
    destruct (IH Hkey (d :: cur)) as [H1 H2]. cbn [rev] in H1, H2.
    rewrite <- app_assoc in H1, H2. cbn [app] in H1, H2. split; [exact H1|exact H2].
Qed.

Lemma split_go_cons (c : ascii) (s cur : str) :
  exists k ks, JS.split_go c cur s = k :: ks.
Proof.
  revert cur. induction s as [|d s IH]; intros cur; cbn [JS.split_go].
  - now exists (rev cur), [].
  - destruct (Ascii.eqb d c); [now exists (rev cur), (JS.split_go c [] s)|apply IH].
Qed.

Lemma str_eqb_nil (s : str) : JS.str_eqb s [] = match s with [] => true | _ => false end.
Proof. now destruct s. Qed.

(** X15. [getObjectValue] walks a dotted key one segment at a time: the value
    under [key.rest] is the value under [rest] of the property [key], and the
    text ['UNDEFINED_VALUE'] when reading that property throws; the value
    under a key without a dot is the property of that name. On [undefined]
    and on [null] every key but the empty one yields ['UNDEFINED_VALUE']; the
    empty key yields the object itself. *)
Theorem getObjectValue_segments (object : value) (key : str) :
  none_of (is_char Symbols.KEY_SEPARATOR) key = true ->
  (key <> [] ->
   getObjectValue object key
   = match get_property object key with
     | Return v => Return v
     | Throw _ => Return (VStr (lit "UNDEFINED_VALUE"))
     end) /\
  (forall rest,
      rest <> [] ->
      getObjectValue object (key ++ Symbols.KEY_SEPARATOR :: rest)
      = match get_property object key with
        | Return v => getObjectValue v rest
        | Throw _ => Return (VStr (lit "UNDEFINED_VALUE"))
        end) /\
  (forall keyChain,
      keyChain <> [] ->
      getObjectValue VUndef keyChain = Return (VStr (lit "UNDEFINED_VALUE")) /\
      getObjectValue VNull keyChain = Return (VStr (lit "UNDEFINED_VALUE"))) /\
  getObjectValue object [] = Return object.
Proof.
  intros Hkey. destruct (split_go_segment _ _ Hkey []) as [Hone Hmore].
  cbn [rev app] in Hone, Hmore. split; [|split; [|split]].
  - intros Hne. unfold getObjectValue, JS.split. rewrite str_eqb_nil, Hone.
    destruct key; [contradiction|]. cbn [for_of].
    now destruct (get_property object (a :: key)).
  - intros rest Hrest. unfold getObjectValue, JS.split. rewrite !str_eqb_nil, Hmore.
    destruct (key ++ Symbols.KEY_SEPARATOR :: rest) eqn:E;
      [now destruct key|]. clear E.
    destruct rest; [contradiction|]. cbn [for_of].
    now destruct (get_property object key).
  - intros keyChain Hne. unfold getObjectValue, JS.split. rewrite str_eqb_nil.
    destruct keyChain as [|c keyChain]; [contradiction|].
    destruct (split_go_cons Symbols.KEY_SEPARATOR (c :: keyChain) []) as (k & ks & ->).
    split; reflexivity.
  - reflexivity.
Qed.

Lemma getObjectValue_segments_example :
  none_of (is_char Symbols.KEY_SEPARATOR) (lit "a") = true /\
  getObjectValue (model_a_b 5) (lit "a.b")
  = getObjectValue (VObj [(lit "b", VNum 5)]) (lit "b").
Proof.
  split; [reflexivity|].
  exact (proj1 (proj2 (getObjectValue_segments (model_a_b 5) (lit "a") eq_refl))
           (lit "b") ltac:(discriminate)).
Defined.

(* ------------------------------------------------------------------ *)
(** ** Splitting an assertion, once more *)

Lemma getSplitTokens_index (srcString : str) :
  let splitIndex :=
    js_for 0 (JS.length srcString)
      (fun i splitIndex =>
         let char := JS.charAt srcString i in
         if char_is char Symbols.COND_SEPARATOR && negb (isCharWithinString srcString i)
         then Break i
         else Continue splitIndex)
      (-1) in
  splitIndex = -1 \/ JS.charAt srcString splitIndex = Some Symbols.COND_SEPARATOR.
Proof.
  cbv zeta.
  apply (js_for_rule (fun _ splitIndex => splitIndex = -1)
           (fun splitIndex =>
              splitIndex = -1 \/
              JS.charAt srcString splitIndex = Some Symbols.COND_SEPARATOR)).
  - reflexivity.
  - intros j acc Hj ->.
    destruct (char_is (JS.charAt srcString j) Symbols.COND_SEPARATOR) eqn:E;
      [|reflexivity].
    destruct (isCharWithinString srcString j); cbn [negb andb]; [reflexivity|].
    right. now apply char_is_true.
  - intros j acc _ _ ->. now left.
Qed.

(** X16. [getSplitTokens] loses nothing: the two tokens it returns, put
    together with the separator between them, are the text it was given. It
    throws on a text without a separator, and what it throws is always the
    error that names the text. *)
Theorem getSplitTokens_lossless (srcString : str) :
  (forall tokens,
      getSplitTokens srcString = Return tokens ->
      exists activationToken conditionToken,
        tokens = [activationToken; conditionToken] /\
        srcString = activationToken ++ Symbols.COND_SEPARATOR :: conditionToken) /\
  (none_of (is_char Symbols.COND_SEPARATOR) srcString = true ->
   getSplitTokens srcString
   = Throw (Error (lit "Invalid syntax for token: " ++ srcString))) /\
  (forall e, getSplitTokens srcString = Throw e ->
             e = Error (lit "Invalid syntax for token: " ++ srcString)).
Proof.
  pose proof (getSplitTokens_index srcString) as Hindex. cbv zeta in Hindex.
  unfold getSplitTokens.
  set (splitIndex := js_for 0 (JS.length srcString) _ (-1)) in *.
  split; [|split].
  - intros l Hret. destruct (splitIndex =? -1) eqn:E; [discriminate|].
    apply Z.eqb_neq in E. destruct Hindex as [Hm|Hc]; [contradiction|].
    injection Hret as <-. pose proof (charAt_range _ _ _ Hc) as Hr.
    exists (JS.substring srcString 0 splitIndex),
           (JS.substring_from srcString (splitIndex + 1)).
    split; [reflexivity|].
    rewrite substring_prefix, substring_from_suffix by lia.
    rewrite charAt_nth in Hc by lia.
    replace (Z.to_nat (splitIndex + 1)) with (S (Z.to_nat splitIndex)) by lia.
    rewrite <- (skipn_nth_error _ _ _ Hc). symmetry. apply firstn_skipn.
  - intros Hnone. destruct Hindex as [->|Hc]; [reflexivity|].
    apply charAt_In in Hc. apply (none_of_In _ _ _ Hnone) in Hc.
    unfold is_char in Hc. now rewrite Ascii.eqb_refl in Hc.
  - intros e. destruct (splitIndex =? -1); [|discriminate]. congruence.
Qed.

(** X17. [isCharWithinString] counts the delimiters behind the index: at an
    index that is not the first or the last one and holds no delimiter, the
    answer is whether their number is odd; at the first and the last index
    and at a delimiter it is [false]. In a text whose literals are all closed
    (an even number of delimiters) this is whether an odd number of
    delimiters stands before the index, for every index of the text. *)
Theorem isCharWithinString_parity (srcString : str) (charIndex : Z) :
  0 <= charIndex ->
  isCharWithinString srcString charIndex
  = negb (charIndex =? 0) && negb (charIndex =? JS.length srcString - 1) &&
    negb (char_is (JS.charAt srcString charIndex) Symbols.STRING_SYMBOL) &&
    Nat.odd (count_quotes (skipn (Z.to_nat (charIndex + 1)) srcString)) /\
  (Nat.even (count_quotes srcString) = true ->
   charIndex < JS.length srcString ->
   isCharWithinString srcString charIndex
   = negb (char_is (JS.charAt srcString charIndex) Symbols.STRING_SYMBOL) &&
     Nat.odd (count_quotes (firstn (Z.to_nat charIndex) srcString))).
Proof.
  intros Hk. split.
  - unfold isCharWithinString.
    destruct (charIndex =? 0); [reflexivity|].
    destruct (charIndex =? JS.length srcString - 1); [reflexivity|].
    destruct (char_is (JS.charAt srcString charIndex) Symbols.STRING_SYMBOL);
      [reflexivity|].
    cbn [orb negb andb]. unfold js_for. rewrite count_loop by lia.
    now rewrite Z.add_0_l, odd_mod2.
  - intros Heven Hlt.
    destruct (nth_error_in_range srcString charIndex) as [c Hc]; [lia|].
    destruct (Ascii.eqb c Symbols.STRING_SYMBOL) eqn:Eq.
    + unfold isCharWithinString. rewrite charAt_nth, Hc by lia. cbn [char_is].
      rewrite Eq, !orb_true_r. reflexivity.
    + rewrite (isCharWithinString_balanced _ _ _ Heven (conj Hk Hlt) Hc Eq).
      rewrite charAt_nth, Hc by lia. cbn [char_is]. now rewrite Eq.
Qed.

Lemma isCharWithinString_parity_example :
  0 <= 11 /\
  isCharWithinString (lit "some 'custom' message") 11 = true /\
  isCharWithinString (lit "some 'custom' message") 16 = false.
Proof.
  split; [lia|].
  pose proof (isCharWithinString_parity (lit "some 'custom' message") 11
                ltac:(lia)) as [H _].
  split; [rewrite H|]; reflexivity.
Defined.

(* ------------------------------------------------------------------ *)
(** ** The condition compiler *)

Lemma getSymbolForToken_symbol_of (customFunctions : list str) (token : str) :
  getSymbolForToken customFunctions token = ret (symbol_of customFunctions token).
Proof.
  unfold symbol_of.
  destruct (getSymbolForToken_cases customFunctions token) as (symbol & -> & _).
  reflexivity.
Qed.

Lemma getStringFromTokens_loop (customFunctions : list str) :
  forall (l : list str) (condString : str),
    for_ofF l
      (fun token condString =>
         symbol <-- getSymbolForToken customFunctions token ;;
         ret (condString ++ symbol))
      condString
    = ret (condString ++ List.concat (map (symbol_of customFunctions) l)).
Proof.
  induction l as [|token l IH]; intros condString; cbn [for_ofF map List.concat].
  - now rewrite app_nil_r.
  - rewrite getSymbolForToken_symbol_of. cbn [bindF ret]. rewrite IH.
    now rewrite app_assoc.
Qed.

(** X18. [getStringFromTokens] never throws: it puts the symbols of the
    tokens one behind the other, in the order of the tokens. So
    [generateConditionalString] throws only what its token loop throws, and
    what it returns is the symbols of the tokens of that loop. *)
Theorem getStringFromTokens_concat (customFunctions : list str) :
  (forall l,
      getStringFromTokens customFunctions l
      = ret (List.concat (map (symbol_of customFunctions) l))) /\
  (forall l1 l2 s1 s2,
      getStringFromTokens customFunctions l1 = ret s1 ->
      getStringFromTokens customFunctions l2 = ret s2 ->
      getStringFromTokens customFunctions (l1 ++ l2) = ret (s1 ++ s2)) /\
  (forall data,
      generateConditionalString customFunctions data
      = (l <-- tokenize customFunctions 1002 data ;;
         ret (List.concat (map (symbol_of customFunctions) l)))).
Proof.
  assert (H : forall l, getStringFromTokens customFunctions l
                        = ret (List.concat (map (symbol_of customFunctions) l))).
  { intros l. unfold getStringFromTokens. now rewrite getStringFromTokens_loop. }
  split; [exact H|]. split.
  - intros l1 l2 s1 s2. rewrite !H, map_app, concat_app.
    intros [= <-] [= <-]. reflexivity.
  - intros data. unfold generateConditionalString.
    destruct (tokenize customFunctions 1002 data) as [[l|e]|]; cbn [bindF];
      [apply H|reflexivity|reflexivity].
Qed.

(** Without a closing bracket [getSubstringWithinParentheses] finds nothing
    within the brackets. *)
Lemma getSubstringWithinParentheses_no_closing (srcString : str) :
  none_of (is_char Symbols.BRACKET_CLOSE) srcString = true ->
  getSubstringWithinParentheses srcString = Return [].
Proof.
  intros Hnone. unfold getSubstringWithinParentheses, js_forM.
  set (bracketStart := JS.indexOf srcString [Symbols.BRACKET_OPEN] + 1).
  match goal with |- context [for_loopM ?fuel ?i ?n ?body ?st0] =>
    destruct (for_loopM_invariant
                (fun x : Z * Z => fst x = bracketStart /\ 0 <= snd x)
                body n fuel i st0) as (r & -> & Hr & _)
  end.
  - cbn. lia.
  - intros j [bracketEnd numBracketsOpened] Hj [Hb Hn]. cbn [fst snd] in *.
    destruct (char_is (JS.charAt srcString j) Symbols.BRACKET_OPEN); [cbn; lia|].
    destruct (char_is (JS.charAt srcString j) Symbols.BRACKET_CLOSE) eqn:Ec;
      [|cbn; lia].
    apply char_is_true, charAt_In in Ec. apply (none_of_In _ _ _ Hnone) in Ec.
    unfold is_char in Ec. now rewrite Ascii.eqb_refl in Ec.
  - cbn [bind]. rewrite Hr. unfold JS.substring.
    now rewrite Nat.min_id, Nat.max_id, Nat.sub_diag.
Qed.

(** X19. A condition without a character that is no white space is not
    reported as a syntax error: [generateConditionalString] reads the first
    character of the empty text and fails with the host's [TypeError]. The
    same happens to an activation [WHEN] that has no closing bracket, whose
    data is the empty text, and to every assertion with an empty
    condition. *)
Theorem generateConditionalString_blank (customFunctions : list str) :
  (forall data,
      JS.remove_all is_space data = [] ->
      generateConditionalString customFunctions data = Some (Throw TypeError)) /\
  (forall activationToken,
      JS.startsWith activationToken Symbols.ALWAYS = false ->
      JS.startsWith activationToken Symbols.WHEN = true ->
      none_of (is_char Symbols.BRACKET_CLOSE) activationToken = true ->
      activationString customFunctions activationToken = Some (Throw TypeError)) /\
  (forall assertion activationToken conditionToken activation,
      getSplitTokens assertion = Return [activationToken; conditionToken] ->
      activationString customFunctions (JS.trim activationToken) = ret activation ->
      JS.remove_all is_space (JS.trim conditionToken) = [] ->
      generateFunctionString customFunctions assertion = Some (Throw TypeError)).
Proof.
  assert (H : forall data,
             JS.remove_all is_space data = [] ->
             generateConditionalString customFunctions data = Some (Throw TypeError)).
  { intros data Hblank. unfold generateConditionalString, tokenize.
    rewrite Hblank. reflexivity. }
  split; [exact H|]. split.
  - intros token Halways Hwhen Hnone. unfold activationString.
    rewrite Halways, Hwhen, (getSubstringWithinParentheses_no_closing _ Hnone).
    cbn [lift bindF]. now apply H.
  - intros assertion a c activation Hsplit Hact Hblank.
    unfold generateFunctionString. rewrite Hsplit. cbn [lift bindF nth].
    rewrite Hact. cbn [bindF ret]. now rewrite (H _ Hblank).
Qed.

Lemma generateConditionalString_blank_example :
  getSplitTokens (lit "ALWAYS: ") = Return [lit "ALWAYS"; lit " "] /\
  activationString [] (JS.trim (lit "ALWAYS")) = ret (lit "true") /\
  JS.remove_all is_space (JS.trim (lit " ")) = [] /\
  generateFunctionString [] (lit "ALWAYS: ") = Some (Throw TypeError).
Proof.
  do 3 (split; [reflexivity|]).
  exact (proj2 (proj2 (generateConditionalString_blank [])) (lit "ALWAYS: ")
           (lit "ALWAYS") (lit " ") (lit "true") eq_refl eq_refl eq_refl).
Defined.

(* ------------------------------------------------------------------ *)
(** ** The token loop, once more *)

(** What a round of the token loop that returns has done. *)
Lemma scan_token_inv (customFunctions : list str) (data trimmed : str) (st st' : scan) :
  scan_token customFunctions data trimmed st = Return st' ->
  exists startChar e,
    JS.charAt trimmed (startIndex st) = Some startChar /\
    st' = Scan (tokens st ++ [JS.substring trimmed (startIndex st) e])
               (if e >=? JS.length trimmed then true else done st)
               e e (iterations st + 1).
Proof.
  unfold scan_token. intros H.
  destruct (JS.charAt trimmed (startIndex st)) as [startChar|]; [|discriminate].
  match type of H with bind ?c _ = _ => destruct c as [e|err] end;
    cbn [bind] in H; [|discriminate].
  destruct (iterations st >? 1000); [discriminate|].
  injection H as <-. now exists startChar, e.
Qed.

(** The end of a token depends on the two indices alone. *)
Lemma scan_token_same (customFunctions : list str) (d1 d2 trimmed : str)
    (st1 st2 r1 r2 : scan) :
  startIndex st1 = startIndex st2 ->
  endIndex st1 = endIndex st2 ->
  scan_token customFunctions d1 trimmed st1 = Return r1 ->
  scan_token customFunctions d2 trimmed st2 = Return r2 ->
  endIndex r1 = endIndex r2.
Proof.
  unfold scan_token. intros Hs He H1 H2. rewrite Hs, He in H1.
  destruct (JS.charAt trimmed (startIndex st2)) as [startChar|]; [|discriminate].
  revert H1 H2.
  destruct (Ascii.eqb startChar Symbols.MODEL_PREFIX ||
            Ascii.eqb startChar Symbols.STATE_PREFIX);
    [|destruct (Ascii.eqb startChar Symbols.STRING_SYMBOL);
      [|destruct (is_digit startChar);
        [|destruct (isFunctionToken customFunctions
                      (JS.substring_from trimmed (startIndex st2)));
          [|destruct (existsb (fun c => char_is c startChar) Symbols.OPERATOR_START);
            [|discriminate]]]]];
    cbn [bind];
    (destruct (iterations st1 >? 1000); [discriminate|]);
    (destruct (iterations st2 >? 1000); [discriminate|]);
    intros [= <-] [= <-]; reflexivity.
Qed.

(** A round that does not move the start index is followed by such rounds
    only, up to the cap: the loop does not return. *)
Lemma while_not_done_stalled (customFunctions : list str) (data trimmed : str)
    (st0 r0 : scan) :
  scan_token customFunctions data trimmed st0 = Return r0 ->
  endIndex r0 = startIndex st0 ->
  endIndex st0 = startIndex st0 ->
  forall fuel st st',
    startIndex st = startIndex st0 ->
    endIndex st = startIndex st0 ->
    done st = false ->
    while_not_done fuel done (scan_token customFunctions data trimmed) st
    <> Some (Return st').
Proof.
  intros H0 Hstall Hinv.
  destruct (scan_token_inv _ _ _ _ _ H0) as (c0 & e0 & Hc0 & _).
  pose proof (charAt_range _ _ _ Hc0) as Hrange.
  induction fuel as [|fuel IH]; intros st st' Hs He Hd; [discriminate|].
  cbn [while_not_done]. rewrite Hd.
  destruct (scan_token customFunctions data trimmed st) as [r|err] eqn:E;
    [|discriminate].
  assert (Her : endIndex r = startIndex st0).
  { rewrite <- Hstall. apply (scan_token_same _ _ _ _ _ _ _ _ Hs) with (3 := H0) (2 := E).
    congruence. }
  destruct (scan_token_inv _ _ _ _ _ E) as (c & e & _ & ->).
  cbn [endIndex] in Her. subst e.
  apply IH; cbn [startIndex endIndex done]; try reflexivity.
  destruct (startIndex st0 >=? JS.length trimmed) eqn:Eg; [|exact Hd].
  rewrite Z.geb_le in Eg. lia.
Qed.

Lemma substring_nil (s : str) (a b : Z) :
  0 <= a < JS.length s -> a <= b -> JS.substring s a b = [] -> b = a.
Proof.
  intros Ha Hab H.
  assert (Hlen : List.length (JS.substring s a b) = O) by now rewrite H.
  unfold JS.substring, JS.clamp, JS.length in *.
  rewrite length_firstn, length_skipn in Hlen. lia.
Qed.

Lemma while_not_done_nonempty (customFunctions : list str) (data trimmed : str) :
  forall fuel st st',
    scanned trimmed st ->
    Forall (fun token => token <> []) (tokens st) ->
    while_not_done fuel done (scan_token customFunctions data trimmed) st
      = Some (Return st') ->
    Forall (fun token => token <> []) (tokens st').
Proof.
  induction fuel as [|fuel IH]; intros st st' Hinv Hall H; [discriminate|].
  cbn [while_not_done] in H. destruct (done st) eqn:Ed.
  - now injection H as <-.
  - destruct (scan_token customFunctions data trimmed st) as [r|err] eqn:E;
      [|discriminate].
    pose proof (scan_token_scanned _ _ _ _ _ Hinv E) as Hinv'.
    destruct (scan_token_inv _ _ _ _ _ E) as (c & e & Hc & Hr).
    pose proof (charAt_range _ _ _ Hc) as Hrange.
    destruct Hinv as (Hpos & Heq & Hcat & _).
    destruct (JS.substring trimmed (startIndex st) e) as [|x token] eqn:Etoken.
    + exfalso.
      assert (Hge : startIndex st <= e).
      { destruct Hinv' as (Hpos' & _ & Hcat' & _). subst r.
        cbn [tokens startIndex] in Hcat', Hpos'.
        rewrite concat_app, Hcat in Hcat'. cbn [List.concat] in Hcat'.
        rewrite !app_nil_r in Hcat'.
        assert (Hl : List.length (firstn (Z.to_nat (startIndex st)) trimmed)
                     = List.length (firstn (Z.to_nat e) trimmed)) by now rewrite Hcat'.
        rewrite !length_firstn in Hl. unfold JS.length in Hrange. lia. }
      apply substring_nil in Etoken; [|exact Hrange|exact Hge]. subst e.
      apply (while_not_done_stalled _ _ _ _ _ E) with (st := r) (st' := st') (fuel := fuel);
        subst r; cbn [startIndex endIndex done]; try reflexivity; try congruence.
      destruct (startIndex st >=? JS.length trimmed) eqn:Eg; [|exact Ed].
      rewrite Z.geb_le in Eg. lia.
    + apply (IH r st' Hinv'); [|exact H]. subst r. cbn [tokens].
      apply Forall_app. split; [exact Hall|]. now repeat constructor.
Qed.

Lemma concat_length_nonempty (l : list str) :
  Forall (fun token => token <> []) l ->
  (List.length l <= List.length (List.concat l))%nat.
Proof.
  induction 1 as [|token l Htoken _ IH]; cbn [List.concat List.length]; [lia|].
  rewrite List.length_app. destruct token; [contradiction|]. cbn [List.length]. lia.
Qed.

Lemma tokenize_concat (customFunctions : list str) (fuel : nat) (data : str)
    (l : list str) :
  tokenize customFunctions fuel data = ret l ->
  List.concat l = JS.remove_all is_space data.
Proof.
  unfold tokenize. intros H.
  destruct (while_not_done fuel done
              (scan_token customFunctions data (JS.remove_all is_space data))
              (Scan [] false 0 0 0)) as [[st'|e]|] eqn:E; try discriminate.
  injection H as <-.
  apply while_not_done_scanned in E as [(Hpos & Heq & Hcat & Hdone) Hd].
  - rewrite Hcat. apply firstn_all2. specialize (Hdone Hd).
    unfold JS.length in Hdone. lia.
  - unfold scanned. cbn. repeat split; try lia; discriminate.
Qed.

(** X20. A token loop that returns has moved forward in every round: none of
    the tokens is empty, so there are at most as many tokens as the condition
    has characters that are no white space. (A round that cuts an empty token
    leaves the indices where they were, and so does every round after it,
    until the cap throws.) *)
Theorem tokenize_progress (customFunctions : list str) (fuel : nat) (data : str)
    (l : list str) :
  tokenize customFunctions fuel data = ret l ->
  Forall (fun token => token <> []) l /\
  (List.length l <= List.length (JS.remove_all is_space data))%nat.
Proof.
  intros H.
  assert (Hall : Forall (fun token => token <> []) l).
  { unfold tokenize in H.
    destruct (while_not_done fuel done
                (scan_token customFunctions data (JS.remove_all is_space data))
                (Scan [] false 0 0 0)) as [[st'|e]|] eqn:E; try discriminate.
    injection H as <-.
    apply (while_not_done_nonempty _ _ _ _ _ _ ) with (3 := E); [|constructor].
    unfold scanned. cbn. repeat split; try lia; discriminate. }
  split; [exact Hall|].
  rewrite <- (tokenize_concat _ _ _ _ H). now apply concat_length_nonempty.
Qed.

Lemma tokenize_progress_example :
  tokenize [] 1002 (lit "$a.b >= 10 && #c != 'x y'")
  = ret [lit "$a.b"; lit ">="; lit "10"; lit "&&"; lit "#c"; lit "!="; lit "'xy'"] /\
  Forall (fun token => token <> [])
    [lit "$a.b"; lit ">="; lit "10"; lit "&&"; lit "#c"; lit "!="; lit "'xy'"].
Proof.
  assert (H : tokenize [] 1002 (lit "$a.b >= 10 && #c != 'x y'")
              = ret [lit "$a.b"; lit ">="; lit "10"; lit "&&"; lit "#c"; lit "!=";
                     lit "'xy'"]) by (vm_compute; reflexivity).
  split; [exact H|].
  exact (proj1 (tokenize_progress [] 1002 _ _ H)).
Defined.

(** The text of the condition with its white space is used for the messages
    of the errors only. *)
Lemma scan_token_data (customFunctions : list str) (d1 d2 trimmed : str) (st : scan) :
  match scan_token customFunctions d1 trimmed st,
        scan_token customFunctions d2 trimmed st with
  | Return r1, Return r2 => r1 = r2
  | Throw _, Throw _ => True
  | _, _ => False
  end.
Proof.
  unfold scan_token.
  destruct (JS.charAt trimmed (startIndex st)) as [startChar|]; [|exact I].
  destruct (Ascii.eqb startChar Symbols.MODEL_PREFIX ||
            Ascii.eqb startChar Symbols.STATE_PREFIX);
    [|destruct (Ascii.eqb startChar Symbols.STRING_SYMBOL);
      [|destruct (is_digit startChar);
        [|destruct (isFunctionToken customFunctions
                      (JS.substring_from trimmed (startIndex st)));
          [|destruct (existsb (fun c => char_is c startChar) Symbols.OPERATOR_START);
            [|exact I]]]]];
    cbn [bind]; (destruct (iterations st >? 1000); [exact I|reflexivity]).
Qed.

Lemma while_not_done_data (customFunctions : list str) (d1 d2 trimmed : str) :
  forall fuel st,
    match while_not_done fuel done (scan_token customFunctions d1 trimmed) st,
          while_not_done fuel done (scan_token customFunctions d2 trimmed) st with
    | Some (Return r1), Some (Return r2) => r1 = r2
    | Some (Throw _), Some (Throw _) => True
    | None, None => True
    | _, _ => False
    end.
Proof.
  induction fuel as [|fuel IH]; intros st; cbn [while_not_done]; [exact I|].
  destruct (done st); [reflexivity|].
  pose proof (scan_token_data customFunctions d1 d2 trimmed st) as H.
  destruct (scan_token customFunctions d1 trimmed st) as [r1|e1],
           (scan_token customFunctions d2 trimmed st) as [r2|e2];
    try contradiction; [|exact I].
  subst r2. apply IH.
Qed.

(** X21. [generateConditionalString] reads its argument without white space,
    inside string literals as well as outside: two conditions that differ in
    white space only compile to the same text, or both fail. *)
Theorem generateConditionalString_whitespace (customFunctions : list str)
    (data1 data2 : str) :
  JS.remove_all is_space data1 = JS.remove_all is_space data2 ->
  (forall text,
      generateConditionalString customFunctions data1 = ret text ->
      generateConditionalString customFunctions data2 = ret text) /\
  ((exists e, generateConditionalString customFunctions data1 = Some (Throw e)) ->
   exists e, generateConditionalString customFunctions data2 = Some (Throw e)).
Proof.
  intros Hsame. unfold generateConditionalString, tokenize. rewrite Hsame.
  pose proof (while_not_done_data customFunctions data1 data2
                (JS.remove_all is_space data2) 1002 (Scan [] false 0 0 0)) as H.
  destruct (while_not_done 1002 done
              (scan_token customFunctions data1 (JS.remove_all is_space data2))
              (Scan [] false 0 0 0)) as [[r1|e1]|],
           (while_not_done 1002 done
              (scan_token customFunctions data2 (JS.remove_all is_space data2))
              (Scan [] false 0 0 0)) as [[r2|e2]|]; try contradiction.
  - subst r2. split; [trivial|]. intros [e He]. now exists e.
  - cbn [bindF]. split; [discriminate|]. intros _. now exists e2.
  - cbn [bindF]. split; [discriminate|]. intros [e He]. discriminate He.
Qed.

Lemma generateConditionalString_whitespace_example :
  JS.remove_all is_space (lit "$name == 'a b'") = JS.remove_all is_space (lit "$name=='ab'") /\
  generateConditionalString [] (lit "$name == 'a b'") = ret (lit "this.model.name=='ab'") /\
  generateConditionalString [] (lit "$name=='ab'") = ret (lit "this.model.name=='ab'").
Proof.
  split; [reflexivity|].
  assert (H : generateConditionalString [] (lit "$name == 'a b'")
              = ret (lit "this.model.name=='ab'")) by (vm_compute; reflexivity).
  split; [exact H|].
  exact (proj1 (generateConditionalString_whitespace [] (lit "$name == 'a b'")
                  (lit "$name=='ab'") eq_refl) _ H).
Defined.

(* ------------------------------------------------------------------ *)
(** ** Where a token ends *)

(** The loop shared by [getDataAccessEndIndex], [getNumberEndIndex] and
    [getStatementEndIndex]: it runs over the characters of a class and stops
    before the first other one, but it takes the last character of the text
    whatever it is. *)
Lemma class_loop (cls : ascii -> bool) (tail : str) :
  forall (run pre : str) (fuel : nat) (e : Z),
    all_of cls run = true ->
    let s := pre ++ run ++ tail in
    fuel = Z.to_nat (JS.length s - JS.length pre) ->
    for_loop fuel (JS.length pre) (JS.length s)
      (fun i end_ =>
         let endChar := JS.charAt s i in
         if i =? JS.length s - 1 then Break (i + 1)
         else if negb (char_matches cls endChar) then Break i
         else Continue end_)
      e
    = match tail with
      | [] => match run with [] => e | _ => JS.length s end
      | [c] => JS.length s
      | c :: _ => if cls c then
                    for_loop (fuel - List.length run) (JS.length pre + JS.length run)
                      (JS.length s)
                      (fun i end_ =>
                         let endChar := JS.charAt s i in
                         if i =? JS.length s - 1 then Break (i + 1)
                         else if negb (char_matches cls endChar) then Break i
                         else Continue end_)
                      e
                  else JS.length pre + JS.length run
      end.
Proof.
  induction run as [|d run IH]; intros pre fuel e Hrun s Hfuel.
  - cbn [app] in s. subst s. destruct tail as [|c tail].
    + rewrite app_nil_r in *. replace fuel with O by lia. reflexivity.
    + assert (Hlen : JS.length (pre ++ c :: tail) = JS.length pre + 1 + JS.length tail)
        by apply length_app_cons.
      pose proof (length_nonneg tail) as Ht.
      change (JS.length []) with 0. rewrite Z.add_0_r, Nat.sub_0_r.
      destruct tail as [|c' tail].
      * destruct fuel as [|fuel]; [lia|]. cbn [for_loop].
        destruct (JS.length pre <? JS.length (pre ++ [c])) eqn:E;
          [|apply Z.ltb_ge in E; lia].
        destruct (JS.length pre =? JS.length (pre ++ [c]) - 1) eqn:E1;
          [|apply Z.eqb_neq in E1; change (JS.length []) with 0 in Hlen; lia].
        change (JS.length []) with 0 in Hlen. lia.
      * destruct (cls c) eqn:Ec; [reflexivity|].
        destruct fuel as [|fuel]; [lia|]. cbn [for_loop].
        rewrite length_cons in Hlen. pose proof (length_nonneg tail).
        destruct (JS.length pre <? JS.length (pre ++ c :: c' :: tail)) eqn:E;
          [|apply Z.ltb_ge in E; lia].
        destruct (JS.length pre =? JS.length (pre ++ c :: c' :: tail) - 1) eqn:E1;
          [apply Z.eqb_eq in E1; lia|].
        rewrite charAt_app_head. cbn [char_matches]. rewrite Ec. reflexivity.
  - cbn [all_of forallb] in Hrun. apply andb_true_iff in Hrun as [Hd Hrun].
    assert (Hs : s = (pre ++ [d]) ++ run ++ tail).
    { subst s. now rewrite <- app_assoc. }
    assert (Hpre : JS.length (pre ++ [d]) = JS.length pre + 1) by apply length_append.
    assert (Hlen : JS.length s = JS.length pre + 1 + JS.length (run ++ tail)).
    { subst s. apply length_app_cons. }
    pose proof (length_nonneg (run ++ tail)) as Hrt.
    destruct fuel as [|fuel]; [lia|]. cbn [for_loop].
    destruct (JS.length pre <? JS.length s) eqn:E; [|apply Z.ltb_ge in E; lia].
    assert (Hc : JS.charAt s (JS.length pre) = Some d).
    { subst s. apply charAt_app_head. }
    rewrite Hc. cbn [char_matches]. rewrite Hd. cbn [negb].
    specialize (IH (pre ++ [d]) fuel e Hrun). cbv zeta in IH.
    rewrite <- Hs, Hpre in IH.
    destruct (JS.length pre =? JS.length s - 1) eqn:E1.
    + apply Z.eqb_eq in E1.
      assert (Hnil : run ++ tail = []).
      { destruct (run ++ tail); [reflexivity|]. rewrite length_cons in Hlen.
        pose proof (length_nonneg l). lia. }
      apply app_eq_nil in Hnil as [-> ->]. lia.
    + rewrite IH by lia. rewrite length_cons.
      destruct tail as [|c tail].
      * destruct run; [|reflexivity]. apply Z.eqb_neq in E1.
        rewrite Hlen in E1. cbn in E1. lia.
      * destruct tail as [|c' tail]; [reflexivity|].
        destruct (cls c); [|lia].
        cbn [List.length]. replace (S fuel - S (List.length run))%nat
          with (fuel - List.length run)%nat by lia.
        f_equal. lia.
Qed.

(** The extent of a number token. *)
Lemma number_end_index (pre run rest : str) (c : ascii) (endIndex : Z) :
  all_of (fun c => is_digit c || Ascii.eqb c "."%char) run = true ->
  (is_digit c || Ascii.eqb c "."%char = false ->
   rest <> [] ->
   getNumberEndIndex (pre ++ run ++ c :: rest) (JS.length pre) endIndex
   = JS.length pre + JS.length run) /\
  getNumberEndIndex (pre ++ run ++ [c]) (JS.length pre) endIndex
  = JS.length pre + JS.length run + 1.
Proof.
  intros Hrun. split.
  - intros Hc Hrest. unfold getNumberEndIndex, js_for.
    pose proof (class_loop _ (c :: rest) run pre _ endIndex Hrun eq_refl) as Hloop; cbv zeta in Hloop; rewrite Hloop; clear Hloop.
    destruct rest; [contradiction|]. now rewrite Hc.
  - unfold getNumberEndIndex, js_for.
    pose proof (class_loop _ [c] run pre _ endIndex Hrun eq_refl) as Hloop; cbv zeta in Hloop; rewrite Hloop; clear Hloop.
    rewrite !length_append. change (JS.length [c]) with 1. lia.
Qed.

(** X22. [getNumberEndIndex] runs over digits and dots and stops before the
    first other character, unless that character is the last one of the
    text: the last character is taken into the number whatever it is. *)
Theorem getNumberEndIndex_extent (pre run rest : str) (c : ascii) (endIndex : Z) :
  all_of (fun c => is_digit c || Ascii.eqb c "."%char) run = true ->
  (is_digit c || Ascii.eqb c "."%char = false ->
   rest <> [] ->
   getNumberEndIndex (pre ++ run ++ c :: rest) (JS.length pre) endIndex
   = JS.length pre + JS.length run) /\
  getNumberEndIndex (pre ++ run ++ [c]) (JS.length pre) endIndex
  = JS.length pre + JS.length run + 1.
Proof. exact (number_end_index pre run rest c endIndex). Qed.

Lemma getNumberEndIndex_extent_example :
  all_of (fun c => is_digit c || Ascii.eqb c "."%char) (lit "12.5") = true /\
  getNumberEndIndex (lit "(12.5+1)") 1 1 = 5 /\
  getNumberEndIndex (lit "(12.5)") 1 1 = 6.
Proof.
  split; [reflexivity|].
  destruct (getNumberEndIndex_extent (lit "(") (lit "12.5") (lit "1)") "+"%char 1 eq_refl)
    as [H _].
  destruct (getNumberEndIndex_extent (lit "(") (lit "12.5") [] ")"%char 1 eq_refl)
    as [_ H'].
  split; [apply H; [reflexivity|discriminate]|exact H'].
Defined.

(** The extent of a reference or statement token. *)
Lemma data_access_end_index (pre run : str) (p : ascii) (endIndex : Z) :
  (all_of (fun c => is_word c || Ascii.eqb c "."%char) run = true ->
   (forall c rest,
       is_word c || Ascii.eqb c "."%char = false ->
       rest <> [] ->
       getDataAccessEndIndex (pre ++ p :: run ++ c :: rest) (JS.length pre) endIndex
       = JS.length pre + 1 + JS.length run) /\
   (forall c,
       getDataAccessEndIndex (pre ++ p :: run ++ [c]) (JS.length pre) endIndex
       = JS.length pre + 1 + JS.length run + 1)) /\
  (all_of is_word run = true ->
   (forall c rest,
       is_word c = false ->
       rest <> [] ->
       getStatementEndIndex (pre ++ p :: run ++ c :: rest) (JS.length pre) endIndex
       = JS.length pre + 1 + JS.length run) /\
   (forall c,
       getStatementEndIndex (pre ++ p :: run ++ [c]) (JS.length pre) endIndex
       = JS.length pre + 1 + JS.length run + 1)) /\
  getDataAccessEndIndex (pre ++ [p]) (JS.length pre) endIndex = endIndex /\
  getStatementEndIndex (pre ++ [p]) (JS.length pre) endIndex = endIndex.
Proof.
  assert (Hpre : JS.length (pre ++ [p]) = JS.length pre + 1) by apply length_append.
  assert (Happ : forall tail, pre ++ p :: tail = (pre ++ [p]) ++ tail).
  { intros tail. now rewrite <- app_assoc. }
  split; [|split; [|split]].
  - intros Hrun. split.
    + intros c rest Hc Hrest. unfold getDataAccessEndIndex, js_for.
      rewrite Happ, <- Hpre.
      pose proof (class_loop _ (c :: rest) run (pre ++ [p]) _ endIndex Hrun eq_refl) as Hloop; cbv zeta in Hloop; rewrite Hloop; clear Hloop.
      destruct rest; [contradiction|]. now rewrite Hc.
    + intros c. unfold getDataAccessEndIndex, js_for. rewrite Happ, <- Hpre.
      pose proof (class_loop _ [c] run (pre ++ [p]) _ endIndex Hrun eq_refl) as Hloop; cbv zeta in Hloop; rewrite Hloop; clear Hloop.
      rewrite !length_append. change (JS.length [c]) with 1. lia.
  - intros Hrun. split.
    + intros c rest Hc Hrest. unfold getStatementEndIndex, js_for.
      rewrite Happ, <- Hpre.
      pose proof (class_loop _ (c :: rest) run (pre ++ [p]) _ endIndex Hrun eq_refl) as Hloop; cbv zeta in Hloop; rewrite Hloop; clear Hloop.
      destruct rest; [contradiction|]. now rewrite Hc.
    + intros c. unfold getStatementEndIndex, js_for. rewrite Happ, <- Hpre.
      pose proof (class_loop _ [c] run (pre ++ [p]) _ endIndex Hrun eq_refl) as Hloop; cbv zeta in Hloop; rewrite Hloop; clear Hloop.
      rewrite !length_append. change (JS.length [c]) with 1. lia.
  - unfold getDataAccessEndIndex, js_for. rewrite <- Hpre.
    pose proof (class_loop (fun c => is_word c || Ascii.eqb c "."%char) [] []
                  (pre ++ [p]) _ endIndex eq_refl eq_refl) as Hloop.
    cbv zeta in Hloop. cbn [app] in Hloop. rewrite app_nil_r in Hloop.
    now rewrite Hloop.
  - unfold getStatementEndIndex, js_for. rewrite <- Hpre.
    pose proof (class_loop is_word [] [] (pre ++ [p]) _ endIndex eq_refl eq_refl)
      as Hloop.
    cbv zeta in Hloop. cbn [app] in Hloop. rewrite app_nil_r in Hloop.
    now rewrite Hloop.
Qed.

(** X23. [getDataAccessEndIndex] and [getStatementEndIndex] leave the
    character at the start index alone, run over the characters behind it
    that are word characters (or dots, for a data access) and stop before the
    first other one, unless that character is the last one of the text, which
    is taken whatever it is. When the start index is the last index, they
    return the end index they were given. *)
Theorem getDataAccessEndIndex_extent (pre run : str) (p : ascii) (endIndex : Z) :
  (all_of (fun c => is_word c || Ascii.eqb c "."%char) run = true ->
   (forall c rest,
       is_word c || Ascii.eqb c "."%char = false ->
       rest <> [] ->
       getDataAccessEndIndex (pre ++ p :: run ++ c :: rest) (JS.length pre) endIndex
       = JS.length pre + 1 + JS.length run) /\
   (forall c,
       getDataAccessEndIndex (pre ++ p :: run ++ [c]) (JS.length pre) endIndex
       = JS.length pre + 1 + JS.length run + 1)) /\
  (all_of is_word run = true ->
   (forall c rest,
       is_word c = false ->
       rest <> [] ->
       getStatementEndIndex (pre ++ p :: run ++ c :: rest) (JS.length pre) endIndex
       = JS.length pre + 1 + JS.length run) /\
   (forall c,
       getStatementEndIndex (pre ++ p :: run ++ [c]) (JS.length pre) endIndex
       = JS.length pre + 1 + JS.length run + 1)) /\
  getDataAccessEndIndex (pre ++ [p]) (JS.length pre) endIndex = endIndex /\
  getStatementEndIndex (pre ++ [p]) (JS.length pre) endIndex = endIndex.
Proof. exact (data_access_end_index pre run p endIndex). Qed.

Lemma getDataAccessEndIndex_extent_example :
  all_of (fun c => is_word c || Ascii.eqb c "."%char) (lit "a.b") = true /\
  getDataAccessEndIndex (lit "1<$a.b+1") 2 2 = 6 /\
  getDataAccessEndIndex (lit "($a.b)") 1 1 = 6 /\
  getDataAccessEndIndex (lit "1==$") 3 3 = 3.
Proof.
  split; [reflexivity|].
  destruct (getDataAccessEndIndex_extent (lit "1<") (lit "a.b") "$"%char 2)
    as ([H1 _] & _ & _); [reflexivity|].
  destruct (getDataAccessEndIndex_extent (lit "(") (lit "a.b") "$"%char 1)
    as ([_ H2] & _ & _); [reflexivity|].
  destruct (getDataAccessEndIndex_extent (lit "1==") [] "$"%char 3)
    as (_ & _ & H3 & _).
  split; [apply (H1 "+"%char (lit "1")); [reflexivity|discriminate]|].
  split; [exact (H2 ")"%char)|exact H3].
Defined.

(** The loop of [getStringEndIndex] stops behind the first delimiter. *)
Lemma string_loop (tail : str) :
  (forall c rest, tail = c :: rest -> c = Symbols.STRING_SYMBOL) ->
  forall (body pre : str) (fuel : nat) (e : Z),
    none_of (is_char Symbols.STRING_SYMBOL) body = true ->
    let s := pre ++ body ++ tail in
    fuel = Z.to_nat (JS.length s - JS.length pre) ->
    for_loop fuel (JS.length pre) (JS.length s)
      (fun i end_ =>
         let endChar := JS.charAt s i in
         if char_is endChar Symbols.STRING_SYMBOL then Break (i + 1)
         else Continue end_)
      e
    = match tail with
      | [] => e
      | _ => JS.length pre + JS.length body + 1
      end.
Proof.
  intros Htail. induction body as [|d body IH]; intros pre fuel e Hbody s Hfuel.
  - cbn [app] in s. subst s. destruct tail as [|c tail].
    + rewrite app_nil_r in *. replace fuel with O by lia. reflexivity.
    + rewrite (Htail c tail eq_refl) in *.
      assert (Hlen : JS.length (pre ++ Symbols.STRING_SYMBOL :: tail)
                     = JS.length pre + 1 + JS.length tail) by apply length_app_cons.
      pose proof (length_nonneg tail) as Ht.
      destruct fuel as [|fuel]; [lia|]. cbn [for_loop].
      destruct (JS.length pre <? JS.length (pre ++ Symbols.STRING_SYMBOL :: tail)) eqn:E;
        [|apply Z.ltb_ge in E; lia].
      rewrite charAt_app_head. cbn [char_is]. rewrite Ascii.eqb_refl.
      change (JS.length []) with 0. lia.
  - cbn [none_of forallb] in Hbody. apply andb_true_iff in Hbody as [Hd Hbody].
    unfold is_char in Hd. apply negb_true_iff in Hd.
    assert (Hs : s = (pre ++ [d]) ++ body ++ tail).
    { subst s. now rewrite <- app_assoc. }
    assert (Hpre : JS.length (pre ++ [d]) = JS.length pre + 1) by apply length_append.
    assert (Hlen : JS.length s = JS.length pre + 1 + JS.length (body ++ tail)).
    { subst s. apply length_app_cons. }
    pose proof (length_nonneg (body ++ tail)) as Hrt.
    destruct fuel as [|fuel]; [lia|]. cbn [for_loop].
    destruct (JS.length pre <? JS.length s) eqn:E; [|apply Z.ltb_ge in E; lia].
    assert (Hc : JS.charAt s (JS.length pre) = Some d).
    { subst s. apply charAt_app_head. }
    rewrite Hc. cbn [char_is]. rewrite Hd.
    specialize (IH (pre ++ [d]) fuel e Hbody). cbv zeta in IH.
    rewrite <- Hs, Hpre in IH. rewrite IH by lia. rewrite length_cons.
    destruct tail; [reflexivity|lia].
Qed.

(** The extent of a string token. *)
Lemma string_end_index (pre body : str) (q : ascii) (endIndex : Z) :
  none_of (is_char Symbols.STRING_SYMBOL) body = true ->
  (forall rest,
      getStringEndIndex (pre ++ q :: body ++ Symbols.STRING_SYMBOL :: rest)
        (JS.length pre) endIndex
      = JS.length pre + 1 + JS.length body + 1) /\
  getStringEndIndex (pre ++ q :: body) (JS.length pre) endIndex = endIndex.
Proof.
  intros Hbody.
  assert (Hpre : JS.length (pre ++ [q]) = JS.length pre + 1) by apply length_append.
  assert (Happ : forall tail, pre ++ q :: tail = (pre ++ [q]) ++ tail).
  { intros tail. now rewrite <- app_assoc. }
  split.
  - intros rest. unfold getStringEndIndex, js_for. rewrite Happ, <- Hpre.
    pose proof (string_loop (Symbols.STRING_SYMBOL :: rest)) as Hloop.
    specialize (Hloop ltac:(now intros c r [= -> _]) body (pre ++ [q]) _ endIndex
                  Hbody eq_refl).
    cbv zeta in Hloop. rewrite Hloop. lia.
  - unfold getStringEndIndex, js_for. rewrite Happ, <- Hpre.
    pose proof (string_loop []) as Hloop.
    specialize (Hloop ltac:(discriminate) body (pre ++ [q]) _ endIndex Hbody eq_refl).
    cbv zeta in Hloop. rewrite app_nil_r in Hloop. now rewrite Hloop.
Qed.

(** X24. [getStringEndIndex] leaves the character at the start index alone
    and returns the index behind the first delimiter behind it; when there is
    none (a literal that is not closed), it returns the end index it was
    given. *)
Theorem getStringEndIndex_extent (pre body : str) (q : ascii) (endIndex : Z) :
  none_of (is_char Symbols.STRING_SYMBOL) body = true ->
  (forall rest,
      getStringEndIndex (pre ++ q :: body ++ Symbols.STRING_SYMBOL :: rest)
        (JS.length pre) endIndex
      = JS.length pre + 1 + JS.length body + 1) /\
  getStringEndIndex (pre ++ q :: body) (JS.length pre) endIndex = endIndex.
Proof. exact (string_end_index pre body q endIndex). Qed.

Lemma getStringEndIndex_extent_example :
  none_of (is_char Symbols.STRING_SYMBOL) (lit "a:b") = true /\
  getStringEndIndex (lit "$x=='a:b'") 4 4 = 9 /\
  getStringEndIndex (lit "$x=='a:b") 4 4 = 4.
Proof.
  split; [reflexivity|].
  destruct (getStringEndIndex_extent (lit "$x==") (lit "a:b") "'"%char 4 eq_refl)
    as [H1 H2].
  split; [exact (H1 [])|exact H2].
Defined.

Ltac len_solve :=
  unfold JS.length in *; repeat (rewrite ?List.length_app; cbn [List.length]); lia.

Lemma is_word_no_bracket (c : ascii) :
  is_word c = true -> Ascii.eqb c "("%char = false /\ Ascii.eqb c ")"%char = false.
Proof.
  intros Hw. split.
  - destruct (Ascii.eqb c "("%char) eqn:E; [|reflexivity].
    apply Ascii.eqb_eq in E. subst c. discriminate Hw.
  - destruct (Ascii.eqb c ")"%char) eqn:E; [|reflexivity].
    apply Ascii.eqb_eq in E. subst c. discriminate Hw.
Qed.

(** The loop of [getFunctionEndIndex] runs over the word characters of a
    name. *)
Lemma function_loop_name (tail : str) :
  forall (name pre : str) (fuel : nat) (e : Z),
    all_of is_word name = true ->
    let s := pre ++ name ++ tail in
    fuel = Z.to_nat (JS.length s - JS.length pre) ->
    for_loop fuel (JS.length pre) (JS.length s)
      (fun i st =>
         let '(end_, numBrackets, foundFirst) := st in
         let endChar := JS.charAt s i in
         let '(numBrackets, foundFirst) :=
           if char_is endChar "("%char then (numBrackets + 1, true)
           else if char_is endChar ")"%char then (numBrackets - 1, foundFirst)
           else (numBrackets, foundFirst) in
         if foundFirst && (numBrackets =? 0) then Break (i + 1, numBrackets, foundFirst)
         else if (numBrackets =? 0) && negb (char_matches is_word endChar)
              then Break (i, numBrackets, true)
         else Continue (end_, numBrackets, foundFirst))
      (e, 0, false)
    = for_loop (fuel - List.length name) (JS.length pre + JS.length name) (JS.length s)
      (fun i st =>
         let '(end_, numBrackets, foundFirst) := st in
         let endChar := JS.charAt s i in
         let '(numBrackets, foundFirst) :=
           if char_is endChar "("%char then (numBrackets + 1, true)
           else if char_is endChar ")"%char then (numBrackets - 1, foundFirst)
           else (numBrackets, foundFirst) in
         if foundFirst && (numBrackets =? 0) then Break (i + 1, numBrackets, foundFirst)
         else if (numBrackets =? 0) && negb (char_matches is_word endChar)
              then Break (i, numBrackets, true)
         else Continue (end_, numBrackets, foundFirst))
      (e, 0, false).
Proof.
  induction name as [|d name IH]; intros pre fuel e Hname s Hfuel.
  - change (JS.length []) with 0. now rewrite Z.add_0_r, Nat.sub_0_r.
  - cbn [all_of forallb] in Hname. apply andb_true_iff in Hname as [Hd Hname].
    destruct (is_word_no_bracket d Hd) as [Ho Hc].
    assert (Hs : s = (pre ++ [d]) ++ name ++ tail).
    { subst s. now rewrite <- app_assoc. }
    assert (Hpre : JS.length (pre ++ [d]) = JS.length pre + 1) by apply length_append.
    assert (Hlen : JS.length s = JS.length pre + 1 + JS.length (name ++ tail)).
    { subst s. apply length_app_cons. }
    pose proof (length_nonneg (name ++ tail)) as Hrt.
    destruct fuel as [|fuel]; [lia|]. cbn [for_loop].
    destruct (JS.length pre <? JS.length s) eqn:E; [|apply Z.ltb_ge in E; lia].
    assert (Hch : JS.charAt s (JS.length pre) = Some d).
    { subst s. apply charAt_app_head. }
    rewrite Hch. cbn [char_is char_matches]. rewrite Ho, Hc, Hd. cbn [andb negb Z.eqb].
    specialize (IH (pre ++ [d]) fuel e Hname). cbv zeta in IH.
    rewrite <- Hs, Hpre in IH. rewrite IH by lia. rewrite length_cons.
    cbn [List.length]. replace (S fuel - S (List.length name))%nat
      with (fuel - List.length name)%nat by lia.
    f_equal. lia.
Qed.

(** Within the brackets of a call the loop counts the brackets and stops
    behind the one that closes the call. *)
Lemma function_loop_inner (rest : str) :
  forall (inner pre : str) (depth : nat) (fuel : nat) (e : Z),
    balanced depth inner = true ->
    let s := pre ++ inner ++ ")"%char :: rest in
    fuel = Z.to_nat (JS.length s - JS.length pre) ->
    for_loop fuel (JS.length pre) (JS.length s)
      (fun i st =>
         let '(end_, numBrackets, foundFirst) := st in
         let endChar := JS.charAt s i in
         let '(numBrackets, foundFirst) :=
           if char_is endChar "("%char then (numBrackets + 1, true)
           else if char_is endChar ")"%char then (numBrackets - 1, foundFirst)
           else (numBrackets, foundFirst) in
         if foundFirst && (numBrackets =? 0) then Break (i + 1, numBrackets, foundFirst)
         else if (numBrackets =? 0) && negb (char_matches is_word endChar)
              then Break (i, numBrackets, true)
         else Continue (end_, numBrackets, foundFirst))
      (e, Z.of_nat (S depth), true)
    = (JS.length pre + JS.length inner + 1, 0, true).
Proof.
  induction inner as [|c inner IH]; intros pre depth fuel e Hbal s Hfuel.
  - cbn [balanced] in Hbal. apply Nat.eqb_eq in Hbal. subst depth.
    assert (Hlen : JS.length s = JS.length pre + 1 + JS.length rest).
    { subst s. apply length_app_cons. }
    pose proof (length_nonneg rest) as Hrest.
    destruct fuel as [|fuel]; [lia|]. cbn [for_loop].
    destruct (JS.length pre <? JS.length s) eqn:E; [|apply Z.ltb_ge in E; lia].
    assert (Hc : JS.charAt s (JS.length pre) = Some ")"%char).
    { subst s. apply charAt_app_head. }
    rewrite Hc. cbn. f_equal. f_equal. change (JS.length []) with 0. lia.
  - assert (Hs : s = (pre ++ [c]) ++ inner ++ ")"%char :: rest).
    { subst s. now rewrite <- app_assoc. }
    assert (Hpre : JS.length (pre ++ [c]) = JS.length pre + 1) by apply length_append.
    assert (Hlen : JS.length s
                   = JS.length pre + 1 + JS.length (inner ++ ")"%char :: rest)).
    { subst s. apply length_app_cons. }
    pose proof (length_nonneg (inner ++ ")"%char :: rest)) as Hrt.
    destruct fuel as [|fuel]; [lia|]. cbn [for_loop].
    destruct (JS.length pre <? JS.length s) eqn:E; [|apply Z.ltb_ge in E; lia].
    assert (Hc : JS.charAt s (JS.length pre) = Some c).
    { subst s. apply charAt_app_head. }
    rewrite Hc. cbn [char_is]. cbn [balanced] in Hbal.
    change Symbols.BRACKET_OPEN with "("%char in Hbal.
    change Symbols.BRACKET_CLOSE with ")"%char in Hbal.
    rewrite length_cons.
    destruct (Ascii.eqb c "("%char) eqn:Eo.
    + destruct (Z.of_nat (S depth) + 1 =? 0) eqn:E0; [apply Z.eqb_eq in E0; lia|].
      cbn [andb].
      specialize (IH (pre ++ [c]) (S depth) fuel e Hbal).
      cbv zeta in IH. rewrite <- Hs, Hpre in IH.
      replace (Z.of_nat (S depth) + 1) with (Z.of_nat (S (S depth))) by lia.
      rewrite IH by lia. f_equal. f_equal. lia.
    + destruct (Ascii.eqb c ")"%char) eqn:Ec.
      * destruct depth as [|depth]; [discriminate|].
        destruct (Z.of_nat (S (S depth)) - 1 =? 0) eqn:E0; [apply Z.eqb_eq in E0; lia|].
        cbn [andb].
        specialize (IH (pre ++ [c]) depth fuel e Hbal).
        cbv zeta in IH. rewrite <- Hs, Hpre in IH.
        replace (Z.of_nat (S (S depth)) - 1) with (Z.of_nat (S depth)) by lia.
        rewrite IH by lia. f_equal. f_equal. lia.
      * destruct (Z.of_nat (S depth) =? 0) eqn:E0; [apply Z.eqb_eq in E0; lia|].
        cbn [andb].
        specialize (IH (pre ++ [c]) depth fuel e Hbal).
        cbv zeta in IH. rewrite <- Hs, Hpre in IH.
        rewrite IH by lia. f_equal. f_equal. lia.
Qed.

(** The extent of a function token. *)
Lemma function_end_index (pre name : str) (n0 : ascii) (endIndex : Z) :
  all_of is_word name = true ->
  (forall inner rest,
      balanced 0 inner = true ->
      getFunctionEndIndex (pre ++ n0 :: name ++ "("%char :: inner ++ ")"%char :: rest)
        (JS.length pre) endIndex
      = JS.length pre + 1 + JS.length name + 1 + JS.length inner + 1) /\
  (forall c rest,
      is_word c = false -> Ascii.eqb c "("%char = false -> Ascii.eqb c ")"%char = false ->
      getFunctionEndIndex (pre ++ n0 :: name ++ c :: rest) (JS.length pre) endIndex
      = JS.length pre + 1 + JS.length name) /\
  getFunctionEndIndex (pre ++ [n0]) (JS.length pre) endIndex = endIndex /\
  (name <> [] ->
   getFunctionEndIndex (pre ++ n0 :: name) (JS.length pre) endIndex
   = JS.length pre + 1 + JS.length name).
Proof.
  intros Hname.
  assert (Hpre : JS.length (pre ++ [n0]) = JS.length pre + 1) by apply length_append.
  assert (Happ : forall tail, pre ++ n0 :: tail = (pre ++ [n0]) ++ tail).
  { intros tail. now rewrite <- app_assoc. }
  assert (Hskip : forall tail,
    let s := (pre ++ [n0]) ++ name ++ tail in
    for_loop (Z.to_nat (JS.length s - JS.length (pre ++ [n0])))
      (JS.length (pre ++ [n0])) (JS.length s)
      (fun i st =>
         let '(end_, numBrackets, foundFirst) := st in
         let endChar := JS.charAt s i in
         let '(numBrackets, foundFirst) :=
           if char_is endChar "("%char then (numBrackets + 1, true)
           else if char_is endChar ")"%char then (numBrackets - 1, foundFirst)
           else (numBrackets, foundFirst) in
         if foundFirst && (numBrackets =? 0) then Break (i + 1, numBrackets, foundFirst)
         else if (numBrackets =? 0) && negb (char_matches is_word endChar)
              then Break (i, numBrackets, true)
         else Continue (end_, numBrackets, foundFirst))
      (endIndex, 0, false)
    = for_loop (Z.to_nat (JS.length tail))
      (JS.length (pre ++ [n0]) + JS.length name) (JS.length s)
      (fun i st =>
         let '(end_, numBrackets, foundFirst) := st in
         let endChar := JS.charAt s i in
         let '(numBrackets, foundFirst) :=
           if char_is endChar "("%char then (numBrackets + 1, true)
           else if char_is endChar ")"%char then (numBrackets - 1, foundFirst)
           else (numBrackets, foundFirst) in
         if foundFirst && (numBrackets =? 0) then Break (i + 1, numBrackets, foundFirst)
         else if (numBrackets =? 0) && negb (char_matches is_word endChar)
              then Break (i, numBrackets, true)
         else Continue (end_, numBrackets, foundFirst))
      (endIndex, 0, false)).
  { intros tail s.
    pose proof (function_loop_name tail name (pre ++ [n0]) _ endIndex Hname eq_refl)
      as Hloop.
    cbv zeta in Hloop |- *. fold s in Hloop. rewrite Hloop. f_equal.
    unfold s. rewrite !length_append. unfold JS.length. lia. }
  cbv zeta in Hskip.
  split; [|split; [|split]].
  - intros inner rest Hbal. unfold getFunctionEndIndex, js_for.
    rewrite Happ, <- Hpre, Hskip.
    set (s := (pre ++ [n0]) ++ name ++ "("%char :: inner ++ ")"%char :: rest).
    assert (Hs : s = ((pre ++ [n0]) ++ name ++ ["("%char]) ++ inner ++ ")"%char :: rest).
    { subst s. now rewrite <- !app_assoc. }
    assert (Hlen : JS.length s = JS.length (pre ++ [n0]) + JS.length name + 1
                                 + JS.length (inner ++ ")"%char :: rest)).
    { subst s. len_solve. }
    pose proof (length_nonneg (inner ++ ")"%char :: rest)) as Hrt.
    rewrite length_cons.
    destruct (Z.to_nat (1 + JS.length (inner ++ ")"%char :: rest))) as [|fuel] eqn:Ef;
      [lia|].
    cbn [for_loop].
    destruct (JS.length (pre ++ [n0]) + JS.length name <? JS.length s) eqn:E;
      [|apply Z.ltb_ge in E; lia].
    assert (Hc : JS.charAt s (JS.length (pre ++ [n0]) + JS.length name)
                 = Some "("%char).
    { subst s. rewrite app_assoc, <- length_append. apply charAt_app_head. }
    rewrite Hc. cbn [char_is Ascii.eqb Bool.eqb andb].
    replace (0 + 1 =? 0) with false by reflexivity. cbn [andb].
    pose proof (function_loop_inner rest inner
                  ((pre ++ [n0]) ++ name ++ ["("%char]) 0 fuel endIndex Hbal) as Hloop.
    cbv zeta in Hloop. rewrite <- Hs in Hloop.
    replace (JS.length ((pre ++ [n0]) ++ name ++ ["("%char]))
      with (JS.length (pre ++ [n0]) + JS.length name + 1) in Hloop
      by len_solve.
    change (Z.of_nat 1) with (0 + 1) in Hloop. rewrite Hloop by lia.
    cbn [negb]. lia.
  - intros c rest Hc Ho Hcl. unfold getFunctionEndIndex, js_for.
    rewrite Happ, <- Hpre, Hskip.
    set (s := (pre ++ [n0]) ++ name ++ c :: rest).
    assert (Hlen : JS.length s = JS.length (pre ++ [n0]) + JS.length name + 1
                                 + JS.length rest).
    { subst s. len_solve. }
    pose proof (length_nonneg rest) as Hrt.
    rewrite length_cons.
    destruct (Z.to_nat (1 + JS.length rest)) as [|fuel] eqn:Ef; [lia|].
    cbn [for_loop].
    destruct (JS.length (pre ++ [n0]) + JS.length name <? JS.length s) eqn:E;
      [|apply Z.ltb_ge in E; lia].
    assert (Hch : JS.charAt s (JS.length (pre ++ [n0]) + JS.length name) = Some c).
    { subst s. rewrite app_assoc, <- length_append. apply charAt_app_head. }
    rewrite Hch. cbn [char_is char_matches]. rewrite Ho, Hcl, Hc.
    cbn [andb negb Z.eqb]. lia.
  - unfold getFunctionEndIndex, js_for. rewrite <- Hpre.
    replace (Z.to_nat (JS.length (pre ++ [n0]) - JS.length (pre ++ [n0]))) with O by lia.
    cbn [for_loop negb].
    unfold getStatementEndIndex, js_for. rewrite <- Hpre.
    replace (Z.to_nat (JS.length (pre ++ [n0]) - JS.length (pre ++ [n0]))) with O by lia.
    reflexivity.
  - intros Hne. unfold getFunctionEndIndex, js_for.
    replace (pre ++ n0 :: name) with ((pre ++ [n0]) ++ name ++ [])
      by now rewrite app_nil_r, <- app_assoc.
    rewrite <- Hpre, Hskip. cbn [for_loop Z.to_nat JS.length List.length Z.of_nat negb].
    unfold getStatementEndIndex, js_for. rewrite <- Hpre.
    pose proof (class_loop is_word [] name (pre ++ [n0]) _ endIndex Hname eq_refl)
      as Hloop.
    cbv zeta in Hloop. rewrite Hloop. destruct name; [contradiction|].
    len_solve.
Qed.

(** X25. [getFunctionEndIndex] leaves the character at the start index
    alone and runs over the word characters behind it. On a call, whose
    brackets match, it returns the index behind the bracket that closes it;
    on a name that another character follows (no word character and no
    bracket) it returns the index of that character; on a name that ends the
    text it returns the length of the text, and the end index it was given
    when the name is one character long. *)
Theorem getFunctionEndIndex_extent (pre name : str) (n0 : ascii) (endIndex : Z) :
  all_of is_word name = true ->
  (forall inner rest,
      balanced 0 inner = true ->
      getFunctionEndIndex (pre ++ n0 :: name ++ "("%char :: inner ++ ")"%char :: rest)
        (JS.length pre) endIndex
      = JS.length pre + 1 + JS.length name + 1 + JS.length inner + 1) /\
  (forall c rest,
      is_word c = false -> Ascii.eqb c "("%char = false -> Ascii.eqb c ")"%char = false ->
      getFunctionEndIndex (pre ++ n0 :: name ++ c :: rest) (JS.length pre) endIndex
      = JS.length pre + 1 + JS.length name) /\
  getFunctionEndIndex (pre ++ [n0]) (JS.length pre) endIndex = endIndex /\
  (name <> [] ->
   getFunctionEndIndex (pre ++ n0 :: name) (JS.length pre) endIndex
   = JS.length pre + 1 + JS.length name).
Proof. exact (function_end_index pre name n0 endIndex). Qed.

Lemma getFunctionEndIndex_extent_example :
  all_of is_word (lit "dd") = true /\
  balanced 0 (lit "mul(2,3),4") = true /\
  getFunctionEndIndex (lit "1+add(mul(2,3),4)==11") 2 2 = 17 /\
  getFunctionEndIndex (lit "total>=5") 0 0 = 5 /\
  getFunctionEndIndex (lit "1<f") 2 2 = 2.
Proof.
  do 2 (split; [reflexivity|]).
  destruct (getFunctionEndIndex_extent (lit "1+") (lit "dd") "a"%char 2 eq_refl)
    as (H1 & _).
  destruct (getFunctionEndIndex_extent [] (lit "otal") "t"%char 0 eq_refl)
    as (_ & H2 & _).
  destruct (getFunctionEndIndex_extent (lit "1<") [] "f"%char 2 eq_refl)
    as (_ & _ & H3 & _).
  split; [exact (H1 (lit "mul(2,3),4") (lit "==11") eq_refl)|].
  split; [exact (H2 ">"%char (lit "=5") eq_refl eq_refl eq_refl)|exact H3].
Defined.

(* ------------------------------------------------------------------ *)
(** ** The arguments of a call *)

(** The loop of [getFunctionArgs] over an argument that a separator
    follows. *)
Lemma args_loop_middle (rest : str) :
  forall (arg pre : str) (depth fuel : nat) (res : list str) (start : Z),
    argument depth arg = true ->
    let s := pre ++ arg ++ Symbols.ARG_SEPARATOR :: rest in
    fuel = Z.to_nat (JS.length s - JS.length pre) ->
    for_loop fuel (JS.length pre) (JS.length s)
      (fun i st =>
         let '(res, startIndex, numBrackets) := st in
         let char := JS.charAt s i in
         if char_is char Symbols.BRACKET_OPEN then
           Continue (res, startIndex, numBrackets + 1)
         else if char_is char Symbols.BRACKET_CLOSE then
           let numBrackets := numBrackets - 1 in
           if (numBrackets =? 0) && (i =? JS.length s - 1) then
             Continue (res ++ [JS.substring s startIndex (i + 1)],
                       startIndex, numBrackets)
           else Continue (res, startIndex, numBrackets)
         else if (char_is char Symbols.ARG_SEPARATOR || (i =? JS.length s - 1))
                 && (numBrackets =? 0) then
           let endIndex := if i =? JS.length s - 1 then i + 1 else i in
           Continue (res ++ [JS.substring s startIndex endIndex],
                     i + 1, numBrackets)
         else Continue (res, startIndex, numBrackets))
      (res, start, Z.of_nat depth)
    = for_loop (fuel - List.length arg) (JS.length pre + JS.length arg) (JS.length s)
      (fun i st =>
         let '(res, startIndex, numBrackets) := st in
         let char := JS.charAt s i in
         if char_is char Symbols.BRACKET_OPEN then
           Continue (res, startIndex, numBrackets + 1)
         else if char_is char Symbols.BRACKET_CLOSE then
           let numBrackets := numBrackets - 1 in
           if (numBrackets =? 0) && (i =? JS.length s - 1) then
             Continue (res ++ [JS.substring s startIndex (i + 1)],
                       startIndex, numBrackets)
           else Continue (res, startIndex, numBrackets)
         else if (char_is char Symbols.ARG_SEPARATOR || (i =? JS.length s - 1))
                 && (numBrackets =? 0) then
           let endIndex := if i =? JS.length s - 1 then i + 1 else i in
           Continue (res ++ [JS.substring s startIndex endIndex],
                     i + 1, numBrackets)
         else Continue (res, startIndex, numBrackets))
      (res, start, 0).
Proof.
  induction arg as [|c arg IH]; intros pre depth fuel res start Harg s Hfuel.
  - cbn [argument] in Harg. apply Nat.eqb_eq in Harg. subst depth.
    change (JS.length []) with 0. now rewrite Z.add_0_r, Nat.sub_0_r.
  - assert (Hs : s = (pre ++ [c]) ++ arg ++ Symbols.ARG_SEPARATOR :: rest).
    { subst s. now rewrite <- app_assoc. }
    assert (Hpre : JS.length (pre ++ [c]) = JS.length pre + 1) by apply length_append.
    assert (Hlen : JS.length s = JS.length pre + 1 + JS.length arg + 1 + JS.length rest).
    { subst s. len_solve. }
    pose proof (length_nonneg arg) as Ha. pose proof (length_nonneg rest) as Hr.
    destruct fuel as [|fuel]; [lia|]. cbn [for_loop].
    destruct (JS.length pre <? JS.length s) eqn:E; [|apply Z.ltb_ge in E; lia].
    assert (Hc : JS.charAt s (JS.length pre) = Some c).
    { subst s. apply charAt_app_head. }
    rewrite Hc. cbn [char_is]. cbn [argument] in Harg.
    destruct (JS.length pre =? JS.length s - 1) eqn:E1; [apply Z.eqb_eq in E1; lia|].
    rewrite length_cons. cbn [List.length].
    replace (S fuel - S (List.length arg))%nat with (fuel - List.length arg)%nat by lia.
    replace (JS.length pre + (1 + JS.length arg))
      with (JS.length pre + 1 + JS.length arg) by lia.
    destruct (Ascii.eqb c Symbols.BRACKET_OPEN) eqn:Eo.
    + specialize (IH (pre ++ [c]) (S depth) fuel res start Harg).
      cbv zeta in IH. rewrite <- Hs, Hpre in IH.
      replace (Z.of_nat depth + 1) with (Z.of_nat (S depth)) by lia.
      apply IH. lia.
    + destruct (Ascii.eqb c Symbols.BRACKET_CLOSE) eqn:Ec.
      * destruct depth as [|depth]; [discriminate|].
        cbv zeta. rewrite andb_false_r.
        specialize (IH (pre ++ [c]) depth fuel res start Harg).
        cbv zeta in IH. rewrite <- Hs, Hpre in IH.
        replace (Z.of_nat (S depth) - 1) with (Z.of_nat depth) by lia.
        apply IH. lia.
      * destruct (Ascii.eqb c Symbols.ARG_SEPARATOR) eqn:Es.
        -- destruct depth as [|depth]; [discriminate|].
           destruct (Z.of_nat (S depth) =? 0) eqn:E0; [apply Z.eqb_eq in E0; lia|].
           cbn [orb andb].
           specialize (IH (pre ++ [c]) (S depth) fuel res start Harg).
           cbv zeta in IH. rewrite <- Hs, Hpre in IH. apply IH. lia.
        -- cbn [orb andb].
           specialize (IH (pre ++ [c]) depth fuel res start Harg).
           cbv zeta in IH. rewrite <- Hs, Hpre in IH. apply IH. lia.
Qed.

(** The loop of [getFunctionArgs] over the last argument. *)
Lemma args_loop_last :
  forall (arg pre : str) (depth fuel : nat) (res : list str) (start : Z),
    argument depth arg = true ->
    arg <> [] ->
    let s := pre ++ arg in
    fuel = Z.to_nat (JS.length s - JS.length pre) ->
    fst (fst (for_loop fuel (JS.length pre) (JS.length s)
      (fun i st =>
         let '(res, startIndex, numBrackets) := st in
         let char := JS.charAt s i in
         if char_is char Symbols.BRACKET_OPEN then
           Continue (res, startIndex, numBrackets + 1)
         else if char_is char Symbols.BRACKET_CLOSE then
           let numBrackets := numBrackets - 1 in
           if (numBrackets =? 0) && (i =? JS.length s - 1) then
             Continue (res ++ [JS.substring s startIndex (i + 1)],
                       startIndex, numBrackets)
           else Continue (res, startIndex, numBrackets)
         else if (char_is char Symbols.ARG_SEPARATOR || (i =? JS.length s - 1))
                 && (numBrackets =? 0) then
           let endIndex := if i =? JS.length s - 1 then i + 1 else i in
           Continue (res ++ [JS.substring s startIndex endIndex],
                     i + 1, numBrackets)
         else Continue (res, startIndex, numBrackets))
      (res, start, Z.of_nat depth)))
    = res ++ [JS.substring s start (JS.length s)].
Proof.
  induction arg as [|c arg IH]; intros pre depth fuel res start Harg Hne s Hfuel;
    [contradiction|].
  assert (Hs : s = (pre ++ [c]) ++ arg).
  { subst s. now rewrite <- app_assoc. }
  assert (Hpre : JS.length (pre ++ [c]) = JS.length pre + 1) by apply length_append.
  assert (Hlen : JS.length s = JS.length pre + 1 + JS.length arg).
  { subst s. len_solve. }
  pose proof (length_nonneg arg) as Ha.
  destruct fuel as [|fuel]; [lia|]. cbn [for_loop].
  destruct (JS.length pre <? JS.length s) eqn:E; [|apply Z.ltb_ge in E; lia].
  assert (Hc : JS.charAt s (JS.length pre) = Some c).
  { subst s. apply charAt_app_head. }
  rewrite Hc. cbn [char_is]. cbn [argument] in Harg.
  destruct arg as [|c' arg].
  - (* the last character of the text *)
    assert (E1 : (JS.length pre =? JS.length s - 1) = true).
    { apply Z.eqb_eq. change (JS.length []) with 0 in Hlen. lia. }
    rewrite E1. replace fuel with O by (change (JS.length []) with 0 in Hlen; lia).
    replace (JS.length pre + 1) with (JS.length s)
      by (change (JS.length []) with 0 in Hlen; lia).
    cbn [argument] in Harg.
    destruct (Ascii.eqb c Symbols.BRACKET_OPEN) eqn:Eo; [discriminate|].
    destruct (Ascii.eqb c Symbols.BRACKET_CLOSE) eqn:Ec.
    + destruct depth as [|depth]; [discriminate|].
      apply Nat.eqb_eq in Harg. subst depth. reflexivity.
    + destruct (Ascii.eqb c Symbols.ARG_SEPARATOR) eqn:Es.
      * destruct depth; discriminate.
      * apply Nat.eqb_eq in Harg. subst depth. reflexivity.
  - assert (E1 : (JS.length pre =? JS.length s - 1) = false).
    { apply Z.eqb_neq. rewrite length_cons in Hlen. pose proof (length_nonneg arg). lia. }
    rewrite E1.
    destruct (Ascii.eqb c Symbols.BRACKET_OPEN) eqn:Eo.
    + specialize (IH (pre ++ [c]) (S depth) fuel res start Harg ltac:(discriminate)).
      cbv zeta in IH. rewrite <- Hs, Hpre in IH.
      replace (Z.of_nat depth + 1) with (Z.of_nat (S depth)) by lia.
      apply IH. lia.
    + destruct (Ascii.eqb c Symbols.BRACKET_CLOSE) eqn:Ec.
      * destruct depth as [|depth]; [discriminate|].
        cbv zeta. rewrite andb_false_r.
        specialize (IH (pre ++ [c]) depth fuel res start Harg ltac:(discriminate)).
        cbv zeta in IH. rewrite <- Hs, Hpre in IH.
        replace (Z.of_nat (S depth) - 1) with (Z.of_nat depth) by lia.
        apply IH. lia.
      * destruct (Ascii.eqb c Symbols.ARG_SEPARATOR) eqn:Es.
        -- destruct depth as [|depth]; [discriminate|].
           destruct (Z.of_nat (S depth) =? 0) eqn:E0; [apply Z.eqb_eq in E0; lia|].
           cbn [orb andb].
           specialize (IH (pre ++ [c]) (S depth) fuel res start Harg ltac:(discriminate)).
           cbv zeta in IH. rewrite <- Hs, Hpre in IH. apply IH. lia.
        -- cbn [orb andb].
           specialize (IH (pre ++ [c]) depth fuel res start Harg ltac:(discriminate)).
           cbv zeta in IH. rewrite <- Hs, Hpre in IH. apply IH. lia.
Qed.

Lemma substring_middle (pre mid rest : str) :
  JS.substring (pre ++ mid ++ rest) (JS.length pre) (JS.length pre + JS.length mid) = mid.
Proof.
  unfold JS.substring, JS.clamp.
  pose proof (length_nonneg pre). pose proof (length_nonneg mid).
  pose proof (length_nonneg rest).
  assert (Hlen : JS.length (pre ++ mid ++ rest)
                 = JS.length pre + JS.length mid + JS.length rest) by len_solve.
  rewrite Hlen.
  replace (Z.to_nat (Z.min (Z.max (JS.length pre) 0)
                       (JS.length pre + JS.length mid + JS.length rest)))
    with (List.length pre) by (unfold JS.length in *; lia).
  replace (Z.to_nat (Z.min (Z.max (JS.length pre + JS.length mid) 0)
                       (JS.length pre + JS.length mid + JS.length rest)))
    with (List.length pre + List.length mid)%nat by (unfold JS.length in *; lia).
  rewrite Nat.min_l, Nat.max_r by lia.
  rewrite skipn_app, skipn_all, Nat.sub_diag. cbn [app skipn].
  replace (List.length pre + List.length mid - List.length pre)%nat
    with (List.length mid + 0)%nat by lia.
  rewrite firstn_app_2. cbn [firstn]. apply app_nil_r.
Qed.

Lemma join_args_cons (arg : str) (args : list str) :
  arg <> [] -> join_args (arg :: args) <> [].
Proof.
  intros Hne. destruct arg as [|c arg]; [contradiction|].
  destruct args; discriminate.
Qed.

Lemma args_loop_all :
  forall (args : list str) (pre : str) (res : list str),
    args <> [] ->
    Forall (fun arg => argument 0 arg = true /\ arg <> []) args ->
    let s := pre ++ join_args args in
    fst (fst (for_loop (Z.to_nat (JS.length s - JS.length pre)) (JS.length pre)
      (JS.length s)
      (fun i st =>
         let '(res, startIndex, numBrackets) := st in
         let char := JS.charAt s i in
         if char_is char Symbols.BRACKET_OPEN then
           Continue (res, startIndex, numBrackets + 1)
         else if char_is char Symbols.BRACKET_CLOSE then
           let numBrackets := numBrackets - 1 in
           if (numBrackets =? 0) && (i =? JS.length s - 1) then
             Continue (res ++ [JS.substring s startIndex (i + 1)],
                       startIndex, numBrackets)
           else Continue (res, startIndex, numBrackets)
         else if (char_is char Symbols.ARG_SEPARATOR || (i =? JS.length s - 1))
                 && (numBrackets =? 0) then
           let endIndex := if i =? JS.length s - 1 then i + 1 else i in
           Continue (res ++ [JS.substring s startIndex endIndex],
                     i + 1, numBrackets)
         else Continue (res, startIndex, numBrackets))
      (res, JS.length pre, 0)))
    = res ++ args.
Proof.
  induction args as [|arg args IH]; intros pre res Hne Hall s; [contradiction|].
  apply Forall_cons_iff in Hall as [[Harg Hnonempty] Hall].
  destruct args as [|arg' args].
  - cbn [join_args] in s.
    pose proof (args_loop_last arg pre 0 _ res (JS.length pre) Harg Hnonempty eq_refl)
      as Hloop.
    cbv zeta in Hloop. fold s in Hloop. change (Z.of_nat 0) with 0 in Hloop.
    cbv zeta. rewrite Hloop. f_equal. f_equal.
    replace (JS.length s) with (JS.length pre + JS.length arg) by (subst s; len_solve).
    subst s. rewrite <- (app_nil_r arg) at 1. apply substring_middle.
  - assert (Hnext : join_args (arg' :: args) <> []).
    { apply join_args_cons. apply Forall_cons_iff in Hall. tauto. }
    set (rest := join_args (arg' :: args)) in *.
    assert (Hjoin : join_args (arg :: arg' :: args)
                    = arg ++ Symbols.ARG_SEPARATOR :: rest) by reflexivity.
    subst s. rewrite Hjoin.
    set (s := pre ++ arg ++ Symbols.ARG_SEPARATOR :: rest).
    pose proof (args_loop_middle rest arg pre 0 _ res (JS.length pre) Harg eq_refl)
      as Hloop.
    cbv zeta in Hloop. fold s in Hloop. change (Z.of_nat 0) with 0 in Hloop.
    cbv zeta. rewrite Hloop. clear Hloop.
    assert (Hlen : JS.length s = JS.length pre + JS.length arg + 1 + JS.length rest).
    { subst s. len_solve. }
    pose proof (length_nonneg pre) as Hp. pose proof (length_nonneg arg) as Ha.
    assert (Hr : 0 < JS.length rest).
    { destruct rest; [contradiction|]. rewrite length_cons.
      pose proof (length_nonneg rest). lia. }
    destruct (Z.to_nat (JS.length s - JS.length pre) - List.length arg)%nat
      as [|fuel] eqn:Ef; [unfold JS.length in *; lia|].
    cbn [for_loop].
    destruct (JS.length pre + JS.length arg <? JS.length s) eqn:E;
      [|apply Z.ltb_ge in E; lia].
    assert (Hc : JS.charAt s (JS.length pre + JS.length arg)
                 = Some Symbols.ARG_SEPARATOR).
    { subst s. rewrite app_assoc, <- length_append. apply charAt_app_head. }
    rewrite Hc.
    destruct (JS.length pre + JS.length arg =? JS.length s - 1) eqn:E1;
      [apply Z.eqb_eq in E1; lia|].
    cbn [char_is Ascii.eqb Bool.eqb Symbols.BRACKET_OPEN Symbols.BRACKET_CLOSE
         Symbols.ARG_SEPARATOR orb andb Z.eqb].
    assert (Hs : s = (pre ++ arg ++ [Symbols.ARG_SEPARATOR]) ++ rest).
    { subst s. now rewrite <- !app_assoc. }
    assert (Hpre : JS.length (pre ++ arg ++ [Symbols.ARG_SEPARATOR])
                   = JS.length pre + JS.length arg + 1) by len_solve.
    specialize (IH (pre ++ arg ++ [Symbols.ARG_SEPARATOR])
                  (res ++ [JS.substring s (JS.length pre)
                             (JS.length pre + JS.length arg)])
                  ltac:(discriminate) Hall).
    cbv zeta in IH. fold rest in IH. rewrite <- Hs, Hpre in IH.
    replace fuel
      with (Z.to_nat (JS.length s - (JS.length pre + JS.length arg + 1)))
      by (unfold JS.length in *; lia).
    rewrite IH. rewrite <- app_assoc. cbn [app]. f_equal. f_equal.
    subst s. apply substring_middle.
Qed.

Lemma getFunctionArgs_joined (args : list str) (argString : str) :
  Forall (fun arg => argument 0 arg = true /\ arg <> []) args ->
  JS.remove_all is_space argString = join_args args ->
  getFunctionArgs argString = args.
Proof.
  intros Hall Htrim. unfold getFunctionArgs, js_for. rewrite Htrim.
  destruct args as [|arg args]; [reflexivity|].
  pose proof (args_loop_all (arg :: args) [] [] ltac:(discriminate) Hall) as Hloop.
  cbv zeta in Hloop. cbn [app] in Hloop. change (JS.length []) with 0 in Hloop.
  revert Hloop. cbv zeta.
  match goal with |- context [for_loop ?f ?i ?n ?b ?st0] =>
    destruct (for_loop f i n b st0) as [[res start] numBrackets]
  end.
  cbn [fst]. trivial.
Qed.

(** X26. [getFunctionArgs] gives back the arguments that were put together:
    for arguments that are not empty, whose brackets match and whose
    separators all stand within brackets, the argument text made of them with
    a separator between each two, white space added anywhere, is split into
    these arguments; separators within the brackets of a nested call do not
    split. *)
Theorem getFunctionArgs_join (args : list str) (argString : str) :
  Forall (fun arg => argument 0 arg = true /\ arg <> []) args ->
  JS.remove_all is_space argString = join_args args ->
  getFunctionArgs argString = args.
Proof. apply getFunctionArgs_joined. Qed.

Lemma getFunctionArgs_join_example :
  Forall (fun arg => argument 0 arg = true /\ arg <> [])
    [lit "mul(2,3)"; lit "$a.b"; lit "'x'"] /\
  getFunctionArgs (lit "mul(2, 3), $a.b, 'x'") = [lit "mul(2,3)"; lit "$a.b"; lit "'x'"].
Proof.
  assert (H : Forall (fun arg => argument 0 arg = true /\ arg <> [])
                [lit "mul(2,3)"; lit "$a.b"; lit "'x'"]).
  { repeat constructor; discriminate. }
  split; [exact H|].
  exact (getFunctionArgs_join _ (lit "mul(2, 3), $a.b, 'x'") H eq_refl).
Defined.

(* ------------------------------------------------------------------ *)
(** ** Messages, once more *)

(** X27. [getFilteredTokenArray] keeps the tokens that start with the prefix,
    in their order and as often as they occur, and takes the prefix off: with
    the prefix put back they are those tokens. *)
Theorem getFilteredTokenArray_prefix (l : list str) (tokenPrefix : ascii) :
  map (cons tokenPrefix) (getFilteredTokenArray l tokenPrefix)
  = filter (fun token => JS.startsWith token [tokenPrefix]) l.
Proof.
  unfold getFilteredTokenArray. induction l as [|token l IH]; [reflexivity|].
  cbn [filter]. destruct (JS.startsWith token [tokenPrefix]) eqn:E; [|exact IH].
  cbn [map]. rewrite IH. f_equal.
  destruct (replace_prefix _ _ E) as [-> Htoken]. exact Htoken.
Qed.

Lemma for_ofF_defined {A St} (body : A -> St -> fueled St) :
  forall (xs : list A) (s : St),
    (forall x s, In x xs -> exists r, body x s = Some r) ->
    exists r, for_ofF xs body s = Some r.
Proof.
  induction xs as [|x xs IH]; intros s Hbody; cbn [for_ofF].
  - eexists. reflexivity.
  - destruct (Hbody x s (or_introl eq_refl)) as [[s'|e] ->]; cbn [bindF].
    + apply IH. intros y s0 Hy. apply Hbody. now right.
    + eexists. reflexivity.
Qed.

Lemma for_ofF_mono {A St} (body1 body2 : A -> St -> fueled St) :
  forall (xs : list A) (s : St) (r : completion St),
    (forall x s r, In x xs -> body1 x s = Some r -> body2 x s = Some r) ->
    for_ofF xs body1 s = Some r -> for_ofF xs body2 s = Some r.
Proof.
  induction xs as [|x xs IH]; intros s r Hbody H; cbn [for_ofF] in *; [exact H|].
  destruct (body1 x s) as [[s'|e]|] eqn:E; cbn [bindF] in H; [| |discriminate].
  - rewrite (Hbody x s _ (or_introl eq_refl) E). cbn [bindF].
    apply IH; [|exact H]. intros y s0 r0 Hy. apply Hbody. now right.
  - rewrite (Hbody x s _ (or_introl eq_refl) E). exact H.
Qed.

Lemma evaluateFunction_fuel_defined (customFunctions : list str)
    (parseFloat : str -> value) (model state : value)
    (functions : str -> option jsfunction) :
  forall fuel token,
    (List.length token < fuel)%nat ->
    exists r, evaluateFunction_fuel customFunctions parseFloat fuel token model state
                functions = Some r.
Proof.
  induction fuel as [|fuel IH]; intros token Hfuel; [lia|].
  destruct token as [|c token]; [eexists; reflexivity|].
  cbn [evaluateFunction_fuel].
  destruct (getSubstringWithinParentheses_returns (c :: token))
    as (inner & Hinner & Hshort).
  rewrite Hinner. specialize (Hshort ltac:(discriminate)). cbn [lift bindF].
  match goal with |- context [for_ofF ?xs ?body ?s0] =>
    assert (Hbody : forall x s, In x xs -> exists r, body x s = Some r);
    [|destruct (for_ofF_defined body xs s0 Hbody) as [[args|e] Hargs]; rewrite Hargs]
  end.
  - intros arg args Hin. apply getFunctionArgs_length in Hin.
    destruct (isStatementToken customFunctions arg).
    { destruct (call functions arg [model; state]); eexists; reflexivity. }
    destruct (isFunctionToken customFunctions arg).
    { destruct (IH arg) as [[v|e] Hv]; [lia| |]; rewrite Hv; eexists; reflexivity. }
    destruct (isModelVariable arg).
    { destruct (getObjectValue model _); eexists; reflexivity. }
    destruct (isStateVariable arg).
    { destruct (getObjectValue state _); eexists; reflexivity. }
    destruct (isString arg); [eexists; reflexivity|].
    destruct (isNumberString arg); eexists; reflexivity.
  - cbn [bindF lift]. eexists. reflexivity.
  - cbn [bindF]. eexists. reflexivity.
Qed.

Lemma evaluateFunction_fuel_mono (customFunctions : list str)
    (parseFloat : str -> value) (model state : value)
    (functions : str -> option jsfunction) :
  forall fuel token r,
    evaluateFunction_fuel customFunctions parseFloat fuel token model state functions
    = Some r ->
    evaluateFunction_fuel customFunctions parseFloat (S fuel) token model state functions
    = Some r.
Proof.
  induction fuel as [|fuel IH]; intros token r H; [discriminate|].
  remember (S fuel) as fuel1 eqn:Hfuel1.
  cbn [evaluateFunction_fuel]. subst fuel1. cbn [evaluateFunction_fuel] in H.
  destruct (getSubstringWithinParentheses token) as [inner|e]; [|exact H].
  cbn [lift bindF] in *.
  match type of H with bindF (for_ofF ?xs ?body1 ?s0) _ = _ =>
    destruct (for_ofF xs body1 s0) as [args|] eqn:E; [|discriminate];
    match goal with |- bindF (for_ofF _ ?body2 _) _ = _ =>
      rewrite (for_ofF_mono body1 body2 xs s0 args); [exact H| |exact E]
    end
  end.
  intros arg acc r0 _.
  destruct (isStatementToken customFunctions arg); [trivial|].
  destruct (isFunctionToken customFunctions arg); [|trivial].
  destruct (evaluateFunction_fuel customFunctions parseFloat fuel arg model state
              functions) as [v|] eqn:Ev; [|discriminate].
  now rewrite (IH _ _ Ev).
Qed.

(** X28. [evaluateFunction] ends on every token: the calls on the arguments
    that are function tokens go down to tokens that are shorter, so with as
    much fuel as the token has characters, and one more, the run is
    complete, and more fuel gives the same result. *)
Theorem evaluateFunction_terminates (customFunctions : list str)
    (parseFloat : str -> value) (token : str) (model state : value)
    (functions : str -> option jsfunction) :
  (exists r, evaluateFunction customFunctions parseFloat token model state functions
             = Some r) /\
  (forall fuel,
      (List.length token < fuel)%nat ->
      evaluateFunction_fuel customFunctions parseFloat fuel token model state functions
      = evaluateFunction customFunctions parseFloat token model state functions).
Proof.
  destruct (evaluateFunction_fuel_defined customFunctions parseFloat model state
              functions (S (List.length token)) token (Nat.lt_succ_diag_r _)) as [r Hr].
  split; [now exists r|].
  intros fuel Hfuel. unfold evaluateFunction. rewrite Hr.
  assert (Hle : (S (List.length token) <= fuel)%nat) by lia.
  induction Hle as [|fuel Hle IH]; [exact Hr|].
  apply evaluateFunction_fuel_mono. apply IH. lia.
Qed.

Lemma for_loopM_rule {St} (P : St -> Prop) (body : Z -> St -> completion (ctl St))
    (n : Z) :
  (forall j s, P s ->
               match body j s with
               | Return (Continue s') => P s'
               | Return (Break s') => P s'
               | Throw _ => True
               end) ->
  forall fuel i s, P s ->
                   match for_loopM fuel i n body s with
                   | Return s' => P s'
                   | Throw _ => True
                   end.
Proof.
  intros Hbody. induction fuel as [|fuel IH]; intros i s HP; cbn [for_loopM];
    [exact HP|].
  destruct (i <? n); [|exact HP].
  specialize (Hbody i s HP).
  destruct (body i s) as [[s'|s']|e]; [now apply IH|exact Hbody|exact I].
Qed.

Lemma firstn_In {A} (n : nat) (l : list A) (x : A) : In x (firstn n l) -> In x l.
Proof.
  intros H. rewrite <- (firstn_skipn n l). apply in_or_app. now left.
Qed.

Lemma skipn_In {A} (n : nat) (l : list A) (x : A) : In x (skipn n l) -> In x l.
Proof.
  intros H. rewrite <- (firstn_skipn n l). apply in_or_app. now right.
Qed.

Lemma substring_In (s : str) (a b : Z) (c : ascii) : In c (JS.substring s a b) -> In c s.
Proof. unfold JS.substring. intros H. now apply firstn_In, skipn_In in H. Qed.

(** The tokens [getMessageTokens] cuts in its first loop are pieces of the
    message. *)
Lemma message_tokens_pieces (srcString : str) (raw : list str * Z) :
  js_forM 0 (JS.length srcString - 1)
    (fun i st =>
       let '(res, tokenStart) := st in
       let char := JS.charAt srcString i in
       let nextChar := JS.charAt srcString (i + 1) in
       tokenStart <-
         (if char_matches is_space char && char_matches is_not_space nextChar then
            within <- isCharWithinFunction srcString i ;;
            Return (if negb within then i + 1 else tokenStart)
          else Return tokenStart) ;;
       res <-
         (if char_matches is_not_space char && char_matches is_space nextChar then
            within <- isCharWithinFunction srcString i ;;
            Return (if negb within
                    then res ++ [JS.substring srcString tokenStart (i + 1)]
                    else res)
          else Return res) ;;
       let res :=
         if i =? JS.length srcString - 2
         then res ++ [JS.substring srcString tokenStart (i + 2)]
         else res in
       Return (Continue (res, tokenStart)))
    ([], 0) = Return raw ->
  Forall (fun token => forall c, In c token -> In c srcString) (fst raw).
Proof.
  unfold js_forM. intros H.
  match type of H with for_loopM ?fuel ?i ?n ?body ?s0 = _ =>
    pose proof (for_loopM_rule
                  (fun st : list str * Z =>
                     Forall (fun token => forall c, In c token -> In c srcString)
                       (fst st))
                  body n) as Hrule
  end.
  match type of Hrule with ?A -> _ => assert (Hbody : A); [|specialize (Hrule Hbody)] end.
  - intros j [res tokenStart] Hres. cbn [fst] in Hres.
    assert (Hpush : forall a b,
               Forall (fun token => forall c, In c token -> In c srcString)
                 (res ++ [JS.substring srcString a b])).
    { intros a b. apply Forall_app. split; [exact Hres|].
      constructor; [|constructor]. intros c. apply substring_In. }
    cbv zeta.
    destruct (isCharWithinFunction srcString j) as [within|e];
      destruct (char_matches is_space (JS.charAt srcString j) &&
                char_matches is_not_space (JS.charAt srcString (j + 1)));
      destruct (char_matches is_not_space (JS.charAt srcString j) &&
                char_matches is_space (JS.charAt srcString (j + 1)));
      cbn [bind]; try exact I;
      repeat match goal with
             | |- context [if ?b then _ else _] => destruct b
             end; cbn [fst];
      repeat (apply Forall_app; split;
              [|constructor; [intros c; apply substring_In|constructor]]);
      exact Hres.
  - specialize (Hrule (Z.to_nat (JS.length srcString - 1 - 0)) 0 ([], 0)
                  (Forall_nil _)).
    now rewrite H in Hrule.
Qed.

Lemma cutRemainder_In (s : str) (re : ascii -> bool) (c : ascii) :
  In c (cutRemainderUntilCharMatches s re) -> In c s.
Proof.
  unfold cutRemainderUntilCharMatches.
  match goal with |- context [while_loop ?f ?cond ?body ?s0] =>
    destruct (while_loop f cond body s0) as [endIndex ch]
  end.
  apply substring_In.
Qed.

Lemma cutFront_In (s : str) (re : ascii -> bool) (c : ascii) :
  In c (cutFrontUntilCharMatches s re) -> In c s.
Proof.
  unfold cutFrontUntilCharMatches.
  match goal with |- context [while_loop ?f ?cond ?body ?s0] =>
    destruct (while_loop f cond body s0) as [startIndex ch]
  end.
  unfold JS.substring_from. apply skipn_In.
Qed.

(** Every token of a message is made of characters of the message. *)
Lemma getMessageTokens_pieces (customFunctions : list str) (srcString : str)
    (l : list str) :
  getMessageTokens customFunctions srcString = Return l ->
  Forall (fun token => forall c, In c token -> In c srcString) l.
Proof.
  unfold getMessageTokens. intros H.
  match type of H with bind ?loop _ = _ => destruct loop as [raw|e] eqn:E end;
    cbn [bind] in H; [|discriminate].
  injection H as <-. apply message_tokens_pieces in E.
  apply Forall_map. revert E. apply Forall_impl. intros token Htoken.
  repeat match goal with
         | |- context [if ?b then _ else _] => destruct b
         end; intros c Hc; apply Htoken;
    repeat (apply cutFront_In in Hc || apply cutRemainder_In in Hc); exact Hc.
Qed.

Lemma isCharWithinFunction_no_bracket (srcString : str) (charIndex : Z) :
  none_of (is_char "("%char) srcString = true ->
  isCharWithinFunction srcString charIndex = Return false.
Proof.
  intros Hnone. unfold isCharWithinFunction.
  rewrite (findAllIndicesOf_none _ _ Hnone). cbn [for_of].
  now destruct ((charIndex =? 0) || (charIndex =? JS.length srcString - 1) ||
                char_is (JS.charAt srcString charIndex) "("%char ||
                char_is (JS.charAt srcString charIndex) ")"%char).
Qed.

(** Without an opening bracket in the message, [getMessageTokens] does not
    throw. *)
Lemma getMessageTokens_no_bracket (customFunctions : list str) (srcString : str) :
  none_of (is_char "("%char) srcString = true ->
  exists l, getMessageTokens customFunctions srcString = Return l.
Proof.
  intros Hnone. unfold getMessageTokens, js_forM.
  match goal with |- context [for_loopM ?fuel ?i ?n ?body ?s0] =>
    destruct (for_loopM_invariant (fun _ : list str * Z => True) body n fuel i s0 I)
      as (raw & -> & _)
  end.
  - intros j [res tokenStart] _ _. cbv zeta.
    rewrite (isCharWithinFunction_no_bracket _ _ Hnone).
    now destruct (char_matches is_space (JS.charAt srcString j) &&
                  char_matches is_not_space (JS.charAt srcString (j + 1)));
      destruct (char_matches is_not_space (JS.charAt srcString j) &&
                char_matches is_space (JS.charAt srcString (j + 1))).
  - cbn [bind]. eexists. reflexivity.
Qed.

Lemma startsWith_char (token : str) (c : ascii) :
  JS.startsWith token [c] = true -> In c token.
Proof.
  destruct token as [|d token]; cbn [JS.startsWith]; [discriminate|].
  rewrite andb_true_r. intros H. apply Ascii.eqb_eq in H. subst d. now left.
Qed.

Lemma none_of_not_In (c : ascii) (s : str) :
  none_of (is_char c) s = true -> ~ In c s.
Proof.
  intros Hnone Hin. apply (none_of_In _ _ _ Hnone) in Hin.
  unfold is_char in Hin. now rewrite Ascii.eqb_refl in Hin.
Qed.

Lemma not_In_none_of (c : ascii) (s : str) :
  ~ In c s -> none_of (is_char c) s = true.
Proof.
  intros Hnot. unfold none_of. apply forallb_forall. intros x Hx.
  unfold is_char. destruct (Ascii.eqb x c) eqn:E; [|reflexivity].
  apply Ascii.eqb_eq in E. subst x. contradiction.
Qed.

(** X29. A message without a model prefix and a state prefix is rendered as
    it is by an instance without registered functions, whatever the model and
    the state are: this holds whenever its tokens can be cut, and they can
    when it holds no opening bracket. *)
Theorem getMessage_plain (parseFloat : str -> value) (msgString : str)
    (model state : value) (functions : str -> option jsfunction) :
  none_of (is_char Symbols.MODEL_PREFIX) msgString = true ->
  none_of (is_char Symbols.STATE_PREFIX) msgString = true ->
  (forall l, getMessageTokens [] msgString = Return l ->
             getMessage [] parseFloat msgString model state functions = ret msgString) /\
  (none_of (is_char "("%char) msgString = true ->
   getMessage [] parseFloat msgString model state functions = ret msgString).
Proof.
  intros Hmodel Hstate.
  assert (H : forall l, getMessageTokens [] msgString = Return l ->
                        getMessage [] parseFloat msgString model state functions
                        = ret msgString).
  { intros l Hl. pose proof (getMessageTokens_pieces _ _ _ Hl) as Hpieces.
    unfold getMessage. rewrite Hl. cbn [lift bindF].
    assert (Hfilter : forall prefix,
               none_of (is_char prefix) msgString = true ->
               getFilteredTokenArray l prefix = []).
    { intros prefix Hnone. unfold getFilteredTokenArray.
      replace (filter (fun token => JS.startsWith token [prefix]) l) with (@nil str);
        [reflexivity|].
      symmetry. clear Hl. induction Hpieces as [|token l Htoken _ IH]; [reflexivity|].
      cbn [filter]. destruct (JS.startsWith token [prefix]) eqn:E; [|exact IH].
      apply startsWith_char, Htoken in E. now apply none_of_not_In in Hnone. }
    rewrite (Hfilter _ Hmodel), (Hfilter _ Hstate). cbn [for_ofF bindF ret].
    clear. induction l as [|token l IH]; [reflexivity|]. cbn [for_ofF bindF ret].
    exact IH. }
  split; [exact H|].
  intros Hnone. destruct (getMessageTokens_no_bracket [] _ Hnone) as [l Hl].
  now apply (H l).
Qed.

Lemma getMessage_plain_example :
  none_of (is_char Symbols.MODEL_PREFIX) (lit "no value given, none at all") = true /\
  none_of (is_char Symbols.STATE_PREFIX) (lit "no value given, none at all") = true /\
  none_of (is_char "("%char) (lit "no value given, none at all") = true /\
  getMessage [] (fun _ => VUndef) (lit "no value given, none at all")
    (model_a_b 5) VUndef no_functions
  = ret (lit "no value given, none at all").
Proof.
  do 3 (split; [reflexivity|]).
  exact (proj2 (getMessage_plain (fun _ => VUndef) (lit "no value given, none at all")
                  (model_a_b 5) VUndef no_functions eq_refl eq_refl) eq_refl).
Defined.

(* ------------------------------------------------------------------ *)
(** ** The words of a message *)

(** The first loop of [getMessageTokens] over a word that white space
    follows, in a message without an opening bracket. *)
Lemma words_loop_middle (sp : ascii) (rest : str) :
  is_space sp = true -> rest <> [] ->
  forall (w pre : str) (fuel : nat) (res : list str) (start : Z),
    w <> [] ->
    none_of is_space w = true ->
    let s := pre ++ w ++ sp :: rest in
    none_of (is_char "("%char) s = true ->
    fuel = Z.to_nat (JS.length s - 1 - JS.length pre) ->
    for_loopM fuel (JS.length pre) (JS.length s - 1)
      (fun i st =>
         let '(res, tokenStart) := st in
         let char := JS.charAt s i in
         let nextChar := JS.charAt s (i + 1) in
         tokenStart <-
           (if char_matches is_space char && char_matches is_not_space nextChar then
              within <- isCharWithinFunction s i ;;
              Return (if negb within then i + 1 else tokenStart)
            else Return tokenStart) ;;
         res <-
           (if char_matches is_not_space char && char_matches is_space nextChar then
              within <- isCharWithinFunction s i ;;
              Return (if negb within
                      then res ++ [JS.substring s tokenStart (i + 1)]
                      else res)
            else Return res) ;;
         let res :=
           if i =? JS.length s - 2
           then res ++ [JS.substring s tokenStart (i + 2)]
           else res in
         Return (Continue (res, tokenStart)))
      (res, start)
    = for_loopM (fuel - List.length w) (JS.length pre + JS.length w) (JS.length s - 1)
      (fun i st =>
         let '(res, tokenStart) := st in
         let char := JS.charAt s i in
         let nextChar := JS.charAt s (i + 1) in
         tokenStart <-
           (if char_matches is_space char && char_matches is_not_space nextChar then
              within <- isCharWithinFunction s i ;;
              Return (if negb within then i + 1 else tokenStart)
            else Return tokenStart) ;;
         res <-
           (if char_matches is_not_space char && char_matches is_space nextChar then
              within <- isCharWithinFunction s i ;;
              Return (if negb within
                      then res ++ [JS.substring s tokenStart (i + 1)]
                      else res)
            else Return res) ;;
         let res :=
           if i =? JS.length s - 2
           then res ++ [JS.substring s tokenStart (i + 2)]
           else res in
         Return (Continue (res, tokenStart)))
      (res ++ [JS.substring s start (JS.length pre + JS.length w)], start).
Proof.
  intros Hsp Hrest.
  assert (Hr : 0 < JS.length rest).
  { destruct rest; [contradiction|]. rewrite length_cons.
    pose proof (length_nonneg rest). lia. }
  induction w as [|c w IH]; intros pre fuel res start Hne Hw s Hnone Hfuel;
    [contradiction|].
  cbn [none_of forallb] in Hw. apply andb_true_iff in Hw as [Hc Hw].
  apply negb_true_iff in Hc.
  assert (Hs : s = (pre ++ [c]) ++ w ++ sp :: rest).
  { subst s. now rewrite <- app_assoc. }
  assert (Hpre : JS.length (pre ++ [c]) = JS.length pre + 1) by apply length_append.
  assert (Hlen : JS.length s = JS.length pre + 1 + JS.length w + 1 + JS.length rest).
  { subst s. len_solve. }
  pose proof (length_nonneg w) as Hlw. pose proof (length_nonneg pre) as Hlp.
  destruct fuel as [|fuel]; [lia|]. cbn [for_loopM].
  destruct (JS.length pre <? JS.length s - 1) eqn:E; [|apply Z.ltb_ge in E; lia].
  assert (Hch : JS.charAt s (JS.length pre) = Some c).
  { subst s. apply charAt_app_head. }
  rewrite Hch. cbn [char_matches]. unfold is_not_space at 2. rewrite Hc.
  cbn [andb negb bind].
  destruct (JS.length pre =? JS.length s - 2) eqn:E2; [apply Z.eqb_eq in E2; lia|].
  rewrite length_cons. cbn [List.length].
  replace (S fuel - S (List.length w))%nat with (fuel - List.length w)%nat by lia.
  replace (JS.length pre + (1 + JS.length w)) with (JS.length pre + 1 + JS.length w)
    by lia.
  destruct w as [|c' w].
  - assert (Hnext : JS.charAt s (JS.length pre + 1) = Some sp).
    { rewrite <- Hpre, Hs. apply (charAt_app_head (pre ++ [c]) rest sp). }
    rewrite Hnext. cbn [char_matches]. rewrite Hsp.
    rewrite (isCharWithinFunction_no_bracket _ _ Hnone). cbn [bind negb].
    change (JS.length []) with 0. rewrite Z.add_0_r, Nat.sub_0_r. reflexivity.
  - cbn [none_of forallb] in Hw. pose proof Hw as Hw'.
    apply andb_true_iff in Hw' as [Hc' _]. apply negb_true_iff in Hc'.
    assert (Hnext : JS.charAt s (JS.length pre + 1) = Some c').
    { rewrite <- Hpre, Hs. apply (charAt_app_head (pre ++ [c])). }
    rewrite Hnext. cbn [char_matches]. rewrite Hc'. cbn [bind].
    specialize (IH (pre ++ [c]) fuel res start ltac:(discriminate) Hw).
    cbv zeta in IH. rewrite <- Hs, Hpre in IH. apply IH; [exact Hnone|lia].
Qed.

(** The first loop of [getMessageTokens] over the last word, of two
    characters at least. *)
Lemma words_loop_last :
  forall (w pre : str) (c : ascii) (fuel : nat) (res : list str) (start : Z),
    w <> [] ->
    none_of is_space (c :: w) = true ->
    let s := pre ++ c :: w in
    none_of (is_char "("%char) s = true ->
    fuel = Z.to_nat (JS.length s - 1 - JS.length pre) ->
    for_loopM fuel (JS.length pre) (JS.length s - 1)
      (fun i st =>
         let '(res, tokenStart) := st in
         let char := JS.charAt s i in
         let nextChar := JS.charAt s (i + 1) in
         tokenStart <-
           (if char_matches is_space char && char_matches is_not_space nextChar then
              within <- isCharWithinFunction s i ;;
              Return (if negb within then i + 1 else tokenStart)
            else Return tokenStart) ;;
         res <-
           (if char_matches is_not_space char && char_matches is_space nextChar then
              within <- isCharWithinFunction s i ;;
              Return (if negb within
                      then res ++ [JS.substring s tokenStart (i + 1)]
                      else res)
            else Return res) ;;
         let res :=
           if i =? JS.length s - 2
           then res ++ [JS.substring s tokenStart (i + 2)]
           else res in
         Return (Continue (res, tokenStart)))
      (res, start)
    = Return (res ++ [JS.substring s start (JS.length s)], start).
Proof.
  induction w as [|c' w IH]; intros pre c fuel res start Hne Hw s Hnone Hfuel;
    [contradiction|].
  cbn [none_of forallb] in Hw. apply andb_true_iff in Hw as [Hc Hw].
  apply negb_true_iff in Hc. pose proof Hw as Hw'.
  apply andb_true_iff in Hw' as [Hc' _]. apply negb_true_iff in Hc'.
  assert (Hs : s = (pre ++ [c]) ++ c' :: w).
  { subst s. now rewrite <- app_assoc. }
  assert (Hpre : JS.length (pre ++ [c]) = JS.length pre + 1) by apply length_append.
  assert (Hlen : JS.length s = JS.length pre + 1 + 1 + JS.length w).
  { subst s. len_solve. }
  pose proof (length_nonneg w) as Hlw. pose proof (length_nonneg pre) as Hlp.
  destruct fuel as [|fuel]; [lia|]. cbn [for_loopM].
  destruct (JS.length pre <? JS.length s - 1) eqn:E; [|apply Z.ltb_ge in E; lia].
  assert (Hch : JS.charAt s (JS.length pre) = Some c).
  { subst s. apply charAt_app_head. }
  assert (Hnext : JS.charAt s (JS.length pre + 1) = Some c').
  { rewrite <- Hpre, Hs. apply (charAt_app_head (pre ++ [c])). }
  rewrite Hch, Hnext. cbn [char_matches]. unfold is_not_space at 2. rewrite Hc, Hc'.
  cbn [andb negb bind].
  destruct w as [|c'' w].
  - assert (E2 : (JS.length pre =? JS.length s - 2) = true).
    { apply Z.eqb_eq. change (JS.length []) with 0 in Hlen. lia. }
    rewrite E2. replace fuel with O by (change (JS.length []) with 0 in Hlen; lia).
    cbn [for_loopM].
    replace (JS.length pre + 2) with (JS.length s)
      by (change (JS.length []) with 0 in Hlen; lia).
    reflexivity.
  - assert (E2 : (JS.length pre =? JS.length s - 2) = false).
    { apply Z.eqb_neq. rewrite length_cons in Hlen. pose proof (length_nonneg w). lia. }
    rewrite E2.
    specialize (IH (pre ++ [c]) c' fuel res start ltac:(discriminate) Hw).
    cbv zeta in IH. rewrite <- Hs, Hpre in IH. apply IH; [exact Hnone|lia].
Qed.

Lemma join_words_cons (word : str) (words : list str) :
  word <> [] -> join_words (word :: words) <> [].
Proof.
  intros Hne. destruct word as [|c word]; [contradiction|].
  destruct words; discriminate.
Qed.

Lemma words_loop_all :
  forall (words : list str) (pre : str) (res : list str),
    words <> [] ->
    Forall (fun word => word <> [] /\ none_of is_space word = true) words ->
    (forall word, words = [word] -> (2 <= List.length word)%nat) ->
    let s := pre ++ join_words words in
    none_of (is_char "("%char) s = true ->
    exists start,
      for_loopM (Z.to_nat (JS.length s - 1 - JS.length pre)) (JS.length pre)
        (JS.length s - 1)
        (fun i st =>
           let '(res, tokenStart) := st in
           let char := JS.charAt s i in
           let nextChar := JS.charAt s (i + 1) in
           tokenStart <-
             (if char_matches is_space char && char_matches is_not_space nextChar then
                within <- isCharWithinFunction s i ;;
                Return (if negb within then i + 1 else tokenStart)
              else Return tokenStart) ;;
           res <-
             (if char_matches is_not_space char && char_matches is_space nextChar then
                within <- isCharWithinFunction s i ;;
                Return (if negb within
                        then res ++ [JS.substring s tokenStart (i + 1)]
                        else res)
              else Return res) ;;
           let res :=
             if i =? JS.length s - 2
             then res ++ [JS.substring s tokenStart (i + 2)]
             else res in
           Return (Continue (res, tokenStart)))
        (res, JS.length pre)
      = Return (res ++ words, start).
Proof.
  induction words as [|w words IH]; intros pre res Hne Hall Hlast s Hnone;
    [contradiction|].
  apply Forall_cons_iff in Hall as [[Hw Hwsp] Hall].
  destruct words as [|w' words].
  - cbn [join_words] in s. specialize (Hlast w eq_refl).
    destruct w as [|c [|c' w]]; cbn [List.length] in Hlast; try lia.
    exists (JS.length pre).
    pose proof (words_loop_last (c' :: w) pre c _ res (JS.length pre)
                  ltac:(discriminate) Hwsp Hnone eq_refl) as Hloop.
    cbv zeta in Hloop. fold s in Hloop. cbv zeta. rewrite Hloop. do 4 f_equal.
    replace (JS.length s) with (JS.length pre + JS.length (c :: c' :: w))
      by (subst s; len_solve).
    subst s. rewrite <- (app_nil_r (c :: c' :: w)) at 1. apply substring_middle.
  - assert (Hw' : w' <> [] /\ none_of is_space w' = true).
    { apply Forall_cons_iff in Hall. tauto. }
    destruct Hw' as [Hw'ne Hw'sp].
    assert (Hnext : join_words (w' :: words) <> []) by now apply join_words_cons.
    set (rest := join_words (w' :: words)) in *.
    assert (Hjoin : join_words (w :: w' :: words) = w ++ " "%char :: rest)
      by reflexivity.
    subst s. rewrite Hjoin in *.
    set (s := pre ++ w ++ " "%char :: rest) in *.
    pose proof (words_loop_middle " "%char rest eq_refl Hnext w pre _ res (JS.length pre)
                  Hw Hwsp Hnone eq_refl) as Hloop.
    cbv zeta in Hloop. fold s in Hloop. cbv zeta. rewrite Hloop. clear Hloop.
    assert (Hlen : JS.length s = JS.length pre + JS.length w + 1 + JS.length rest).
    { subst s. len_solve. }
    pose proof (length_nonneg pre) as Hp. pose proof (length_nonneg w) as Ha.
    assert (Hr : 0 < JS.length rest).
    { destruct rest; [contradiction|]. rewrite length_cons.
      pose proof (length_nonneg rest). lia. }
    assert (Hsub : JS.substring s (JS.length pre) (JS.length pre + JS.length w) = w).
    { subst s. apply substring_middle. }
    rewrite Hsub.
    destruct (Z.to_nat (JS.length s - 1 - JS.length pre) - List.length w)%nat
      as [|fuel] eqn:Ef; [unfold JS.length in *; lia|].
    cbn [for_loopM].
    destruct (JS.length pre + JS.length w <? JS.length s - 1) eqn:E;
      [|apply Z.ltb_ge in E; lia].
    assert (Hc : JS.charAt s (JS.length pre + JS.length w) = Some " "%char).
    { subst s. rewrite app_assoc, <- length_append. apply charAt_app_head. }
    assert (Hs : s = (pre ++ w ++ [" "%char]) ++ rest).
    { subst s. now rewrite <- !app_assoc. }
    assert (Hpre : JS.length (pre ++ w ++ [" "%char])
                   = JS.length pre + JS.length w + 1) by len_solve.
    destruct w' as [|d w']; [contradiction|].
    assert (Hd : is_space d = false).
    { cbn [none_of forallb] in Hw'sp. apply andb_true_iff in Hw'sp as [Hd _].
      now apply negb_true_iff in Hd. }
    assert (Hrest : exists tail, rest = d :: tail).
    { subst rest. destruct words; eexists; reflexivity. }
    destruct Hrest as [tail Htail].
    assert (Hc1 : JS.charAt s (JS.length pre + JS.length w + 1) = Some d).
    { rewrite <- Hpre, Hs, Htail. apply charAt_app_head. }
    rewrite Hc, Hc1. cbn [char_matches]. unfold is_not_space at 1 2. rewrite Hd.
    replace (is_space " "%char) with true by reflexivity.
    cbn [andb negb bind].
    rewrite (isCharWithinFunction_no_bracket _ _ Hnone). cbn [bind negb].
    destruct (JS.length pre + JS.length w =? JS.length s - 2) eqn:E2.
    + (* the last word is one character long *)
      apply Z.eqb_eq in E2.
      assert (Htail_nil : tail = []).
      { destruct tail; [reflexivity|]. rewrite Htail, !length_cons in Hlen.
        pose proof (length_nonneg tail). lia. }
      subst tail.
      assert (Hwords : words = [] /\ w' = []).
      { subst rest. destruct words as [|w'' words]; cbn [join_words] in Htail.
        - injection Htail as ->. now split.
        - destruct w'; discriminate Htail. }
      destruct Hwords as [-> ->].
      replace fuel with O by (unfold JS.length in *; lia). cbn [for_loopM].
      exists (JS.length pre + JS.length w + 1). f_equal. f_equal.
      rewrite <- app_assoc. cbn [app]. do 2 f_equal.
      replace (JS.length pre + JS.length w + 2)
        with (JS.length (pre ++ w ++ [" "%char]) + JS.length [d]) by len_solve.
      rewrite <- Hpre, Hs, Htail. rewrite <- (app_nil_r [d]) at 1.
      f_equal. apply substring_middle.
    + apply Z.eqb_neq in E2.
      specialize (IH (pre ++ w ++ [" "%char]) (res ++ [w]) ltac:(discriminate) Hall).
      cbv zeta in IH. fold rest in IH. rewrite <- Hs, Hpre in IH.
      destruct IH as [start Hstart].
      * intros word Hword. injection Hword as <- ->.
        subst rest. cbn [join_words] in Htail, Hlen. injection Htail as <-.
        rewrite length_cons in Hlen. cbn [List.length].
        destruct w'; [|cbn [List.length]; lia].
        change (JS.length []) with 0 in Hlen. lia.
      * exact Hnone.
      * exists start.
        replace fuel
          with (Z.to_nat (JS.length s - 1 - (JS.length pre + JS.length w + 1)))
          by (unfold JS.length in *; lia).
        rewrite Hstart. now rewrite <- app_assoc.
Qed.

Lemma join_words_none_of (class : ascii -> bool) (words : list str) :
  class " "%char = false ->
  Forall (fun word => none_of class word = true) words ->
  none_of class (join_words words) = true.
Proof.
  intros Hsp. induction 1 as [|word words Hword _ IH]; [reflexivity|].
  destruct words as [|word' words]; [exact Hword|].
  change (join_words (word :: word' :: words))
    with (word ++ " "%char :: join_words (word' :: words)).
  rewrite none_of_app, Hword. cbn [none_of forallb andb]. rewrite Hsp. exact IH.
Qed.

(** X30. [getMessageTokens] on words with one space between each two of them,
    the words holding no white space and no opening bracket and the message
    being two characters long at least: the tokens are the words, each cut
    down by the second loop. A message of one character, or of none, has no
    token at all. *)
Theorem getMessageTokens_words (customFunctions : list str) :
  (forall words,
      Forall (fun word => word <> [] /\ none_of is_space word = true /\
                          none_of (is_char "("%char) word = true) words ->
      (2 <= List.length (join_words words))%nat ->
      getMessageTokens customFunctions (join_words words)
      = Return (map (cut_token customFunctions) words)) /\
  (forall srcString,
      (List.length srcString <= 1)%nat ->
      getMessageTokens customFunctions srcString = Return []).
Proof.
  split.
  - intros words Hall Hlen.
    assert (Hne : words <> []).
    { intros ->. cbn in Hlen. lia. }
    assert (Hnone : none_of (is_char "("%char) (join_words words) = true).
    { apply join_words_none_of; [reflexivity|].
      revert Hall. apply Forall_impl. tauto. }
    destruct (words_loop_all words [] [] Hne) as [start Hloop].
    + revert Hall. apply Forall_impl. tauto.
    + intros word ->. exact Hlen.
    + exact Hnone.
    + cbv zeta in Hloop. cbn [app] in Hloop. change (JS.length []) with 0 in Hloop.
      unfold getMessageTokens, js_forM. cbv zeta. rewrite Hloop. reflexivity.
  - intros srcString Hlen. destruct srcString as [|c [|c' srcString]];
      [reflexivity|reflexivity|cbn [List.length] in Hlen; lia].
Qed.

Lemma getMessageTokens_words_example :
  Forall (fun word => word <> [] /\ none_of is_space word = true /\
                      none_of (is_char "("%char) word = true)
    [lit "value"; lit "is"; lit "$a.b,"; lit "and"; lit "#c!"] /\
  getMessageTokens [] (lit "value is $a.b, and #c!")
  = Return [lit "value"; lit "is"; lit "$a.b"; lit "and"; lit "#c"].
Proof.
  assert (H : Forall (fun word => word <> [] /\ none_of is_space word = true /\
                                  none_of (is_char "("%char) word = true)
                [lit "value"; lit "is"; lit "$a.b,"; lit "and"; lit "#c!"]).
  { repeat constructor; discriminate. }
  split; [exact H|].
  exact (proj1 (getMessageTokens_words []) _ H ltac:(cbn; lia)).
Defined.

(* ------------------------------------------------------------------ *)
(** ** The symbols of references and calls *)

Lemma for_loopF_mono {St} (body1 body2 : Z -> St -> fueled St) (n : Z) :
  (forall j s r, body1 j s = Some r -> body2 j s = Some r) ->
  forall rounds i s r,
    for_loopF rounds i n body1 s = Some r -> for_loopF rounds i n body2 s = Some r.
Proof.
  intros Hbody. induction rounds as [|rounds IH]; intros i s r H;
    cbn [for_loopF] in *; [exact H|].
  destruct (i <? n); [|exact H].
  destruct (body1 i s) as [[s'|e]|] eqn:E; cbn [bindF] in H; [| |discriminate].
  - rewrite (Hbody _ _ _ E). cbn [bindF]. now apply IH.
  - rewrite (Hbody _ _ _ E). exact H.
Qed.

Lemma getSymbolForToken_fuel_mono (customFunctions : list str) :
  forall fuel token r,
    getSymbolForToken_fuel customFunctions fuel token = Some r ->
    getSymbolForToken_fuel customFunctions (S fuel) token = Some r.
Proof.
  induction fuel as [|fuel IH]; intros token r H; [discriminate|].
  remember (S fuel) as fuel1 eqn:Hfuel1.
  cbn [getSymbolForToken_fuel]. subst fuel1. cbn [getSymbolForToken_fuel] in H.
  destruct (isModelVariable token); [exact H|].
  destruct (isStateVariable token); [exact H|].
  destruct (isStatementToken customFunctions token); [exact H|].
  destruct (isFunctionToken customFunctions token); [|exact H].
  unfold parseFunctionToken_with in *.
  destruct (getSubstringWithinParentheses token) as [inner|e]; [|exact H].
  cbn [lift bindF] in *. unfold js_forF in *.
  match type of H with bindF (for_loopF ?rounds ?i ?n ?body1 ?s0) _ = _ =>
    destruct (for_loopF rounds i n body1 s0) as [argSymbols|] eqn:E; [|discriminate];
    match goal with |- bindF (for_loopF _ _ _ ?body2 _) _ = _ =>
      assert (Hb : forall j s r, body1 j s = Some r -> body2 j s = Some r);
      [|rewrite (for_loopF_mono body1 body2 n Hb _ _ _ _ E); exact H]
    end
  end.
  intros j acc r0.
  destruct (getSymbolForToken_fuel customFunctions fuel
              (nth (Z.to_nat j) (getFunctionArgs inner) [])) as [v|] eqn:Ev;
    [|discriminate].
  now rewrite (IH _ _ Ev).
Qed.

Lemma getSymbolForToken_fuel_symbol_of (customFunctions : list str) (token : str) :
  forall fuel,
    (List.length token < fuel)%nat ->
    getSymbolForToken_fuel customFunctions fuel token
    = ret (symbol_of customFunctions token).
Proof.
  intros fuel Hfuel.
  assert (Hle : (S (List.length token) <= fuel)%nat) by lia.
  induction Hle as [|fuel Hle IH].
  - apply getSymbolForToken_symbol_of.
  - apply getSymbolForToken_fuel_mono. apply IH. lia.
Qed.

(** The loop of [parseFunctionToken] puts the symbols of the arguments one
    behind the other, with a separator between each two. *)
Lemma parse_arguments_loop (customFunctions : list str) (fuel : nat) (args : list str) :
  Forall (fun arg => (List.length arg < fuel)%nat) args ->
  forall (todo seen : list str) (argSymbols : str),
    args = seen ++ todo ->
    for_loopF (List.length todo) (Z.of_nat (List.length seen))
      (Z.of_nat (List.length args))
      (fun i argSymbols =>
         let arg := nth (Z.to_nat i) args [] in
         symbol <-- getSymbolForToken_fuel customFunctions fuel arg ;;
         let argSymbols := argSymbols ++ symbol in
         if i <? Z.of_nat (List.length args) - 1 then ret (argSymbols ++ lit ",")
         else ret argSymbols)
      argSymbols
    = ret (argSymbols ++ join_args (map (symbol_of customFunctions) todo)).
Proof.
  intros Hshort. induction todo as [|arg todo IH]; intros seen argSymbols Hargs.
  - cbn. now rewrite app_nil_r.
  - cbn [List.length for_loopF].
    assert (Hlen : List.length args = (List.length seen + S (List.length todo))%nat).
    { rewrite Hargs, List.length_app. reflexivity. }
    destruct (Z.of_nat (List.length seen) <? Z.of_nat (List.length args)) eqn:E;
      [|apply Z.ltb_ge in E; lia].
    rewrite Nat2Z.id.
    assert (Hnth : nth (List.length seen) args [] = arg).
    { rewrite Hargs, app_nth2, Nat.sub_diag by lia. reflexivity. }
    cbv zeta. rewrite Hnth.
    rewrite getSymbolForToken_fuel_symbol_of.
    2:{ rewrite Forall_forall in Hshort. apply Hshort. rewrite Hargs.
        apply in_or_app. right. now left. }
    cbn [bindF ret].
    specialize (IH (seen ++ [arg])).
    rewrite List.length_app in IH. cbn [List.length] in IH.
    replace (Z.of_nat (List.length seen) + 1)
      with (Z.of_nat (List.length seen + 1)) by lia.
    destruct todo as [|arg' todo].
    + destruct (Z.of_nat (List.length seen) <? Z.of_nat (List.length args) - 1) eqn:E1;
        [apply Z.ltb_lt in E1; cbn [List.length] in Hlen; lia|].
      cbn [bindF ret for_loopF map join_args]. reflexivity.
    + destruct (Z.of_nat (List.length seen) <? Z.of_nat (List.length args) - 1) eqn:E1;
        [|apply Z.ltb_ge in E1; cbn [List.length] in Hlen; lia].
      cbn [bindF ret]. rewrite IH by (now rewrite <- app_assoc).
      change (map (symbol_of customFunctions) (arg :: arg' :: todo))
        with (symbol_of customFunctions arg
                :: map (symbol_of customFunctions) (arg' :: todo)).
      change (join_args (symbol_of customFunctions arg
                           :: map (symbol_of customFunctions) (arg' :: todo)))
        with (symbol_of customFunctions arg ++ Symbols.ARG_SEPARATOR
                :: join_args (map (symbol_of customFunctions) (arg' :: todo))).
      now rewrite <- !app_assoc.
Qed.

(** The symbol of a call. *)
Lemma call_symbol (customFunctions : list str) (name inner : str)
    (args : list str) :
  let token := name ++ "("%char :: inner ++ [")"%char] in
  isModelVariable token = false ->
  isStateVariable token = false ->
  isFunctionToken customFunctions token = true ->
  none_of (is_char "("%char) name = true ->
  balanced 0 inner = true ->
  Forall (fun arg => argument 0 arg = true /\ arg <> []) args ->
  JS.remove_all is_space inner = join_args args ->
  getSymbolForToken customFunctions token
  = ret (lit "this.functions['" ++ name ++ lit "'](" ++
         join_args (map (symbol_of customFunctions) args) ++ lit ")").
Proof.
  intros token Hmodel Hstate Hfun Hname Hbal Hargs Hjoin.
  assert (Hstatement : isStatementToken customFunctions token = false).
  { unfold isStatementToken. change (lit "(") with ["("%char].
    rewrite includes_char. subst token. rewrite none_of_app.
    cbn [none_of forallb]. unfold is_char at 2. rewrite Ascii.eqb_refl.
    cbn [negb andb]. now rewrite !andb_false_r. }
  unfold getSymbolForToken. cbn [getSymbolForToken_fuel].
  rewrite Hmodel, Hstate, Hstatement, Hfun. unfold parseFunctionToken_with.
  assert (Hinner : getSubstringWithinParentheses token = Return inner).
  { subst token. now apply getSubstringWithinParentheses_balanced. }
  rewrite Hinner. cbn [lift bindF]. rewrite (getFunctionArgs_joined _ _ Hargs Hjoin).
  assert (Hsplit : hd [] (JS.split token "("%char) = name).
  { unfold JS.split. subst token.
    destruct (split_go_segment "("%char name Hname []) as [_ ->]. reflexivity. }
  rewrite Hsplit.
  assert (Hshort : Forall (fun arg => (List.length arg < List.length token)%nat) args).
  { rewrite Forall_forall. intros arg Hin.
    rewrite <- (getFunctionArgs_joined _ _ Hargs Hjoin) in Hin.
    apply getFunctionArgs_length in Hin. subst token.
    rewrite List.length_app. cbn [List.length]. rewrite List.length_app. lia. }
  pose proof (parse_arguments_loop customFunctions (List.length token) args Hshort
                args [] [] eq_refl) as Hloop.
  unfold js_forF. rewrite Z.sub_0_r, Nat2Z.id.
  cbv zeta in Hloop. cbn [List.length Z.of_nat app] in Hloop.
  cbv zeta. rewrite Hloop. reflexivity.
Qed.

(** X4. The symbol of a call [name(inner)], a function token whose name
    holds no opening bracket and whose brackets match: the text
    [this.functions['name'](...)] with the symbols of the arguments of
    [inner] between the brackets, a separator between each two. *)
Theorem getSymbolForToken_call (customFunctions : list str) (name inner : str)
    (args : list str) :
  let token := name ++ "("%char :: inner ++ [")"%char] in
  isModelVariable token = false ->
  isStateVariable token = false ->
  isFunctionToken customFunctions token = true ->
  none_of (is_char "("%char) name = true ->
  balanced 0 inner = true ->
  Forall (fun arg => argument 0 arg = true /\ arg <> []) args ->
  JS.remove_all is_space inner = join_args args ->
  getSymbolForToken customFunctions token
  = ret (lit "this.functions['" ++ name ++ lit "'](" ++
         join_args (map (symbol_of customFunctions) args) ++ lit ")").
Proof. exact (call_symbol customFunctions name inner args). Qed.

Lemma getSymbolForToken_call_example :
  Forall (fun arg => argument 0 arg = true /\ arg <> []) [lit "$a.b"; lit "mul(2,#c)"] /\
  getSymbolForToken [lit "add"; lit "mul"] (lit "add($a.b, mul(2,#c))")
  = ret (lit "this.functions['add'](this.model.a.b,this.functions['mul'](2,this.state.c))").
Proof.
  assert (H : Forall (fun arg => argument 0 arg = true /\ arg <> [])
                [lit "$a.b"; lit "mul(2,#c)"]).
  { repeat constructor; discriminate. }
  split; [exact H|].
  exact (getSymbolForToken_call [lit "add"; lit "mul"] (lit "add")
           (lit "$a.b, mul(2,#c)") _ eq_refl eq_refl eq_refl eq_refl eq_refl H eq_refl).
Defined.

(** The symbol of a reference. *)
Lemma reference_symbol (customFunctions : list str) (path : str) :
  getSymbolForToken customFunctions (Symbols.MODEL_PREFIX :: path)
  = ret (lit "this.model" ++ match path with [] => [] | _ => "."%char :: path end) /\
  getSymbolForToken customFunctions (Symbols.STATE_PREFIX :: path)
  = ret (lit "this.state" ++ match path with [] => [] | _ => "."%char :: path end).
Proof.
  split.
  - destruct (getSymbolForToken_cases customFunctions (Symbols.MODEL_PREFIX :: path))
      as (symbol & -> & [[_ ->]|[(H & _)|(H & _)]]); try discriminate H.
    rewrite length_cons. destruct path; [reflexivity|].
    destruct (1 + JS.length (a :: path) =? 1) eqn:E; [|reflexivity].
    apply Z.eqb_eq in E. rewrite length_cons in E. pose proof (length_nonneg path). lia.
  - destruct (getSymbolForToken_cases customFunctions (Symbols.STATE_PREFIX :: path))
      as (symbol & -> & [[H _]|[(_ & _ & ->)|(_ & H & _)]]); try discriminate H.
    rewrite length_cons. destruct path; [reflexivity|].
    destruct (1 + JS.length (a :: path) =? 1) eqn:E; [|reflexivity].
    apply Z.eqb_eq in E. rewrite length_cons in E. pose proof (length_nonneg path). lia.
Qed.

(** X5. The symbol of a reference: a token that starts with the model prefix
    stands for [this.model] when it is the prefix alone, and for
    [this.model.] followed by the rest of the token otherwise, whatever
    functions are registered; the same holds of the state prefix and
    [this.state]. *)
Theorem getSymbolForToken_reference (customFunctions : list str) (path : str) :
  getSymbolForToken customFunctions (Symbols.MODEL_PREFIX :: path)
  = ret (lit "this.model" ++ match path with [] => [] | _ => "."%char :: path end) /\
  getSymbolForToken customFunctions (Symbols.STATE_PREFIX :: path)
  = ret (lit "this.state" ++ match path with [] => [] | _ => "."%char :: path end).
Proof. exact (reference_symbol customFunctions path). Qed.

(* ------------------------------------------------------------------ *)
(** ** Expressions: the items of a printed expression *)

Lemma print_items (leaf : operand -> str) (t : term) :
  forall level,
    print leaf level t = List.concat (map (item_text leaf) (items level t)).
Proof.
  induction t as [a|o l IHl r IHr|t IH]; intro level; cbn [print items].
  - cbn. now rewrite app_nil_r.
  - destruct (Nat.leb level (Host.prec o)).
    + rewrite map_app, concat_app. cbn [map List.concat item_text].
      now rewrite IHl, IHr.
    + cbn [map List.concat item_text app]. f_equal.
      rewrite !map_app, !concat_app. cbn [map List.concat item_text].
      rewrite IHl, IHr, app_nil_r. now rewrite <- !app_assoc.
  - cbn [map List.concat item_text app]. f_equal.
    rewrite map_app, concat_app. cbn [map List.concat item_text].
    now rewrite IH, app_nil_r.
Qed.

Lemma operand_induction (P : operand -> Prop) :
  (forall digits, P (Number digits)) ->
  (forall chars, P (Text chars)) ->
  (forall path, P (Model path)) ->
  (forall path, P (State path)) ->
  (forall name args, Forall P args -> P (Call name args)) ->
  forall a, P a.
Proof.
  intros Hn Ht Hm Hs Hc. fix IH 1. intros [digits|chars|path|path|name args].
  - apply Hn.
  - apply Ht.
  - apply Hm.
  - apply Hs.
  - apply Hc. induction args as [|arg args IHargs]; constructor; [apply IH|exact IHargs].
Qed.

Lemma term_tokens_operand (level : nat) (a : operand) :
  term_tokens level (Operand a) = operand_tokens a.
Proof. unfold term_tokens. cbn. apply app_nil_r. Qed.

Lemma term_tokens_binary (level : nat) (o : Host.binop) (l r : term) :
  term_tokens level (Binary o l r) =
    if Nat.leb level (Host.prec o)
    then term_tokens (Host.prec o) l ++ Host.TOp o :: term_tokens (S (Host.prec o)) r
    else Host.TSym Host.LParen ::
         (term_tokens (Host.prec o) l ++ Host.TOp o :: term_tokens (S (Host.prec o)) r)
         ++ [Host.TSym Host.RParen].
Proof.
  unfold term_tokens. cbn [items]. destruct (Nat.leb level (Host.prec o)).
  - rewrite map_app, concat_app. reflexivity.
  - cbn [map List.concat item_tokens app]. f_equal.
    rewrite !map_app, !concat_app. cbn [map List.concat item_tokens app].
    reflexivity.
Qed.

Lemma term_tokens_group (level : nat) (t : term) :
  term_tokens level (Group t) =
    Host.TSym Host.LParen :: term_tokens 0 t ++ [Host.TSym Host.RParen].
Proof.
  unfold term_tokens. cbn [items map List.concat item_tokens app]. f_equal.
  rewrite map_app, concat_app. cbn [map List.concat item_tokens app].
  reflexivity.
Qed.

(* ------------------------------------------------------------------ *)
(** ** The host: the parser reads a printed expression as its tree *)

Module ParserFacts.
Import Host.

Lemma fuel_le (fuel fuel' : nat) :
  (fuel <= fuel')%nat ->
  (forall minp ts x, parse_expr fuel minp ts = Some x ->
                     parse_expr fuel' minp ts = Some x) /\
  (forall minp lhs ts x, climb fuel minp lhs ts = Some x ->
                         climb fuel' minp lhs ts = Some x) /\
  (forall ts x, parse_primary fuel ts = Some x ->
                parse_primary fuel' ts = Some x) /\
  (forall acc ts x, parse_args fuel acc ts = Some x ->
                    parse_args fuel' acc ts = Some x).
Proof.
  induction 1 as [|fuel' Hle (IHe & IHc & IHp & IHa)]; [tauto|].
  destruct (HostFacts.parse_more_fuel fuel') as (He & Hc & Hp & Ha).
  repeat split; intros; auto.
Qed.

Lemma parse_primary_num (fuel : nat) (n : Z) (ts : list token) :
  parse_primary (S fuel) (TNum n :: ts) = Some (ENum n, ts).
Proof. reflexivity. Qed.

Lemma parse_primary_str (fuel : nat) (s : str) (ts : list token) :
  parse_primary (S fuel) (TStr s :: ts) = Some (EStr s, ts).
Proof. reflexivity. Qed.

Lemma parse_primary_model (fuel : nat) (ts : list token) :
  parse_primary (S fuel)
    (TName (lit "this") :: TSym Dot :: TName (lit "model") :: ts) = Some (EModel, ts).
Proof. reflexivity. Qed.

Lemma parse_primary_state (fuel : nat) (ts : list token) :
  parse_primary (S fuel)
    (TName (lit "this") :: TSym Dot :: TName (lit "state") :: ts) = Some (EState, ts).
Proof. reflexivity. Qed.

Lemma parse_primary_call_empty (fuel : nat) (name : str) (ts : list token) :
  parse_primary (S fuel)
    (TName (lit "this") :: TSym Dot :: TName (lit "functions") :: TSym LBracket
       :: TStr name :: TSym RBracket :: TSym LParen :: TSym RParen :: ts)
  = Some (ECall name [], ts).
Proof. reflexivity. Qed.

Lemma parse_primary_call (fuel : nat) (name : str) (t0 : token) (ts : list token) :
  t0 <> TSym RParen ->
  parse_primary (S fuel)
    (TName (lit "this") :: TSym Dot :: TName (lit "functions") :: TSym LBracket
       :: TStr name :: TSym RBracket :: TSym LParen :: t0 :: ts)
  = match parse_args fuel [] (t0 :: ts) with
    | Some (args, ts4) => Some (ECall name args, ts4)
    | None => None
    end.
Proof.
  intro H. destruct t0 as [n|s|s|o|[]]; try reflexivity. contradiction.
Qed.

Lemma parse_primary_group (fuel : nat) (ts : list token) :
  parse_primary (S fuel) (TSym LParen :: ts) =
    match parse_expr fuel 0 ts with
    | Some (e, TSym RParen :: ts2) => Some (e, ts2)
    | _ => None
    end.
Proof. reflexivity. Qed.

Lemma follows_le (level level' : nat) (rest : list token) :
  (level <= level')%nat -> follows level rest -> follows level' rest.
Proof.
  intros Hle H. destruct rest as [|[n|s|s|o|y] rest]; try exact H.
  cbn [follows] in *. lia.
Qed.

Lemma members_follows (level : nat) (rest : list token) (e : expr) :
  follows level rest -> members e rest = (e, rest).
Proof.
  intro H. destruct rest as [|[n|s|s|o|[]] rest]; try reflexivity. contradiction.
Qed.

Lemma members_path (level : nat) (rest : list token) :
  follows level rest ->
  forall path e,
    members e (member_tokens path ++ rest) = (fold_left EMember path e, rest).
Proof.
  intros H path. induction path as [|key path IH]; intro e.
  - exact (members_follows level rest e H).
  - cbn [fold_left]. rewrite <- IH. reflexivity.
Qed.

(** Behind an expression printed at [level], the loop of [climb] stops when
    it looks for operators that bind more tightly than [level]. *)
Lemma climb_stops (fuel level minp : nat) (e : expr) (rest : list token) :
  follows level rest -> (level < minp)%nat ->
  climb (S fuel) minp e rest = Some (e, rest).
Proof.
  intros H Hlt. rewrite HostFacts.climb_step.
  destruct rest as [|[n|s|s|o|y] rest]; try reflexivity.
  cbn [follows] in H.
  destruct (Nat.leb minp (prec o)) eqn:E; [|reflexivity].
  apply Nat.leb_le in E. lia.
Qed.

Lemma operand_tokens_head (a : operand) :
  exists t0 ts, operand_tokens a = t0 :: ts /\ t0 <> TSym RParen /\
                forall y, t0 <> TSym y.
Proof.
  destruct a; cbn [operand_tokens]; do 2 eexists; (split; [reflexivity|]);
    split; try intro y; discriminate.
Qed.

Lemma join_tokens_cons (arg : list token) (args : list (list token)) :
  args <> [] ->
  join_tokens (arg :: args) = arg ++ TSym Comma :: join_tokens args.
Proof. destruct args; [contradiction|reflexivity]. Qed.

Lemma parse_expr_operand (a : operand) (fuel level minp : nat) (rest : list token)
    (x : expr * list token) :
  parses_to a ->
  (operand_fuel a <= fuel)%nat ->
  follows level rest ->
  climb fuel minp (operand_expr a) rest = Some x ->
  parse_expr (S fuel) minp (operand_tokens a ++ rest) = Some x.
Proof.
  intros Ha Hfuel Hrest Hclimb. rewrite HostFacts.parse_expr_step.
  destruct (Ha fuel level rest Hfuel Hrest) as (e & ts1 & -> & ->). exact Hclimb.
Qed.

Lemma operand_fuel_pos (a : operand) : (1 <= operand_fuel a)%nat.
Proof. destruct a; cbn [operand_fuel]; lia. Qed.

Lemma parse_args_operands (args : list operand) :
  Forall parses_to args ->
  args <> [] ->
  forall fuel acc rest,
    (list_sum (map (fun arg => S (S (operand_fuel arg))) args) <= fuel)%nat ->
    parse_args fuel acc
      (join_tokens (map operand_tokens args) ++ TSym RParen :: rest)
    = Some (rev acc ++ map operand_expr args, rest).
Proof.
  induction 1 as [|arg args Harg Hargs IH]; [contradiction|].
  intros _ fuel acc rest Hfuel. cbn [map list_sum fold_right] in Hfuel.
  destruct fuel as [|[|fuel]]; try lia.
  rewrite HostFacts.parse_args_step.
  destruct args as [|arg' args].
  - cbn [map join_tokens].
    rewrite (parse_expr_operand arg fuel 0 0 (TSym RParen :: rest)
               (operand_expr arg, TSym RParen :: rest) Harg);
      [| cbn [map list_sum fold_right] in Hfuel; lia | exact I |].
    + reflexivity.
    + pose proof (operand_fuel_pos arg).
      destruct fuel; [cbn [map list_sum fold_right] in Hfuel; lia|]. reflexivity.
  - change (map operand_tokens (arg :: arg' :: args))
      with (operand_tokens arg :: map operand_tokens (arg' :: args)).
    rewrite join_tokens_cons by discriminate. rewrite <- app_assoc. cbn [app].
    rewrite (parse_expr_operand arg fuel 0 0 _
               (operand_expr arg, TSym Comma ::
                  join_tokens (map operand_tokens (arg' :: args)) ++ TSym RParen :: rest)
               Harg);
      [| cbn [map list_sum fold_right] in Hfuel; lia | exact I |].
    + rewrite (IH ltac:(discriminate) (S fuel) (operand_expr arg :: acc) rest).
      * cbn [rev map]. now rewrite <- app_assoc.
      * cbn [map list_sum fold_right] in Hfuel |- *. lia.
    + pose proof (operand_fuel_pos arg).
      destruct fuel; [cbn [map list_sum fold_right] in Hfuel; lia|]. reflexivity.
Qed.

Lemma operand_parses (a : operand) : parses_to a.
Proof.
  induction a as [digits|chars|path|path|name args IH] using operand_induction;
    intros fuel level rest Hfuel Hrest; cbn [operand_fuel] in Hfuel;
    (destruct fuel as [|fuel]; [lia|]); cbn [operand_tokens operand_expr app].
  - rewrite parse_primary_num. do 2 eexists. split; [reflexivity|].
    exact (members_follows level rest _ Hrest).
  - rewrite parse_primary_str. do 2 eexists. split; [reflexivity|].
    exact (members_follows level rest _ Hrest).
  - rewrite parse_primary_model. do 2 eexists. split; [reflexivity|].
    exact (members_path level rest Hrest path EModel).
  - rewrite parse_primary_state. do 2 eexists. split; [reflexivity|].
    exact (members_path level rest Hrest path EState).
  - destruct args as [|arg args].
    + cbn [map join_tokens app]. rewrite parse_primary_call_empty.
      do 2 eexists. split; [reflexivity|].
      exact (members_follows level rest _ Hrest).
    + pose proof (parse_args_operands (arg :: args) IH ltac:(discriminate) fuel [] rest)
        as Hargs.
      destruct (operand_tokens_head arg) as (t0 & ts & Hhead & Hparen & _).
      assert (Hjoin : exists ts', join_tokens (map operand_tokens (arg :: args)) = t0 :: ts').
      { cbn [map]. destruct args as [|arg' args].
        - cbn [map join_tokens]. rewrite Hhead. eexists. reflexivity.
        - rewrite join_tokens_cons by discriminate. rewrite Hhead. eexists. reflexivity. }
      destruct Hjoin as [ts' Hjoin].
      rewrite <- app_assoc. cbn [app]. rewrite Hjoin in Hargs |- *. cbn [app] in Hargs |- *.
      rewrite (parse_primary_call fuel name t0 _ Hparen).
      rewrite Hargs by lia. cbn [rev app].
      do 2 eexists. split; [reflexivity|].
      exact (members_follows level rest _ Hrest).
Qed.

Lemma climb_fuel_le (fuel fuel' minp : nat) (lhs : expr) (ts : list token)
    (x : expr * list token) :
  (fuel <= fuel')%nat ->
  climb fuel minp lhs ts = Some x -> climb fuel' minp lhs ts = Some x.
Proof. intro Hle. apply (fuel_le fuel fuel' Hle). Qed.

(** An expression in round brackets is a primary expression. *)
Lemma parse_bracketed (fuel level minp : nat) (ts rest : list token) (e : expr)
    (x : expr * list token) :
  parse_expr fuel 0 (ts ++ TSym RParen :: rest) = Some (e, TSym RParen :: rest) ->
  follows level rest ->
  climb (S fuel) minp e rest = Some x ->
  parse_expr (S (S fuel)) minp (TSym LParen :: ts ++ TSym RParen :: rest) = Some x.
Proof.
  intros Hinner Hrest Hclimb.
  rewrite HostFacts.parse_expr_step, parse_primary_group, Hinner.
  now rewrite (members_follows level rest e Hrest).
Qed.

(** The tokens of an expression that was printed at [level], read by a
    parser that looks for operators of strength [minp] and above: what it
    has when the tokens are used up is the tree of the expression. *)
Lemma parse_term (t : term) :
  forall level minp rest fuel x,
    (minp <= level)%nat ->
    follows level rest ->
    climb fuel minp (expr_of t) rest = Some x ->
    parse_expr (fuel + term_fuel t) minp (term_tokens level t ++ rest) = Some x.
Proof.
  induction t as [a|o l IHl r IHr|t IH]; intros level minp rest fuel x Hminp Hrest Hclimb;
    cbn [expr_of term_fuel] in *;
    assert (Hfuel : (1 <= fuel)%nat) by (destruct fuel; [discriminate Hclimb | lia]).
  - rewrite term_tokens_operand.
    replace (fuel + S (operand_fuel a))%nat with (S (fuel + operand_fuel a)) by lia.
    apply (parse_expr_operand a _ level); [apply operand_parses | lia | assumption |].
    apply (climb_fuel_le fuel); [lia | exact Hclimb].
  - assert (X : forall minp' rest' f' x',
               (minp' <= prec o)%nat -> follows (prec o) rest' ->
               climb f' minp' (EBin o (expr_of l) (expr_of r)) rest' = Some x' ->
               parse_expr (f' + term_fuel l + term_fuel r + 2) minp'
                 ((term_tokens (prec o) l ++ TOp o :: term_tokens (S (prec o)) r) ++ rest')
               = Some x').
    { intros minp' rest' f' x' Hm Hr Hc. rewrite <- app_assoc. cbn [app].
      replace (f' + term_fuel l + term_fuel r + 2)%nat
        with ((f' + term_fuel r + 2) + term_fuel l)%nat by lia.
      apply (IHl (prec o)); [assumption | cbn [follows]; lia |].
      replace (f' + term_fuel r + 2)%nat with (S (S f' + term_fuel r))%nat by lia.
      rewrite HostFacts.climb_step.
      apply Nat.leb_le in Hm. rewrite Hm.
      rewrite (IHr (S (prec o)) (S (prec o)) rest' (S f') (expr_of r, rest'));
        [| lia | apply (follows_le (prec o)); [lia | assumption]
         | apply (climb_stops f' (prec o)); [assumption | lia]].
      apply (climb_fuel_le f'); [lia | exact Hc]. }
    rewrite term_tokens_binary. destruct (Nat.leb level (prec o)) eqn:E.
    + apply Nat.leb_le in E.
      apply (HostFacts.parse_expr_fuel_le (fuel + term_fuel l + term_fuel r + 2));
        [lia|].
      apply X; [lia | apply (follows_le level); [lia | assumption] | assumption].
    + cbn [app]. rewrite <- app_assoc. cbn [app].
      replace (fuel + (term_fuel l + term_fuel r + 4))%nat
        with (S (S (fuel + term_fuel l + term_fuel r + 2)))%nat by lia.
      apply (parse_bracketed _ level _ _ _ (EBin o (expr_of l) (expr_of r))).
      * apply (HostFacts.parse_expr_fuel_le (1 + term_fuel l + term_fuel r + 2)); [lia|].
        apply (X 0%nat (TSym RParen :: rest) 1%nat); [lia | exact I | reflexivity].
      * assumption.
      * apply (climb_fuel_le fuel); [lia | exact Hclimb].
  - rewrite term_tokens_group. cbn [app]. rewrite <- app_assoc. cbn [app].
    replace (fuel + (term_fuel t + 2))%nat with (S (S (fuel + term_fuel t)))%nat by lia.
    apply (parse_bracketed _ level _ _ _ (expr_of t)).
    + apply (HostFacts.parse_expr_fuel_le (1 + term_fuel t)); [lia|].
      apply (IH 0%nat 0%nat (TSym RParen :: rest) 1%nat); [lia | exact I | reflexivity].
    + assumption.
    + apply (climb_fuel_le fuel); [lia | exact Hclimb].
Qed.

Lemma join_tokens_length (args : list (list token)) :
  (list_sum (map (@List.length token) args) <= List.length (join_tokens args))%nat.
Proof.
  induction args as [|arg args IH]; [apply le_n|].
  destruct args as [|arg' args].
  - cbn. lia.
  - rewrite join_tokens_cons by discriminate.
    cbn [map list_sum fold_right] in IH |- *. rewrite List.length_app. cbn [List.length].
    lia.
Qed.

Lemma operand_fuel_tokens (a : operand) :
  (operand_fuel a + 2 <= 4 * List.length (operand_tokens a))%nat.
Proof.
  induction a as [digits|chars|path|path|name args IH] using operand_induction;
    cbn [operand_fuel operand_tokens List.length]; try lia.
  rewrite List.length_app. cbn [List.length].
  pose proof (join_tokens_length (map operand_tokens args)) as Hjoin.
  assert (Hsum : (list_sum (map (fun arg => S (S (operand_fuel arg))) args)
                  <= 4 * list_sum (map (@List.length token) (map operand_tokens args)))%nat).
  { clear Hjoin. induction IH as [|arg args Harg Hargs IHargs]; [apply le_n|].
    simpl map. simpl list_sum. simpl map in IHargs. lia. }
  lia.
Qed.

Lemma term_fuel_tokens (t : term) :
  forall level, (term_fuel t <= 4 * List.length (term_tokens level t))%nat.
Proof.
  induction t as [a|o l IHl r IHr|t IH]; intro level; cbn [term_fuel].
  - rewrite term_tokens_operand. pose proof (operand_fuel_tokens a). lia.
  - rewrite term_tokens_binary.
    specialize (IHl (prec o)). specialize (IHr (S (prec o))).
    destruct (Nat.leb level (prec o)); cbn [List.length];
      rewrite ?List.length_app; cbn [List.length]; rewrite ?List.length_app;
      cbn [List.length]; lia.
  - rewrite term_tokens_group. specialize (IH 0%nat). cbn [List.length].
    rewrite List.length_app. cbn [List.length]. lia.
Qed.

(** The tokens of a printed expression parse to its tree. *)
Lemma parse_term_tokens (t : term) :
  parse_expr (parse_fuel (term_tokens 0 t)) 0 (term_tokens 0 t) = Some (expr_of t, []).
Proof.
  pose proof (parse_term t 0%nat 0%nat [] 1%nat (expr_of t, []) (le_n _) I eq_refl) as H.
  rewrite app_nil_r in H.
  apply (HostFacts.parse_expr_fuel_le (1 + term_fuel t)); [|exact H].
  unfold parse_fuel. pose proof (term_fuel_tokens t 0%nat). lia.
Qed.

End ParserFacts.

(* ------------------------------------------------------------------ *)
(** ** The host: the lexer reads the compiled text of an expression as its
       tokens *)

Module LexerFacts.
Import Host.

Lemma feed_app (s1 s2 : str) :
  forall p,
    feed p (s1 ++ s2) =
      match feed p s1 with
      | Some (d1, q) =>
          match feed q s2 with
          | Some (d2, r) => Some (d1 ++ d2, r)
          | None => None
          end
      | None => None
      end.
Proof.
  induction s1 as [|c s1 IH]; intro p; cbn [app feed].
  - destruct (feed p s2) as [[d2 r]|]; reflexivity.
  - destruct (step p c) as [[first p']|]; [|reflexivity].
    rewrite IH. destruct (feed p' s1) as [[d1 q]|]; [|reflexivity].
    destruct (feed q s2) as [[d2 r]|]; [|reflexivity]. now rewrite app_assoc.
Qed.

(** A character that ends the token being read starts the next one as it
    starts a text. *)
Lemma feed_break (q : pending) (l : list token) (c : ascii) (s : str) :
  flush q = Some l ->
  step q c = flush_then_start q c ->
  feed q (c :: s) =
    match feed PNone (c :: s) with
    | Some (d, r) => Some (l ++ d, r)
    | None => None
    end.
Proof.
  intros Hflush Hstep. cbn [feed]. rewrite Hstep. unfold flush_then_start.
  rewrite Hflush. cbn [step]. destruct (start c) as [[first p']|]; [|reflexivity].
  destruct (feed p' s) as [[d r]|]; [|reflexivity]. now rewrite app_assoc.
Qed.

Lemma step_none (c : ascii) : step PNone c = flush_then_start PNone c.
Proof.
  cbn [step]. unfold flush_then_start. cbn [flush].
  destruct (start c) as [[first p']|]; reflexivity.
Qed.

Lemma break_name_char (c : ascii) :
  is_break c = true -> is_name_char c = false /\ Ascii.eqb c "."%char = false.
Proof.
  unfold is_break. intro H. apply andb_true_iff in H as [H1 H2].
  split; [now apply negb_true_iff in H1 | now apply negb_true_iff in H2].
Qed.

Lemma step_number (digits : str) (c : ascii) :
  is_break c = true -> step (PNum digits) c = flush_then_start (PNum digits) c.
Proof.
  intro H. apply break_name_char in H as [Hname Hdot]. unfold is_name_char in Hname.
  apply orb_false_iff in Hname as [Hstart Hdigit].
  cbn [step]. now rewrite Hdigit, Hdot, Hstart.
Qed.

Lemma step_name (chars : str) (c : ascii) :
  is_break c = true -> step (PName chars) c = flush_then_start (PName chars) c.
Proof.
  intro H. apply break_name_char in H as [Hname _]. cbn [step]. now rewrite Hname.
Qed.

Lemma digit_not_space (c : ascii) : is_digit c = true -> Ascii.eqb c " "%char = false.
Proof. intro H. destruct (Ascii.eqb_spec c " "%char) as [->|]; [discriminate H|reflexivity]. Qed.

Lemma start_digit (c : ascii) : is_digit c = true -> start c = Some ([], PNum [c]).
Proof. intro H. unfold start. now rewrite (digit_not_space c H), H. Qed.

Lemma word_name_char (c : ascii) : is_word c = true -> is_name_char c = true.
Proof.
  unfold is_word, is_name_char, is_name_start.
  destruct (in_range 65 90 c), (in_range 97 122 c), (is_digit c), (Ascii.eqb c "_"%char);
    cbn; intro H; try reflexivity; try discriminate H; now rewrite ?orb_true_r.
Qed.

Lemma start_name (c : ascii) :
  is_word c = true -> is_digit c = false -> start c = Some ([], PName [c]).
Proof.
  intros Hword Hdigit. unfold start. rewrite Hdigit.
  destruct (Ascii.eqb_spec c " "%char) as [->|_]; [discriminate Hword|].
  assert (Hstart : is_name_start c = true).
  { apply word_name_char in Hword. unfold is_name_char in Hword.
    now rewrite Hdigit, orb_false_r in Hword. }
  now rewrite Hstart.
Qed.

Lemma feed_digits (digits : str) :
  all_of is_digit digits = true ->
  forall acc, feed (PNum acc) digits = Some ([], PNum (rev digits ++ acc)).
Proof.
  induction digits as [|c digits IH]; intros H acc; [reflexivity|].
  cbn [all_of forallb] in H. apply andb_true_iff in H as [Hc H].
  cbn [feed step]. rewrite Hc, (IH H). cbn [rev app]. now rewrite <- app_assoc.
Qed.

Lemma feed_word (chars : str) :
  all_of is_word chars = true ->
  forall acc, feed (PName acc) chars = Some ([], PName (rev chars ++ acc)).
Proof.
  induction chars as [|c chars IH]; intros H acc; [reflexivity|].
  cbn [all_of forallb] in H. apply andb_true_iff in H as [Hc H].
  cbn [feed step]. rewrite (word_name_char c Hc), (IH H). cbn [rev app].
  now rewrite <- app_assoc.
Qed.

Lemma literal_char (inCall : bool) (c : ascii) :
  is_literal_char inCall c = true ->
  Ascii.eqb c "'"%char = false /\
  (Ascii.eqb c "\"%char || Nat.eqb (code c) 10 || Nat.eqb (code c) 13) = false /\
  Ascii.eqb c "`"%char = false /\ is_space c = false.
Proof.
  unfold is_literal_char. intro H. apply andb_true_iff in H as [H _].
  apply negb_true_iff in H. apply orb_false_iff in H as [H Hspace].
  apply orb_false_iff in H as [H Htick]. apply orb_false_iff in H as [Hquote Hslash].
  repeat split; try assumption. rewrite Hslash. cbn [orb].
  unfold is_space, in_range in Hspace.
  apply orb_false_iff in Hspace as [Hspace _]. apply orb_false_iff in Hspace as [Hspace _].
  destruct (Nat.eqb_spec (code c) 10) as [E|_]; [rewrite E in Hspace; discriminate|].
  destruct (Nat.eqb_spec (code c) 13) as [E|_]; [rewrite E in Hspace; discriminate|].
  reflexivity.
Qed.

Lemma feed_literal (inCall : bool) (chars : str) :
  all_of (is_literal_char inCall) chars = true ->
  forall acc, feed (PStr acc) chars = Some ([], PStr (rev chars ++ acc)).
Proof.
  induction chars as [|c chars IH]; intros H acc; [reflexivity|].
  cbn [all_of forallb] in H. apply andb_true_iff in H as [Hc H].
  destruct (literal_char inCall c Hc) as (Hquote & Hbad & _).
  cbn [feed step]. rewrite Hquote, Hbad, (IH H). cbn [rev app].
  now rewrite <- app_assoc.
Qed.

Lemma word_literal (chars : str) :
  all_of is_word chars = true -> all_of (is_literal_char true) chars = true.
Proof.
  unfold all_of. induction chars as [|c chars IH]; [reflexivity|]. cbn [forallb].
  intro H. apply andb_true_iff in H as [Hc H]. rewrite (IH H), andb_true_r.
  unfold is_literal_char.
  repeat match goal with
         | |- context [Ascii.eqb c ?k] =>
             destruct (Ascii.eqb_spec c k) as [->|_]; [discriminate Hc|]
         end.
  cbn [orb andb negb].
  destruct (is_space c) eqn:E; [|reflexivity].
  exfalso. unfold is_space, in_range in E. unfold is_word, is_digit, in_range in Hc.
  repeat match goal with
         | H : context [Nat.leb ?a ?b] |- _ => destruct (Nat.leb_spec a b)
         | H : context [Nat.eqb ?a ?b] |- _ => destruct (Nat.eqb_spec a b)
         | H : context [Ascii.eqb ?a ?b] |- _ => destruct (Ascii.eqb_spec a b)
         end; try subst c; cbn in *; try discriminate; try lia.
Qed.

Lemma numeral_value (digits : str) :
  is_numeral digits = true -> number_of_digits digits = Some (digits_value digits).
Proof.
  unfold is_numeral, number_of_digits. intro H. apply andb_true_iff in H as [_ H].
  destruct digits as [|c [|c' digits]]; [discriminate H| |].
  - destruct c as [[] [] [] [] [] [] [] []]; reflexivity.
  - apply negb_true_iff in H.
    destruct (Ascii.eqb_spec c "0"%char) as [->|Hc]; [discriminate H|].
    destruct c as [[] [] [] [] [] [] [] []]; try reflexivity. now contradiction Hc.
Qed.

Lemma identifier_word (name : str) :
  is_identifier name = true ->
  exists c chars, name = c :: chars /\ is_word c = true /\ is_digit c = false /\
                  all_of is_word chars = true.
Proof.
  destruct name as [|c chars]; [discriminate|]. cbn [is_identifier]. intro H.
  apply andb_true_iff in H as [H Hchars]. apply andb_true_iff in H as [Hword Hdigit].
  apply negb_true_iff in Hdigit. now exists c, chars.
Qed.

Lemma feed_identifier (name : str) :
  is_identifier name = true -> feed PNone name = Some ([], PName (rev name)).
Proof.
  intro H. destruct (identifier_word name H) as (c & chars & -> & Hword & Hdigit & Hchars).
  cbn [feed step]. rewrite (start_name c Hword Hdigit), (feed_word chars Hchars).
  cbn [rev app]. reflexivity.
Qed.

Lemma lexes_number (digits : str) :
  is_numeral digits = true ->
  lexes_to is_break digits [TNum (digits_value digits)].
Proof.
  intro H. pose proof (numeral_value digits H) as Hvalue.
  unfold is_numeral in H. apply andb_true_iff in H as [Hdigits Hshape].
  destruct digits as [|c digits]; [discriminate Hshape|].
  cbn [all_of forallb] in Hdigits. apply andb_true_iff in Hdigits as [Hc Hdigits].
  exists [], (PNum (rev (c :: digits))), [TNum (digits_value (c :: digits))].
  split; [|split; [|split]].
  - cbn [feed step]. rewrite (start_digit c Hc), (feed_digits digits Hdigits).
    reflexivity.
  - cbn [flush]. now rewrite rev_involutive, Hvalue.
  - reflexivity.
  - intros c' Hc'. now apply step_number.
Qed.

Lemma lexes_text (inCall : bool) (chars : str) :
  all_of (is_literal_char inCall) chars = true ->
  lexes_to is_break ("'"%char :: chars ++ ["'"%char]) [TStr chars].
Proof.
  intro H. exists [TStr chars], PNone, []. split; [|split; [|split]].
  - change (feed PNone ("'"%char :: chars ++ ["'"%char]))
      with (match feed (PStr []) (chars ++ ["'"%char]) with
            | Some (rest, q) => Some ([] ++ rest, q)
            | None => None
            end).
    rewrite feed_app, (feed_literal inCall chars H). cbn [feed step].
    change ("'"%char =? "'"%char)%char with true. cbv iota.
    rewrite !app_nil_r, rev_involutive. reflexivity.
  - reflexivity.
  - reflexivity.
  - intros c _. apply step_none.
Qed.

Lemma step_name_dot (chars : str) :
  step (PName chars) "."%char = Some ([TName (rev chars); TSym Dot], PNone).
Proof. reflexivity. Qed.

Lemma feed_path (path : list str) :
  path <> [] ->
  forallb is_identifier path = true ->
  exists d key,
    feed PNone (join_path path) = Some (d, PName (rev key)) /\
    TSym Dot :: d ++ [TName key] = member_tokens path.
Proof.
  induction path as [|key path IH]; [contradiction|]. intros _ H.
  cbn [forallb] in H. apply andb_true_iff in H as [Hkey H].
  destruct path as [|key' path].
  - exists [], key. split; [exact (feed_identifier key Hkey)|reflexivity].
  - destruct (IH ltac:(discriminate) H) as (d & last & Hfeed & Htokens).
    exists (TName key :: TSym Dot :: d), last. split.
    + change (join_path (key :: key' :: path))
        with (key ++ "."%char :: join_path (key' :: path)).
      rewrite feed_app, (feed_identifier key Hkey).
      change (feed (PName (rev key)) ("."%char :: join_path (key' :: path)))
        with (match step (PName (rev key)) "."%char with
              | Some (done, p') =>
                  match feed p' (join_path (key' :: path)) with
                  | Some (rest, q) => Some (done ++ rest, q)
                  | None => None
                  end
              | None => None
              end).
      rewrite step_name_dot, Hfeed, rev_involutive. reflexivity.
    + change (member_tokens (key :: key' :: path))
        with ([TSym Dot; TName key] ++ member_tokens (key' :: path)).
      rewrite <- Htokens. reflexivity.
Qed.

Lemma lexes_path (prefix : str) (field : str) (path : list str) :
  feed PNone prefix
    = Some ([TName (lit "this"); TSym Dot; TName field; TSym Dot], PNone) ->
  match path with [] => false | _ => forallb is_identifier path end = true ->
  lexes_to is_break (prefix ++ join_path path)
    (TName (lit "this") :: TSym Dot :: TName field :: member_tokens path).
Proof.
  intros Hprefix H.
  assert (Hpath : path <> [] /\ forallb is_identifier path = true).
  { destruct path; [discriminate H|]. split; [discriminate|exact H]. }
  destruct Hpath as [Hne Hids].
  destruct (feed_path path Hne Hids) as (d & key & Hfeed & Htokens).
  exists ([TName (lit "this"); TSym Dot; TName field; TSym Dot] ++ d),
    (PName (rev key)), [TName key].
  split; [|split; [|split]].
  - now rewrite feed_app, Hprefix, Hfeed.
  - cbn [flush]. now rewrite rev_involutive.
  - rewrite <- Htokens. reflexivity.
  - intros c Hc. now apply step_name.
Qed.

Lemma break_bracket : is_break ")"%char = true /\ is_break ","%char = true.
Proof. split; reflexivity. Qed.

Lemma feed_arguments (args : list operand) :
  Forall (fun a => lexes_to is_break (operand_code a) (operand_tokens a)) args ->
  feed PNone (join_args (map operand_code args) ++ [")"%char])
  = Some (join_tokens (map operand_tokens args) ++ [TSym RParen], PNone).
Proof.
  induction 1 as [|arg args (d & p & l & Hfeed & Hflush & Htokens & Hnext) Hargs IH];
    [reflexivity|].
  destruct args as [|arg' args].
  - cbn [map join_args join_tokens].
    rewrite feed_app, Hfeed.
    rewrite (feed_break p l ")"%char [] Hflush (Hnext _ (proj1 break_bracket))).
    change (feed PNone [")"%char]) with (Some ([TSym RParen], PNone)).
    now rewrite <- Htokens, <- app_assoc.
  - change (join_args (map operand_code (arg :: arg' :: args)))
      with (operand_code arg ++ ","%char :: join_args (map operand_code (arg' :: args))).
    change (join_tokens (map operand_tokens (arg :: arg' :: args)))
      with (operand_tokens arg ++ TSym Comma ::
              join_tokens (map operand_tokens (arg' :: args))).
    rewrite <- app_assoc. cbn [app]. rewrite feed_app, Hfeed.
    rewrite (feed_break p l ","%char _ Hflush (Hnext _ (proj2 break_bracket))).
    change (feed PNone (","%char :: join_args (map operand_code (arg' :: args))
                          ++ [")"%char]))
      with (match feed PNone (join_args (map operand_code (arg' :: args)) ++ [")"%char])
            with
            | Some (rest, q) => Some ([TSym Comma] ++ rest, q)
            | None => None
            end).
    rewrite IH. rewrite <- Htokens. cbn [app]. now rewrite <- !app_assoc.
Qed.

Lemma identifier_all_word (name : str) :
  is_identifier name = true -> all_of is_word name = true.
Proof.
  intro H. destruct (identifier_word name H) as (c & chars & -> & Hword & _ & Hchars).
  cbn [all_of forallb]. now rewrite Hword.
Qed.

Lemma lexes_call (name : str) (args : list operand) :
  is_identifier name = true ->
  Forall (fun a => lexes_to is_break (operand_code a) (operand_tokens a)) args ->
  lexes_to is_break (operand_code (Call name args)) (operand_tokens (Call name args)).
Proof.
  intros Hname Hargs. cbn [operand_code operand_tokens].
  exists (TName (lit "this") :: TSym Dot :: TName (lit "functions") :: TSym LBracket
            :: TStr name :: TSym RBracket :: TSym LParen
            :: join_tokens (map operand_tokens args) ++ [TSym RParen]), PNone, [].
  split; [|split; [|split]].
  - rewrite (feed_app (lit "this.functions['")).
    change (feed PNone (lit "this.functions['"))
      with (Some ([TName (lit "this"); TSym Dot; TName (lit "functions"); TSym LBracket],
                  PStr [])).
    cbv beta iota.
    rewrite feed_app,
      (feed_literal true name (word_literal name (identifier_all_word name Hname))).
    rewrite (feed_app (lit "'](")). rewrite app_nil_r.
    change (feed (PStr (rev name)) (lit "']("))
      with (Some ([TStr (rev (rev name)); TSym RBracket; TSym LParen], PNone)).
    cbv beta iota. rewrite rev_involutive.
    change (lit ")") with [")"%char]. rewrite (feed_arguments args Hargs).
    reflexivity.
  - reflexivity.
  - apply app_nil_r.
  - intros c _. apply step_none.
Qed.

(** The compiled text of an operand is read as the tokens of the operand. *)
Lemma operand_lexes (customFunctions : list str) (a : operand) :
  forall inCall,
    operand_ok customFunctions inCall a = true ->
    lexes_to is_break (operand_code a) (operand_tokens a).
Proof.
  induction a as [digits|chars|path|path|name args IH] using operand_induction;
    intros inCall H; cbn [operand_ok] in H.
  - now apply lexes_number.
  - exact (lexes_text inCall chars H).
  - exact (lexes_path (lit "this.model.") (lit "model") path eq_refl H).
  - exact (lexes_path (lit "this.state.") (lit "state") path eq_refl H).
  - apply andb_true_iff in H as [H Hargs]. apply andb_true_iff in H as [Hname _].
    apply lexes_call; [exact Hname|].
    rewrite forallb_forall in Hargs. rewrite Forall_forall in IH |- *.
    intros arg Hin. exact (IH arg Hin true (Hargs arg Hin)).
Qed.

Lemma operand_start_not (c : ascii) :
  is_operand_start c = true ->
  Ascii.eqb c "="%char = false /\ Ascii.eqb c "&"%char = false /\
  Ascii.eqb c "|"%char = false /\ Ascii.eqb c "*"%char = false /\
  Ascii.eqb c "/"%char = false.
Proof.
  intro H.
  repeat split;
    match goal with
    | |- Ascii.eqb c ?k = false =>
        destruct (Ascii.eqb_spec c k) as [->|_]; [discriminate H|reflexivity]
    end.
Qed.

Lemma lexes_operator (o : binop) :
  lexes_to is_operand_start (operator_text o) [TOp o].
Proof.
  assert (Hop : forall c0 c,
             In c0 ["<"; ">"; "/"]%char -> is_operand_start c = true ->
             step (POp c0) c = flush_then_start (POp c0) c).
  { intros c0 c Hin Hc. destruct (operand_start_not c Hc) as (H1 & H2 & H3 & H4 & H5).
    cbn [step]. rewrite H1, H2, H3, H4, H5, !andb_false_r. reflexivity. }
  destruct o;
    match goal with
    | |- lexes_to _ ?text _ =>
        let r := eval vm_compute in (feed PNone text) in
        match r with
        | Some (?d, ?p) =>
            let l := eval vm_compute in (flush p) in
            match l with
            | Some ?l' =>
                exists d, p, l';
                split; [vm_compute; reflexivity|];
                split; [vm_compute; reflexivity|];
                split; [reflexivity|]
            end
        end
    end;
    intros c Hc; try apply step_none; apply Hop; try assumption; cbn [In]; tauto.
Qed.

Lemma item_lexes (customFunctions : list str) (x : item) :
  item_ok customFunctions x = true ->
  lexes_to (item_next x) (item_text operand_code x) (item_tokens x).
Proof.
  destruct x as [a|o| |]; cbn [item_ok item_next item_text item_tokens]; intro H.
  - exact (operand_lexes customFunctions a false H).
  - apply lexes_operator.
  - exists [TSym LParen], PNone, []. repeat split. intros c _. apply step_none.
  - exists [TSym RParen], PNone, []. repeat split. intros c _. apply step_none.
Qed.

(** The first character of the compiled text of an item. *)
Lemma item_code_head (customFunctions : list str) (y : item) :
  item_ok customFunctions y = true ->
  exists c s,
    item_text operand_code y = c :: s /\
    (is_operand_item y = false -> is_break c = true) /\
    (is_operator_item y = false -> is_operand_start c = true).
Proof.
  destruct y as [a|o| |]; cbn [item_ok item_text is_operand_item is_operator_item]; intro H.
  - destruct a as [digits|chars|path|path|name args]; cbn [operand_ok operand_code] in *.
    + unfold is_numeral in H. apply andb_true_iff in H as [Hdigits Hshape].
      destruct digits as [|c digits]; [discriminate Hshape|].
      cbn [all_of forallb] in Hdigits. apply andb_true_iff in Hdigits as [Hc _].
      exists c, digits. split; [reflexivity|]. split; [discriminate|].
      intros _. unfold is_operand_start. now rewrite Hc.
    + do 2 eexists. split; [reflexivity|]. split; [discriminate|reflexivity].
    + do 2 eexists. split; [reflexivity|]. split; [discriminate|reflexivity].
    + do 2 eexists. split; [reflexivity|]. split; [discriminate|reflexivity].
    + do 2 eexists. split; [reflexivity|]. split; [discriminate|reflexivity].
  - destruct o; do 2 eexists; (split; [reflexivity|]); split; try discriminate;
      reflexivity.
  - do 2 eexists. split; [reflexivity|]. split; reflexivity.
  - do 2 eexists. split; [reflexivity|]. split; reflexivity.
Qed.

End LexerFacts.

(* ------------------------------------------------------------------ *)
(** ** Expressions: items that stand side by side *)

Lemma pair_next (x y : item) (c : ascii) :
  pair_ok x y = true ->
  (is_operand_item y = false -> is_break c = true) ->
  (is_operator_item y = false -> is_operand_start c = true) ->
  item_next x c = true.
Proof.
  unfold pair_ok. intros H Hbreak Hstart.
  destruct x as [a|o| |]; cbn [item_next is_operand_item is_operator_item andb negb] in *;
    try reflexivity.
  - apply Hbreak. destruct (is_operand_item y); [discriminate H|reflexivity].
  - apply Hstart. destruct (is_operator_item y); [discriminate H|reflexivity].
Qed.

Lemma chain_ok_app (l1 : list item) (x : item) (l2 : list item) :
  chain_ok (l1 ++ [x]) = true -> chain_ok (x :: l2) = true ->
  chain_ok (l1 ++ x :: l2) = true.
Proof.
  induction l1 as [|y l1 IH]; intros H1 H2; [exact H2|].
  destruct l1 as [|y' l1].
  - cbn [app chain_ok] in *. apply andb_true_iff in H1 as [H1 _]. now rewrite H1.
  - cbn [app chain_ok] in *. apply andb_true_iff in H1 as [Hp H1].
    rewrite Hp. cbn [andb]. now apply IH.
Qed.

Lemma chain_ok_tail (x : item) (l : list item) :
  chain_ok (x :: l) = true -> chain_ok l = true.
Proof.
  destruct l as [|y l]; [reflexivity|]. cbn [chain_ok]. intro H.
  now apply andb_true_iff in H as [_ H].
Qed.

(** The items of a printed expression: the first is no operator, no two
    operands and no two operators stand side by side, and an operator or a
    bracket may follow. *)
Lemma items_chain (t : term) :
  forall level,
    exists x l,
      items level t = x :: l /\
      is_operator_item x = false /\
      chain_ok (x :: l) = true /\
      forall y, is_operand_item y = false -> chain_ok ((x :: l) ++ [y]) = true.
Proof.
  assert (Hwrap : forall x l,
             is_operator_item x = false ->
             (forall y, is_operand_item y = false -> chain_ok ((x :: l) ++ [y]) = true) ->
             exists x' l',
               IOpen :: (x :: l) ++ [IClose] = x' :: l' /\
               is_operator_item x' = false /\
               chain_ok (x' :: l') = true /\
               forall y, is_operand_item y = false -> chain_ok ((x' :: l') ++ [y]) = true).
  { intros x l Hx Happ. exists IOpen, ((x :: l) ++ [IClose]).
    split; [reflexivity|]. split; [reflexivity|]. split.
    - change (chain_ok (IOpen :: (x :: l) ++ [IClose]))
        with (pair_ok IOpen x && chain_ok ((x :: l) ++ [IClose])).
      now rewrite (Happ IClose eq_refl).
    - intros y Hy.
      change ((IOpen :: (x :: l) ++ [IClose]) ++ [y])
        with (IOpen :: x :: (l ++ [IClose]) ++ [y]).
      change (chain_ok (IOpen :: x :: (l ++ [IClose]) ++ [y]))
        with (pair_ok IOpen x && chain_ok (x :: (l ++ [IClose]) ++ [y])).
      cbn [pair_ok is_operand_item is_operator_item andb negb].
      rewrite <- app_assoc. cbn [app].
      change (x :: l ++ IClose :: [y]) with ((x :: l) ++ IClose :: [y]).
      apply chain_ok_app; [exact (Happ IClose eq_refl)|].
      cbn [chain_ok pair_ok is_operand_item is_operator_item andb negb]. reflexivity. }
  induction t as [a|o l IHl r IHr|t IH]; intro level; cbn [items].
  - exists (IOperand a), []. split; [reflexivity|]. split; [reflexivity|].
    split; [reflexivity|]. intros y Hy. cbn [app chain_ok]. unfold pair_ok.
    cbn [is_operand_item is_operator_item andb negb]. now rewrite Hy.
  - destruct (IHl (Host.prec o)) as (x1 & l1 & -> & Hx1 & Hc1 & Ha1).
    destruct (IHr (S (Host.prec o))) as (x2 & l2 & -> & Hx2 & Hc2 & Ha2).
    assert (Hinner : forall suffix,
               chain_ok (x2 :: l2 ++ suffix) = true ->
               chain_ok ((x1 :: l1) ++ IOperator o :: x2 :: l2 ++ suffix) = true).
    { intros suffix Hs. apply chain_ok_app; [exact (Ha1 (IOperator o) eq_refl)|].
      change (chain_ok (IOperator o :: x2 :: l2 ++ suffix))
        with (pair_ok (IOperator o) x2 && chain_ok (x2 :: l2 ++ suffix)).
      rewrite Hs. unfold pair_ok. cbn [is_operand_item is_operator_item andb negb].
      now rewrite Hx2. }
    assert (Hshape : is_operator_item x1 = false /\
                     chain_ok ((x1 :: l1) ++ IOperator o :: x2 :: l2) = true /\
                     forall y, is_operand_item y = false ->
                               chain_ok (((x1 :: l1) ++ IOperator o :: x2 :: l2) ++ [y])
                               = true).
    { split; [exact Hx1|]. split.
      - specialize (Hinner []). rewrite app_nil_r in Hinner. now apply Hinner.
      - intros y Hy. rewrite <- app_assoc. cbn [app]. apply Hinner.
        exact (Ha2 y Hy). }
    destruct Hshape as (H1 & H2 & H3).
    destruct (Nat.leb level (Host.prec o)).
    + exists x1, (l1 ++ IOperator o :: x2 :: l2). repeat split; assumption.
    + exact (Hwrap x1 (l1 ++ IOperator o :: x2 :: l2) H1 H3).
  - destruct (IH 0%nat) as (x & l & -> & Hx & Hc & Ha). exact (Hwrap x l Hx Ha).
Qed.

Lemma items_ok (customFunctions : list str) (t : term) :
  term_ok customFunctions t = true ->
  forall level, forallb (item_ok customFunctions) (items level t) = true.
Proof.
  induction t as [a|o l IHl r IHr|t IH]; cbn [term_ok]; intros H level; cbn [items].
  - cbn [forallb item_ok]. now rewrite H.
  - apply andb_true_iff in H as [Hl Hr].
    assert (Hinner : forallb (item_ok customFunctions)
                       (items (Host.prec o) l ++ IOperator o :: items (S (Host.prec o)) r)
                     = true).
    { rewrite forallb_app. cbn [forallb item_ok]. now rewrite IHl, IHr. }
    destruct (Nat.leb level (Host.prec o)); [exact Hinner|].
    cbn [forallb item_ok]. rewrite forallb_app, Hinner. reflexivity.
  - cbn [forallb item_ok]. rewrite forallb_app, (IH H). reflexivity.
Qed.

(** The lexer on the compiled text of items that stand side by side. *)
Lemma lex_items (customFunctions : list str) (its : list item) :
  forallb (item_ok customFunctions) its = true ->
  chain_ok its = true ->
  forall q l,
    Host.flush q = Some l ->
    (forall c s, List.concat (map (item_text operand_code) its) = c :: s ->
                 Host.step q c = Host.flush_then_start q c) ->
    Host.lex_from q (List.concat (map (item_text operand_code) its))
    = Some (l ++ List.concat (map item_tokens its)).
Proof.
  induction its as [|x its IH]; intros Hok Hchain q l Hflush Hfirst.
  - cbn. now rewrite Hflush, app_nil_r.
  - cbn [forallb] in Hok. apply andb_true_iff in Hok as [Hx Hok].
    cbn [map List.concat].
    destruct (LexerFacts.item_lexes customFunctions x Hx)
      as (d & p & lx & Hfeed & Hflushx & Htokens & Hnext).
    destruct (LexerFacts.item_code_head customFunctions x Hx) as (c & s & Hcode & _).
    rewrite HostFacts.lex_from_app.
    assert (Hq : Host.feed q (item_text operand_code x) = Some (l ++ d, p)).
    { rewrite Hcode in Hfeed |- *.
      rewrite (LexerFacts.feed_break q l c s Hflush), Hfeed; [reflexivity|].
      apply (Hfirst c (s ++ List.concat (map (item_text operand_code) its))).
      cbn [map List.concat]. now rewrite Hcode. }
    rewrite Hq.
    rewrite (IH Hok (chain_ok_tail x its Hchain) p lx Hflushx).
    + rewrite <- Htokens. now rewrite <- !app_assoc.
    + intros c' s' Hrest. apply Hnext.
      destruct its as [|y its]; [discriminate Hrest|].
      cbn [forallb] in Hok. apply andb_true_iff in Hok as [Hy _].
      destruct (LexerFacts.item_code_head customFunctions y Hy)
        as (cy & sy & Hcy & Hbreak & Hstart).
      cbn [map List.concat] in Hrest. rewrite Hcy in Hrest. injection Hrest as <- _.
      cbn [chain_ok] in Hchain. apply andb_true_iff in Hchain as [Hpair _].
      exact (pair_next x y cy Hpair Hbreak Hstart).
Qed.

(** The compiled text of an expression is read by the host as the tree of
    the expression. *)
Lemma compiled_parses (customFunctions : list str) (t : term) :
  term_ok customFunctions t = true ->
  Host.parse_js (compiled t) = Some (expr_of t).
Proof.
  intro H. unfold Host.parse_js, Host.lex, compiled. rewrite print_items.
  destruct (items_chain t 0%nat) as (x & l & Hitems & _ & Hchain & _).
  rewrite (lex_items customFunctions (items 0 t) (items_ok customFunctions t H 0%nat)
             ltac:(rewrite Hitems; exact Hchain) Host.PNone [] eq_refl
             ltac:(intros; apply LexerFacts.step_none)).
  cbn [app]. fold (term_tokens 0 t). now rewrite ParserFacts.parse_term_tokens.
Qed.

(* ------------------------------------------------------------------ *)
(** ** The compiler: the symbols of the tokens of an expression *)

Lemma registry_first (customFunctions : list str) (c : ascii) (s : str) :
  registry_ok customFunctions = true ->
  is_word c && negb (is_digit c) = false ->
  isFunctionToken customFunctions (c :: s) = false.
Proof.
  intros Hr Hc. destruct (isFunctionToken customFunctions (c :: s)) eqn:E; [|reflexivity].
  apply isFunctionToken_iff in E as (name & rest & Hin & Heq).
  unfold registry_ok in Hr. rewrite forallb_forall in Hr. specialize (Hr name Hin).
  destruct name as [|c' name]; [discriminate Hr|]. injection Heq as -> _.
  rewrite Hr in Hc. discriminate Hc.
Qed.

Lemma symbol_of_ret (customFunctions : list str) (token symbol : str) :
  getSymbolForToken customFunctions token = ret symbol ->
  symbol_of customFunctions token = symbol.
Proof. intro H. unfold symbol_of. now rewrite H. Qed.

(** A token that is passed on as it is. *)
Lemma symbol_verbatim (customFunctions : list str) (token : str) :
  isModelVariable token = false ->
  isStateVariable token = false ->
  isFunctionToken customFunctions token = false ->
  isString token || existsb is_digit token = true ->
  symbol_of customFunctions token = token.
Proof.
  intros Hm Hs Hf Hv. apply symbol_of_ret.
  destruct (getSymbolForToken_cases customFunctions token) as (symbol & -> & Hcases).
  destruct Hcases as [[H _]|[(_ & H & _)|(_ & _ & Hcases)]]; try congruence.
  destruct Hcases as [[H _]|[(_ & H & _)|(_ & Hcases)]].
  - rewrite (isStatementToken_false _ _ Hf) in H. discriminate H.
  - congruence.
  - destruct Hcases as [[_ ->]|[H _]]; [reflexivity|congruence].
Qed.

Lemma symbol_fixed (customFunctions : list str) (token : str) :
  registry_ok customFunctions = true ->
  In token (map lit ["<"; "<="; "=="; "!="; ">="; ">"; "+"; "-"; "*"; "/";
                     "%"; "("; ")"; "&&"; "||"]%string) ->
  symbol_of customFunctions token = token.
Proof.
  intros Hr Hin. apply symbol_of_ret.
  assert (Hshape : isModelVariable token = false /\ isStateVariable token = false /\
                   isString token || existsb is_digit token = false /\
                   exists c s, token = c :: s /\ is_word c && negb (is_digit c) = false).
  { cbn [map In] in Hin.
    repeat (destruct Hin as [<-|Hin];
            [repeat split; try reflexivity; do 2 eexists; split; reflexivity|]).
    contradiction. }
  destruct Hshape as (Hm & Hs & Hv & c & s & Htoken & Hc).
  assert (Hf : isFunctionToken customFunctions token = false).
  { rewrite Htoken. now apply registry_first. }
  destruct (getSymbolForToken_cases customFunctions token) as (symbol & -> & Hcases).
  destruct Hcases as [[H _]|[(_ & H & _)|(_ & _ & Hcases)]]; try congruence.
  destruct Hcases as [[H _]|[(_ & H & _)|(_ & Hcases)]].
  - rewrite (isStatementToken_false _ _ Hf) in H. discriminate H.
  - congruence.
  - destruct Hcases as [[H _]|(_ & [[_ ->]|[H _]])]; [congruence|reflexivity|].
    contradiction.
Qed.

Lemma operator_text_fixed (o : Host.binop) :
  In (operator_text o) (map lit ["<"; "<="; "=="; "!="; ">="; ">"; "+"; "-"; "*"; "/";
                                 "%"; "("; ")"; "&&"; "||"]%string).
Proof. destruct o; cbn; tauto. Qed.

Lemma join_path_cons (key : str) (path : list str) :
  path <> [] -> join_path (key :: path) = key ++ "."%char :: join_path path.
Proof. destruct path; [contradiction|reflexivity]. Qed.

Lemma join_args_cons' (arg : str) (args : list str) :
  args <> [] -> join_args (arg :: args) = arg ++ ","%char :: join_args args.
Proof. destruct args; [contradiction|reflexivity]. Qed.

(** The characters of a path. *)
Lemma join_path_class (path : list str) :
  forallb is_identifier path = true ->
  all_of (fun c => is_word c || Ascii.eqb c "."%char) (join_path path) = true.
Proof.
  induction path as [|key path IH]; [reflexivity|]. cbn [forallb]. intro H.
  apply andb_true_iff in H as [Hkey H].
  assert (Hword : all_of (fun c => is_word c || Ascii.eqb c "."%char) key = true).
  { apply LexerFacts.identifier_all_word in Hkey. unfold all_of in *.
    rewrite forallb_forall in Hkey |- *. intros c Hc. now rewrite (Hkey c Hc). }
  destruct path as [|key' path]; [exact Hword|].
  rewrite join_path_cons by discriminate. unfold all_of in *.
  rewrite forallb_app, Hword. cbn [forallb andb]. rewrite (IH H).
  now rewrite orb_true_r.
Qed.

Lemma join_path_nonempty (path : list str) :
  path <> [] -> forallb is_identifier path = true -> join_path path <> [].
Proof.
  destruct path as [|key path]; [contradiction|]. intros _ H.
  cbn [forallb] in H. apply andb_true_iff in H as [Hkey _].
  destruct key as [|c key]; [discriminate Hkey|].
  destruct path; cbn; discriminate.
Qed.

(* ------------------------------------------------------------------ *)
(** ** The compiler: the arguments of a call *)

Lemma plain_chars (c : ascii) :
  is_plain c = true ->
  is_space c = false /\ Ascii.eqb c "("%char = false /\ Ascii.eqb c ")"%char = false /\
  Ascii.eqb c ","%char = false.
Proof.
  unfold is_plain. intro H. apply negb_true_iff in H.
  apply orb_false_iff in H as [H H4]. apply orb_false_iff in H as [H H3].
  apply orb_false_iff in H as [H1 H2]. repeat split; assumption.
Qed.

Lemma argument_plain (s : str) :
  all_of is_plain s = true ->
  forall d rest, argument d (s ++ rest) = argument d rest.
Proof.
  unfold all_of. induction s as [|c s IH]; intros H d rest; [reflexivity|].
  cbn [forallb] in H. apply andb_true_iff in H as [Hc H].
  destruct (plain_chars c Hc) as (_ & H1 & H2 & H3).
  cbn [app argument]. unfold Symbols.BRACKET_OPEN, Symbols.BRACKET_CLOSE,
    Symbols.ARG_SEPARATOR. rewrite H1, H2, H3. now apply IH.
Qed.

Lemma balanced_plain (s : str) :
  all_of is_plain s = true ->
  forall d rest, balanced d (s ++ rest) = balanced d rest.
Proof.
  unfold all_of. induction s as [|c s IH]; intros H d rest; [reflexivity|].
  cbn [forallb] in H. apply andb_true_iff in H as [Hc H].
  destruct (plain_chars c Hc) as (_ & H1 & H2 & _).
  cbn [app balanced]. unfold Symbols.BRACKET_OPEN, Symbols.BRACKET_CLOSE.
  rewrite H1, H2. now apply IH.
Qed.

Lemma argument_app (s : str) :
  forall k, argument k s = true ->
            forall d rest, argument (k + d) (s ++ rest) = argument d rest.
Proof.
  induction s as [|c s IH]; intros k H d rest.
  - cbn [argument] in H. apply Nat.eqb_eq in H. now subst k.
  - cbn [app argument] in H |- *.
    destruct (Ascii.eqb c Symbols.BRACKET_OPEN).
    + exact (IH (S k) H d rest).
    + destruct (Ascii.eqb c Symbols.BRACKET_CLOSE).
      * destruct k as [|k]; [discriminate H|]. exact (IH k H d rest).
      * destruct (Ascii.eqb c Symbols.ARG_SEPARATOR).
        -- destruct k as [|k]; [discriminate H|]. exact (IH (S k) H d rest).
        -- exact (IH k H d rest).
Qed.

Lemma balanced_app (s : str) :
  forall k, balanced k s = true ->
            forall d rest, balanced (k + d) (s ++ rest) = balanced d rest.
Proof.
  induction s as [|c s IH]; intros k H d rest.
  - cbn [balanced] in H. apply Nat.eqb_eq in H. now subst k.
  - cbn [app balanced] in H |- *.
    destruct (Ascii.eqb c Symbols.BRACKET_OPEN).
    + exact (IH (S k) H d rest).
    + destruct (Ascii.eqb c Symbols.BRACKET_CLOSE).
      * destruct k as [|k]; [discriminate H|]. exact (IH k H d rest).
      * exact (IH k H d rest).
Qed.

Lemma none_of_all_of (class : ascii -> bool) (s : str) :
  none_of class s = all_of (fun c => negb (class c)) s.
Proof. reflexivity. Qed.

Lemma all_of_weaken (p q : ascii -> bool) (s : str) :
  (forall c, p c = true -> q c = true) -> all_of p s = true -> all_of q s = true.
Proof.
  intros Hpq. unfold all_of. rewrite !forallb_forall. intros H c Hc. auto.
Qed.

Lemma closed_plain (s : str) : all_of is_plain s = true -> s <> [] -> closed s.
Proof.
  intros H Hne. split; [|split; [|split]].
  - rewrite <- (app_nil_r s), (argument_plain s H). reflexivity.
  - rewrite <- (app_nil_r s), (balanced_plain s H). reflexivity.
  - rewrite none_of_all_of. revert H. apply all_of_weaken.
    intros c Hc. destruct (plain_chars c Hc) as (-> & _). reflexivity.
  - exact Hne.
Qed.

Lemma closed_join (args : list str) :
  Forall closed args ->
  (forall rest, argument 1 (join_args args ++ rest) = argument 1 rest) /\
  (forall rest, balanced 1 (join_args args ++ rest) = balanced 1 rest) /\
  balanced 0 (join_args args) = true /\
  none_of is_space (join_args args) = true.
Proof.
  induction 1 as [|arg args (Ha & Hb & Hs & _) Hargs (IHa & IHb & IHc & IHs)].
  - repeat split; reflexivity.
  - destruct args as [|arg' args].
    + cbn [join_args]. repeat split; try assumption.
      * intro rest. exact (argument_app arg 0 Ha 1 rest).
      * intro rest. exact (balanced_app arg 0 Hb 1 rest).
    + rewrite join_args_cons' by discriminate. repeat split.
      * intro rest. rewrite <- app_assoc. cbn [app].
        rewrite (argument_app arg 0 Ha 1). cbn [argument].
        change (Ascii.eqb ","%char Symbols.BRACKET_OPEN) with false.
        change (Ascii.eqb ","%char Symbols.BRACKET_CLOSE) with false.
        change (Ascii.eqb ","%char Symbols.ARG_SEPARATOR) with true.
        cbv iota. apply IHa.
      * intro rest. rewrite <- app_assoc. cbn [app].
        rewrite (balanced_app arg 0 Hb 1). cbn [balanced].
        change (Ascii.eqb ","%char Symbols.BRACKET_OPEN) with false.
        change (Ascii.eqb ","%char Symbols.BRACKET_CLOSE) with false.
        cbv iota. apply IHb.
      * rewrite (balanced_app arg 0 Hb 0). cbn [balanced].
        change (Ascii.eqb ","%char Symbols.BRACKET_OPEN) with false.
        change (Ascii.eqb ","%char Symbols.BRACKET_CLOSE) with false.
        cbv iota. exact IHc.
      * rewrite none_of_app, Hs. cbn [none_of forallb andb].
        change (negb (is_space ","%char)) with true. exact IHs.
Qed.

Lemma closed_call (name : str) (args : list str) :
  all_of is_word name = true -> name <> [] -> Forall closed args ->
  closed (name ++ "("%char :: join_args args ++ [")"%char]).
Proof.
  intros Hname Hne Hargs.
  destruct (closed_join args Hargs) as (Ha & Hb & _ & Hs).
  assert (Hplain : all_of is_plain name = true).
  { revert Hname. apply all_of_weaken. intros c Hc. unfold is_plain.
    repeat match goal with
           | |- context [Ascii.eqb c ?k] =>
               destruct (Ascii.eqb_spec c k) as [->|_]; [discriminate Hc|]
           end.
    destruct (is_space c) eqn:E; [|reflexivity].
    exfalso. unfold is_space, in_range in E. unfold is_word, is_digit, in_range in Hc.
    repeat match goal with
           | H : context [Nat.leb ?a ?b] |- _ => destruct (Nat.leb_spec a b)
           | H : context [Nat.eqb ?a ?b] |- _ => destruct (Nat.eqb_spec a b)
           | H : context [Ascii.eqb ?a ?b] |- _ => destruct (Ascii.eqb_spec a b)
           end; try subst c; cbn in *; try discriminate; try lia. }
  split; [|split; [|split]].
  - rewrite (argument_plain name Hplain). cbn [argument].
    change (Ascii.eqb "("%char Symbols.BRACKET_OPEN) with true. cbv iota.
    rewrite Ha. reflexivity.
  - rewrite (balanced_plain name Hplain). cbn [balanced].
    change (Ascii.eqb "("%char Symbols.BRACKET_OPEN) with true. cbv iota.
    rewrite Hb. reflexivity.
  - rewrite none_of_app. cbn [none_of forallb].
    change (negb (is_space "("%char)) with true. cbn [andb].
    fold (none_of is_space (join_args args ++ [")"%char])).
    rewrite none_of_app, Hs. cbn [none_of forallb].
    change (negb (is_space ")"%char)) with true. cbn [andb].
    rewrite andb_true_r. rewrite none_of_all_of. revert Hplain. apply all_of_weaken.
    intros c Hc. destruct (plain_chars c Hc) as (-> & _). reflexivity.
  - destruct name; [contradiction|discriminate].
Qed.

Lemma remove_all_none (class : ascii -> bool) (s : str) :
  none_of class s = true -> JS.remove_all class s = s.
Proof.
  unfold none_of, JS.remove_all. induction s as [|c s IH]; [reflexivity|].
  cbn [forallb filter]. intro H. apply andb_true_iff in H as [Hc H].
  now rewrite Hc, (IH H).
Qed.

(* ------------------------------------------------------------------ *)
(** ** The compiler: the symbol of an operand *)

Lemma digit_plain (c : ascii) : is_digit c = true -> is_plain c = true.
Proof.
  destruct c as [[] [] [] [] [] [] [] []]; vm_compute; intro H;
    first [reflexivity | discriminate H].
Qed.

Lemma word_dot_plain (c : ascii) :
  is_word c || Ascii.eqb c "."%char = true -> is_plain c = true.
Proof.
  destruct c as [[] [] [] [] [] [] [] []]; vm_compute; intro H;
    first [reflexivity | discriminate H].
Qed.

Lemma literal_plain (c : ascii) : is_literal_char true c = true -> is_plain c = true.
Proof.
  destruct c as [[] [] [] [] [] [] [] []]; vm_compute; intro H;
    first [reflexivity | discriminate H].
Qed.

Lemma literal_no_quote (inCall : bool) (chars : str) :
  all_of (is_literal_char inCall) chars = true ->
  none_of (is_char Symbols.STRING_SYMBOL) chars = true /\
  none_of (is_char "`"%char) chars = true /\
  none_of is_space chars = true.
Proof.
  intro H. rewrite !none_of_all_of.
  repeat split; revert H; apply all_of_weaken; intros c Hc;
    destruct (LexerFacts.literal_char inCall c Hc) as (H1 & _ & H2 & H3);
    unfold is_char, Symbols.STRING_SYMBOL; now rewrite ?H1, ?H2, ?H3.
Qed.

Lemma numeral_digits (digits : str) :
  is_numeral digits = true ->
  exists c ds, digits = c :: ds /\ is_digit c = true /\ all_of is_digit ds = true.
Proof.
  unfold is_numeral. intro H. apply andb_true_iff in H as [Hdigits Hshape].
  destruct digits as [|c ds]; [discriminate Hshape|].
  cbn [all_of forallb] in Hdigits. apply andb_true_iff in Hdigits as [Hc Hds].
  now exists c, ds.
Qed.

Lemma path_shape (path : list str) :
  match path with [] => false | _ => forallb is_identifier path end = true ->
  path <> [] /\ forallb is_identifier path = true.
Proof. destruct path; [discriminate|]. intro H. split; [discriminate|exact H]. Qed.

(** An operand within the arguments of a call. *)
Lemma operand_closed (customFunctions : list str) (a : operand) :
  operand_ok customFunctions true a = true -> closed (operand_text a).
Proof.
  induction a as [digits|chars|path|path|name args IH] using operand_induction;
    cbn [operand_ok operand_text]; intro H.
  - pose proof H as H'. unfold is_numeral in H'. apply andb_true_iff in H' as [Hd _].
    apply closed_plain.
    + revert Hd. apply all_of_weaken. exact digit_plain.
    + destruct (numeral_digits digits H) as (c & ds & -> & _). discriminate.
  - apply closed_plain; [|discriminate].
    cbn [all_of forallb]. change (is_plain Symbols.STRING_SYMBOL) with true. cbn [andb].
    fold (all_of is_plain (chars ++ [Symbols.STRING_SYMBOL])).
    unfold all_of. rewrite forallb_app. cbn [forallb].
    change (is_plain Symbols.STRING_SYMBOL) with true. rewrite andb_true_r.
    fold (all_of is_plain chars). revert H. apply all_of_weaken. exact literal_plain.
  - destruct (path_shape path H) as [_ Hids]. apply closed_plain; [|discriminate].
    cbn [all_of forallb]. change (is_plain Symbols.MODEL_PREFIX) with true. cbn [andb].
    fold (all_of is_plain (join_path path)).
    generalize (join_path_class path Hids). apply all_of_weaken. exact word_dot_plain.
  - destruct (path_shape path H) as [_ Hids]. apply closed_plain; [|discriminate].
    cbn [all_of forallb]. change (is_plain Symbols.STATE_PREFIX) with true. cbn [andb].
    fold (all_of is_plain (join_path path)).
    generalize (join_path_class path Hids). apply all_of_weaken. exact word_dot_plain.
  - apply andb_true_iff in H as [H Hargs]. apply andb_true_iff in H as [Hname _].
    apply closed_call.
    + now apply LexerFacts.identifier_all_word.
    + destruct name; [discriminate Hname|discriminate].
    + rewrite forallb_forall in Hargs. rewrite Forall_forall in IH |- *.
      intros text Hin. apply in_map_iff in Hin as (arg & <- & Hin).
      exact (IH arg Hin (Hargs arg Hin)).
Qed.

Lemma symbol_digit_first (customFunctions : list str) (c : ascii) (s : str) :
  registry_ok customFunctions = true ->
  is_digit c = true ->
  symbol_of customFunctions (c :: s) = c :: s.
Proof.
  intros Hr Hc. apply symbol_verbatim.
  - unfold isModelVariable. cbn [JS.startsWith].
    destruct (Ascii.eqb_spec c Symbols.MODEL_PREFIX) as [->|_]; [discriminate Hc|reflexivity].
  - unfold isStateVariable. cbn [JS.startsWith].
    destruct (Ascii.eqb_spec c Symbols.STATE_PREFIX) as [->|_]; [discriminate Hc|reflexivity].
  - apply registry_first; [exact Hr|]. rewrite Hc. now rewrite andb_false_r.
  - cbn [existsb]. rewrite Hc. now rewrite orb_true_r.
Qed.

Lemma symbol_text (customFunctions : list str) (inCall : bool) (chars : str) :
  registry_ok customFunctions = true ->
  all_of (is_literal_char inCall) chars = true ->
  symbol_of customFunctions (Symbols.STRING_SYMBOL :: chars ++ [Symbols.STRING_SYMBOL])
  = Symbols.STRING_SYMBOL :: chars ++ [Symbols.STRING_SYMBOL].
Proof.
  intros Hr H. destruct (literal_no_quote inCall chars H) as (_ & Htick & _).
  apply symbol_verbatim; try reflexivity.
  - apply registry_first; [exact Hr|reflexivity].
  - apply orb_true_iff. left. unfold isString.
    change (lit "`") with ["`"%char]. rewrite includes_char.
    change (Symbols.STRING_SYMBOL :: chars ++ [Symbols.STRING_SYMBOL])
      with ([Symbols.STRING_SYMBOL] ++ chars ++ [Symbols.STRING_SYMBOL]).
    rewrite !none_of_app, Htick. cbn [none_of forallb andb negb].
    unfold JS.endsWith. rewrite !rev_app_distr. reflexivity.
Qed.

Lemma symbol_model (customFunctions : list str) (path : str) :
  path <> [] ->
  symbol_of customFunctions (Symbols.MODEL_PREFIX :: path) = lit "this.model." ++ path.
Proof.
  intro H. apply symbol_of_ret. rewrite (proj1 (reference_symbol customFunctions path)).
  destruct path; [contradiction|reflexivity].
Qed.

Lemma symbol_state (customFunctions : list str) (path : str) :
  path <> [] ->
  symbol_of customFunctions (Symbols.STATE_PREFIX :: path) = lit "this.state." ++ path.
Proof.
  intro H. apply symbol_of_ret. rewrite (proj2 (reference_symbol customFunctions path)).
  destruct path; [contradiction|reflexivity].
Qed.

Lemma identifier_first (name : str) (s : str) (c : ascii) :
  is_identifier name = true -> is_word c = false \/ is_digit c = true ->
  JS.startsWith (name ++ s) [c] = false.
Proof.
  intros H Hc. destruct (LexerFacts.identifier_word name H) as (c0 & chars & -> & Hw & Hd & _).
  cbn [app JS.startsWith]. destruct (Ascii.eqb_spec c0 c) as [->|_]; [|reflexivity].
  destruct Hc as [Hc|Hc]; congruence.
Qed.

(** The symbol of an operand is the text it is expected to compile to. *)
Lemma operand_symbol (customFunctions : list str) (a : operand) :
  registry_ok customFunctions = true ->
  forall inCall,
    operand_ok customFunctions inCall a = true ->
    symbol_of customFunctions (operand_text a) = operand_code a.
Proof.
  intro Hr.
  induction a as [digits|chars|path|path|name args IH] using operand_induction;
    intros inCall H; cbn [operand_ok operand_text operand_code] in *.
  - destruct (numeral_digits digits H) as (c & ds & -> & Hc & _).
    now apply symbol_digit_first.
  - exact (symbol_text customFunctions inCall chars Hr H).
  - destruct (path_shape path H) as [Hne Hids]. apply symbol_model.
    now apply join_path_nonempty.
  - destruct (path_shape path H) as [Hne Hids]. apply symbol_state.
    now apply join_path_nonempty.
  - apply andb_true_iff in H as [H Hargs]. apply andb_true_iff in H as [Hname Hfun].
    assert (Hclosed : Forall closed (map operand_text args)).
    { rewrite forallb_forall in Hargs. rewrite Forall_forall.
      intros text Hin. apply in_map_iff in Hin as (arg & <- & Hin).
      exact (operand_closed customFunctions arg (Hargs arg Hin)). }
    destruct (closed_join _ Hclosed) as (_ & _ & Hbal & Hspace).
    apply symbol_of_ret.
    pose proof (call_symbol customFunctions name (join_args (map operand_text args))
                  (map operand_text args)) as Hcall.
    cbv zeta in Hcall.
    change Symbols.BRACKET_OPEN with "("%char. change Symbols.BRACKET_CLOSE with ")"%char.
    rewrite Hcall; clear Hcall.
    + assert (Hmap : map (symbol_of customFunctions) (map operand_text args)
                     = map operand_code args).
      { rewrite map_map. apply map_ext_in.
        rewrite forallb_forall in Hargs. rewrite Forall_forall in IH.
        intros arg Hin. exact (IH arg Hin true (Hargs arg Hin)). }
      now rewrite Hmap.
    + unfold isModelVariable. apply (identifier_first name _ _ Hname). now left.
    + unfold isStateVariable. apply (identifier_first name _ _ Hname). now left.
    + apply isFunctionToken_iff in Hfun as (prefix & rest & Hin & ->).
      apply isFunctionToken_iff. exists prefix, (rest ++ "("%char ::
        join_args (map operand_text args) ++ [")"%char]).
      split; [exact Hin|]. now rewrite <- app_assoc.
    + rewrite none_of_all_of.
      generalize (LexerFacts.identifier_all_word name Hname). apply all_of_weaken.
      intros c Hc. unfold is_char.
      destruct (Ascii.eqb_spec c "("%char) as [->|_]; [discriminate Hc|reflexivity].
    + exact Hbal.
    + rewrite Forall_forall in Hclosed |- *. intros text Hin.
      destruct (Hclosed text Hin) as (Ha & _ & _ & Hne). now split.
    + now apply remove_all_none.
Qed.

(* ------------------------------------------------------------------ *)
(** ** The compiler: one round of the tokenizer at an item *)

Lemma substring_from_app (pre suf : str) :
  JS.substring_from (pre ++ suf) (JS.length pre) = suf.
Proof.
  rewrite substring_from_suffix.
  - unfold JS.length. rewrite Nat2Z.id, skipn_app, skipn_all, Nat.sub_diag. reflexivity.
  - rewrite length_append. pose proof (length_nonneg pre). pose proof (length_nonneg suf).
    lia.
Qed.

(** A round that finds the end index [e]. *)
Lemma scan_token_cut (customFunctions : list str) (data s : str) (st : scan)
    (c : ascii) (e : Z) :
  JS.charAt s (startIndex st) = Some c ->
  (if Ascii.eqb c Symbols.MODEL_PREFIX || Ascii.eqb c Symbols.STATE_PREFIX then
     Return (getDataAccessEndIndex s (startIndex st) (endIndex st))
   else if Ascii.eqb c Symbols.STRING_SYMBOL then
     Return (getStringEndIndex s (startIndex st) (endIndex st))
   else if is_digit c then
     Return (getNumberEndIndex s (startIndex st) (endIndex st))
   else if isFunctionToken customFunctions (JS.substring_from s (startIndex st)) then
     Return (getFunctionEndIndex s (startIndex st) (endIndex st))
   else if existsb (fun c' => char_is c' c) Symbols.OPERATOR_START then
     Return (getOperatorEndIndex s c (startIndex st) (endIndex st))
   else
     Throw (Error (lit "Unable to parse statement: " ++ data ++
                   lit ", char: " ++ [c] ++
                   lit ", index: " ++ string_of_Z (startIndex st)))) = Return e ->
  iterations st <= 1000 ->
  scan_token customFunctions data s st
  = Return (Scan (tokens st ++ [JS.substring s (startIndex st) e])
              (if e >=? JS.length s then true else done st) e e (iterations st + 1)).
Proof.
  intros Hc Hbranch Hiter. unfold scan_token. rewrite Hc. cbv zeta. rewrite Hbranch.
  cbn [bind]. destruct (iterations st >? 1000) eqn:E; [lia|reflexivity].
Qed.

Lemma break_chars (c : ascii) :
  is_break c = true ->
  is_digit c || Ascii.eqb c "."%char = false /\
  is_word c || Ascii.eqb c "."%char = false.
Proof.
  destruct c as [[] [] [] [] [] [] [] []]; vm_compute; intro H;
    first [split; reflexivity | discriminate H].
Qed.

Lemma digit_branch (c : ascii) :
  is_digit c = true ->
  Ascii.eqb c Symbols.MODEL_PREFIX || Ascii.eqb c Symbols.STATE_PREFIX = false /\
  Ascii.eqb c Symbols.STRING_SYMBOL = false.
Proof.
  destruct c as [[] [] [] [] [] [] [] []]; vm_compute; intro H;
    first [split; reflexivity | discriminate H].
Qed.

Lemma identifier_branch (c : ascii) :
  is_word c = true -> is_digit c = false ->
  Ascii.eqb c Symbols.MODEL_PREFIX || Ascii.eqb c Symbols.STATE_PREFIX = false /\
  Ascii.eqb c Symbols.STRING_SYMBOL = false.
Proof.
  destruct c as [[] [] [] [] [] [] [] []]; vm_compute; intros H H';
    first [split; reflexivity | discriminate H].
Qed.

(** The end index of the token at an operand. *)
Lemma number_extent (pre digits rest : str) (e0 : Z) :
  all_of is_digit digits = true -> digits <> [] ->
  (forall c s, rest = c :: s -> is_break c = true) ->
  getNumberEndIndex (pre ++ digits ++ rest) (JS.length pre) e0
  = JS.length pre + JS.length (match rest with [c] => digits ++ [c] | _ => digits end).
Proof.
  intros Hdigits Hne Hrest. unfold getNumberEndIndex, js_for.
  assert (Hrun : all_of (fun c => is_digit c || Ascii.eqb c "."%char) digits = true).
  { revert Hdigits. apply all_of_weaken. intros c ->. reflexivity. }
  pose proof (class_loop _ rest digits pre _ e0 Hrun eq_refl) as Hloop.
  cbv zeta in Hloop. rewrite Hloop. clear Hloop.
  destruct rest as [|c [|c' rest]].
  - destruct digits; [contradiction|]. rewrite app_nil_r. apply length_append.
  - apply length_append.
  - destruct (break_chars c (Hrest c _ eq_refl)) as [-> _]. reflexivity.
Qed.

Lemma reference_extent (p : ascii) (pre run rest : str) (e0 : Z) :
  all_of (fun c => is_word c || Ascii.eqb c "."%char) run = true -> run <> [] ->
  (forall c s, rest = c :: s -> is_break c = true) ->
  getDataAccessEndIndex (pre ++ (p :: run) ++ rest) (JS.length pre) e0
  = JS.length pre + JS.length (match rest with [c] => (p :: run) ++ [c] | _ => p :: run end).
Proof.
  intros Hrun Hne Hrest. unfold getDataAccessEndIndex, js_for.
  assert (Hpre : JS.length (pre ++ [p]) = JS.length pre + 1) by apply length_append.
  assert (Happ : pre ++ (p :: run) ++ rest = (pre ++ [p]) ++ run ++ rest).
  { now rewrite <- app_assoc. }
  rewrite Happ, <- Hpre.
  pose proof (class_loop _ rest run (pre ++ [p]) _ e0 Hrun eq_refl) as Hloop.
  cbv zeta in Hloop. rewrite Hloop. clear Hloop.
  destruct rest as [|c [|c' rest]].
  - destruct run; [contradiction|]. rewrite <- Happ, app_nil_r. apply length_append.
  - rewrite <- Happ. apply length_append.
  - destruct (break_chars c (Hrest c _ eq_refl)) as [_ ->].
    rewrite Hpre, length_cons. lia.
Qed.

Lemma text_extent (pre chars rest : str) (e0 : Z) :
  none_of (is_char Symbols.STRING_SYMBOL) chars = true ->
  getStringEndIndex
    (pre ++ (Symbols.STRING_SYMBOL :: chars ++ [Symbols.STRING_SYMBOL]) ++ rest)
    (JS.length pre) e0
  = JS.length pre + JS.length (Symbols.STRING_SYMBOL :: chars ++ [Symbols.STRING_SYMBOL]).
Proof.
  intro H.
  replace (pre ++ (Symbols.STRING_SYMBOL :: chars ++ [Symbols.STRING_SYMBOL]) ++ rest)
    with (pre ++ Symbols.STRING_SYMBOL :: chars ++ Symbols.STRING_SYMBOL :: rest)
    by (cbn [app]; now rewrite <- app_assoc).
  rewrite (proj1 (string_end_index pre chars Symbols.STRING_SYMBOL e0 H) rest).
  rewrite length_cons, length_append. change (JS.length [Symbols.STRING_SYMBOL]) with 1.
  lia.
Qed.

Lemma call_extent (pre name inner rest : str) (e0 : Z) :
  is_identifier name = true ->
  balanced 0 inner = true ->
  getFunctionEndIndex (pre ++ (name ++ "("%char :: inner ++ [")"%char]) ++ rest)
    (JS.length pre) e0
  = JS.length pre + JS.length (name ++ "("%char :: inner ++ [")"%char]).
Proof.
  intros Hname Hbal.
  destruct (LexerFacts.identifier_word name Hname) as (n0 & chars & -> & _ & _ & Hchars).
  replace (pre ++ ((n0 :: chars) ++ "("%char :: inner ++ [")"%char]) ++ rest)
    with (pre ++ n0 :: chars ++ "("%char :: inner ++ ")"%char :: rest)
    by (cbn [app]; repeat (rewrite <- app_assoc; cbn [app]); reflexivity).
  rewrite (proj1 (function_end_index pre chars n0 e0 Hchars) inner rest Hbal).
  cbn [app]. rewrite length_cons, length_append, length_cons, length_append.
  change (JS.length [")"%char]) with 1. lia.
Qed.

Lemma cut_text (x : item) (rest : str) :
  item_text operand_text x ++ rest = fst (cut x rest) ++ snd (cut x rest).
Proof.
  destruct x as [[digits|chars|path|path|name args]|o| |]; try reflexivity;
    destruct rest as [|c [|c' rest]]; try reflexivity; cbn [cut fst snd];
    now rewrite app_nil_r.
Qed.

Lemma operator_extent (o : Host.binop) (pre rest : str) (e0 : Z) :
  (forall c s, rest = c :: s -> is_operand_start c = true) ->
  exists c0 s0,
    operator_text o = c0 :: s0 /\
    Ascii.eqb c0 Symbols.MODEL_PREFIX || Ascii.eqb c0 Symbols.STATE_PREFIX = false /\
    Ascii.eqb c0 Symbols.STRING_SYMBOL = false /\
    is_digit c0 = false /\
    is_word c0 = false /\
    existsb (fun c' => char_is c' c0) Symbols.OPERATOR_START = true /\
    getOperatorEndIndex (pre ++ operator_text o ++ rest) c0 (JS.length pre) e0
    = JS.length pre + JS.length (operator_text o).
Proof.
  intro Hrest.
  assert (Hnext : char_is (JS.charAt rest 0) "="%char = false).
  { destruct rest as [|c rest]; [reflexivity|].
    destruct (LexerFacts.operand_start_not c (Hrest c rest eq_refl)) as (H & _).
    exact H. }
  pose proof (length_nonneg pre) as Hpre.
  destruct o; do 2 eexists; (split; [reflexivity|]); repeat (split; [reflexivity|]);
    unfold getOperatorEndIndex; cbn [Ascii.eqb Bool.eqb orb andb];
    try reflexivity;
    rewrite (charAt_app_r pre _ 1) by lia;
    lazymatch goal with
    | |- context [JS.charAt (operator_text Host.OLt ++ rest) 1] =>
        change (JS.charAt (operator_text Host.OLt ++ rest) 1) with (JS.charAt rest 0)
    | |- context [JS.charAt (operator_text Host.OGt ++ rest) 1] =>
        change (JS.charAt (operator_text Host.OGt ++ rest) 1) with (JS.charAt rest 0)
    | |- _ => idtac
    end;
    rewrite ?Hnext; reflexivity.
Qed.

Lemma bracket_extent (c0 : ascii) (pre rest : str) (e0 : Z) :
  c0 = Symbols.BRACKET_OPEN \/ c0 = Symbols.BRACKET_CLOSE ->
  Ascii.eqb c0 Symbols.MODEL_PREFIX || Ascii.eqb c0 Symbols.STATE_PREFIX = false /\
  Ascii.eqb c0 Symbols.STRING_SYMBOL = false /\
  is_digit c0 = false /\
  is_word c0 = false /\
  existsb (fun c' => char_is c' c0) Symbols.OPERATOR_START = true /\
  getOperatorEndIndex (pre ++ [c0] ++ rest) c0 (JS.length pre) e0
  = JS.length pre + JS.length [c0].
Proof. intros [->| ->]; repeat split; reflexivity. Qed.

(** One round of the tokenizer at an item of an expression. *)
Lemma scan_item (customFunctions : list str) (data : str) (x : item) (pre rest : str)
    (toks : list str) (dn : bool) (e0 iter : Z) :
  registry_ok customFunctions = true ->
  item_ok customFunctions x = true ->
  (forall c s, rest = c :: s -> item_next x c = true) ->
  iter <= 1000 ->
  scan_token customFunctions data (pre ++ item_text operand_text x ++ rest)
    (Scan toks dn (JS.length pre) e0 iter)
  = Return (Scan (toks ++ [fst (cut x rest)])
              (if JS.length pre + JS.length (fst (cut x rest))
                  >=? JS.length (pre ++ item_text operand_text x ++ rest)
               then true else dn)
              (JS.length pre + JS.length (fst (cut x rest)))
              (JS.length pre + JS.length (fst (cut x rest)))
              (iter + 1)).
Proof.
  intros Hr Hx Hrest Hiter.
  assert (Hcut : forall c,
             JS.charAt (pre ++ item_text operand_text x ++ rest) (JS.length pre) = Some c ->
             (if Ascii.eqb c Symbols.MODEL_PREFIX || Ascii.eqb c Symbols.STATE_PREFIX then
                Return (getDataAccessEndIndex (pre ++ item_text operand_text x ++ rest)
                          (JS.length pre) e0)
              else if Ascii.eqb c Symbols.STRING_SYMBOL then
                Return (getStringEndIndex (pre ++ item_text operand_text x ++ rest)
                          (JS.length pre) e0)
              else if is_digit c then
                Return (getNumberEndIndex (pre ++ item_text operand_text x ++ rest)
                          (JS.length pre) e0)
              else if isFunctionToken customFunctions
                        (JS.substring_from (pre ++ item_text operand_text x ++ rest)
                           (JS.length pre)) then
                Return (getFunctionEndIndex (pre ++ item_text operand_text x ++ rest)
                          (JS.length pre) e0)
              else if existsb (fun c' => char_is c' c) Symbols.OPERATOR_START then
                Return (getOperatorEndIndex (pre ++ item_text operand_text x ++ rest) c
                          (JS.length pre) e0)
              else
                Throw (Error (lit "Unable to parse statement: " ++ data ++
                              lit ", char: " ++ [c] ++
                              lit ", index: " ++ string_of_Z (JS.length pre))))
             = Return (JS.length pre + JS.length (fst (cut x rest))) ->
             scan_token customFunctions data (pre ++ item_text operand_text x ++ rest)
               (Scan toks dn (JS.length pre) e0 iter)
             = Return (Scan (toks ++ [fst (cut x rest)])
                         (if JS.length pre + JS.length (fst (cut x rest))
                             >=? JS.length (pre ++ item_text operand_text x ++ rest)
                          then true else dn)
                         (JS.length pre + JS.length (fst (cut x rest)))
                         (JS.length pre + JS.length (fst (cut x rest)))
                         (iter + 1))).
  { intros c Hc Hbranch.
    rewrite (scan_token_cut customFunctions data _ (Scan toks dn (JS.length pre) e0 iter)
               c _ Hc Hbranch Hiter).
    cbn [tokens done startIndex endIndex iterations].
    rewrite (cut_text x rest) at 1. now rewrite substring_middle. }
  rewrite substring_from_app in Hcut.
  destruct x as [[digits|chars|path|path|name args]|o| |];
    cbn [item_ok operand_ok item_next item_text operand_text] in *.
  - destruct (numeral_digits digits Hx) as (c & ds & Hdigits & Hc & Hds).
    apply (Hcut c); [rewrite Hdigits; apply charAt_app_head|].
    destruct (digit_branch c Hc) as [-> ->]. rewrite Hc.
    rewrite number_extent; [| | |exact Hrest].
    + destruct rest as [|c' [|c'' rest]]; reflexivity.
    + rewrite Hdigits. cbn [all_of forallb]. now rewrite Hc.
    + rewrite Hdigits. discriminate.
  - apply (Hcut Symbols.STRING_SYMBOL); [apply charAt_app_head|].
    cbn [Ascii.eqb Bool.eqb orb andb].
    destruct (literal_no_quote false chars Hx) as (Hquote & _).
    rewrite (text_extent pre chars rest e0 Hquote).
    destruct rest as [|c' [|c'' rest]]; reflexivity.
  - destruct (path_shape path Hx) as [Hne Hids].
    apply (Hcut Symbols.MODEL_PREFIX); [apply charAt_app_head|].
    cbn [Ascii.eqb Bool.eqb orb andb].
    rewrite (reference_extent Symbols.MODEL_PREFIX pre (join_path path) rest e0
               (join_path_class path Hids) (join_path_nonempty path Hne Hids) Hrest).
    destruct rest as [|c' [|c'' rest]]; reflexivity.
  - destruct (path_shape path Hx) as [Hne Hids].
    apply (Hcut Symbols.STATE_PREFIX); [apply charAt_app_head|].
    cbn [Ascii.eqb Bool.eqb orb andb].
    rewrite (reference_extent Symbols.STATE_PREFIX pre (join_path path) rest e0
               (join_path_class path Hids) (join_path_nonempty path Hne Hids) Hrest).
    destruct rest as [|c' [|c'' rest]]; reflexivity.
  - apply andb_true_iff in Hx as [Hx Hargs]. apply andb_true_iff in Hx as [Hname Hfun].
    destruct (LexerFacts.identifier_word name Hname) as (n0 & chars & Hn & Hw & Hd & _).
    assert (Hclosed : Forall closed (map operand_text args)).
    { rewrite forallb_forall in Hargs. rewrite Forall_forall.
      intros text Hin. apply in_map_iff in Hin as (arg & <- & Hin).
      exact (operand_closed customFunctions arg (Hargs arg Hin)). }
    destruct (closed_join _ Hclosed) as (_ & _ & Hbal & _).
    apply (Hcut n0); [rewrite Hn; apply charAt_app_head|].
    destruct (identifier_branch n0 Hw Hd) as [-> ->]. rewrite Hd.
    assert (Htoken : isFunctionToken customFunctions
                       ((name ++ Symbols.BRACKET_OPEN ::
                           join_args (map operand_text args) ++ [Symbols.BRACKET_CLOSE])
                        ++ rest) = true).
    { apply isFunctionToken_iff in Hfun as (prefix & more & Hin & ->).
      apply isFunctionToken_iff. exists prefix. eexists. split; [exact Hin|].
      rewrite <- !app_assoc. reflexivity. }
    rewrite Htoken.
    change Symbols.BRACKET_OPEN with "("%char. change Symbols.BRACKET_CLOSE with ")"%char.
    rewrite (call_extent pre name _ rest e0 Hname Hbal).
    destruct rest as [|c' [|c'' rest]]; reflexivity.
  - destruct (operator_extent o pre rest e0 Hrest)
      as (c0 & s0 & Htext & H1 & H2 & H3 & H4 & H5 & H6).
    apply (Hcut c0); [rewrite Htext; apply charAt_app_head|].
    rewrite H1, H2, H3, H5, H6.
    rewrite Htext at 1. cbn [app].
    rewrite (registry_first customFunctions c0 _ Hr) by (now rewrite H4).
    destruct rest as [|c' [|c'' rest]]; reflexivity.
  - destruct (bracket_extent Symbols.BRACKET_OPEN pre rest e0 (or_introl eq_refl))
      as (H1 & H2 & H3 & H4 & H5 & H6).
    apply (Hcut Symbols.BRACKET_OPEN); [apply charAt_app_head|].
    rewrite H1, H2, H3, H5, H6. cbn [app].
    rewrite (registry_first customFunctions _ _ Hr) by (now rewrite H4).
    destruct rest as [|c' [|c'' rest]]; reflexivity.
  - destruct (bracket_extent Symbols.BRACKET_CLOSE pre rest e0 (or_intror eq_refl))
      as (H1 & H2 & H3 & H4 & H5 & H6).
    apply (Hcut Symbols.BRACKET_CLOSE); [apply charAt_app_head|].
    rewrite H1, H2, H3, H5, H6. cbn [app].
    rewrite (registry_first customFunctions _ _ Hr) by (now rewrite H4).
    destruct rest as [|c' [|c'' rest]]; reflexivity.
Qed.

(* ------------------------------------------------------------------ *)
(** ** The compiler: the tokenizer on an expression *)

(** The first character of an item in the DSL. *)
Lemma item_text_head (customFunctions : list str) (y : item) :
  item_ok customFunctions y = true ->
  exists c s,
    item_text operand_text y = c :: s /\
    (is_operand_item y = false -> is_break c = true) /\
    (is_operator_item y = false -> is_operand_start c = true).
Proof.
  destruct y as [a|o| |]; cbn [item_ok item_text is_operand_item is_operator_item]; intro H.
  - destruct a as [digits|chars|path|path|name args]; cbn [operand_ok operand_text] in *.
    + destruct (numeral_digits digits H) as (c & ds & -> & Hc & _).
      exists c, ds. split; [reflexivity|]. split; [discriminate|].
      intros _. unfold is_operand_start. now rewrite Hc.
    + do 2 eexists. split; [reflexivity|]. split; [discriminate|reflexivity].
    + do 2 eexists. split; [reflexivity|]. split; [discriminate|reflexivity].
    + do 2 eexists. split; [reflexivity|]. split; [discriminate|reflexivity].
    + apply andb_true_iff in H as [H _]. apply andb_true_iff in H as [Hname _].
      destruct (LexerFacts.identifier_word name Hname) as (c & chars & -> & Hw & Hd & _).
      do 2 eexists. split; [reflexivity|]. split; [discriminate|].
      intros _. unfold is_operand_start.
      assert (Hstart : Host.is_name_start c = true).
      { apply LexerFacts.word_name_char in Hw. unfold Host.is_name_char in Hw.
        now rewrite Hd, orb_false_r in Hw. }
      rewrite Hstart. now rewrite !orb_true_r.
  - destruct o; do 2 eexists; (split; [reflexivity|]); split; try discriminate;
      reflexivity.
  - do 2 eexists. split; [reflexivity|]. split; reflexivity.
  - do 2 eexists. split; [reflexivity|]. split; reflexivity.
Qed.

(** The symbol of the token of an item. *)
Lemma item_symbol (customFunctions : list str) (x : item) :
  registry_ok customFunctions = true ->
  item_ok customFunctions x = true ->
  symbol_of customFunctions (item_text operand_text x) = item_text operand_code x.
Proof.
  intros Hr Hx. destruct x as [a|o| |]; cbn [item_ok item_text] in *.
  - exact (operand_symbol customFunctions a Hr false Hx).
  - apply (symbol_fixed customFunctions _ Hr). apply operator_text_fixed.
  - apply (symbol_fixed customFunctions _ Hr). cbn. tauto.
  - apply (symbol_fixed customFunctions _ Hr). cbn. tauto.
Qed.

(** The symbol of a token that took the last character of the text with
    it. *)
Lemma item_symbol_last (customFunctions : list str) (x : item) (c : ascii) :
  registry_ok customFunctions = true ->
  item_ok customFunctions x = true ->
  snd (cut x [c]) = [] ->
  symbol_of customFunctions (fst (cut x [c])) = item_text operand_code x ++ [c].
Proof.
  intros Hr Hx Hcut.
  destruct x as [[digits|chars|path|path|name args]|o| |]; try discriminate Hcut;
    cbn [item_ok operand_ok cut fst item_text operand_text operand_code] in *.
  - destruct (numeral_digits digits Hx) as (d & ds & -> & Hd & _).
    now apply symbol_digit_first.
  - destruct (path_shape path Hx) as [Hne Hids].
    cbn [app]. rewrite symbol_model; [now rewrite <- app_assoc|].
    pose proof (join_path_nonempty path Hne Hids). now destruct (join_path path).
  - destruct (path_shape path Hx) as [Hne Hids].
    cbn [app]. rewrite symbol_state; [now rewrite <- app_assoc|].
    pose proof (join_path_nonempty path Hne Hids). now destruct (join_path path).
Qed.

Lemma texts_single (customFunctions : list str) (y : item) (its : list item) (c : ascii) :
  forallb (item_ok customFunctions) (y :: its) = true ->
  is_operand_item y = false ->
  List.concat (map (item_text operand_text) (y :: its)) = [c] ->
  List.concat (map (item_text operand_code) (y :: its)) = [c].
Proof.
  intros Hok Hy Htext. cbn [forallb] in Hok. apply andb_true_iff in Hok as [Hyok Hok].
  assert (Hits : its = []).
  { destruct its as [|z its]; [reflexivity|]. exfalso.
    cbn [forallb] in Hok. apply andb_true_iff in Hok as [Hz _].
    destruct (item_text_head customFunctions z Hz) as (cz & sz & Hcz & _).
    destruct (item_text_head customFunctions y Hyok) as (cy & sy & Hcy & _).
    cbn [map List.concat] in Htext. rewrite Hcz, Hcy in Htext.
    injection Htext as _ Htext. destruct sy; discriminate Htext. }
  subst its. destruct y as [a|o| |]; [discriminate Hy|exact Htext..].
Qed.

(** The loop of the tokenizer on the items of an expression. *)
Lemma scan_items (customFunctions : list str) (data : str) :
  registry_ok customFunctions = true ->
  forall its,
    forallb (item_ok customFunctions) its = true ->
    chain_ok its = true ->
    its <> [] ->
    forall pre toks iter fuel e0,
      0 <= iter ->
      iter + Z.of_nat (List.length its) <= 1001 ->
      (List.length its < fuel)%nat ->
      exists st' toks',
        while_not_done fuel done
          (scan_token customFunctions data
             (pre ++ List.concat (map (item_text operand_text) its)))
          (Scan toks false (JS.length pre) e0 iter) = Some (Return st') /\
        tokens st' = toks ++ toks' /\
        List.concat (map (symbol_of customFunctions) toks')
        = List.concat (map (item_text operand_code) its).
Proof.
  intro Hr. induction its as [|x its IH]; [contradiction|].
  intros Hok Hchain _ pre toks iter fuel e0 Hiter Hcap Hfuel.
  pose proof Hok as Hok'. cbn [forallb] in Hok'. apply andb_true_iff in Hok' as [Hx Hits].
  cbn [List.length] in Hcap, Hfuel.
  destruct fuel as [|fuel]; [lia|]. cbn [while_not_done done].
  cbn [map List.concat].
  set (rest := List.concat (map (item_text operand_text) its)).
  assert (Hrest : forall c s, rest = c :: s -> item_next x c = true).
  { intros c s Hcs. destruct its as [|y its']; [discriminate Hcs|].
    cbn [forallb] in Hits. apply andb_true_iff in Hits as [Hy _].
    destruct (item_text_head customFunctions y Hy) as (cy & sy & Hcy & Hbreak & Hstart).
    subst rest. cbn [map List.concat] in Hcs. rewrite Hcy in Hcs. injection Hcs as <- _.
    cbn [chain_ok] in Hchain. apply andb_true_iff in Hchain as [Hpair _].
    exact (pair_next x y cy Hpair Hbreak Hstart). }
  rewrite (scan_item customFunctions data x pre rest toks false e0 iter Hr Hx Hrest)
    by lia.
  destruct (snd (cut x rest)) as [|c' left] eqn:Eleft.
  - (* the token ends the text *)
    assert (Hall : item_text operand_text x ++ rest = fst (cut x rest)).
    { rewrite (cut_text x rest), Eleft. apply app_nil_r. }
    rewrite Hall. rewrite Z.geb_leb.
    replace (JS.length (pre ++ fst (cut x rest)) <=? JS.length pre + JS.length (fst (cut x rest)))
      with true by (symmetry; apply Z.leb_le; rewrite length_append; lia).
    destruct fuel as [|fuel]; [lia|]. cbn [while_not_done done].
    do 2 eexists. split; [reflexivity|]. split; [reflexivity|].
    cbn [map List.concat]. rewrite app_nil_r.
    destruct its as [|y its'].
    + subst rest. cbn [map List.concat] in *. rewrite app_nil_r.
      replace (fst (cut x [])) with (item_text operand_text x)
        by (destruct x as [[]| | |]; reflexivity).
      now apply item_symbol.
    + assert (Hone : exists c, rest = [c]).
      { destruct rest as [|c [|c'' rest']] eqn:Er.
        - exfalso. cbn [forallb] in Hits. apply andb_true_iff in Hits as [Hy _].
          destruct (item_text_head customFunctions y Hy) as (cy & sy & Hcy & _).
          unfold rest in Er. cbn [map List.concat] in Er. rewrite Hcy in Er.
          discriminate Er.
        - now exists c.
        - exfalso. destruct x as [[]| | |]; discriminate Eleft. }
      destruct Hone as [c Hc]. rewrite Hc in Eleft |- *.
      rewrite (item_symbol_last customFunctions x c Hr Hx Eleft). f_equal.
      symmetry. apply (texts_single customFunctions y its' c Hits); [|exact Hc].
      cbn [chain_ok] in Hchain. apply andb_true_iff in Hchain as [Hpair _].
      destruct x as [[]| | |]; try discriminate Eleft;
        unfold pair_ok in Hpair; cbn [is_operand_item andb negb] in Hpair;
        now destruct (is_operand_item y).
  - (* the text goes on *)
    assert (Hcut : cut x rest = (item_text operand_text x, rest)).
    { destruct x as [[]| | |]; destruct rest as [|c [|c'' rest']];
        try reflexivity; discriminate Eleft. }
    rewrite Hcut. cbn [fst].
    assert (Hlong : rest <> []) by (rewrite Hcut in Eleft; cbn [snd] in Eleft; now rewrite Eleft).
    assert (Hits' : its <> []).
    { intro E. apply Hlong. subst rest. now rewrite E. }
    rewrite Z.geb_leb.
    replace (JS.length (pre ++ item_text operand_text x ++ rest)
             <=? JS.length pre + JS.length (item_text operand_text x))
      with false.
    2:{ symmetry. apply Z.leb_gt. rewrite !length_append.
        destruct rest as [|c rest']; [contradiction|]. rewrite length_cons.
        pose proof (length_nonneg rest'). lia. }
    destruct (IH Hits (chain_ok_tail x its Hchain) Hits'
                (pre ++ item_text operand_text x) (toks ++ [item_text operand_text x])
                (iter + 1) fuel
                (JS.length pre + JS.length (item_text operand_text x)))
      as (st' & toks' & Hloop & Htokens & Hsymbols); try lia.
    rewrite length_append, <- app_assoc in Hloop. fold rest in Hloop.
    exists st', (item_text operand_text x :: toks').
    split; [exact Hloop|]. split; [now rewrite Htokens, <- app_assoc|].
    cbn [map List.concat]. now rewrite Hsymbols, (item_symbol customFunctions x Hr Hx).
Qed.

(** The compiler on an expression: the text it emits is the expression with
    every operand replaced by its text in the host language, operators and
    brackets in their places. *)
Lemma compile_term (customFunctions : list str) (t : term) (data : str) :
  registry_ok customFunctions = true ->
  term_ok customFunctions t = true ->
  (List.length (items 0 t) <= 1001)%nat ->
  JS.remove_all is_space data = render t ->
  generateConditionalString customFunctions data = ret (compiled t).
Proof.
  intros Hr Ht Hcap Hdata. unfold generateConditionalString, tokenize. cbv zeta.
  rewrite Hdata. unfold render, compiled. rewrite !print_items.
  destruct (items_chain t 0%nat) as (x & l & Hitems & _ & Hchain & _).
  destruct (scan_items customFunctions data Hr (items 0 t)
              (items_ok customFunctions t Ht 0%nat)
              ltac:(rewrite Hitems; exact Hchain)
              ltac:(rewrite Hitems; discriminate)
              [] [] 0 1002%nat 0)
    as (st' & toks' & Hloop & Htokens & Hsymbols); try lia.
  cbn [app] in Hloop. change (JS.length []) with 0 in Hloop. rewrite Hloop.
  cbn [bindF ret]. rewrite Htokens. cbn [app]. unfold getStringFromTokens.
  rewrite getStringFromTokens_loop. cbn [app]. now rewrite Hsymbols.
Qed.

(* ------------------------------------------------------------------ *)
(** ** An expression as the condition of an assertion *)

Lemma remove_all_trimStart (s : str) :
  JS.remove_all is_space (JS.trimStart s) = JS.remove_all is_space s.
Proof.
  induction s as [|c s IH]; [reflexivity|]. cbn [JS.trimStart].
  destruct (is_space c) eqn:E; [|reflexivity].
  rewrite IH. unfold JS.remove_all. cbn [filter]. now rewrite E.
Qed.

Lemma remove_all_trim (s : str) :
  JS.remove_all is_space (JS.trim s) = JS.remove_all is_space s.
Proof.
  unfold JS.trim. unfold JS.remove_all at 1. rewrite filter_rev.
  fold (JS.remove_all is_space (JS.trimStart (rev (JS.trimStart s)))).
  rewrite remove_all_trimStart. unfold JS.remove_all at 1. rewrite filter_rev.
  fold (JS.remove_all is_space (JS.trimStart s)).
  now rewrite rev_involutive, remove_all_trimStart.
Qed.

Lemma count_quotes_remove (s : str) :
  count_quotes (JS.remove_all is_space s) = count_quotes s.
Proof.
  induction s as [|c s IH]; [reflexivity|]. unfold JS.remove_all in *. cbn [filter].
  destruct (is_space c) eqn:E; cbn [negb count_quotes]; rewrite IH;
    destruct (Ascii.eqb_spec c Symbols.STRING_SYMBOL) as [->|_]; try reflexivity.
  discriminate E.
Qed.

Lemma count_quotes_none (s : str) :
  none_of (is_char Symbols.STRING_SYMBOL) s = true -> count_quotes s = 0%nat.
Proof.
  unfold none_of. induction s as [|c s IH]; [reflexivity|]. cbn [forallb count_quotes].
  intro H. apply andb_true_iff in H as [Hc H]. unfold is_char in Hc.
  apply negb_true_iff in Hc. rewrite Hc. now apply IH.
Qed.

Lemma word_no_quote (s : str) :
  all_of (fun c => is_word c || Ascii.eqb c "."%char) s = true ->
  none_of (is_char Symbols.STRING_SYMBOL) s = true.
Proof.
  rewrite none_of_all_of. apply all_of_weaken. intros c Hc. unfold is_char.
  destruct (Ascii.eqb_spec c Symbols.STRING_SYMBOL) as [->|_]; [discriminate Hc|reflexivity].
Qed.

Lemma even_add (n m : nat) :
  Nat.even n = true -> Nat.even m = true -> Nat.even (n + m) = true.
Proof. intros Hn Hm. now rewrite Nat.even_add, Hn, Hm. Qed.

Lemma even_quotes_join (args : list str) :
  Forall (fun arg => Nat.even (count_quotes arg) = true) args ->
  Nat.even (count_quotes (join_args args)) = true.
Proof.
  induction 1 as [|arg args Harg Hargs IH]; [reflexivity|].
  destruct args as [|arg' args]; [exact Harg|].
  rewrite join_args_cons' by discriminate. rewrite count_quotes_app.
  apply even_add; [exact Harg|exact IH].
Qed.

(** The string delimiters of an operand come in pairs. *)
Lemma operand_quotes (customFunctions : list str) (a : operand) :
  forall inCall,
    operand_ok customFunctions inCall a = true ->
    Nat.even (count_quotes (operand_text a)) = true.
Proof.
  induction a as [digits|chars|path|path|name args IH] using operand_induction;
    intros inCall H; cbn [operand_ok operand_text] in *.
  - rewrite count_quotes_none; [reflexivity|]. apply word_no_quote.
    unfold is_numeral in H. apply andb_true_iff in H as [H _]. revert H.
    apply all_of_weaken. intros c Hc. unfold is_word. now rewrite Hc, !orb_true_r.
  - destruct (literal_no_quote inCall chars H) as (Hquote & _).
    cbn [count_quotes]. change (Ascii.eqb Symbols.STRING_SYMBOL Symbols.STRING_SYMBOL) with true.
    cbv iota. rewrite count_quotes_app, (count_quotes_none chars Hquote). reflexivity.
  - destruct (path_shape path H) as [_ Hids].
    cbn [count_quotes]. change (Ascii.eqb Symbols.MODEL_PREFIX Symbols.STRING_SYMBOL) with false.
    cbv iota. now rewrite (count_quotes_none _ (word_no_quote _ (join_path_class path Hids))).
  - destruct (path_shape path H) as [_ Hids].
    cbn [count_quotes]. change (Ascii.eqb Symbols.STATE_PREFIX Symbols.STRING_SYMBOL) with false.
    cbv iota. now rewrite (count_quotes_none _ (word_no_quote _ (join_path_class path Hids))).
  - apply andb_true_iff in H as [H Hargs]. apply andb_true_iff in H as [Hname _].
    rewrite count_quotes_app. apply even_add.
    + rewrite count_quotes_none; [reflexivity|]. apply word_no_quote.
      generalize (LexerFacts.identifier_all_word name Hname). apply all_of_weaken.
      intros c ->. reflexivity.
    + cbn [count_quotes]. change (Ascii.eqb Symbols.BRACKET_OPEN Symbols.STRING_SYMBOL) with false.
      cbv iota. rewrite count_quotes_app. apply even_add; [|reflexivity].
      apply even_quotes_join. rewrite forallb_forall in Hargs.
      rewrite Forall_forall in IH |- *. intros text Hin.
      apply in_map_iff in Hin as (arg & <- & Hin). exact (IH arg Hin true (Hargs arg Hin)).
Qed.

Lemma term_quotes (customFunctions : list str) (t : term) :
  term_ok customFunctions t = true ->
  forall level, Nat.even (count_quotes (print operand_text level t)) = true.
Proof.
  induction t as [a|o l IHl r IHr|t IH]; cbn [term_ok print]; intros H level.
  - exact (operand_quotes customFunctions a false H).
  - apply andb_true_iff in H as [Hl Hr].
    assert (Hinner : Nat.even (count_quotes (print operand_text (Host.prec o) l ++
                                 operator_text o ++
                                 print operand_text (S (Host.prec o)) r)) = true).
    { rewrite !count_quotes_app. apply even_add; [now apply IHl|].
      apply even_add; [now destruct o|now apply IHr]. }
    destruct (Nat.leb level (Host.prec o)); [exact Hinner|].
    cbn [count_quotes]. change (Ascii.eqb Symbols.BRACKET_OPEN Symbols.STRING_SYMBOL) with false.
    cbv iota. rewrite count_quotes_app. apply even_add; [exact Hinner|reflexivity].
  - cbn [count_quotes]. change (Ascii.eqb Symbols.BRACKET_OPEN Symbols.STRING_SYMBOL) with false.
    cbv iota. rewrite count_quotes_app. apply even_add; [now apply IH|reflexivity].
Qed.

(** The assertion [ALWAYS:data] is split before [data]. *)
Lemma getSplitTokens_always (data : str) :
  Nat.even (count_quotes data) = true ->
  getSplitTokens (lit "ALWAYS:" ++ data) = Return [lit "ALWAYS"; data].
Proof.
  intro H. pose proof (split_at_first_separator (lit "ALWAYS:" ++ data)) as Hsplit.
  change (first_unquoted_separator false 0 (lit "ALWAYS:" ++ data)) with (Some 6) in Hsplit.
  cbv iota in Hsplit. rewrite Hsplit; [reflexivity|].
  rewrite count_quotes_app. apply even_add; [reflexivity|exact H].
Qed.

(** An assertion [ALWAYS:data] whose condition [data] is a printed
    expression evaluates to the value of the tree of the expression. *)
Lemma evaluate_always (customFunctions : list str) (t : term) (data : str)
    (this : Host.env) :
  registry_ok customFunctions = true ->
  term_ok customFunctions t = true ->
  (List.length (items 0 t) <= 1001)%nat ->
  JS.remove_all is_space data = render t ->
  evaluate_assertion customFunctions (lit "ALWAYS:" ++ data) this
  = ret (Host.eval this (expr_of t)).
Proof.
  intros Hr Ht Hcap Hdata.
  assert (Hquotes : Nat.even (count_quotes data) = true).
  { rewrite <- count_quotes_remove, Hdata. exact (term_quotes customFunctions t Ht 0%nat). }
  assert (Hcond : generateConditionalString customFunctions (JS.trim data)
                  = ret (compiled t)).
  { apply compile_term; try assumption. now rewrite remove_all_trim. }
  rewrite (evaluate_assertion_compiled customFunctions _ (Host.EBool true) (expr_of t) this).
  - cbn [Host.eval bindF Host.to_boolean]. reflexivity.
  - exact (generateFunction_compiled customFunctions _ (lit "ALWAYS") data (lit "true")
             (compiled t) (Host.EBool true) (expr_of t)
             (getSplitTokens_always data Hquotes) eq_refl Hcond eq_refl
             (compiled_parses customFunctions t Ht)).
Qed.

(* ------------------------------------------------------------------ *)
(** ** Precedence *)

(** C4. The compiler hands an expression to the host token by token: for
    every expression tree whose operands are numerals, string literals,
    references and calls, written in the DSL with the round brackets that
    the binding strengths and the grouping to the left require (and with any
    further pair of brackets, and any white space), the compiled text is the
    same expression with every operand in its host form, the host reads that
    text as the tree, and the assertion [ALWAYS:expression] evaluates to the
    value of the tree: every operator is applied to the operands the
    precedence table, the grouping to the left and the brackets give it. In
    particular [ALWAYS:2 + 3 * 4 == 14] and [ALWAYS:(2 + 3) * 4 == 20]
    evaluate to [true] on every model and state. *)
Theorem compiled_precedence :
  (forall customFunctions t data this,
      registry_ok customFunctions = true ->
      term_ok customFunctions t = true ->
      (List.length (items 0 t) <= 1001)%nat ->
      JS.remove_all is_space data = render t ->
      generateConditionalString customFunctions data = ret (compiled t) /\
      Host.parse_js (compiled t) = Some (expr_of t) /\
      evaluate_assertion customFunctions (lit "ALWAYS:" ++ data) this
      = ret (Host.eval this (expr_of t))) /\
  (forall this,
      evaluate_assertion [] (lit "ALWAYS:2 + 3 * 4 == 14") this = ret (ret (VBool true))) /\
  (forall this,
      evaluate_assertion [] (lit "ALWAYS:(2 + 3) * 4 == 20") this = ret (ret (VBool true))).
Proof.
  split; [|split].
  - intros customFunctions t data this Hr Ht Hcap Hdata. split; [|split].
    + now apply compile_term.
    + now apply (compiled_parses customFunctions).
    + now apply evaluate_always.
  - intro this.
    exact (evaluate_always []
             (Binary Host.OEq
                (Binary Host.OAdd (Operand (Number (lit "2")))
                   (Binary Host.OMul (Operand (Number (lit "3")))
                      (Operand (Number (lit "4")))))
                (Operand (Number (lit "14"))))
             (lit "2 + 3 * 4 == 14") this eq_refl eq_refl
             ltac:(cbn; lia) eq_refl).
  - intro this.
    exact (evaluate_always []
             (Binary Host.OEq
                (Binary Host.OMul
                   (Binary Host.OAdd (Operand (Number (lit "2")))
                      (Operand (Number (lit "3"))))
                   (Operand (Number (lit "4"))))
                (Operand (Number (lit "20"))))
             (lit "(2 + 3) * 4 == 20") this eq_refl eq_refl
             ltac:(cbn; lia) eq_refl).
Qed.

(** [10 - 4 - 3] groups to the left and [10 - (4 - 3)] keeps its brackets;
    [$a.b + 2 * add(#c, 1) - 1 == 20] on the model [{a:{b:5}}] and the state
    [{c:7}]: the product first, then the sum and the difference from the
    left, then the comparison. *)
Lemma compiled_precedence_examples :
  render (Binary Host.OSub
            (Binary Host.OSub (Operand (Number (lit "10"))) (Operand (Number (lit "4"))))
            (Operand (Number (lit "3")))) = lit "10-4-3" /\
  render (Binary Host.OSub (Operand (Number (lit "10")))
            (Binary Host.OSub (Operand (Number (lit "4"))) (Operand (Number (lit "3")))))
    = lit "10-(4-3)" /\
  registry_ok [lit "add"; lit "mul"] = true /\
  JS.remove_all is_space (lit "$a.b + 2 * add(#c, 1) - 1 == 20")
    = render (Binary Host.OEq
                (Binary Host.OSub
                   (Binary Host.OAdd (Operand (Model [lit "a"; lit "b"]))
                      (Binary Host.OMul (Operand (Number (lit "2")))
                         (Operand (Call (lit "add")
                                     [State [lit "c"]; Number (lit "1")]))))
                   (Operand (Number (lit "1"))))
                (Operand (Number (lit "20")))) /\
  generateConditionalString [lit "add"; lit "mul"] (lit "$a.b + 2 * add(#c, 1) - 1 == 20")
    = ret (lit "this.model.a.b+2*this.functions['add'](this.state.c,1)-1==20") /\
  evaluate_assertion [lit "add"; lit "mul"]
    (lit "ALWAYS:$a.b + 2 * add(#c, 1) - 1 == 20")
    (Host.Env (model_a_b 5) (VObj [(lit "c", VNum 7)]) arithmetic_functions)
  = ret (ret (VBool true)).
Proof.
  split; [reflexivity|]. split; [reflexivity|]. split; [reflexivity|].
  split; [reflexivity|].
  destruct compiled_precedence as [Hgeneral _].
  destruct (Hgeneral [lit "add"; lit "mul"]
              (Binary Host.OEq
                 (Binary Host.OSub
                    (Binary Host.OAdd (Operand (Model [lit "a"; lit "b"]))
                       (Binary Host.OMul (Operand (Number (lit "2")))
                          (Operand (Call (lit "add")
                                      [State [lit "c"]; Number (lit "1")]))))
                    (Operand (Number (lit "1"))))
                 (Operand (Number (lit "20"))))
              (lit "$a.b + 2 * add(#c, 1) - 1 == 20")
              (Host.Env (model_a_b 5) (VObj [(lit "c", VNum 7)]) arithmetic_functions)
              eq_refl eq_refl ltac:(cbn; lia) eq_refl) as (Hcompile & _ & Hvalue).
  split; [exact Hcompile|]. exact Hvalue.
Defined.
